(** * Maze solver: grid model, priority queue and the pathfinding engine

    A shallow embedding of the JavaScript pathfinding engine (class [Maze],
    class [PriorityQueue], class [PathfindingAlgorithms]) together with the
    properties its specification states about it, followed by the
    properties the code has beyond them and by the page script [web/app.js]
    that drives the engine.

    Modelling conventions.
    - A JavaScript number that holds an integer is a [Z]; the one place where
      a non-integer arises ([Math.sqrt] in the Euclidean heuristic) is an
      IEEE-754 double ([PrimFloat.float]).  The two are joined in [jsnum].
    - A JavaScript [Map]/[Set] keyed by the template string
      [`${row},${col}`] is a [gmap string _]/[gset string].
    - The outer grid array is always dense (it is only ever built by a
      counting loop), so it is a [list]; an inner row is a JavaScript array
      that is also written at arbitrary integer indices, so it is a
      [gmap Z Z] from index to cell value.
    - A call either returns, throws a [TypeError]/[RangeError], or does not
      finish within the fuel it was given: [res].
    - The visualisation callback [onVisit] is the no-op observer. *)

From Stdlib Require Import ZArith Lia Uint63 Floats Ascii String.
From stdpp Require Import base tactics strings pretty numbers option sets gmap list.

Local Open Scope Z_scope.

(** ** Results of calls *)

Inductive res (A : Type) : Type :=
  | Ok (a : A)
  | Throw
  | Timeout.
Arguments Ok {A} a.
Arguments Throw {A}.
Arguments Timeout {A}.

Definition res_bind {A B} (f : A → res B) (x : res A) : res B :=
  match x with
  | Ok a => f a
  | Throw => Throw
  | Timeout => Timeout
  end.

#[global] Instance res_mbind : MBind res := @res_bind.
#[global] Instance res_mret : MRet res := @Ok.

(** ** JavaScript numbers *)

Inductive jsnum : Type :=
  | JInt (z : Z)
  | JFlt (f : float).

Module JSNum.

Definition Z_to_float (z : Z) : float :=
  match z with
  | Z0 => PrimFloat.zero
  | Zpos _ => PrimFloat.of_uint63 (Uint63.of_Z z)
  | Zneg _ => PrimFloat.opp (PrimFloat.of_uint63 (Uint63.of_Z (- z)))
  end.

Definition to_float (n : jsnum) : float :=
  match n with
  | JInt z => Z_to_float z
  | JFlt f => f
  end.

Definition add (a b : jsnum) : jsnum :=
  match a, b with
  | JInt x, JInt y => JInt (x + y)
  | _, _ => JFlt (PrimFloat.add (to_float a) (to_float b))
  end.

Definition sub (a b : jsnum) : jsnum :=
  match a, b with
  | JInt x, JInt y => JInt (x - y)
  | _, _ => JFlt (PrimFloat.sub (to_float a) (to_float b))
  end.

Definition sqrt (a : jsnum) : jsnum := JFlt (PrimFloat.sqrt (to_float a)).

(** [a < b] as JavaScript evaluates it ([false] when either side is NaN). *)
Definition lt (a b : jsnum) : bool :=
  match a, b with
  | JInt x, JInt y => bool_decide (x < y)
  | _, _ => PrimFloat.ltb (to_float a) (to_float b)
  end.

Definition nan : jsnum := JFlt PrimFloat.nan.

(** [undefined + 1] is [NaN]; a present value is itself. *)
Definition of_lookup (o : option jsnum) : jsnum := default nan o.

End JSNum.

(** ** Coordinates and map keys *)

Record coord : Type := Coord { row : Z; col : Z }.

#[global] Instance coord_eq_dec : EqDecision coord.
Proof. solve_decision. Defined.

(** The template string [`${c.row},${c.col}`]. *)
Definition key (c : coord) : string := pretty (row c) +:+ "," +:+ pretty (col c).

(** [a.row === b.row && a.col === b.col] *)
Definition same_cell (a b : coord) : bool :=
  bool_decide (row a = row b) && bool_decide (col a = col b).

(** ** JavaScript arrays used as stacks and queues *)

(** [a.pop()]: the last element and the array without it. *)
Definition array_pop {A} (a : list A) : option (A * list A) :=
  match reverse a with
  | [] => None
  | x :: r => Some (x, reverse r)
  end.

(** [a.shift()]: the first element and the array without it. *)
Definition array_shift {A} (a : list A) : option (A * list A) :=
  match a with
  | [] => None
  | x :: r => Some (x, r)
  end.

(** [a.push(x)] *)
Definition array_push {A} (a : list A) (x : A) : list A := a ++ [x].

(** ** class Maze *)

Record Maze : Type := mkMaze {
  rows : Z;
  cols : Z;
  grid : list (gmap Z Z);
  start : coord;
  end_ : coord
}.

Definition wall : Z := 1.
Definition empty : Z := 0.

Module Grid.

(** [g[r]]: [undefined] outside the array. *)
Definition row_at (g : list (gmap Z Z)) (r : Z) : option (gmap Z Z) :=
  if decide (0 ≤ r) then g !! Z.to_nat r else None.

(** [g[r][c]]: reading a property of [undefined] throws. *)
Definition get (g : list (gmap Z Z)) (r c : Z) : res (option Z) :=
  match row_at g r with
  | Some rw => Ok (rw !! c)
  | None => Throw
  end.

(** [g[r][c] = v]: writing a property of [undefined] throws; writing
    past the end of a row (or at a negative index) extends the row. *)
Definition set (g : list (gmap Z Z)) (r c v : Z) : res (list (gmap Z Z)) :=
  match row_at g r with
  | Some rw => Ok (<[Z.to_nat r := <[c := v]> rw]> g)
  | None => Throw
  end.

End Grid.

Definition with_grid (m : Maze) (g : list (gmap Z Z)) : Maze :=
  {| rows := rows m; cols := cols m; grid := g; start := start m; end_ := end_ m |}.

Definition with_start (m : Maze) (c : coord) : Maze :=
  {| rows := rows m; cols := cols m; grid := grid m; start := c; end_ := end_ m |}.

Definition with_end (m : Maze) (c : coord) : Maze :=
  {| rows := rows m; cols := cols m; grid := grid m; start := start m; end_ := c |}.

Definition is_border (nrows ncols i j : Z) : bool :=
  bool_decide (i = 0) || bool_decide (i = nrows - 1) ||
  bool_decide (j = 0) || bool_decide (j = ncols - 1).

(** One pass of the inner [for j] loop of [initGrid] on a fresh row. *)
Definition init_row (nrows ncols i : Z) : gmap Z Z :=
  foldl (λ rw j, <[j := if is_border nrows ncols i j then wall else empty]> rw)
        ∅ (seqZ 0 ncols).

(** [initGrid()].  When one of the two final writes throws, the object is
    left half-initialised in JavaScript; the only caller that can see this
    is the constructor, whose object is then never returned. *)
Definition initGrid (m : Maze) : res Maze :=
  let g := (λ i, init_row (rows m) (cols m) i) <$> seqZ 0 (rows m) in
  g ← Grid.set g (row (start m)) (col (start m)) empty;
  g ← Grid.set g (row (end_ m)) (col (end_ m)) empty;
  Ok (with_grid m g).

(** [new Maze(rows, cols)] *)
Definition Maze_new (nrows ncols : Z) : res Maze :=
  initGrid {| rows := nrows; cols := ncols; grid := [];
              start := Coord 1 1; end_ := Coord (nrows - 2) (ncols - 2) |}.

(** [generateRandom(wallProb)].  [coin i j] is the outcome of
    [Math.random() < wallProb] at the single time cell [(i, j)] is drawn. *)
Definition generateRandom (coin : Z → Z → bool) (m : Maze) : res Maze :=
  m ← initGrid m;
  g ← foldl (λ (acc : res (list (gmap Z Z))) i,
        foldl (λ (acc : res (list (gmap Z Z))) j,
          g ← acc;
          if (bool_decide (i = row (start m)) && bool_decide (j = col (start m))) ||
             (bool_decide (i = row (end_ m)) && bool_decide (j = col (end_ m)))
          then Ok g
          else Grid.set g i j (if coin i j then wall else empty))
        acc (seqZ 1 (cols m - 2)))
      (Ok (grid m)) (seqZ 1 (rows m - 2));
  Ok (with_grid m g).

(** [getUnvisitedNeighbors(cell, step)] *)
Definition getUnvisitedNeighbors (m : Maze) (cell : coord) (step : Z) : res (list coord) :=
  foldl (λ (acc : res (list coord)) (dir : Z * Z),
      neighbors ← acc;
      let newRow := row cell + dir.1 in
      let newCol := col cell + dir.2 in
      if bool_decide (0 < newRow) && bool_decide (newRow < rows m - 1) &&
         bool_decide (0 < newCol) && bool_decide (newCol < cols m - 1)
      then
        v ← Grid.get (grid m) newRow newCol;
        if bool_decide (v = Some wall)
        then Ok (neighbors ++ [Coord newRow newCol])
        else Ok neighbors
      else Ok neighbors)
    (Ok []) [(- step, 0); (step, 0); (0, - step); (0, step)].

(** The carving loop of [generatePerfect].  [choose k n] is the value of
    [Math.floor(Math.random() * n)] at the [k]-th draw. *)
Fixpoint carve (fuel : nat) (choose : nat → nat → nat) (k : nat)
    (m : Maze) (stack : list coord) : res Maze :=
  match fuel with
  | O => Timeout
  | S fuel' =>
    match array_pop stack with
    | None => Ok m
    | Some (current, popped) =>
      neighbors ← getUnvisitedNeighbors m current 2;
      match neighbors with
      | [] => carve fuel' choose k m popped
      | _ =>
        match neighbors !! (choose k (length neighbors) `mod` length neighbors)%nat with
        | None => Throw
        | Some next =>
          let midRow := row current + (row next - row current) / 2 in
          let midCol := col current + (col next - col current) / 2 in
          g ← Grid.set (grid m) midRow midCol empty;
          g ← Grid.set g (row next) (col next) empty;
          carve fuel' choose (S k) (with_grid m g) (array_push stack next)
        end
      end
    end
  end.

(** [generatePerfect()]; [new Array(cols)] throws a [RangeError] for a
    negative length. *)
Definition generatePerfect (fuel : nat) (choose : nat → nat → nat) (m : Maze) : res Maze :=
  g ← foldl (λ (acc : res (list (gmap Z Z))) (_ : Z),
        g ← acc;
        if decide (cols m < 0) then Throw
        else Ok (g ++ [list_to_map ((λ j, (j, wall)) <$> seqZ 0 (cols m))]))
      (Ok []) (seqZ 0 (rows m));
  g ← Grid.set g 1 1 empty;
  m ← carve fuel choose 0 (with_grid m g) [Coord 1 1];
  g ← Grid.set (grid m) (row (end_ m)) (col (end_ m)) empty;
  Ok (with_grid m g).

(** [isValid(row, col)] *)
Definition isValid (m : Maze) (r c : Z) : bool :=
  bool_decide (0 ≤ r) && bool_decide (r < rows m) &&
  bool_decide (0 ≤ c) && bool_decide (c < cols m).

(** One turn of the [for (const dir of directions)] loop of [getNeighbors]. *)
Definition getNeighbors_dir (m : Maze) (r c : Z) (neighbors : list coord) (dir : Z * Z)
    : res (list coord) :=
  let newRow := r + dir.1 in
  let newCol := c + dir.2 in
  if isValid m newRow newCol
  then
    v ← Grid.get (grid m) newRow newCol;
    if bool_decide (v ≠ Some wall)
    then Ok (neighbors ++ [Coord newRow newCol])
    else Ok neighbors
  else Ok neighbors.

(** [getNeighbors(row, col)] *)
Definition getNeighbors (m : Maze) (r c : Z) : res (list coord) :=
  foldl (λ (acc : res (list coord)) (dir : Z * Z),
      neighbors ← acc; getNeighbors_dir m r c neighbors dir)
    (Ok []) [(-1, 0); (1, 0); (0, -1); (0, 1)].

(** [setWall(row, col, isWall)] *)
Definition setWall (m : Maze) (r c : Z) (isWall : bool) : res Maze :=
  if (bool_decide (r = row (start m)) && bool_decide (c = col (start m))) ||
     (bool_decide (r = row (end_ m)) && bool_decide (c = col (end_ m)))
  then Ok m
  else
    g ← Grid.set (grid m) r c (if isWall then wall else empty);
    Ok (with_grid m g).

(** [setStart(row, col)] *)
Definition setStart (m : Maze) (r c : Z) : res Maze :=
  v ← Grid.get (grid m) r c;
  if bool_decide (v ≠ Some wall) then Ok (with_start m (Coord r c)) else Ok m.

(** [setEnd(row, col)] *)
Definition setEnd (m : Maze) (r c : Z) : res Maze :=
  v ← Grid.get (grid m) r c;
  if bool_decide (v ≠ Some wall) then Ok (with_end m (Coord r c)) else Ok m.

(** [clear()] *)
Definition clear (m : Maze) : res Maze := initGrid m.

(** ** class PriorityQueue *)

(** [Array.prototype.sort(compare)].  The language standard requires the
    sort to be stable; for a comparator that is a consistent ordering the
    result is therefore unique, and it is the one insertion sort computes:
    an element stays in front of every later element unless the later one
    compares strictly smaller. *)
Fixpoint sort_insert {A} (compare : A → A → jsnum) (x : A) (sorted : list A) : list A :=
  match sorted with
  | [] => [x]
  | y :: rest =>
    if JSNum.lt (compare y x) (JInt 0)
    then y :: sort_insert compare x rest
    else x :: y :: rest
  end.

Definition array_sort {A} (compare : A → A → jsnum) (a : list A) : list A :=
  foldr (sort_insert compare) [] a.

Module PriorityQueue.

Record entry (A : Type) : Type := Entry { item : A; priority : jsnum }.
Arguments Entry {A} item priority.
Arguments item {A} _.
Arguments priority {A} _.

Record t (A : Type) : Type := Build { values : list (entry A) }.
Arguments Build {A} values.
Arguments values {A} _.

(** [new PriorityQueue()] *)
Definition new {A} : t A := Build [].

(** The comparator [(a, b) => a.priority - b.priority]. *)
Definition compare {A} (a b : entry A) : jsnum :=
  JSNum.sub (priority a) (priority b).

(** [enqueue(item, priority)] *)
Definition enqueue {A} (q : t A) (x : A) (p : jsnum) : t A :=
  Build (array_sort compare (array_push (values q) (Entry x p))).

(** [dequeue()]: [this.values.shift()?.item], with the queue afterwards. *)
Definition dequeue {A} (q : t A) : option A * t A :=
  match array_shift (values q) with
  | Some (e, rest) => (Some (item e), Build rest)
  | None => (None, q)
  end.

(** [isEmpty()] *)
Definition isEmpty {A} (q : t A) : bool :=
  bool_decide (length (values q) = 0%nat).

End PriorityQueue.

(** ** class PathfindingAlgorithms *)

(** The value every search returns (the [time] field is wall-clock time and
    is left out; [heuristic] is present in the results of [astar] only). *)
Record Result : Type := mkResult {
  path : option (list coord);
  nodesExplored : Z;
  optimal : bool;
  heuristic : option string
}.

Module PathfindingAlgorithms.

Import PriorityQueue.

Definition manhattanDistance (a b : coord) : jsnum :=
  JInt (Z.abs (row a - row b) + Z.abs (col a - col b)).

Definition euclideanDistance (a b : coord) : jsnum :=
  JSNum.sqrt (JInt ((row a - row b) ^ 2 + (col a - col b) ^ 2)).

(** The loop of [reconstructPath]:
    [while (current) { path.unshift(current); if (key === startKey) break;
                       current = parent.get(key); }] *)
Fixpoint reconstruct_loop (fuel : nat) (parent : gmap string coord)
    (startKey : string) (current : option coord) (path : list coord) : res (list coord) :=
  match current with
  | None => Ok path
  | Some c =>
    match fuel with
    | O => Timeout
    | S fuel' =>
      let path := c :: path in
      if decide (key c = startKey) then Ok path
      else reconstruct_loop fuel' parent startKey (parent !! key c) path
    end
  end.

Definition reconstructPath (fuel : nat) (parent : gmap string coord)
    (start end_ : coord) : res (list coord) :=
  reconstruct_loop fuel parent (key start) (Some end_) [].

(** The second loop of [reconstructBidirectionalPath], which appends. *)
Fixpoint reconstruct_end_loop (fuel : nat) (parentEnd : gmap string coord)
    (endKey : string) (current : option coord) (pathEnd : list coord) : res (list coord) :=
  match current with
  | None => Ok pathEnd
  | Some c =>
    match fuel with
    | O => Timeout
    | S fuel' =>
      let pathEnd := array_push pathEnd c in
      if decide (key c = endKey) then Ok pathEnd
      else reconstruct_end_loop fuel' parentEnd endKey (parentEnd !! key c) pathEnd
    end
  end.

Definition reconstructBidirectionalPath (fuel : nat)
    (parentStart parentEnd : gmap string coord) (start meeting end_ : coord)
    : res (list coord) :=
  pathStart ← reconstruct_loop fuel parentStart (key start) (Some meeting) [];
  pathEnd ← reconstruct_end_loop fuel parentEnd (key end_)
              (parentEnd !! key meeting) [];
  Ok (pathStart ++ pathEnd).

(** The body of the [for (const neighbor of neighbors)] loop shared, word
    for word, by [dfs], [bfs], [greedy] and both halves of
    [bidirectional]:
    [if (!visited.has(key)) { visited.add(key); parent.set(key, current);
                              <frontier>.push(neighbor); }] *)
Definition discover {F} (push : F → coord → F) (current : coord)
    (st : F * gset string * gmap string coord) (neighbor : coord)
    : F * gset string * gmap string coord :=
  let '(frontier, visited, parent) := st in
  let key := key neighbor in
  if decide (key ∈ visited) then st
  else (push frontier neighbor, visited ∪ {[key]}, <[key := current]> parent).

(** [dfs(maze, onVisit)] *)
Fixpoint dfs_loop (rfuel fuel : nat) (maze : Maze) (stack : list coord)
    (visited : gset string) (parent : gmap string coord) (nodesExplored : Z)
    : res (Result * Maze) :=
  match fuel with
  | O => Timeout
  | S fuel' =>
    match array_pop stack with
    | None => Ok (mkResult None nodesExplored false None, maze)
    | Some (current, stack) =>
      let nodesExplored := nodesExplored + 1 in
      if same_cell current (end_ maze) then
        path ← reconstructPath rfuel parent (start maze) (end_ maze);
        Ok (mkResult (Some path) nodesExplored false None, maze)
      else
        neighbors ← getNeighbors maze (row current) (col current);
        let '(stack, visited, parent) :=
          foldl (discover array_push current) (stack, visited, parent) neighbors in
        dfs_loop rfuel fuel' maze stack visited parent nodesExplored
    end
  end.

Definition dfs (fuel : nat) (maze : Maze) : res (Result * Maze) :=
  dfs_loop fuel fuel maze [start maze] {[key (start maze)]} ∅ 0.

(** [bfs(maze, onVisit)] *)
Fixpoint bfs_loop (rfuel fuel : nat) (maze : Maze) (queue : list coord)
    (visited : gset string) (parent : gmap string coord) (nodesExplored : Z)
    : res (Result * Maze) :=
  match fuel with
  | O => Timeout
  | S fuel' =>
    match array_shift queue with
    | None => Ok (mkResult None nodesExplored true None, maze)
    | Some (current, queue) =>
      let nodesExplored := nodesExplored + 1 in
      if same_cell current (end_ maze) then
        path ← reconstructPath rfuel parent (start maze) (end_ maze);
        Ok (mkResult (Some path) nodesExplored true None, maze)
      else
        neighbors ← getNeighbors maze (row current) (col current);
        let '(queue, visited, parent) :=
          foldl (discover array_push current) (queue, visited, parent) neighbors in
        bfs_loop rfuel fuel' maze queue visited parent nodesExplored
    end
  end.

Definition bfs (fuel : nat) (maze : Maze) : res (Result * Maze) :=
  bfs_loop fuel fuel maze [start maze] {[key (start maze)]} ∅ 0.

(** The body of the [for] loop of [dijkstra]. *)
Definition relax_dijkstra (current : coord)
    (st : gmap string jsnum * gmap string coord * PriorityQueue.t coord)
    (neighbor : coord) : gmap string jsnum * gmap string coord * PriorityQueue.t coord :=
  let '(distances, parent, pq) := st in
  let neighborKey := key neighbor in
  let newDist := JSNum.add (JSNum.of_lookup (distances !! key current)) (JInt 1) in
  if negb (bool_decide (is_Some (distances !! neighborKey))) ||
     JSNum.lt newDist (JSNum.of_lookup (distances !! neighborKey))
  then (<[neighborKey := newDist]> distances,
        <[neighborKey := current]> parent,
        enqueue pq neighbor newDist)
  else st.

(** [dijkstra(maze, onVisit)].  [dequeue] on a non-empty queue never
    yields [undefined]; were it to, [current.row] would throw. *)
Fixpoint dijkstra_loop (rfuel fuel : nat) (maze : Maze)
    (distances : gmap string jsnum) (parent : gmap string coord)
    (visited : gset string) (pq : PriorityQueue.t coord) (nodesExplored : Z)
    : res (Result * Maze) :=
  match fuel with
  | O => Timeout
  | S fuel' =>
    if isEmpty pq then Ok (mkResult None nodesExplored true None, maze)
    else
      match dequeue pq with
      | (None, _) => Throw
      | (Some current, pq) =>
        let currentKey := key current in
        if decide (currentKey ∈ visited)
        then dijkstra_loop rfuel fuel' maze distances parent visited pq nodesExplored
        else
          let visited := visited ∪ {[currentKey]} in
          let nodesExplored := nodesExplored + 1 in
          if same_cell current (end_ maze) then
            path ← reconstructPath rfuel parent (start maze) (end_ maze);
            Ok (mkResult (Some path) nodesExplored true None, maze)
          else
            neighbors ← getNeighbors maze (row current) (col current);
            let '(distances, parent, pq) :=
              foldl (relax_dijkstra current) (distances, parent, pq) neighbors in
            dijkstra_loop rfuel fuel' maze distances parent visited pq nodesExplored
      end
  end.

Definition dijkstra (fuel : nat) (maze : Maze) : res (Result * Maze) :=
  let startKey := key (start maze) in
  dijkstra_loop fuel fuel maze {[startKey := JInt 0]} ∅ ∅
    (enqueue new (start maze) (JInt 0)) 0.

(** [heuristic === 'euclidean' ? this.euclideanDistance : this.manhattanDistance] *)
Definition heuristicFunc (heuristic : string) : coord → coord → jsnum :=
  if decide (heuristic = "euclidean") then euclideanDistance else manhattanDistance.

(** The body of the [for] loop of [astar]. *)
Definition relax_astar (h : coord → coord → jsnum) (goal current : coord)
    (st : gmap string jsnum * gmap string jsnum * gmap string coord * PriorityQueue.t coord)
    (neighbor : coord)
    : gmap string jsnum * gmap string jsnum * gmap string coord * PriorityQueue.t coord :=
  let '(gScore, fScore, parent, pq) := st in
  let neighborKey := key neighbor in
  let tentativeGScore := JSNum.add (JSNum.of_lookup (gScore !! key current)) (JInt 1) in
  if negb (bool_decide (is_Some (gScore !! neighborKey))) ||
     JSNum.lt tentativeGScore (JSNum.of_lookup (gScore !! neighborKey))
  then
    let parent := <[neighborKey := current]> parent in
    let gScore := <[neighborKey := tentativeGScore]> gScore in
    let hv := h neighbor goal in
    let fScore := <[neighborKey := JSNum.add tentativeGScore hv]> fScore in
    (gScore, fScore, parent, enqueue pq neighbor (JSNum.of_lookup (fScore !! neighborKey)))
  else st.

(** [astar(maze, onVisit, heuristic = 'manhattan')] *)
Fixpoint astar_loop (rfuel fuel : nat) (maze : Maze) (heuristic : string)
    (gScore fScore : gmap string jsnum) (parent : gmap string coord)
    (visited : gset string) (pq : PriorityQueue.t coord) (nodesExplored : Z)
    : res (Result * Maze) :=
  match fuel with
  | O => Timeout
  | S fuel' =>
    if isEmpty pq then Ok (mkResult None nodesExplored true (Some heuristic), maze)
    else
      match dequeue pq with
      | (None, _) => Throw
      | (Some current, pq) =>
        let currentKey := key current in
        if decide (currentKey ∈ visited)
        then astar_loop rfuel fuel' maze heuristic gScore fScore parent visited pq nodesExplored
        else
          let visited := visited ∪ {[currentKey]} in
          let nodesExplored := nodesExplored + 1 in
          if same_cell current (end_ maze) then
            path ← reconstructPath rfuel parent (start maze) (end_ maze);
            Ok (mkResult (Some path) nodesExplored true (Some heuristic), maze)
          else
            neighbors ← getNeighbors maze (row current) (col current);
            let '(gScore, fScore, parent, pq) :=
              foldl (relax_astar (heuristicFunc heuristic) (end_ maze) current)
                    (gScore, fScore, parent, pq) neighbors in
            astar_loop rfuel fuel' maze heuristic gScore fScore parent visited pq nodesExplored
      end
  end.

Definition astar (fuel : nat) (maze : Maze) (heuristic : string) : res (Result * Maze) :=
  let startKey := key (start maze) in
  let gScore : gmap string jsnum := {[startKey := JInt 0]} in
  let fScore : gmap string jsnum :=
    {[startKey := heuristicFunc heuristic (start maze) (end_ maze)]} in
  astar_loop fuel fuel maze heuristic gScore fScore ∅ ∅
    (enqueue new (start maze) (JSNum.of_lookup (fScore !! startKey))) 0.

(** The frontier [push] of [greedy]:
    [pq.enqueue(neighbor, this.manhattanDistance(neighbor, maze.end))]. *)
Definition greedy_push (maze : Maze) (pq : PriorityQueue.t coord) (neighbor : coord)
    : PriorityQueue.t coord :=
  enqueue pq neighbor (manhattanDistance neighbor (end_ maze)).

(** [greedy(maze, onVisit)] *)
Fixpoint greedy_loop (rfuel fuel : nat) (maze : Maze) (pq : PriorityQueue.t coord)
    (visited : gset string) (parent : gmap string coord) (nodesExplored : Z)
    : res (Result * Maze) :=
  match fuel with
  | O => Timeout
  | S fuel' =>
    if isEmpty pq then Ok (mkResult None nodesExplored false None, maze)
    else
      match dequeue pq with
      | (None, _) => Throw
      | (Some current, pq) =>
        let nodesExplored := nodesExplored + 1 in
        if same_cell current (end_ maze) then
          path ← reconstructPath rfuel parent (start maze) (end_ maze);
          Ok (mkResult (Some path) nodesExplored false None, maze)
        else
          neighbors ← getNeighbors maze (row current) (col current);
          let '(pq, visited, parent) :=
            foldl (discover (greedy_push maze) current) (pq, visited, parent) neighbors in
          greedy_loop rfuel fuel' maze pq visited parent nodesExplored
      end
  end.

Definition greedy (fuel : nat) (maze : Maze) : res (Result * Maze) :=
  greedy_loop fuel fuel maze
    (enqueue new (start maze) (manhattanDistance (start maze) (end_ maze)))
    {[key (start maze)]} ∅ 0.

(** [bidirectional(maze, onVisit)].  One iteration of the [while] loop
    expands one node from the start side and then one from the end side. *)
Fixpoint bidirectional_loop (rfuel fuel : nat) (maze : Maze)
    (queueStart queueEnd : list coord) (visitedStart visitedEnd : gset string)
    (parentStart parentEnd : gmap string coord) (nodesExplored : Z)
    : res (Result * Maze) :=
  match fuel with
  | O => Timeout
  | S fuel' =>
    if bool_decide (0 < length queueStart)%nat && bool_decide (0 < length queueEnd)%nat
    then
      let expand_from_end queueStart visitedStart parentStart nodesExplored :=
        match array_shift queueEnd with
        | None =>
          bidirectional_loop rfuel fuel' maze queueStart queueEnd
            visitedStart visitedEnd parentStart parentEnd nodesExplored
        | Some (current, queueEnd) =>
          let nodesExplored := nodesExplored + 1 in
          if decide (key current ∈ visitedStart) then
            path ← reconstructBidirectionalPath rfuel parentStart parentEnd
                     (start maze) current (end_ maze);
            Ok (mkResult (Some path) nodesExplored true None, maze)
          else
            neighbors ← getNeighbors maze (row current) (col current);
            let '(queueEnd, visitedEnd, parentEnd) :=
              foldl (discover array_push current)
                    (queueEnd, visitedEnd, parentEnd) neighbors in
            bidirectional_loop rfuel fuel' maze queueStart queueEnd
              visitedStart visitedEnd parentStart parentEnd nodesExplored
        end in
      match array_shift queueStart with
      | None => expand_from_end queueStart visitedStart parentStart nodesExplored
      | Some (current, queueStart) =>
        let nodesExplored := nodesExplored + 1 in
        if decide (key current ∈ visitedEnd) then
          path ← reconstructBidirectionalPath rfuel parentStart parentEnd
                   (start maze) current (end_ maze);
          Ok (mkResult (Some path) nodesExplored true None, maze)
        else
          neighbors ← getNeighbors maze (row current) (col current);
          let '(queueStart, visitedStart, parentStart) :=
            foldl (discover array_push current)
                  (queueStart, visitedStart, parentStart) neighbors in
          expand_from_end queueStart visitedStart parentStart nodesExplored
      end
    else Ok (mkResult None nodesExplored true None, maze)
  end.

Definition bidirectional (fuel : nat) (maze : Maze) : res (Result * Maze) :=
  bidirectional_loop fuel fuel maze [start maze] [end_ maze]
    {[key (start maze)]} {[key (end_ maze)]} ∅ ∅ 0.

End PathfindingAlgorithms.

(** ** The seven entries of the dispatch table of [runAlgorithm] *)

Inductive algorithm : Type :=
  | DFS
  | BFS
  | Dijkstra
  | AStar (heuristic : string)
  | Greedy
  | Bidirectional.

Definition run (a : algorithm) (fuel : nat) (maze : Maze) : res (Result * Maze) :=
  match a with
  | DFS => PathfindingAlgorithms.dfs fuel maze
  | BFS => PathfindingAlgorithms.bfs fuel maze
  | Dijkstra => PathfindingAlgorithms.dijkstra fuel maze
  | AStar heuristic => PathfindingAlgorithms.astar fuel maze heuristic
  | Greedy => PathfindingAlgorithms.greedy fuel maze
  | Bidirectional => PathfindingAlgorithms.bidirectional fuel maze
  end.

(** ** The grid as a graph *)

(** Every index below [rows] names a row of the grid. *)
Definition wf (m : Maze) : Prop := length (grid m) = Z.to_nat (rows m).

(** [this.grid[r][c] !== 1], for a row that exists. *)
Definition not_wall (m : Maze) (c : coord) : bool :=
  bool_decide (Grid.row_at (grid m) (row c) ≫= (λ rw, rw !! col c) ≠ Some wall).

(** A walkable cell: inside the bounds and not a wall. *)
Definition walkable (m : Maze) (c : coord) : bool :=
  isValid m (row c) (col c) && not_wall m c.

Definition up (c : coord) : coord := Coord (row c - 1) (col c).
Definition down (c : coord) : coord := Coord (row c + 1) (col c).
Definition left (c : coord) : coord := Coord (row c) (col c - 1).
Definition right (c : coord) : coord := Coord (row c) (col c + 1).

Definition neighbours (m : Maze) (c : coord) : list coord :=
  filter (λ x, walkable m x) [up c; down c; left c; right c].

(** Two coordinates differ by one unit in exactly one axis. *)
Definition adjacent (a b : coord) : Prop :=
  Z.abs (row a - row b) + Z.abs (col a - col b) = 1.

(** Consecutive coordinates are joined by a move the maze offers. *)
Fixpoint linked (m : Maze) (p : list coord) : Prop :=
  match p with
  | x :: (y :: _) as rest => y ∈ neighbours m x ∧ linked m rest
  | _ => True
  end.

(** A route: a non-empty sequence of moves from [s] to [t]. *)
Definition route (m : Maze) (s t : coord) (p : list coord) : Prop :=
  head p = Some s ∧ list.last p = Some t ∧ linked m p.

(** * Properties *)

(** ** Keys *)

Fixpoint comma_free (s : string) : bool :=
  match s with
  | EmptyString => true
  | String a s' => negb (bool_decide (a = ","%char)) && comma_free s'
  end.

Lemma pretty_N_char_no_comma x : pretty_N_char x ≠ ","%char.
Proof. unfold pretty_N_char. by repeat case_match. Qed.

Lemma pretty_N_go_comma_free x s :
  comma_free s = true → comma_free (pretty_N_go x s) = true.
Proof.
  revert s. induction (N.lt_wf_0 x) as [x _ IH]; intros s Hs.
  assert (x = 0 ∨ 0 < x)%N as [->|?] by lia.
  - by rewrite pretty_N_go_0.
  - rewrite pretty_N_go_step by done. apply IH.
    { by apply N.div_lt. }
    simpl. rewrite Hs, andb_true_r.
    apply negb_true_iff, bool_decide_eq_false, pretty_N_char_no_comma.
Qed.

Lemma pretty_N_comma_free (x : N) : comma_free (pretty x) = true.
Proof.
  unfold pretty, pretty_N. case_decide; [done|].
  by apply pretty_N_go_comma_free.
Qed.

Lemma pretty_Z_comma_free (x : Z) : comma_free (pretty x) = true.
Proof.
  destruct x as [|p|p]; [done| |].
  - apply (pretty_N_comma_free (Npos p)).
  - change (pretty (Zneg p)) with ("-" +:+ pretty (Npos p)).
    simpl. apply (pretty_N_comma_free (Npos p)).
Qed.

Lemma comma_split s1 s2 t1 t2 :
  comma_free s1 = true → comma_free s2 = true →
  s1 +:+ "," +:+ t1 = s2 +:+ "," +:+ t2 → s1 = s2 ∧ t1 = t2.
Proof.
  revert s2. induction s1 as [|a s1 IH]; intros [|b s2] H1 H2 Heq; simpl in *.
  - by injection Heq.
  - injection Heq as <- _. by rewrite bool_decide_eq_true_2 in H2.
  - injection Heq as -> _. by rewrite bool_decide_eq_true_2 in H1.
  - apply andb_true_iff in H1 as [_ H1]. apply andb_true_iff in H2 as [_ H2].
    injection Heq as -> Heq. destruct (IH _ H1 H2 Heq) as [-> ->]. done.
Qed.

Lemma key_inj a b : key a = key b → a = b.
Proof.
  unfold key. intros Heq.
  apply comma_split in Heq as [Hr Hc]; auto using pretty_Z_comma_free.
  apply (inj pretty) in Hr. apply (inj pretty) in Hc.
  destruct a, b; simpl in *; congruence.
Qed.

#[global] Instance key_Inj : Inj (=) (=) key.
Proof. intros a b. apply key_inj. Qed.

#[global] Opaque key.

Lemma same_cell_true a b : same_cell a b = true ↔ a = b.
Proof.
  unfold same_cell. rewrite andb_true_iff, !bool_decide_eq_true.
  destruct a, b; simpl; split; [intros [-> ->]; done | intros [= -> ->]; done].
Qed.

Lemma same_cell_refl a : same_cell a a = true.
Proof. by apply same_cell_true. Qed.

Lemma same_cell_false a b : same_cell a b = false ↔ a ≠ b.
Proof. rewrite <-not_true_iff_false, same_cell_true. done. Qed.

(** ** Arrays *)

Lemma array_pop_snoc {A} (a : list A) x : array_pop (a ++ [x]) = Some (x, a).
Proof. unfold array_pop. rewrite reverse_snoc. by rewrite reverse_involutive. Qed.

Lemma array_pop_Some {A} (a r : list A) x :
  array_pop a = Some (x, r) ↔ a = r ++ [x].
Proof.
  split; [|intros ->; apply array_pop_snoc].
  unfold array_pop. destruct (reverse a) as [|y l] eqn:E; [done|].
  intros [= -> <-]. rewrite <-(reverse_involutive a), E, reverse_cons. done.
Qed.

Lemma array_pop_None {A} (a : list A) : array_pop a = None ↔ a = [].
Proof.
  unfold array_pop. destruct (reverse a) as [|y l] eqn:E.
  - split; [|done]. intros _. by rewrite <-(reverse_involutive a), E.
  - split; [done|]. intros ->. done.
Qed.

(** ** Calls that return *)

Ltac res_unfold := unfold mbind, res_mbind, res_bind in *.

Lemma res_bind_Ok {A B} (x : res A) (f : A → res B) b :
  (a ← x; f a) = Ok b ↔ ∃ a, x = Ok a ∧ f a = Ok b.
Proof.
  res_unfold. destruct x as [a| |]; split; try done; eauto.
  - intros (a' & [= <-] & ?). done.
  - intros (a' & [=] & ?).
  - intros (a' & [=] & ?).
Qed.

(** ** The start is the goal *)

Section trivial_case.
Import PathfindingAlgorithms PriorityQueue.

Lemma reconstructPath_same fuel parent c :
  reconstructPath (S fuel) parent c c = Ok [c].
Proof. unfold reconstructPath. simpl. by rewrite decide_True. Qed.

Lemma reconstructBidirectionalPath_same fuel ps c :
  reconstructBidirectionalPath (S fuel) ps ∅ c c c = Ok [c].
Proof.
  unfold reconstructBidirectionalPath. simpl. rewrite decide_True by done.
  res_unfold. by rewrite lookup_empty.
Qed.

Lemma enqueue_new {A} (x : A) p : enqueue new x p = Build [Entry x p].
Proof. done. Qed.

(** C4: when the start coordinate is the goal coordinate, every
    algorithm returns the one-element path [[start]] and reports
    exactly one explored node (the maze is returned unchanged). *)
Theorem start_is_goal (a : algorithm) (fuel : nat) (m : Maze) :
  start m = end_ m →
  ∃ o h, run a (S fuel) m = Ok (mkResult (Some [start m]) 1 o h, m).
Proof.
  intros Hse. destruct a as [| | |hs| |]; simpl.
  - exists false, None. unfold dfs. simpl. rewrite <-Hse, same_cell_refl.
    by rewrite reconstructPath_same.
  - exists true, None. unfold bfs. simpl. rewrite <-Hse, same_cell_refl.
    by rewrite reconstructPath_same.
  - exists true, None. unfold dijkstra. rewrite enqueue_new. simpl.
    rewrite decide_False by set_solver. rewrite <-Hse, same_cell_refl.
    by rewrite reconstructPath_same.
  - exists true, (Some hs). unfold astar. simpl.
    rewrite decide_False by set_solver. rewrite <-Hse, same_cell_refl.
    by rewrite reconstructPath_same.
  - exists false, None. unfold greedy. rewrite enqueue_new. simpl.
    rewrite <-Hse, same_cell_refl. by rewrite reconstructPath_same.
  - exists true, None. unfold bidirectional. simpl. rewrite <-Hse.
    rewrite decide_True by set_solver.
    by rewrite reconstructBidirectionalPath_same.
Qed.

End trivial_case.

(** ** A search never writes to the maze *)

Section frame.
Import PathfindingAlgorithms PriorityQueue.

Ltac frame_step IH :=
  repeat match goal with
  | H : context [match ?x with _ => _ end] |- _ =>
      destruct x eqn:?; simplify_eq/=; try done
  end; eauto.

Lemma dfs_loop_frame rfuel fuel m stack visited parent n r m' :
  dfs_loop rfuel fuel m stack visited parent n = Ok (r, m') → m' = m.
Proof.
  revert stack visited parent n.
  induction fuel as [|fuel IH]; intros stack visited parent n; simpl; [done|].
  res_unfold. intros H. frame_step IH.
Qed.

Lemma bfs_loop_frame rfuel fuel m queue visited parent n r m' :
  bfs_loop rfuel fuel m queue visited parent n = Ok (r, m') → m' = m.
Proof.
  revert queue visited parent n.
  induction fuel as [|fuel IH]; intros queue visited parent n; simpl; [done|].
  res_unfold. intros H. frame_step IH.
Qed.

Lemma dijkstra_loop_frame rfuel fuel m distances parent visited pq n r m' :
  dijkstra_loop rfuel fuel m distances parent visited pq n = Ok (r, m') → m' = m.
Proof.
  revert distances parent visited pq n.
  induction fuel as [|fuel IH]; intros distances parent visited pq n; simpl; [done|].
  res_unfold. intros H. frame_step IH.
Qed.

Lemma astar_loop_frame rfuel fuel m hs gScore fScore parent visited pq n r m' :
  astar_loop rfuel fuel m hs gScore fScore parent visited pq n = Ok (r, m') → m' = m.
Proof.
  revert gScore fScore parent visited pq n.
  induction fuel as [|fuel IH]; intros gScore fScore parent visited pq n; simpl; [done|].
  res_unfold. intros H. frame_step IH.
Qed.

Lemma greedy_loop_frame rfuel fuel m pq visited parent n r m' :
  greedy_loop rfuel fuel m pq visited parent n = Ok (r, m') → m' = m.
Proof.
  revert pq visited parent n.
  induction fuel as [|fuel IH]; intros pq visited parent n; simpl; [done|].
  res_unfold. intros H. frame_step IH.
Qed.

Lemma bidirectional_loop_frame rfuel fuel m qs qe vs ve ps pe n r m' :
  bidirectional_loop rfuel fuel m qs qe vs ve ps pe n = Ok (r, m') → m' = m.
Proof.
  revert qs qe vs ve ps pe n.
  induction fuel as [|fuel IH]; intros qs qe vs ve ps pe n; simpl; [done|].
  res_unfold. intros H. frame_step IH.
Qed.

(** C8: whatever a search returns, the maze it was run on (every cell
    of the grid, the start and the end coordinate) is the same after
    the run as before. *)
Theorem search_leaves_maze_unchanged (a : algorithm) (fuel : nat) (m m' : Maze) (r : Result) :
  run a fuel m = Ok (r, m') →
  m' = m ∧ grid m' = grid m ∧ start m' = start m ∧ end_ m' = end_ m.
Proof.
  intros H. assert (m' = m) as ->; [|done].
  destruct a; simpl in H.
  - by eapply dfs_loop_frame.
  - by eapply bfs_loop_frame.
  - by eapply dijkstra_loop_frame.
  - by eapply astar_loop_frame.
  - by eapply greedy_loop_frame.
  - by eapply bidirectional_loop_frame.
Qed.

End frame.

(** ** Neighbour generation *)

Section neighbour_generation.

Lemma row_at_valid m r c :
  wf m → isValid m r c = true → is_Some (Grid.row_at (grid m) r).
Proof.
  unfold wf, isValid, Grid.row_at. intros Hwf Hv.
  rewrite !andb_true_iff, !bool_decide_eq_true in Hv.
  rewrite decide_True by lia. apply lookup_lt_is_Some. lia.
Qed.

Lemma getNeighbors_step m r c (l : list coord) (dir : Z * Z) :
  wf m →
  getNeighbors_dir m r c l dir
  = Ok (l ++ filter (λ x, walkable m x) [Coord (r + dir.1) (c + dir.2)]).
Proof.
  intros Hwf. unfold getNeighbors_dir. cbv zeta. rewrite filter_cons, filter_nil.
  unfold walkable, not_wall. simpl.
  destruct (isValid m (r + dir.1) (c + dir.2)) eqn:Hv; simpl.
  - destruct (row_at_valid _ _ _ Hwf Hv) as [rw Hrw].
    unfold Grid.get. rewrite Hrw. simpl. res_unfold.
    destruct (bool_decide (rw !! (c + dir.2) ≠ Some wall)) eqn:Hb.
    + by rewrite decide_True.
    + rewrite decide_False by (intros []). by rewrite app_nil_r.
  - by rewrite app_nil_r.
Qed.

Lemma getNeighbors_fold m r c (dirs : list (Z * Z)) (l : list coord) :
  wf m →
  foldl (λ (acc : res (list coord)) (dir : Z * Z),
      neighbors ← acc; getNeighbors_dir m r c neighbors dir)
    (Ok l) dirs
  = Ok (l ++ filter (λ x, walkable m x)
               ((λ dir : Z * Z, Coord (r + dir.1) (c + dir.2)) <$> dirs)).
Proof.
  intros Hwf. revert l. induction dirs as [|dir dirs IH]; intros l; simpl.
  - by rewrite filter_nil, app_nil_r.
  - change (Ok l ≫= _) with (getNeighbors_dir m r c l dir).
    rewrite getNeighbors_step by done. rewrite IH. rewrite <-app_assoc.
    f_equal. f_equal.
    change (?x :: ?l) with ([x] ++ l) at 2. by rewrite filter_app.
Qed.

Lemma getNeighbors_wf m r c :
  wf m → getNeighbors m r c = Ok (neighbours m (Coord r c)).
Proof.
  intros Hwf. unfold getNeighbors. rewrite getNeighbors_fold by done.
  unfold neighbours, up, down, left, right. simpl.
  replace (r + -1) with (r - 1) by lia. replace (r + 0) with r by lia.
  replace (c + -1) with (c - 1) by lia. replace (c + 0) with c by lia.
  done.
Qed.

(** C6: on every maze whose grid has its [rows] rows, and for every
    coordinate, [getNeighbors] returns exactly those of the four
    coordinates up, down, left, right that lie within the bounds and
    whose cell is not a wall, in that fixed order; being a function of
    the maze and the coordinate, it returns the same list on every call. *)
Theorem getNeighbors_spec (m : Maze) (r c : Z) :
  wf m →
  getNeighbors m r c =
    Ok (filter (λ x, isValid m (row x) (col x) && not_wall m x)
          [Coord (r - 1) c; Coord (r + 1) c; Coord r (c - 1); Coord r (c + 1)]).
Proof. apply getNeighbors_wf. Qed.

End neighbour_generation.

(** ** Construction of a maze *)

Definition throws {A} (r : res A) : bool :=
  match r with
  | Throw => true
  | _ => false
  end.

Section construction.

Lemma row_at_lookup (g : list (gmap Z Z)) (r : Z) :
  0 ≤ r → (Z.to_nat r < length g)%nat → is_Some (Grid.row_at g r).
Proof.
  intros ??. unfold Grid.row_at. rewrite decide_True by done.
  by apply lookup_lt_is_Some.
Qed.

Lemma row_at_None (g : list (gmap Z Z)) (r : Z) :
  r < 0 ∨ (length g ≤ Z.to_nat r)%nat → Grid.row_at g r = None.
Proof.
  intros H. unfold Grid.row_at. case_decide; [|done].
  apply lookup_ge_None. lia.
Qed.

Lemma grid_set_Ok g r c v :
  0 ≤ r → (Z.to_nat r < length g)%nat →
  ∃ g', Grid.set g r c v = Ok g' ∧ length g' = length g.
Proof.
  intros ??. unfold Grid.set.
  destruct (row_at_lookup g r) as [rw ->]; [done..|].
  eexists. split; [done|]. by rewrite length_insert.
Qed.

Lemma grid_set_length g r c v g' :
  Grid.set g r c v = Ok g' → length g' = length g.
Proof.
  unfold Grid.set. destruct (Grid.row_at g r); [|done].
  intros [= <-]. by rewrite length_insert.
Qed.

Lemma initGrid_Ok m :
  0 ≤ row (start m) < rows m → 0 ≤ row (end_ m) < rows m →
  ∃ g, initGrid m = Ok (with_grid m g) ∧ length g = Z.to_nat (rows m).
Proof.
  intros Hs He. unfold initGrid.
  set (g0 := (λ i, init_row (rows m) (cols m) i) <$> seqZ 0 (rows m)).
  assert (length g0 = Z.to_nat (rows m)) as Hl0.
  { unfold g0. by rewrite length_fmap, length_seqZ. }
  destruct (grid_set_Ok g0 (row (start m)) (col (start m)) empty) as (g1 & -> & Hl1);
    [lia..|].
  destruct (grid_set_Ok g1 (row (end_ m)) (col (end_ m)) empty) as (g2 & H2 & Hl2);
    [lia..|].
  res_unfold. rewrite H2. exists g2. split; [done|]. lia.
Qed.

Lemma Maze_new_Ok nrows ncols :
  2 ≤ nrows →
  ∃ m, Maze_new nrows ncols = Ok m ∧ wf m ∧ rows m = nrows ∧ cols m = ncols ∧
       start m = Coord 1 1 ∧ end_ m = Coord (nrows - 2) (ncols - 2).
Proof.
  intros Hr. unfold Maze_new.
  edestruct initGrid_Ok as (g & -> & Hl); [simpl; lia..|].
  eexists. split; [done|]. by repeat split.
Qed.

Lemma Maze_new_Throw nrows ncols : nrows < 2 → Maze_new nrows ncols = Throw.
Proof.
  intros Hr. unfold Maze_new, initGrid, Grid.set. simpl.
  rewrite row_at_None; [done|]. right.
  rewrite length_fmap, length_seqZ. lia.
Qed.

(** C7 (as amended): the constructor checks neither dimension.  It
    throws exactly when there are fewer than two rows (zero rows
    included), because [initGrid] then writes the start cell into a row
    that does not exist; the number of columns never makes it throw. *)
Theorem constructor_throws_iff_fewer_than_two_rows (nrows ncols : Z) :
  throws (Maze_new nrows ncols) = bool_decide (nrows < 2).
Proof.
  destruct (decide (nrows < 2)) as [H|H].
  - rewrite Maze_new_Throw, bool_decide_eq_true_2 by done. done.
  - destruct (Maze_new_Ok nrows ncols) as (m & -> & _); [lia|].
    by rewrite bool_decide_eq_false_2.
Qed.

(** C7, counterexample: a grid with three rows and zero columns is
    accepted by the constructor. *)
Lemma zero_columns_accepted :
  ∃ m, Maze_new 3 0 = Ok m ∧ rows m = 3 ∧ cols m = 0.
Proof. eexists. split; [vm_compute; reflexivity|done]. Qed.

(** C9, the failing run: after the start has been moved off the cell
    (1,1), [generatePerfect] walls it in, whatever the random draws. *)
Theorem generatePerfect_blocks_moved_start (fuel : nat) (choose : nat → nat → nat) :
  ∃ m', (m ← Maze_new 4 4; m ← setStart m 1 2;
         generatePerfect (S (S fuel)) choose m) = Ok m' ∧
        rows m' = 4 ∧ cols m' = 4 ∧ start m' = Coord 1 2 ∧
        Grid.get (grid m') 1 2 = Ok (Some wall) ∧
        walkable m' (start m') = false.
Proof. eexists. split; [vm_compute; reflexivity|]. by vm_compute. Qed.

(** *** The operations that do keep the endpoints walkable *)

Lemma grid_set_same g r c v g' :
  Grid.set g r c v = Ok g' → Grid.row_at g' r ≫= (λ rw, rw !! c) = Some v.
Proof.
  unfold Grid.set, Grid.row_at. case_decide; [|done].
  destruct (g !! Z.to_nat r) as [rw|] eqn:Hrw; [|done]. intros [= <-].
  rewrite list_lookup_insert_eq by by eapply lookup_lt_Some.
  simpl. by rewrite lookup_insert_eq.
Qed.

Lemma grid_set_other g r c v g' r' c' :
  Grid.set g r c v = Ok g' → r' ≠ r ∨ c' ≠ c →
  Grid.row_at g' r' ≫= (λ rw, rw !! c') = Grid.row_at g r' ≫= (λ rw, rw !! c').
Proof.
  unfold Grid.set, Grid.row_at. case_decide; [|done].
  destruct (g !! Z.to_nat r) as [rw|] eqn:Hrw; [|done]. intros [= <-] Hne.
  case_decide; [|done].
  destruct (decide (r' = r)) as [->|Hr].
  - rewrite list_lookup_insert_eq by by eapply lookup_lt_Some.
    rewrite Hrw. simpl. rewrite lookup_insert_ne; [done|]. naive_solver.
  - rewrite list_lookup_insert_ne; [done|]. lia.
Qed.

Lemma walkable_with_grid m g c :
  walkable (with_grid m g) c
  = isValid m (row c) (col c)
    && bool_decide (Grid.row_at g (row c) ≫= (λ rw, rw !! col c) ≠ Some wall).
Proof. done. Qed.

(** [initGrid], hence [clear] and the constructor, leave both endpoints
    open when they lie within the bounds. *)
Lemma initGrid_walkable m m' :
  initGrid m = Ok m' →
  isValid m (row (start m)) (col (start m)) = true →
  isValid m (row (end_ m)) (col (end_ m)) = true →
  start m' = start m ∧ end_ m' = end_ m ∧
  walkable m' (start m') = true ∧ walkable m' (end_ m') = true.
Proof.
  unfold initGrid. res_unfold.
  destruct (Grid.set _ _ _ _) as [g1| |] eqn:H1; [|done..].
  destruct (Grid.set g1 _ _ _) as [g2| |] eqn:H2; [|done..].
  intros [= <-] Hs He. do 2 (split; [done|]).
  rewrite !walkable_with_grid. cbn [with_grid start end_]. rewrite Hs, He.
  split; apply andb_true_iff; (split; [done|]); apply bool_decide_eq_true_2.
  - destruct (decide (start m = end_ m)) as [Heq|Hne].
    + rewrite Heq. by rewrite (grid_set_same _ _ _ _ _ H2).
    + rewrite (grid_set_other _ _ _ _ _ _ _ H2).
      * by rewrite (grid_set_same _ _ _ _ _ H1).
      * destruct (start m) as [a b], (end_ m) as [a' b']; simpl.
        destruct (decide (a = a')); [|by left]. right. congruence.
  - by rewrite (grid_set_same _ _ _ _ _ H2).
Qed.

Lemma Maze_new_walkable nrows ncols m :
  3 ≤ nrows → 3 ≤ ncols → Maze_new nrows ncols = Ok m →
  walkable m (start m) = true ∧ walkable m (end_ m) = true.
Proof.
  intros Hr Hc Hm. apply initGrid_walkable in Hm as (_ & _ & ? & ?); [done|..];
    unfold isValid; cbn [rows cols start end_ row col];
    rewrite !bool_decide_eq_true_2 by lia; done.
Qed.

(** [generateRandom] draws every inner cell but the two endpoints. *)
Lemma generateRandom_row (coin : Z → Z → bool) (m : Maze) (i : Z) (js : list Z)
    (acc : res (list (gmap Z Z))) (g' : list (gmap Z Z)) (c : coord) :
  c = start m ∨ c = end_ m →
  foldl (λ (acc : res (list (gmap Z Z))) j,
          g ← acc;
          if (bool_decide (i = row (start m)) && bool_decide (j = col (start m))) ||
             (bool_decide (i = row (end_ m)) && bool_decide (j = col (end_ m)))
          then Ok g
          else Grid.set g i j (if coin i j then wall else empty))
        acc js = Ok g' →
  ∃ g0, acc = Ok g0 ∧
        Grid.row_at g' (row c) ≫= (λ rw, rw !! col c)
        = Grid.row_at g0 (row c) ≫= (λ rw, rw !! col c).
Proof.
  intros Hc. revert acc. induction js as [|j js IH]; intros acc; simpl.
  { intros ->. by eexists. }
  intros (g1 & Hg1 & ->)%IH. destruct acc as [g0| |]; [|done..].
  exists g0. split; [done|]. revert Hg1. res_unfold.
  destruct (bool_decide (i = row (start m)) && bool_decide (j = col (start m))) eqn:Hs;
    [by intros [= <-]|].
  destruct (bool_decide (i = row (end_ m)) && bool_decide (j = col (end_ m))) eqn:He;
    [by intros [= <-]|].
  cbn [orb]. intros Hset. apply (grid_set_other _ _ _ _ _ _ _ Hset).
  apply andb_false_iff in Hs, He.
  destruct Hc as [-> | ->].
  - destruct Hs as [Hs|Hs]; apply bool_decide_eq_false in Hs; [left|right]; congruence.
  - destruct He as [He|He]; apply bool_decide_eq_false in He; [left|right]; congruence.
Qed.

Lemma generateRandom_walkable (coin : Z → Z → bool) (m m' : Maze) :
  generateRandom coin m = Ok m' →
  isValid m (row (start m)) (col (start m)) = true →
  isValid m (row (end_ m)) (col (end_ m)) = true →
  start m' = start m ∧ end_ m' = end_ m ∧
  walkable m' (start m') = true ∧ walkable m' (end_ m') = true.
Proof.
  unfold generateRandom. res_unfold.
  destruct (initGrid m) as [m1| |] eqn:Hinit; [|done..].
  intros Hfold Hs He.
  destruct (initGrid_walkable _ _ Hinit Hs He) as (Hs1 & He1 & Hws & Hwe).
  assert (rows m1 = rows m ∧ cols m1 = cols m) as [Hrows Hcols].
  { revert Hinit. unfold initGrid. res_unfold.
    destruct (Grid.set _ _ _ _) as [g1| |]; [|done..].
    destruct (Grid.set g1 _ _ _) as [g2| |]; [|done..]. by intros [= <-]. }
  revert Hfold.
  match goal with
  | |- context [foldl ?f (Ok (grid m1)) ?l] =>
      destruct (foldl f (Ok (grid m1)) l) as [g| |] eqn:Hg; [|done..]
  end.
  intros [= <-]. do 2 (split; [done|]).
  assert (∀ c, c = start m1 ∨ c = end_ m1 →
    Grid.row_at g (row c) ≫= (λ rw, rw !! col c)
    = Grid.row_at (grid m1) (row c) ≫= (λ rw, rw !! col c)) as Hkeep.
  { intros c Hc. revert Hg. generalize (seqZ 1 (rows m1 - 2)). intros rs.
    generalize (grid m1). revert g.
    induction rs as [|i rs IH]; intros g g0; simpl.
    { by intros [= <-]. }
    intros Hg.
    match type of Hg with
    | foldl ?f (foldl ?fi (Ok g0) ?js) rs = Ok g =>
        destruct (foldl fi (Ok g0) js) as [g1| |] eqn:Hrow
    end.
    - apply IH in Hg. rewrite Hg.
      destruct (generateRandom_row coin m1 i _ _ _ c Hc Hrow) as (g0' & [= <-] & ->).
      done.
    - exfalso. clear -Hg. induction rs as [|i' rs IH]; simpl in Hg; [done|].
      apply IH. revert Hg.
      match goal with
      | |- foldl _ (foldl ?fi Throw ?js) _ = _ → _ =>
          assert (foldl fi Throw js = Throw) as ->; [|done]
      end.
      generalize (seqZ 1 (cols m1 - 2)). intros js. by induction js.
    - exfalso. clear -Hg. induction rs as [|i' rs IH]; simpl in Hg; [done|].
      apply IH. revert Hg.
      match goal with
      | |- foldl _ (foldl ?fi Timeout ?js) _ = _ → _ =>
          assert (foldl fi Timeout js = Timeout) as ->; [|done]
      end.
      generalize (seqZ 1 (cols m1 - 2)). intros js. by induction js. }
  rewrite !walkable_with_grid. cbn [with_grid start end_].
  unfold walkable, not_wall in Hws, Hwe.
  rewrite !Hkeep by auto. done.
Qed.

(** [setWall] at the start or the end changes nothing. *)
Lemma setWall_at_endpoint m r c isWall :
  Coord r c = start m ∨ Coord r c = end_ m → setWall m r c isWall = Ok m.
Proof.
  intros H. unfold setWall.
  destruct H as [<-|<-]; cbn [row col];
    rewrite (bool_decide_eq_true_2 (r = r)), (bool_decide_eq_true_2 (c = c)) by done;
    [done|]. by rewrite orb_true_r.
Qed.

Lemma setWall_walkable m r c isWall m' :
  setWall m r c isWall = Ok m' →
  walkable m (start m) = true → walkable m (end_ m) = true →
  start m' = start m ∧ end_ m' = end_ m ∧
  walkable m' (start m') = true ∧ walkable m' (end_ m') = true.
Proof.
  unfold setWall.
  destruct (bool_decide (r = row (start m)) && bool_decide (c = col (start m))) eqn:Hs;
    [by intros [= <-]|].
  destruct (bool_decide (r = row (end_ m)) && bool_decide (c = col (end_ m))) eqn:He;
    [by intros [= <-]|].
  cbn [orb]. res_unfold. destruct (Grid.set _ _ _ _) as [g| |] eqn:Hg; [|done..].
  intros [= <-] Hws Hwe. do 2 (split; [done|]).
  rewrite !walkable_with_grid. cbn [with_grid start end_].
  unfold walkable, not_wall in Hws, Hwe.
  apply andb_false_iff in Hs, He.
  rewrite !(grid_set_other _ _ _ _ _ _ _ Hg); [done|..].
  - destruct He as [He|He]; apply bool_decide_eq_false in He; [left|right]; congruence.
  - destruct Hs as [Hs|Hs]; apply bool_decide_eq_false in Hs; [left|right]; congruence.
Qed.

(** [setStart] and [setEnd] on a wall cell change nothing; on another
    cell within the bounds they move the endpoint onto a walkable cell. *)
Lemma setStart_on_wall m r c :
  Grid.get (grid m) r c = Ok (Some wall) → setStart m r c = Ok m.
Proof. intros H. unfold setStart. rewrite H. done. Qed.

Lemma setEnd_on_wall m r c :
  Grid.get (grid m) r c = Ok (Some wall) → setEnd m r c = Ok m.
Proof. intros H. unfold setEnd. rewrite H. done. Qed.

Lemma setStart_walkable m r c m' :
  setStart m r c = Ok m' → isValid m r c = true →
  walkable m (start m) = true → walkable m' (start m') = true.
Proof.
  unfold setStart, Grid.get. res_unfold.
  destruct (Grid.row_at (grid m) r) as [rw|] eqn:Hrw; [|done].
  case_bool_decide as Hv; intros [= <-] Hval Hw; [|done].
  unfold walkable, not_wall. cbn [with_start start grid rows cols row col isValid].
  change (isValid m r c && bool_decide (Grid.row_at (grid m) r ≫= (λ rw, rw !! c) ≠ Some wall) = true).
  rewrite Hval, Hrw. simpl. by apply bool_decide_eq_true_2.
Qed.

Lemma setEnd_walkable m r c m' :
  setEnd m r c = Ok m' → isValid m r c = true →
  walkable m (end_ m) = true → walkable m' (end_ m') = true.
Proof.
  unfold setEnd, Grid.get. res_unfold.
  destruct (Grid.row_at (grid m) r) as [rw|] eqn:Hrw; [|done].
  case_bool_decide as Hv; intros [= <-] Hval Hw; [|done].
  unfold walkable, not_wall. cbn [with_end end_ grid rows cols row col isValid].
  change (isValid m r c && bool_decide (Grid.row_at (grid m) r ≫= (λ rw, rw !! c) ≠ Some wall) = true).
  rewrite Hval, Hrw. simpl. by apply bool_decide_eq_true_2.
Qed.

End construction.

(** ** The heuristic selector *)

Section heuristic_selector.
Import PathfindingAlgorithms PriorityQueue.

Definition relabel (h : string) (x : Result * Maze) : Result * Maze :=
  (mkResult (path x.1) (nodesExplored x.1) (optimal x.1) (Some h), x.2).

Definition res_map {A B} (f : A → B) (x : res A) : res B :=
  match x with
  | Ok a => Ok (f a)
  | Throw => Throw
  | Timeout => Timeout
  end.

Lemma astar_loop_relabel h1 h2 rfuel fuel m gScore fScore parent visited pq n :
  heuristicFunc h1 = heuristicFunc h2 →
  astar_loop rfuel fuel m h1 gScore fScore parent visited pq n =
  res_map (relabel h1) (astar_loop rfuel fuel m h2 gScore fScore parent visited pq n).
Proof.
  intros Hh. revert gScore fScore parent visited pq n.
  induction fuel as [|fuel IH]; intros gScore fScore parent visited pq n; simpl; [done|].
  destruct (isEmpty pq); [done|].
  destruct (dequeue pq) as [[current|] pq']; [|done].
  case_decide; [apply IH|].
  destruct (same_cell current (end_ m)).
  - res_unfold. by destruct (reconstructPath _ _ _ _).
  - res_unfold. destruct (getNeighbors _ _ _); [|done..].
    rewrite Hh. destruct (foldl _ _ _) as [[[??]?]?]. apply IH.
Qed.

(** C5 (as amended): the engine has two heuristic functions, Manhattan
    and Euclidean.  [astar] selects Euclidean for the selector
    ['euclidean'] and Manhattan for every other selector, so with the
    selector ['chebyshev'] the heuristic value of a pair of coordinates
    is [|a.row−b.row| + |a.col−b.col|], and the whole run is the run
    with ['manhattan'] up to the [heuristic] label of the result. *)
Theorem chebyshev_selector_is_manhattan :
  (∀ a b, heuristicFunc "chebyshev" a b
          = JInt (Z.abs (row a - row b) + Z.abs (col a - col b))) ∧
  (∀ h, heuristicFunc h =
        if decide (h = "euclidean") then euclideanDistance else manhattanDistance) ∧
  (∀ fuel m, astar fuel m "chebyshev"
             = res_map (relabel "chebyshev") (astar fuel m "manhattan")).
Proof.
  split; [done|]. split; [done|].
  intros fuel m. unfold astar. by apply astar_loop_relabel.
Qed.

(** C5, counterexample: with the selector ['chebyshev'] the heuristic
    value of (0,0) and (1,1) is 2, not max(1, 1) = 1. *)
Lemma chebyshev_selector_not_chebyshev :
  heuristicFunc "chebyshev" (Coord 0 0) (Coord 1 1) = JInt 2 ∧
  heuristicFunc "chebyshev" (Coord 0 0) (Coord 1 1)
    ≠ JInt (Z.max (Z.abs (0 - 1)) (Z.abs (0 - 1))).
Proof. split; [done|]. by vm_compute. Qed.

End heuristic_selector.

(** ** The priority queue *)

(** An operation on a queue; the priority is an integer number. *)
Inductive pq_op (A : Type) : Type :=
  | Enqueue (x : A) (p : Z)
  | Dequeue.
Arguments Enqueue {A} x p.
Arguments Dequeue {A}.

(** Runs a sequence of operations; the [k]-th operation, when it is an
    [enqueue], stores its item together with [k], so that the contents of
    the queue tell when each item was enqueued. *)
Fixpoint pq_exec {A} (k : nat) (ops : list (pq_op A))
    (q : PriorityQueue.t (nat * A)) : PriorityQueue.t (nat * A) :=
  match ops with
  | [] => q
  | Enqueue x p :: ops => pq_exec (S k) ops (PriorityQueue.enqueue q (k, x) (JInt p))
  | Dequeue :: ops => pq_exec (S k) ops (PriorityQueue.dequeue q).2
  end.

(** The comparator puts priority [a] strictly in front of priority [b]. *)
Definition prec (a b : jsnum) : Prop :=
  JSNum.lt (JSNum.sub a b) (JInt 0) = true.

(** Entry [e1] is to be dequeued before entry [e2]: its priority is not
    larger, and on equal priorities it was enqueued first. *)
Definition before {A} (e1 e2 : PriorityQueue.entry (nat * A)) : Prop :=
  ¬ prec (PriorityQueue.priority e2) (PriorityQueue.priority e1) ∧
  (¬ prec (PriorityQueue.priority e1) (PriorityQueue.priority e2) →
   ((PriorityQueue.item e1).1 < (PriorityQueue.item e2).1)%nat).

Fixpoint ordered {A} (l : list (PriorityQueue.entry (nat * A))) : Prop :=
  match l with
  | [] => True
  | e :: l' => (∀ e', e' ∈ l' → before e e') ∧ ordered l'
  end.

Definition is_int (n : jsnum) : Prop := ∃ z, n = JInt z.

Section sorting.
Context {A : Type}.
Implicit Types (x y z : A) (l : list A).

Lemma sort_insert_perm (cmp : A → A → jsnum) x l : sort_insert cmp x l ≡ₚ x :: l.
Proof.
  induction l as [|y l IH]; simpl; [done|].
  destruct (JSNum.lt _ _); [|done].
  rewrite IH. apply Permutation_swap.
Qed.

Lemma array_sort_perm (cmp : A → A → jsnum) l : array_sort cmp l ≡ₚ l.
Proof.
  induction l as [|y l IH]; simpl; [done|].
  unfold array_sort in IH. by rewrite sort_insert_perm, IH.
Qed.

Lemma array_sort_snoc (cmp : A → A → jsnum) l x :
  array_sort cmp (l ++ [x]) = foldr (sort_insert cmp) [x] l.
Proof. unfold array_sort. by rewrite foldr_app. Qed.

End sorting.

Section priority_queue_order.
Import PriorityQueue.
Context {A : Type}.
Variable good : jsnum → Prop.
Hypothesis prec_asym : ∀ a b, good a → good b → prec a b → ¬ prec b a.
Hypothesis prec_negtrans :
  ∀ a b c, good a → good b → good c → ¬ prec a b → ¬ prec b c → ¬ prec a c.
Implicit Types (e : entry (nat * A)) (l : list (entry (nat * A))).

Lemma sort_insert_ordered e l :
  ordered l → good (priority e) → (∀ e', e' ∈ l → good (priority e')) →
  (∀ e', e' ∈ l → ¬ prec (priority e') (priority e) → before e e') →
  ordered (sort_insert compare e l).
Proof.
  induction l as [|y l IH]; intros Hord Hg Hgl Hside; simpl.
  { split; [|done]. by intros ? ?%elem_of_nil. }
  destruct Hord as [Hy Hord].
  assert (good (priority y)) as Hgy by (apply Hgl; left).
  destruct (JSNum.lt (compare y e) (JInt 0)) eqn:Hlt.
  - (* y stays in front of e *)
    split.
    + intros e' He'. rewrite sort_insert_perm in He'.
      apply elem_of_cons in He' as [->|He']; [|by apply Hy].
      split; [by apply prec_asym|]. intros Hn. by destruct Hn.
    + apply IH; [done..| |].
      * intros e' He'. apply Hgl. by right.
      * intros e' He'. apply Hside. by right.
  - (* e goes in front of y, hence in front of everything behind y *)
    assert (¬ prec (priority y) (priority e)) as Hye.
    { unfold prec, compare in *. by rewrite Hlt. }
    split; [|by split].
    intros e' He'. apply Hside; [done|].
    apply elem_of_cons in He' as [->|He']; [done|].
    destruct (Hy e' He') as [Hn _].
    apply (prec_negtrans _ (priority y)); auto.
    apply Hgl. by right.
Qed.

Lemma enqueue_ordered l (k : nat) (x : A) (p : jsnum) :
  ordered l → good p → (∀ e', e' ∈ l → good (priority e')) →
  (∀ e', e' ∈ l → ((item e').1 < k)%nat) →
  ordered (array_sort compare (l ++ [Entry (k, x) p])).
Proof.
  rewrite array_sort_snoc.
  induction l as [|y l IH]; intros Hord Hg Hgl Htag; simpl.
  { split; [|done]. by intros ? ?%elem_of_nil. }
  destruct Hord as [Hy Hord].
  assert (foldr (sort_insert compare) [Entry (k, x) p] l ≡ₚ Entry (k, x) p :: l) as Hp.
  { rewrite <-array_sort_snoc, array_sort_perm. by rewrite Permutation_app_comm. }
  apply sort_insert_ordered.
  - apply IH; [done..| |]; intros e' He'; [apply Hgl|apply Htag]; by right.
  - apply Hgl. by left.
  - intros e'. rewrite Hp. intros [->|He']%elem_of_cons; [done|].
    apply Hgl. by right.
  - intros e'. rewrite Hp. intros [->|He']%elem_of_cons Hn; [|by apply Hy].
    split; [done|]. intros _. simpl. apply Htag. by left.
Qed.

(** What holds of a queue between two operations. *)
Definition pq_inv (k : nat) (q : t (nat * A)) : Prop :=
  ordered (values q) ∧
  (∀ e', e' ∈ values q → good (priority e')) ∧
  (∀ e', e' ∈ values q → ((item e').1 < k)%nat).

Lemma pq_inv_enqueue k q x p :
  pq_inv k q → good p → pq_inv (S k) (enqueue q (k, x) p).
Proof.
  intros (Hord & Hg & Htag) Hp. unfold enqueue, array_push.
  split; [|split]; simpl.
  - by apply enqueue_ordered.
  - intros e'. rewrite array_sort_perm.
    intros [?|He']%elem_of_app; [auto|].
    apply list_elem_of_singleton in He' as ->. done.
  - intros e'. rewrite array_sort_perm.
    intros [?%Htag|He']%elem_of_app; [lia|].
    apply list_elem_of_singleton in He' as ->. simpl. lia.
Qed.

Lemma pq_inv_dequeue k q : pq_inv k q → pq_inv (S k) (dequeue q).2.
Proof.
  intros (Hord & Hg & Htag). unfold dequeue.
  destruct (values q) as [|e l] eqn:E; simpl.
  - unfold pq_inv. rewrite ?E. repeat split; [done|..]; by intros ? ?%elem_of_nil.
  - destruct Hord as [_ Hord].
    repeat split; [done|..]; intros e' He'.
    + apply Hg. by right.
    + assert ((item e').1 < k)%nat; [|lia]. apply Htag. by right.
Qed.

Lemma dequeue_head k q :
  pq_inv k q →
  match dequeue q with
  | (None, q') => values q = [] ∧ q' = q
  | (Some kx, q') =>
    ∃ p, values q = Entry kx p :: values q' ∧
         ∀ e', e' ∈ values q' → before (Entry kx p) e'
  end.
Proof.
  intros (Hord & _ & _). unfold dequeue.
  destruct (values q) as [|[kx p] l] eqn:E; simpl; [done|].
  exists p. split; [done|]. by destruct Hord.
Qed.

End priority_queue_order.

Section priority_queue_int.
Import PriorityQueue.
Context {A : Type}.

Lemma prec_int a b : prec (JInt a) (JInt b) ↔ a < b.
Proof. unfold prec. simpl. rewrite bool_decide_eq_true. lia. Qed.

Lemma prec_int_asym a b : is_int a → is_int b → prec a b → ¬ prec b a.
Proof. intros [x ->] [y ->]. rewrite !prec_int. lia. Qed.

Lemma prec_int_negtrans a b c :
  is_int a → is_int b → is_int c → ¬ prec a b → ¬ prec b c → ¬ prec a c.
Proof. intros [x ->] [y ->] [z ->]. rewrite !prec_int. lia. Qed.

Lemma pq_exec_inv (ops : list (pq_op A)) k q :
  pq_inv is_int k q → ∃ k', pq_inv is_int k' (pq_exec k ops q).
Proof.
  revert k q. induction ops as [|[x p|] ops IH]; intros k q Hq; simpl.
  - by exists k.
  - apply IH. apply pq_inv_enqueue;
      eauto using prec_int_asym, prec_int_negtrans. by exists p.
  - apply IH. by apply pq_inv_dequeue.
Qed.

Lemma pq_inv_new : pq_inv (A:=A) is_int 0 new.
Proof. unfold pq_inv. simpl. split; [done|]. split; by intros ? ?%elem_of_nil. Qed.


End priority_queue_int.

(** ** The graph of a maze *)

(** All coordinates inside the bounds, row by row. *)
Definition cells (m : Maze) : list coord :=
  r ← seqZ 0 (rows m); (λ c, Coord r c) <$> seqZ 0 (cols m).

(** How many cells inside the bounds are not yet in [visited]. *)
Definition unvisited (m : Maze) (visited : gset string) : nat :=
  length (filter (λ c, key c ∉ visited) (cells m)).

Section graph.
Implicit Types (m : Maze) (c u w : coord).

Lemma elem_of_cells m c : c ∈ cells m ↔ isValid m (row c) (col c) = true.
Proof.
  unfold cells, isValid. rewrite list_elem_of_bind.
  rewrite !andb_true_iff, !bool_decide_eq_true. split.
  - intros (r & Hc & Hr). apply list_elem_of_fmap in Hc as (c' & -> & Hc').
    apply elem_of_seqZ in Hr, Hc'. simpl. lia.
  - intros Hv. exists (row c). split.
    + apply list_elem_of_fmap. exists (col c). split; [by destruct c|].
      apply elem_of_seqZ. lia.
    + apply elem_of_seqZ. lia.
Qed.

Lemma elem_of_neighbours m c w :
  w ∈ neighbours m c ↔ walkable m w = true ∧ w ∈ [up c; down c; left c; right c].
Proof.
  unfold neighbours. rewrite list_elem_of_filter.
  split; intros [H1 H2]; split; try done.
  - by apply Is_true_true.
  - by apply Is_true_true.
Qed.

Lemma around_adjacent c w : w ∈ [up c; down c; left c; right c] ↔ adjacent c w.
Proof.
  unfold adjacent, up, down, left, right. rewrite !elem_of_cons, elem_of_nil.
  destruct c as [r k], w as [r' k']; simpl. split.
  - intros [H|[H|[H|[H|[]]]]]; injection H as -> ->; lia.
  - intros H.
    assert ((r' = r - 1 ∧ k' = k) ∨ (r' = r + 1 ∧ k' = k) ∨
            (r' = r ∧ k' = k - 1) ∨ (r' = r ∧ k' = k + 1)) as Hc by lia.
    destruct Hc as [[-> ->]|[[-> ->]|[[-> ->]|[-> ->]]]]; auto.
Qed.

Lemma neighbours_adjacent m c w : w ∈ neighbours m c → adjacent c w.
Proof. rewrite elem_of_neighbours, around_adjacent. by intros [_ ?]. Qed.

Lemma neighbours_walkable m c w : w ∈ neighbours m c → walkable m w = true.
Proof. rewrite elem_of_neighbours. by intros [? _]. Qed.

Lemma neighbours_cells m c w : w ∈ neighbours m c → w ∈ cells m.
Proof.
  intros Hw%neighbours_walkable. apply elem_of_cells.
  unfold walkable in Hw. by apply andb_true_iff in Hw as [? _].
Qed.

Lemma walkable_cells m c : walkable m c = true → c ∈ cells m.
Proof.
  intros Hw. apply elem_of_cells.
  unfold walkable in Hw. by apply andb_true_iff in Hw as [? _].
Qed.

Lemma adjacent_sym c w : adjacent c w → adjacent w c.
Proof. unfold adjacent. lia. Qed.

Lemma adjacent_ne c w : adjacent c w → c ≠ w.
Proof. unfold adjacent. intros H ->. lia. Qed.

Lemma neighbours_sym m c w :
  walkable m c = true → w ∈ neighbours m c → c ∈ neighbours m w.
Proof.
  intros Hc. rewrite !elem_of_neighbours, !around_adjacent.
  intros [_ ?]. split; [done|]. by apply adjacent_sym.
Qed.

Lemma neighbours_ne m c w : w ∈ neighbours m c → key w ≠ key c.
Proof.
  intros Hw%neighbours_adjacent%adjacent_ne Hk. by apply key_inj in Hk.
Qed.

Lemma neighbours_length m c : (length (neighbours m c) ≤ 4)%nat.
Proof. unfold neighbours. etrans; [apply length_filter|]. done. Qed.

(** Every move changes [row + col] by one: the grid is bipartite. *)
Lemma linked_parity m p x y :
  linked m p → head p = Some x → list.last p = Some y →
  ∃ k, (row y + col y) - (row x + col x) - (Z.of_nat (length p) - 1) = 2 * k.
Proof.
  revert x. induction p as [|a [|b p] IH]; intros x Hl Hh Hla; simplify_eq/=.
  - exists 0. lia.
  - destruct Hl as [Hab Hl]. apply neighbours_adjacent in Hab.
    destruct (IH b Hl eq_refl Hla) as [k Hk]. simpl in Hk.
    unfold adjacent in Hab.
    assert ((row b + col b) - (row x + col x) = 1 ∨
            (row b + col b) - (row x + col x) = -1) as [H|H] by lia.
    + exists k. lia.
    + exists (k - 1). lia.
Qed.

Lemma linked_app m p q x y :
  linked m p → linked m q → list.last p = Some x → head q = Some y →
  y ∈ neighbours m x → linked m (p ++ q).
Proof.
  revert x. induction p as [|a [|b p] IH]; intros x Hp Hq Hl Hh Hn; simplify_eq/=.
  - destruct q as [|y' q]; simplify_eq/=. done.
  - destruct Hp as [Hab Hp]. split; [done|]. by eapply (IH x).
Qed.

Lemma linked_snoc m p x y :
  linked m p → list.last p = Some x → y ∈ neighbours m x → linked m (p ++ [y]).
Proof. intros. by eapply linked_app. Qed.

Lemma linked_cons_inv m x p : linked m (x :: p) → linked m p.
Proof. destruct p; simpl; [done|]. by intros [_ ?]. Qed.

Lemma linked_walkable m p x :
  linked m p → head p = Some x → walkable m x = true →
  ∀ c, c ∈ p → walkable m c = true.
Proof.
  revert x. induction p as [|a [|b p] IH]; intros x Hl Hh Hx c Hc; simplify_eq/=.
  - apply list_elem_of_singleton in Hc as ->. done.
  - destruct Hl as [Hab Hl]. apply elem_of_cons in Hc as [->|Hc]; [done|].
    apply (IH b); eauto using neighbours_walkable.
Qed.

Lemma linked_adjacent m p i x y :
  linked m p → p !! i = Some x → p !! S i = Some y → adjacent x y.
Proof.
  revert i. induction p as [|a [|b p] IH]; intros i Hl Hx Hy; simplify_eq/=.
  destruct Hl as [Hab Hl]. destruct i as [|i]; simplify_eq/=.
  - by apply neighbours_adjacent in Hab.
  - by apply (IH i).
Qed.

(** In a maze whose walkable cells include the start of the walk, a walk
    can be walked backwards. *)
Lemma linked_reverse m p x :
  linked m p → head p = Some x → walkable m x = true → linked m (reverse p).
Proof.
  revert x. induction p as [|a [|b p] IH]; intros x Hl Hh Hx; simplify_eq/=; [done..|].
  destruct Hl as [Hab Hl].
  rewrite reverse_cons. eapply linked_snoc.
  - apply (IH b); eauto using neighbours_walkable.
  - rewrite reverse_cons. apply last_snoc.
  - by apply neighbours_sym.
Qed.

(** Counting unvisited cells. *)
Lemma filter_unvisited_le (l : list coord) (v v' : gset string) :
  v ⊆ v' →
  (length (filter (λ c, key c ∉ v') l) ≤ length (filter (λ c, key c ∉ v) l))%nat.
Proof.
  intros Hsub. induction l as [|c l IH]; [done|].
  rewrite !filter_cons. repeat case_decide; simpl; try lia. set_solver.
Qed.

Lemma unvisited_mono m (v v' : gset string) :
  v ⊆ v' → (unvisited m v' ≤ unvisited m v)%nat.
Proof. apply filter_unvisited_le. Qed.

Lemma unvisited_insert m (v : gset string) c :
  c ∈ cells m → key c ∉ v → (unvisited m (v ∪ {[key c]}) < unvisited m v)%nat.
Proof.
  intros Hc Hk. unfold unvisited.
  induction (cells m) as [|a l IH]; [by apply elem_of_nil in Hc|].
  rewrite !filter_cons.
  assert (v ⊆ v ∪ {[key c]}) as Hsub by set_solver.
  pose proof (filter_unvisited_le l v (v ∪ {[key c]}) Hsub) as Hle.
  apply elem_of_cons in Hc as [<-|Hc].
  - rewrite decide_False by set_solver. rewrite decide_True by done.
    simpl. lia.
  - specialize (IH Hc). repeat case_decide; simpl; try lia. set_solver.
Qed.

End graph.

(** ** Parent maps and the paths they encode *)

(** [chain parent s c p]: following [parent] from [c] leads to [s], and
    [p] lists the coordinates met on the way, from [s] to [c]. *)
Inductive chain (parent : gmap string coord) (s : coord) : coord → list coord → Prop :=
  | chain_start : chain parent s s [s]
  | chain_step c u p :
      key c ≠ key s → parent !! key c = Some u → chain parent s u p →
      chain parent s c (p ++ [c]).

(** What a search from [s] has established about the cells it has seen.
    [fr] lists the frontier, [d] bounds the number of expansions so far,
    and [exempt] is the cell whose expansion is under way, if any. *)
Record explored (m : Maze) (s : coord) (d : nat) (exempt : option coord)
    (fr : list coord) (v : gset string) (par : gmap string coord) : Prop := {
  ex_source : key s ∈ v;
  ex_root : par !! key s = None;
  ex_frontier : ∀ c, c ∈ fr → key c ∈ v;
  ex_parent : ∀ k, is_Some (par !! k) → k ∈ v;
  ex_chain : ∀ k, k ∈ v →
    ∃ c p, key c = k ∧ walkable m c = true ∧ chain par s c p ∧ linked m p ∧
           (length p ≤ S d)%nat;
  ex_closed : ∀ c w,
    key c ∈ v → c ∉ fr → Some c ≠ exempt → w ∈ neighbours m c → key w ∈ v
}.

(** The quantity that decreases with every turn of a search loop. *)
Definition measure (m : Maze) (fr : list coord) (v : gset string) : nat :=
  (length fr + 2 * unvisited m v)%nat.

Section chains.
Import PathfindingAlgorithms.
Implicit Types (par : gmap string coord) (s c u : coord) (p : list coord).

Lemma chain_head par s c p : chain par s c p → head p = Some s.
Proof.
  induction 1 as [|c u p _ _ _ IH]; [done|].
  destruct p; simplify_eq/=. done.
Qed.

Lemma chain_last par s c p : chain par s c p → list.last p = Some c.
Proof. induction 1; [done|]. apply last_snoc. Qed.

Lemma chain_insert par s c p k x :
  chain par s c p → par !! k = None → chain (<[k := x]> par) s c p.
Proof.
  intros Hc Hk. induction Hc as [|c u p Hne Hpar _ IH]; [constructor|].
  econstructor; [done| |done].
  rewrite lookup_insert_ne; [done|]. intros ->. congruence.
Qed.

Lemma chain_functional par s c p p' :
  chain par s c p → chain par s c p' → p = p'.
Proof.
  intros Hc. revert p'. induction Hc as [|c u p Hne Hpar _ IH]; intros p' Hc'.
  - inversion Hc' as [|? ? ? Hne' _ _]; [done|]. by destruct Hne'.
  - inversion Hc' as [Heq|? u' q Hne' Hpar' Hq]; subst.
    + by destruct Hne.
    + rewrite Hpar in Hpar'. injection Hpar' as <-. by rewrite (IH q Hq).
Qed.

Lemma chain_route m par s c p :
  chain par s c p → linked m p → route m s c p.
Proof. intros Hc Hl. split; [by eapply chain_head|]. split; [by eapply chain_last|done]. Qed.

Lemma chain_reconstruct par s c p fuel acc :
  chain par s c p → (length p ≤ fuel)%nat →
  reconstruct_loop fuel par (key s) (Some c) acc = Ok (p ++ acc).
Proof.
  intros Hc. revert fuel acc.
  induction Hc as [|c u p Hne Hpar _ IH]; intros fuel acc Hf.
  - destruct fuel as [|fuel]; [simpl in Hf; lia|]. simpl. by rewrite decide_True.
  - rewrite length_app in Hf. simpl in Hf.
    destruct fuel as [|fuel]; [lia|]. simpl.
    rewrite decide_False by done. rewrite Hpar, IH by lia.
    by rewrite <-app_assoc.
Qed.

Lemma chain_reconstructPath par s c p fuel :
  chain par s c p → (length p ≤ fuel)%nat → reconstructPath fuel par s c = Ok p.
Proof.
  intros. unfold reconstructPath. rewrite (chain_reconstruct _ _ _ p) by done.
  by rewrite app_nil_r.
Qed.

Lemma chain_reconstruct_end par t c q fuel acc :
  chain par t c q → (length q ≤ fuel)%nat →
  reconstruct_end_loop fuel par (key t) (Some c) acc = Ok (acc ++ reverse q).
Proof.
  intros Hc. revert fuel acc.
  induction Hc as [|c u p Hne Hpar _ IH]; intros fuel acc Hf.
  - destruct fuel as [|fuel]; [simpl in Hf; lia|]. simpl. by rewrite decide_True.
  - rewrite length_app in Hf. simpl in Hf.
    destruct fuel as [|fuel]; [lia|]. simpl.
    rewrite decide_False by done. rewrite Hpar, IH by lia.
    unfold array_push. rewrite reverse_snoc, <-app_assoc. done.
Qed.

End chains.

(** ** Searches that mark a cell when they enqueue it *)

Section discovering.
Import PathfindingAlgorithms.
Context {F : Type}.
Variable push : F → coord → F.
Variable elems : F → list coord.
Hypothesis push_elems : ∀ f c, elems (push f c) ≡ₚ c :: elems f.
Variable m : Maze.
Variable s : coord.
Implicit Types (f : F) (v : gset string) (par : gmap string coord) (c cur nb : coord).

Lemma chain_reconstruct_inv par c p fuel acc r :
  chain par s c p →
  reconstruct_loop fuel par (key s) (Some c) acc = Ok r → r = p ++ acc.
Proof.
  intros Hc. revert fuel acc.
  induction Hc as [|c u p Hne Hpar _ IH]; intros [|fuel] acc; simpl; try done.
  - rewrite decide_True by done. by intros [= <-].
  - rewrite decide_False by done. rewrite Hpar. intros ->%IH.
    by rewrite <-app_assoc.
Qed.

Lemma chain_reconstruct_end_inv par c q fuel acc r :
  chain par s c q →
  reconstruct_end_loop fuel par (key s) (Some c) acc = Ok r → r = acc ++ reverse q.
Proof.
  intros Hc. revert fuel acc.
  induction Hc as [|c u p Hne Hpar _ IH]; intros [|fuel] acc; simpl; try done.
  - rewrite decide_True by done. by intros [= <-].
  - rewrite decide_False by done. rewrite Hpar. intros ->%IH.
    unfold array_push. by rewrite reverse_snoc, <-app_assoc.
Qed.

Lemma discover_explored d cur f v par nb pc :
  explored m s (S d) (Some cur) (elems f) v par →
  chain par s cur pc → linked m pc → (length pc ≤ S d)%nat →
  nb ∈ neighbours m cur →
  ∃ f' v' par', discover push cur (f, v, par) nb = (f', v', par') ∧
    explored m s (S d) (Some cur) (elems f') v' par' ∧ chain par' s cur pc ∧
    v ⊆ v' ∧ key nb ∈ v' ∧
    (∀ c, c ∈ elems f → c ∈ elems f') ∧
    (∀ c, key c ∈ v' → key c ∈ v ∨ (c = nb ∧ c ∈ elems f')) ∧
    (measure m (elems f') v' ≤ measure m (elems f) v)%nat.
Proof.
  intros Hex Hpc Hlpc Hlen Hnb. unfold discover.
  destruct (decide (key nb ∈ v)) as [Hin|Hnin].
  { exists f, v, par. do 5 (split; [done|]). split; [done|]. split; [by left|]. done. }
  assert (par !! key nb = None) as Hnone.
  { apply eq_None_not_Some. intros ?%(ex_parent _ _ _ _ _ _ _ Hex). done. }
  assert (key nb ≠ key s) as Hns.
  { intros Heq. rewrite Heq in Hnin. by apply Hnin, (ex_source _ _ _ _ _ _ _ Hex). }
  eexists _, _, _. split; [done|].
  split; [|split; [by apply chain_insert|]].
  - split.
    + apply elem_of_union_l, (ex_source _ _ _ _ _ _ _ Hex).
    + rewrite lookup_insert_ne by done. apply (ex_root _ _ _ _ _ _ _ Hex).
    + intros c. rewrite push_elems. intros [->|Hc]%elem_of_cons; [set_solver|].
      apply elem_of_union_l. by eapply ex_frontier.
    + intros k. destruct (decide (k = key nb)) as [->|Hk]; [set_solver|].
      rewrite lookup_insert_ne by done. intros Hk'.
      apply elem_of_union_l. by eapply ex_parent.
    + intros k [Hk|Hk%elem_of_singleton]%elem_of_union.
      * destruct (ex_chain _ _ _ _ _ _ _ Hex k Hk) as (c & p & ? & ? & ? & ? & ?).
        exists c, p. repeat split; auto using chain_insert.
      * subst k. exists nb, (pc ++ [nb]). split; [done|].
        split; [by eapply neighbours_walkable|]. split; [|split].
        -- econstructor; [done|by rewrite lookup_insert_eq|by apply chain_insert].
        -- eapply linked_snoc; [done|by eapply chain_last|done].
        -- rewrite length_app. simpl. lia.
    + intros c w [Hc|Hc%elem_of_singleton]%elem_of_union Hfr Hex' Hw.
      * apply elem_of_union_l. eapply ex_closed; [done..| |done|done].
        intros Hcf. apply Hfr. rewrite push_elems. by right.
      * apply key_inj in Hc as ->. destruct Hfr. rewrite push_elems. by left.
  - split; [set_solver|]. split; [set_solver|]. split; [|split].
    + intros c Hc. rewrite push_elems. by right.
    + intros c [Hc|Hc%elem_of_singleton]%elem_of_union; [by left|].
      apply key_inj in Hc as ->. right. split; [done|]. rewrite push_elems. by left.
    + unfold measure. rewrite push_elems. simpl.
      pose proof (unvisited_insert m v nb (neighbours_cells _ _ _ Hnb) Hnin). lia.
Qed.

Lemma discover_fold d cur ns f v par pc :
  explored m s (S d) (Some cur) (elems f) v par →
  chain par s cur pc → linked m pc → (length pc ≤ S d)%nat →
  (∀ nb, nb ∈ ns → nb ∈ neighbours m cur) →
  ∃ f' v' par', foldl (discover push cur) (f, v, par) ns = (f', v', par') ∧
    explored m s (S d) (Some cur) (elems f') v' par' ∧ chain par' s cur pc ∧
    v ⊆ v' ∧ (∀ nb, nb ∈ ns → key nb ∈ v') ∧
    (∀ c, c ∈ elems f → c ∈ elems f') ∧
    (∀ c, key c ∈ v' → key c ∈ v ∨ (c ∈ ns ∧ c ∈ elems f')) ∧
    (measure m (elems f') v' ≤ measure m (elems f) v)%nat.
Proof.
  revert f v par. induction ns as [|nb ns IH]; intros f v par Hex Hpc Hlpc Hlen Hns.
  { exists f, v, par. do 4 (split; [done|]). split; [by intros ? ?%elem_of_nil|].
    split; [done|]. split; [by left|]. done. }
  destruct (discover_explored d cur f v par nb pc) as
    (f1 & v1 & par1 & Hd & Hex1 & Hpc1 & Hv1 & Hnb1 & Hf1 & Hn1 & Hm1);
    [done..|apply Hns; by left|].
  destruct (IH f1 v1 par1) as
    (f2 & v2 & par2 & Hd2 & Hex2 & Hpc2 & Hv2 & Hnb2 & Hf2 & Hn2 & Hm2);
    [done..|intros; apply Hns; by right|].
  exists f2, v2, par2. split.
  { change (foldl (discover push cur) (discover push cur (f, v, par) nb) ns = (f2, v2, par2)).
    by rewrite Hd. }
  split; [done|]. split; [done|]. split; [set_solver|]. split; [|split; [|split]].
  - intros nb' [->|?]%elem_of_cons; [set_solver|auto].
  - auto.
  - intros c [[?|[-> ?]]%Hn1|[? ?]]%Hn2; [by left|right..].
    + split; [by left|auto].
    + split; [by right|done].
  - lia.
Qed.

End discovering.

(** What a returned path must be: a route from start to goal through
    walkable cells; and what the absence of a path must mean. *)
Definition sound_result (m : Maze) (r : Result) : Prop :=
  match path r with
  | None => ¬ ∃ p, route m (start m) (end_ m) p
  | Some p => route m (start m) (end_ m) p ∧ ∀ c, c ∈ p → walkable m c = true
  end.

Section mark_on_enqueue.
Import PathfindingAlgorithms.
Context {F : Type}.
Variable pop : F → option (coord * F).
Variable push : F → coord → F.
Variable elems : F → list coord.
Hypothesis pop_None : ∀ f, pop f = None → elems f = [].
Hypothesis pop_Some : ∀ f c f', pop f = Some (c, f') → elems f ≡ₚ c :: elems f'.
Hypothesis push_elems : ∀ f c, elems (push f c) ≡ₚ c :: elems f.
Variable m : Maze.
Hypothesis Hwf : wf m.
Hypothesis Hstart : walkable m (start m) = true.
Variable opt : bool.
Implicit Types (f : F) (v : gset string) (par : gmap string coord) (c cur nb : coord).

(** The loop that [dfs], [bfs] and [greedy] share, over any frontier. *)
Fixpoint search_loop (rfuel fuel : nat) (frontier : F)
    (visited : gset string) (parent : gmap string coord) (nodesExplored : Z)
    : res (Result * Maze) :=
  match fuel with
  | O => Timeout
  | S fuel' =>
    match pop frontier with
    | None => Ok (mkResult None nodesExplored opt None, m)
    | Some (current, frontier) =>
      let nodesExplored := nodesExplored + 1 in
      if same_cell current (end_ m) then
        path ← reconstructPath rfuel parent (start m) (end_ m);
        Ok (mkResult (Some path) nodesExplored opt None, m)
      else
        neighbors ← getNeighbors m (row current) (col current);
        let '(frontier, visited, parent) :=
          foldl (discover push current) (frontier, visited, parent) neighbors in
        search_loop rfuel fuel' frontier visited parent nodesExplored
    end
  end.

(** No cell that has been expanded is the goal. *)
Definition unfinished (fr : list coord) (v : gset string) : Prop :=
  ∀ c, key c ∈ v → c ∉ fr → c ≠ end_ m.

Lemma closed_route v p x :
  (∀ c w, key c ∈ v → w ∈ neighbours m c → key w ∈ v) →
  linked m p → head p = Some x → key x ∈ v → ∀ c, c ∈ p → key c ∈ v.
Proof.
  intros Hcl. revert x. induction p as [|a p IH]; intros x Hl Hh Hx c Hc; [done|].
  injection Hh as ->. apply elem_of_cons in Hc as [->|Hc]; [done|].
  destruct p as [|b p]; [by apply elem_of_nil in Hc|].
  destruct Hl as [Hab Hl]. apply (IH b); eauto.
Qed.

Lemma getNeighbors_coord c : getNeighbors m (row c) (col c) = Ok (neighbours m c).
Proof. rewrite getNeighbors_wf by done. by destruct c. Qed.

Lemma search_turn d f v par :
  explored m (start m) d None (elems f) v par → unfinished (elems f) v →
  match pop f with
  | None => ¬ ∃ p, route m (start m) (end_ m) p
  | Some (cur, f1) =>
    if same_cell cur (end_ m) then
      ∃ p, chain par (start m) (end_ m) p ∧ linked m p ∧ (length p ≤ S d)%nat
    else
      ∃ f' v' par',
        foldl (discover push cur) (f1, v, par) (neighbours m cur) = (f', v', par') ∧
        explored m (start m) (S d) None (elems f') v' par' ∧ unfinished (elems f') v' ∧
        (measure m (elems f') v' < measure m (elems f) v)%nat
  end.
Proof.
  intros Hex Hun. destruct (pop f) as [[cur f1]|] eqn:Hpop.
  - pose proof (pop_Some _ _ _ Hpop) as Hperm.
    assert (key cur ∈ v) as Hcur.
    { eapply ex_frontier; [done|]. rewrite Hperm. by left. }
    destruct (ex_chain _ _ _ _ _ _ _ Hex _ Hcur) as (c & pc & Hk & Hw & Hpc & Hlpc & Hlen).
    apply key_inj in Hk as ->.
    destruct (same_cell cur (end_ m)) eqn:Hsame.
    { apply same_cell_true in Hsame as ->. eauto. }
    apply same_cell_false in Hsame.
    assert (explored m (start m) (S d) (Some cur) (elems f1) v par) as Hex1.
    { split; try apply Hex.
      - intros c Hc. eapply ex_frontier; [done|]. rewrite Hperm. by right.
      - intros k Hk. destruct (ex_chain _ _ _ _ _ _ _ Hex _ Hk) as (c & p & ? & ? & ? & ? & ?).
        exists c, p. repeat split; auto; lia.
      - intros c w Hc Hfr Hne Hw'. eapply ex_closed; [done..| |done|done].
        rewrite Hperm. intros [->|?]%elem_of_cons; [by destruct Hne|done]. }
    destruct (discover_fold push elems push_elems m (start m) d cur
                (neighbours m cur) f1 v par pc) as
      (f' & v' & par' & Hfold & Hex' & Hpc' & Hv' & Hnb' & Hf' & Hn' & Hm');
      [done..|].
    exists f', v', par'. split; [done|]. split; [|split].
    + split; try apply Hex'.
      intros c w Hc Hfr _ Hw'. destruct (decide (c = cur)) as [->|Hne]; [by apply Hnb'|].
      eapply ex_closed; [done..| |done]. congruence.
    + intros c Hc Hfr. destruct (decide (c = cur)) as [->|Hne]; [done|].
      destruct (Hn' c Hc) as [Hcv|[_ ?]]; [|done].
      apply Hun; [done|]. rewrite Hperm.
      intros [->|?]%elem_of_cons; [done|]. apply Hfr. auto.
    + unfold measure in *. rewrite Hperm. simpl. lia.
  - intros (p & Hh & Hl & Hlk).
    pose proof (pop_None _ Hpop) as Hnil.
    assert (key (end_ m) ∈ v) as Hend.
    { apply (closed_route v p (start m)); [|done..| |].
      - intros c w Hc Hw. eapply ex_closed; [done..| | |done]; [|done].
        rewrite Hnil. by intros ?%elem_of_nil.
      - by eapply ex_source.
      - by apply last_Some_elem_of. }
    apply (Hun (end_ m)); [done| |done]. rewrite Hnil. by intros ?%elem_of_nil.
Qed.

Lemma search_loop_sound rfuel fuel d f v par n r m' :
  explored m (start m) d None (elems f) v par → unfinished (elems f) v →
  search_loop rfuel fuel f v par n = Ok (r, m') → sound_result m r.
Proof.
  revert d f v par n. induction fuel as [|fuel IH]; intros d f v par n Hex Hun; simpl; [done|].
  pose proof (search_turn d f v par Hex Hun) as Hturn.
  destruct (pop f) as [[cur f1]|]; [|by intros [= <- <-]].
  destruct (same_cell cur (end_ m)).
  - destruct Hturn as (p & Hp & Hlp & _). res_unfold.
    destruct (reconstructPath _ _ _ _) as [p'| |] eqn:Hrec; [|done..].
    intros [= <- <-]. unfold reconstructPath in Hrec.
    apply (chain_reconstruct_inv _ _ _ p) in Hrec; [|done].
    rewrite app_nil_r in Hrec. subst p'. unfold sound_result. simpl. split.
    + by apply (chain_route _ par).
    + eapply linked_walkable; [done| |done]. by eapply chain_head.
  - rewrite getNeighbors_coord. res_unfold.
    destruct Hturn as (f' & v' & par' & -> & Hex' & Hun' & _). by eapply IH.
Qed.

Lemma search_loop_total rfuel fuel d f v par n :
  explored m (start m) d None (elems f) v par → unfinished (elems f) v →
  (measure m (elems f) v < fuel)%nat → (S d + measure m (elems f) v ≤ rfuel)%nat →
  ∃ r, search_loop rfuel fuel f v par n = Ok (r, m).
Proof.
  revert d f v par n. induction fuel as [|fuel IH]; intros d f v par n Hex Hun Hf Hr;
    simpl; [lia|].
  pose proof (search_turn d f v par Hex Hun) as Hturn.
  destruct (pop f) as [[cur f1]|]; [|by eexists].
  destruct (same_cell cur (end_ m)).
  - destruct Hturn as (p & Hp & Hlp & Hlen).
    rewrite (chain_reconstructPath _ _ _ p) by (done || lia). by eexists.
  - rewrite getNeighbors_coord. res_unfold.
    destruct Hturn as (f' & v' & par' & -> & Hex' & Hun' & Hm').
    eapply IH; [done..|lia|lia].
Qed.

Lemma search_initial f0 :
  elems f0 = [start m] →
  explored m (start m) 0 None (elems f0) {[key (start m)]} ∅ ∧
  unfinished (elems f0) {[key (start m)]}.
Proof.
  intros ->. split; [split|].
  - set_solver.
  - done.
  - intros c ->%list_elem_of_singleton. set_solver.
  - intros k [? Hk]. by rewrite lookup_empty in Hk.
  - intros k ->%elem_of_singleton. exists (start m), [start m].
    repeat split; [done|constructor|done].
  - intros c w ->%elem_of_singleton%key_inj Hc. destruct Hc. by left.
  - intros c ->%elem_of_singleton%key_inj Hc. destruct Hc. by left.
Qed.

End mark_on_enqueue.

(** Fuel that is enough for every search on a maze. *)
Definition enough (m : Maze) : nat := (5 * length (cells m) + 8)%nat.

(** ** Depth-first, breadth-first and greedy search *)

(** The frontier operations of [greedy], read off its loop head. *)
Definition pq_pop (pq : PriorityQueue.t coord) : option (coord * PriorityQueue.t coord) :=
  if PriorityQueue.isEmpty pq then None
  else match PriorityQueue.dequeue pq with
       | (Some c, pq') => Some (c, pq')
       | (None, _) => None
       end.

Definition pq_items (pq : PriorityQueue.t coord) : list coord :=
  PriorityQueue.item <$> PriorityQueue.values pq.

Section instances.
Import PathfindingAlgorithms PriorityQueue.
Variable m : Maze.
Hypothesis Hwf : wf m.
Hypothesis Hstart : walkable m (start m) = true.

Lemma array_pop_perm (a : list coord) c (r : list coord) :
  array_pop a = Some (c, r) → a ≡ₚ c :: r.
Proof. intros ->%array_pop_Some. by rewrite Permutation_app_comm. Qed.

Lemma array_pop_nil (a : list coord) : array_pop a = None → a = [].
Proof. by intros ?%array_pop_None. Qed.

Lemma array_shift_perm (a : list coord) c (r : list coord) :
  array_shift a = Some (c, r) → a ≡ₚ c :: r.
Proof. destruct a; intros [= -> ->]. done. Qed.

Lemma array_shift_nil (a : list coord) : array_shift a = None → a = [].
Proof. by destruct a. Qed.

Lemma array_push_perm (a : list coord) c : array_push a c ≡ₚ c :: a.
Proof. unfold array_push. by rewrite Permutation_app_comm. Qed.

Lemma pq_pop_nil pq : pq_pop pq = None → pq_items pq = [].
Proof.
  unfold pq_pop, pq_items, isEmpty, dequeue.
  destruct (values pq) as [|e l]; [done|]. simpl. done.
Qed.

Lemma pq_pop_perm pq c pq' : pq_pop pq = Some (c, pq') → pq_items pq ≡ₚ c :: pq_items pq'.
Proof.
  unfold pq_pop, pq_items, isEmpty, dequeue.
  destruct (values pq) as [|e l]; [done|]. simpl. by intros [= <- <-].
Qed.

Lemma pq_items_enqueue pq c p : pq_items (enqueue pq c p) ≡ₚ c :: pq_items pq.
Proof.
  unfold pq_items, enqueue, array_push. simpl.
  rewrite array_sort_perm, fmap_app. simpl. by rewrite Permutation_app_comm.
Qed.

Lemma greedy_push_perm pq c : pq_items (greedy_push m pq c) ≡ₚ c :: pq_items pq.
Proof. apply pq_items_enqueue. Qed.

Lemma dfs_loop_generic rfuel fuel stack visited parent n :
  dfs_loop rfuel fuel m stack visited parent n =
  search_loop array_pop array_push m false rfuel fuel stack visited parent n.
Proof.
  revert stack visited parent n.
  induction fuel as [|fuel IH]; intros stack visited parent n; simpl; [done|].
  destruct (array_pop stack) as [[cur st]|]; [|done].
  destruct (same_cell cur (end_ m)); [done|].
  destruct (getNeighbors _ _ _); simpl; [|done..].
  destruct (foldl _ _ _) as [[??]?]. apply IH.
Qed.

Lemma bfs_loop_generic rfuel fuel queue visited parent n :
  bfs_loop rfuel fuel m queue visited parent n =
  search_loop array_shift array_push m true rfuel fuel queue visited parent n.
Proof.
  revert queue visited parent n.
  induction fuel as [|fuel IH]; intros queue visited parent n; simpl; [done|].
  destruct (array_shift queue) as [[cur st]|]; [|done].
  destruct (same_cell cur (end_ m)); [done|].
  destruct (getNeighbors _ _ _); simpl; [|done..].
  destruct (foldl _ _ _) as [[??]?]. apply IH.
Qed.

Lemma greedy_loop_generic rfuel fuel pq visited parent n :
  greedy_loop rfuel fuel m pq visited parent n =
  search_loop pq_pop (greedy_push m) m false rfuel fuel pq visited parent n.
Proof.
  revert pq visited parent n.
  induction fuel as [|fuel IH]; intros pq visited parent n; simpl; [done|].
  unfold pq_pop, isEmpty, dequeue.
  destruct (values pq) as [|e l]; [done|]. simpl.
  destruct (same_cell (item e) (end_ m)); [done|].
  destruct (getNeighbors _ _ _); simpl; [|done..].
  destruct (foldl _ _ _) as [[??]?]. apply IH.
Qed.

Lemma measure_initial : (measure m [start m] {[key (start m)]} + 2 ≤ enough m)%nat.
Proof.
  unfold measure, enough, unvisited. simpl.
  pose proof (length_filter (λ c, key c ∉ ({[key (start m)]} : gset string)) (cells m)).
  lia.
Qed.

Lemma dfs_sound fuel r m' : dfs fuel m = Ok (r, m') → sound_result m r.
Proof.
  unfold dfs. rewrite dfs_loop_generic.
  destruct (search_initial array_pop array_push id array_pop_nil array_pop_perm
              array_push_perm m Hwf Hstart [start m] eq_refl) as [Hex Hun].
  by apply (search_loop_sound array_pop array_push id array_pop_nil array_pop_perm
              array_push_perm m Hwf Hstart false fuel fuel 0).
Qed.

Lemma dfs_total fuel : (enough m ≤ fuel)%nat → ∃ r, dfs fuel m = Ok (r, m).
Proof.
  intros Hf. unfold dfs. rewrite dfs_loop_generic.
  destruct (search_initial array_pop array_push id array_pop_nil array_pop_perm
              array_push_perm m Hwf Hstart [start m] eq_refl) as [Hex Hun].
  pose proof measure_initial.
  apply (search_loop_total array_pop array_push id array_pop_nil array_pop_perm
           array_push_perm m Hwf false fuel fuel 0); simpl; (done || lia).
Qed.

Lemma bfs_sound fuel r m' : bfs fuel m = Ok (r, m') → sound_result m r.
Proof.
  unfold bfs. rewrite bfs_loop_generic.
  destruct (search_initial array_shift array_push id array_shift_nil array_shift_perm
              array_push_perm m Hwf Hstart [start m] eq_refl) as [Hex Hun].
  by apply (search_loop_sound array_shift array_push id array_shift_nil array_shift_perm
              array_push_perm m Hwf Hstart true fuel fuel 0).
Qed.

Lemma bfs_total fuel : (enough m ≤ fuel)%nat → ∃ r, bfs fuel m = Ok (r, m).
Proof.
  intros Hf. unfold bfs. rewrite bfs_loop_generic.
  destruct (search_initial array_shift array_push id array_shift_nil array_shift_perm
              array_push_perm m Hwf Hstart [start m] eq_refl) as [Hex Hun].
  pose proof measure_initial.
  apply (search_loop_total array_shift array_push id array_shift_nil array_shift_perm
           array_push_perm m Hwf true fuel fuel 0); simpl; (done || lia).
Qed.

Lemma greedy_sound fuel r m' : greedy fuel m = Ok (r, m') → sound_result m r.
Proof.
  unfold greedy. rewrite greedy_loop_generic.
  destruct (search_initial pq_pop (greedy_push m) pq_items pq_pop_nil pq_pop_perm
              greedy_push_perm m Hwf Hstart
              (enqueue new (start m) (manhattanDistance (start m) (end_ m))) eq_refl)
    as [Hex Hun].
  by apply (search_loop_sound pq_pop (greedy_push m) pq_items pq_pop_nil pq_pop_perm
              greedy_push_perm m Hwf Hstart false fuel fuel 0).
Qed.

Lemma greedy_total fuel : (enough m ≤ fuel)%nat → ∃ r, greedy fuel m = Ok (r, m).
Proof.
  intros Hf. unfold greedy. rewrite greedy_loop_generic.
  set (q0 := enqueue new (start m) (manhattanDistance (start m) (end_ m))).
  assert (pq_items q0 = [start m]) as Hq by done.
  destruct (search_initial pq_pop (greedy_push m) pq_items pq_pop_nil pq_pop_perm
              greedy_push_perm m Hwf Hstart q0 Hq) as [Hex Hun].
  pose proof measure_initial.
  apply (search_loop_total pq_pop (greedy_push m) pq_items pq_pop_nil pq_pop_perm
           greedy_push_perm m Hwf false fuel fuel 0); try done; rewrite Hq; lia.
Qed.

End instances.

(** ** Searches that relax scores: Dijkstra and A* *)

(** What a relaxing search from [s] has established.  [items] lists the
    cells in the priority queue, [g] is the score map ([distances],
    [gScore]), [d] bounds the number of expansions so far and [exempt]
    is the cell whose expansion is under way, if any. *)
Record relaxed (m : Maze) (s : coord) (d : nat) (exempt : option coord)
    (items : list coord) (g : gmap string jsnum) (v : gset string)
    (par : gmap string coord) : Prop := {
  rx_source : g !! key s = Some (JInt 0);
  rx_root : par !! key s = None;
  rx_score : ∀ k x, g !! k = Some x →
    ∃ c z, key c = k ∧ x = JInt z ∧ 0 ≤ z ≤ Z.of_nat d ∧ walkable m c = true;
  rx_parent : ∀ k u, par !! k = Some u →
    ∃ c zu zc, key c = k ∧ g !! key u = Some (JInt zu) ∧ g !! k = Some (JInt zc) ∧
               zu + 1 ≤ zc ∧ c ∈ neighbours m u;
  rx_reached : ∀ k, is_Some (g !! k) → k = key s ∨ is_Some (par !! k);
  rx_visited : ∀ k, k ∈ v → is_Some (g !! k);
  rx_pending : ∀ c, is_Some (g !! key c) → key c ∉ v → c ∈ items;
  rx_items : ∀ c, c ∈ items → is_Some (g !! key c);
  rx_closed : ∀ c w,
    key c ∈ v → Some c ≠ exempt → w ∈ neighbours m c → is_Some (g !! key w)
}.

(** The quantity that decreases with every turn of a relaxing loop. *)
Definition measure_relax (m : Maze) (items : list coord) (v : gset string) : nat :=
  (length items + 5 * unvisited m v)%nat.

Section relaxing.
Import PathfindingAlgorithms PriorityQueue.
Variable m : Maze.
Hypothesis Hwf : wf m.
Hypothesis Hstart : walkable m (start m) = true.
Variable prio : coord → jsnum → jsnum.
Variable lbl : option string.
Implicit Types (g : gmap string jsnum) (v : gset string) (par : gmap string coord).
Implicit Types (pq : PriorityQueue.t coord) (c cur nb u w : coord).

(** The body of the [for] loop that [dijkstra] and [astar] share: the
    priority of the entry enqueued is [prio neighbor score]. *)
Definition relax (current : coord)
    (st : gmap string jsnum * gmap string coord * PriorityQueue.t coord)
    (neighbor : coord) : gmap string jsnum * gmap string coord * PriorityQueue.t coord :=
  let '(g, parent, pq) := st in
  let neighborKey := key neighbor in
  let score := JSNum.add (JSNum.of_lookup (g !! key current)) (JInt 1) in
  if negb (bool_decide (is_Some (g !! neighborKey))) ||
     JSNum.lt score (JSNum.of_lookup (g !! neighborKey))
  then (<[neighborKey := score]> g,
        <[neighborKey := current]> parent,
        enqueue pq neighbor (prio neighbor score))
  else st.

(** The loop that [dijkstra] and [astar] share. *)
Fixpoint relax_loop (rfuel fuel : nat) (g : gmap string jsnum)
    (parent : gmap string coord) (visited : gset string)
    (pq : PriorityQueue.t coord) (nodesExplored : Z) : res (Result * Maze) :=
  match fuel with
  | O => Timeout
  | S fuel' =>
    if isEmpty pq then Ok (mkResult None nodesExplored true lbl, m)
    else
      match dequeue pq with
      | (None, _) => Throw
      | (Some current, pq) =>
        let currentKey := key current in
        if decide (currentKey ∈ visited)
        then relax_loop rfuel fuel' g parent visited pq nodesExplored
        else
          let visited := visited ∪ {[currentKey]} in
          let nodesExplored := nodesExplored + 1 in
          if same_cell current (end_ m) then
            path ← reconstructPath rfuel parent (start m) (end_ m);
            Ok (mkResult (Some path) nodesExplored true lbl, m)
          else
            neighbors ← getNeighbors m (row current) (col current);
            let '(g, parent, pq) := foldl (relax current) (g, parent, pq) neighbors in
            relax_loop rfuel fuel' g parent visited pq nodesExplored
      end
  end.

Lemma relaxed_chain s d ex items g v par c z :
  relaxed m s d ex items g v par → g !! key c = Some (JInt z) →
  ∃ p, chain par s c p ∧ linked m p ∧ (length p ≤ S (Z.to_nat z))%nat.
Proof.
  intros Hrx. remember (Z.to_nat z) as n eqn:Hn. revert c z Hn.
  induction (lt_wf n) as [n _ IH]. intros c z -> Hg.
  destruct (rx_reached _ _ _ _ _ _ _ _ Hrx (key c)) as [Hk|[u Hu]]; [by eexists|..].
  - apply key_inj in Hk as ->. exists [s]. split; [constructor|]. split; [done|simpl; lia].
  - destruct (rx_parent _ _ _ _ _ _ _ _ Hrx _ _ Hu) as (c' & zu & zc & Hk & Hgu & Hgc & Hle & Hnb).
    apply key_inj in Hk as ->. rewrite Hg in Hgc. injection Hgc as <-.
    destruct (rx_score _ _ _ _ _ _ _ _ Hrx _ _ Hgu) as (? & ? & _ & [= <-] & [Hz0 _] & _).
    destruct (IH (Z.to_nat zu)) with (c := u) (z := zu) as (p & Hp & Hlp & Hlen);
      [lia|done..|].
    exists (p ++ [c]). split; [|split].
    + econstructor; [|done..]. intros Hks. apply key_inj in Hks as ->.
      by rewrite (rx_root _ _ _ _ _ _ _ _ Hrx) in Hu.
    + eapply linked_snoc; [done|by eapply chain_last|done].
    + rewrite length_app. simpl. lia.
Qed.

(** A score never increases. *)
Definition scores_le (g g' : gmap string jsnum) : Prop :=
  ∀ k z, g !! k = Some (JInt z) → ∃ z', g' !! k = Some (JInt z') ∧ z' ≤ z.

Lemma relax_relaxed s d cur zc pq g v par nb :
  relaxed m s (S d) (Some cur) (pq_items pq) g v par →
  g !! key cur = Some (JInt zc) → zc ≤ Z.of_nat d →
  nb ∈ neighbours m cur →
  ∃ g' par' pq', relax cur (g, par, pq) nb = (g', par', pq') ∧
    relaxed m s (S d) (Some cur) (pq_items pq') g' v par' ∧
    g' !! key cur = Some (JInt zc) ∧
    (∃ zn, g' !! key nb = Some (JInt zn) ∧ zn ≤ zc + 1) ∧
    scores_le g g' ∧
    (length (pq_items pq') ≤ S (length (pq_items pq)))%nat.
Proof.
  intros Hrx Hcur Hzc Hnb. unfold relax. rewrite Hcur.
  change (JSNum.add (JSNum.of_lookup (Some (JInt zc))) (JInt 1)) with (JInt (zc + 1)).
  pose proof (neighbours_ne _ _ _ Hnb) as Hne.
  destruct (rx_score _ _ _ _ _ _ _ _ Hrx _ _ Hcur) as (c0 & ? & _ & [= <-] & [Hzc0 _] & _).
  clear c0. set (cond := negb _ || _).
  assert (cond = true → ∀ zn, g !! key nb = Some (JInt zn) → zc + 1 < zn) as Hlt.
  { unfold cond. intros Hc zn Hzn. rewrite Hzn in Hc. simpl in Hc.
    by apply bool_decide_eq_true in Hc. }
  assert (cond = false → ∃ zn, g !! key nb = Some (JInt zn) ∧ zn ≤ zc + 1) as Hge.
  { unfold cond. intros [Hc1 Hc2]%orb_false_iff.
    apply negb_false_iff, bool_decide_eq_true in Hc1 as [y Hy].
    destruct (rx_score _ _ _ _ _ _ _ _ Hrx _ _ Hy) as (? & zn & _ & -> & _).
    rewrite Hy in Hc2. simpl in Hc2. apply bool_decide_eq_false in Hc2.
    exists zn. split; [done|lia]. }
  destruct cond.
  2:{ exists g, par, pq. do 3 (split; [done|]). split; [by apply Hge|].
      split; [|lia]. intros k z Hk. exists z. split; [done|lia]. }
  specialize (Hlt eq_refl). clear Hge.
  assert (key nb ≠ key s) as Hns.
  { intros Hk. rewrite Hk in Hlt.
    specialize (Hlt 0 (rx_source _ _ _ _ _ _ _ _ Hrx)). lia. }
  eexists _, _, _. split; [done|]. split; [split|].
  - rewrite lookup_insert_ne by done. apply Hrx.
  - rewrite lookup_insert_ne by done. apply Hrx.
  - intros k x. destruct (decide (k = key nb)) as [->|Hk].
    + rewrite lookup_insert_eq. intros [= <-]. exists nb, (zc + 1).
      repeat split; [lia..|by eapply neighbours_walkable].
    + rewrite lookup_insert_ne by done. apply Hrx.
  - intros k u. destruct (decide (k = key nb)) as [->|Hk].
    + rewrite !lookup_insert_eq. intros [= <-]. exists nb, zc, (zc + 1).
      rewrite lookup_insert_ne by done. repeat split; [done|lia|done].
    + rewrite !(lookup_insert_ne _ (key nb) k) by done. intros Hu.
      destruct (rx_parent _ _ _ _ _ _ _ _ Hrx _ _ Hu) as (c & zu & zk & ? & Hgu & Hgk & ? & ?).
      destruct (decide (key u = key nb)) as [Heq|Hun].
      * exists c, (zc + 1), zk. rewrite Heq, lookup_insert_eq.
        rewrite Heq in Hgu. apply Hlt in Hgu. repeat split; auto. lia.
      * exists c, zu, zk. rewrite lookup_insert_ne by done. done.
  - intros k. destruct (decide (k = key nb)) as [->|Hk].
    + intros _. right. rewrite lookup_insert_eq. by eexists.
    + rewrite !(lookup_insert_ne _ (key nb) k) by done.
      by apply (rx_reached _ _ _ _ _ _ _ _ Hrx).
  - intros k Hk. destruct (decide (k = key nb)) as [->|Hkn].
    + rewrite lookup_insert_eq. by eexists.
    + rewrite lookup_insert_ne by done. by eapply rx_visited.
  - intros c. rewrite pq_items_enqueue. destruct (decide (key c = key nb)) as [Hk|Hk].
    + apply key_inj in Hk as ->. intros _ _. by left.
    + rewrite lookup_insert_ne by done. intros ??. right. by eapply rx_pending.
  - intros c. rewrite pq_items_enqueue. intros [->|Hc]%elem_of_cons.
    + rewrite lookup_insert_eq. by eexists.
    + destruct (decide (key c = key nb)) as [->|Hk].
      * rewrite lookup_insert_eq. by eexists.
      * rewrite lookup_insert_ne by done. by eapply rx_items.
  - intros c w Hc Hex Hw. destruct (decide (key w = key nb)) as [->|Hk].
    + rewrite lookup_insert_eq. by eexists.
    + rewrite lookup_insert_ne by done. by eapply rx_closed.
  - rewrite lookup_insert_ne by done. split; [done|].
    rewrite lookup_insert_eq. split; [exists (zc + 1); split; [done|lia]|].
    split; [|by rewrite pq_items_enqueue].
    intros k z Hk. destruct (decide (k = key nb)) as [->|Hkn].
    + rewrite lookup_insert_eq. exists (zc + 1). split; [done|].
      specialize (Hlt _ Hk). lia.
    + rewrite lookup_insert_ne by done. exists z. split; [done|lia].
Qed.

Lemma scores_le_trans g1 g2 g3 : scores_le g1 g2 → scores_le g2 g3 → scores_le g1 g3.
Proof.
  intros H12 H23 k z Hk. destruct (H12 k z Hk) as (z' & Hz' & ?).
  destruct (H23 k z' Hz') as (z'' & Hz'' & ?). exists z''. split; [done|lia].
Qed.

Lemma relax_fold s d cur zc ns pq g v par :
  relaxed m s (S d) (Some cur) (pq_items pq) g v par →
  g !! key cur = Some (JInt zc) → zc ≤ Z.of_nat d →
  (∀ nb, nb ∈ ns → nb ∈ neighbours m cur) →
  ∃ g' par' pq', foldl (relax cur) (g, par, pq) ns = (g', par', pq') ∧
    relaxed m s (S d) (Some cur) (pq_items pq') g' v par' ∧
    g' !! key cur = Some (JInt zc) ∧
    (∀ nb, nb ∈ ns → ∃ zn, g' !! key nb = Some (JInt zn) ∧ zn ≤ zc + 1) ∧
    scores_le g g' ∧
    (length (pq_items pq') ≤ length ns + length (pq_items pq))%nat.
Proof.
  revert pq g par. induction ns as [|nb ns IH]; intros pq g par Hrx Hcur Hzc Hns.
  { exists g, par, pq. do 3 (split; [done|]). split; [by intros ? ?%elem_of_nil|].
    split; [|done]. intros k z Hk. exists z. split; [done|lia]. }
  destruct (relax_relaxed s d cur zc pq g v par nb) as
    (g1 & par1 & pq1 & Hr1 & Hrx1 & Hcur1 & Hnb1 & Hle1 & Hlen1);
    [done..|apply Hns; by left|].
  destruct (IH pq1 g1 par1) as
    (g2 & par2 & pq2 & Hr2 & Hrx2 & Hcur2 & Hnb2 & Hle2 & Hlen2);
    [done..|intros; apply Hns; by right|].
  exists g2, par2, pq2. split.
  { change (foldl (relax cur) (relax cur (g, par, pq) nb) ns = (g2, par2, pq2)).
    by rewrite Hr1. }
  split; [done|]. split; [done|]. split; [|split; [by eapply scores_le_trans|simpl; lia]].
  intros nb' [->|?]%elem_of_cons; [|auto].
  destruct Hnb1 as (zn & Hzn & ?). destruct (Hle2 _ _ Hzn) as (z' & Hz' & ?).
  exists z'. split; [done|lia].
Qed.

End relaxing.

Section relaxing_loop.
Import PathfindingAlgorithms PriorityQueue.
Variable m : Maze.
Hypothesis Hwf : wf m.
Hypothesis Hstart : walkable m (start m) = true.
Variable prio : coord → jsnum → jsnum.
Variable lbl : option string.
Implicit Types (g : gmap string jsnum) (v : gset string) (par : gmap string coord).
Implicit Types (pq : PriorityQueue.t coord) (c cur nb u w : coord).

(** No cell that has been expanded is the goal. *)
Definition unfinished_relax (v : gset string) : Prop :=
  ∀ c, key c ∈ v → c ≠ end_ m.

Lemma closed_route_gen (P : coord → Prop) p x :
  (∀ c w, P c → w ∈ neighbours m c → P w) →
  linked m p → head p = Some x → P x → ∀ c, c ∈ p → P c.
Proof.
  intros Hcl. revert x. induction p as [|a p IH]; intros x Hl Hh Hx c Hc; [done|].
  injection Hh as ->. apply elem_of_cons in Hc as [->|Hc]; [done|].
  destruct p as [|b p]; [by apply elem_of_nil in Hc|].
  destruct Hl as [Hab Hl]. apply (IH b); eauto.
Qed.

Lemma relax_turn d pq g v par :
  relaxed m (start m) d None (pq_items pq) g v par → unfinished_relax v →
  match values pq with
  | [] => ¬ ∃ p, route m (start m) (end_ m) p
  | e :: rest =>
    if decide (key (item e) ∈ v)
    then relaxed m (start m) d None (pq_items (Build rest)) g v par
    else if same_cell (item e) (end_ m) then
      ∃ p, chain par (start m) (end_ m) p ∧ linked m p ∧ (length p ≤ S d)%nat
    else
      ∃ g' par' pq',
        foldl (relax prio (item e)) (g, par, Build rest) (neighbours m (item e))
          = (g', par', pq') ∧
        relaxed m (start m) (S d) None (pq_items pq') g' (v ∪ {[key (item e)]}) par' ∧
        unfinished_relax (v ∪ {[key (item e)]}) ∧
        (measure_relax m (pq_items pq') (v ∪ {[key (item e)]})
         < measure_relax m (pq_items pq) v)%nat
  end.
Proof.
  intros Hrx Hun. unfold pq_items in *.
  destruct (values pq) as [|[cur p0] rest] eqn:Hvals; simpl in *.
  - intros (p & Hh & Hl & Hlk).
    assert (∀ c, is_Some (g !! key c) → key c ∈ v) as Hall.
    { intros c Hc. destruct (decide (key c ∈ v)) as [|Hn]; [done|].
      by apply (rx_pending _ _ _ _ _ _ _ _ Hrx), elem_of_nil in Hn. }
    assert (is_Some (g !! key (end_ m))) as Hend.
    { apply (closed_route_gen (λ c, is_Some (g !! key c)) p (start m)); [|done..| |].
      - intros c w Hc Hw. eapply rx_closed; [done| |done|done]. by apply Hall.
      - rewrite (rx_source _ _ _ _ _ _ _ _ Hrx). by eexists.
      - by apply last_Some_elem_of. }
    apply (Hun (end_ m)); [by apply Hall|done].
  - destruct (decide (key cur ∈ v)) as [Hv|Hv].
    { split; try apply Hrx.
      - intros c Hc Hcv.
        pose proof (rx_pending _ _ _ _ _ _ _ _ Hrx c Hc Hcv) as Hin.
        apply elem_of_cons in Hin as [->|?]; done.
      - intros c Hc. eapply rx_items; [done|]. by right. }
    assert (is_Some (g !! key cur)) as [x Hx].
    { eapply rx_items; [done|]. by left. }
    destruct (rx_score _ _ _ _ _ _ _ _ Hrx _ _ Hx) as (c0 & zc & Hk0 & -> & [Hz0 Hzd] & Hw0).
    apply key_inj in Hk0 as ->.
    destruct (same_cell cur (end_ m)) eqn:Hsame.
    { apply same_cell_true in Hsame as ->.
      destruct (relaxed_chain m _ _ _ _ _ _ _ _ _ Hrx Hx) as (p & ? & ? & ?).
      exists p. repeat split; [done..|lia]. }
    apply same_cell_false in Hsame.
    assert (relaxed m (start m) (S d) (Some cur) (item <$> rest) g (v ∪ {[key cur]}) par)
      as Hrx1.
    { split; try apply Hrx.
      - intros k y Hy. destruct (rx_score _ _ _ _ _ _ _ _ Hrx _ _ Hy) as (c & z & ? & ? & ? & ?).
        exists c, z. repeat split; auto; lia.
      - intros k [Hk|Hk%elem_of_singleton]%elem_of_union; [by eapply rx_visited|].
        subst k. by eexists.
      - intros c Hc Hcv.
        assert (key c ∉ v) as Hcv' by set_solver.
        pose proof (rx_pending _ _ _ _ _ _ _ _ Hrx c Hc Hcv') as Hin.
        apply elem_of_cons in Hin as [->|?]; [set_solver|done].
      - intros c Hc. eapply rx_items; [done|]. by right.
      - intros c w [Hc|Hc%elem_of_singleton]%elem_of_union Hne Hw.
        + eapply rx_closed; [done..| |done]; done.
        + apply key_inj in Hc as ->. by destruct Hne. }
    destruct (relax_fold m prio (start m) d cur zc (neighbours m cur) (Build rest) g
                (v ∪ {[key cur]}) par) as
      (g' & par' & pq' & Hfold & Hrx' & Hcur' & Hnb' & Hle' & Hlen'); [done..|].
    exists g', par', pq'. split; [done|]. split; [|split].
    + split; try apply Hrx'.
      intros c w Hc _ Hw. destruct (decide (c = cur)) as [->|Hne].
      * destruct (Hnb' w Hw) as (zn & -> & _). by eexists.
      * eapply rx_closed; [done..| |done]. congruence.
    + intros c [Hc|Hc%elem_of_singleton]%elem_of_union; [by apply Hun|].
      by apply key_inj in Hc as ->.
    + unfold measure_relax, pq_items in *.
      rewrite !length_fmap in Hlen'. rewrite !length_fmap. cbn [length].
      replace (length (list_fmap _ _ item rest)) with (length rest)
        by (symmetry; apply length_fmap).
      simpl in Hlen'. pose proof (neighbours_length m cur).
      pose proof (unvisited_insert m v cur (walkable_cells _ _ Hw0) Hv). lia.
Qed.

Lemma relax_loop_sound rfuel fuel d pq g v par n r m' :
  relaxed m (start m) d None (pq_items pq) g v par → unfinished_relax v →
  relax_loop m prio lbl rfuel fuel g par v pq n = Ok (r, m') → sound_result m r.
Proof.
  revert d pq g v par n. induction fuel as [|fuel IH]; intros d pq g v par n Hrx Hun;
    simpl; [done|].
  pose proof (relax_turn d pq g v par Hrx Hun) as Hturn.
  unfold isEmpty, dequeue. destruct (values pq) as [|e rest]; simpl.
  { by intros [= <- <-]. }
  destruct (decide (key (item e) ∈ v)); [by eapply IH|].
  destruct (same_cell (item e) (end_ m)).
  - destruct Hturn as (p & Hp & Hlp & _). res_unfold.
    destruct (reconstructPath _ _ _ _) as [p'| |] eqn:Hrec; [|done..].
    intros [= <- <-]. unfold reconstructPath in Hrec.
    apply (chain_reconstruct_inv _ _ _ p) in Hrec; [|done].
    rewrite app_nil_r in Hrec. subst p'. unfold sound_result. simpl. split.
    + by apply (chain_route _ par).
    + eapply linked_walkable; [done| |done]. by eapply chain_head.
  - rewrite getNeighbors_coord by done. res_unfold.
    destruct Hturn as (g' & par' & pq' & -> & Hrx' & Hun' & _). by eapply IH.
Qed.

Lemma measure_relax_cons e rest v :
  measure_relax m (pq_items (Build (e :: rest))) v
  = S (measure_relax m (pq_items (Build rest)) v).
Proof. done. Qed.

Lemma relax_loop_total rfuel fuel d pq g v par n :
  relaxed m (start m) d None (pq_items pq) g v par → unfinished_relax v →
  (measure_relax m (pq_items pq) v < fuel)%nat →
  (S d + measure_relax m (pq_items pq) v ≤ rfuel)%nat →
  ∃ r, relax_loop m prio lbl rfuel fuel g par v pq n = Ok (r, m).
Proof.
  revert d pq g v par n. induction fuel as [|fuel IH]; intros d pq g v par n Hrx Hun Hf Hr;
    [lia|].
  pose proof (relax_turn d pq g v par Hrx Hun) as Hturn.
  destruct pq as [[|e rest]]; simpl in Hturn |- *.
  { by eexists. }
  rewrite measure_relax_cons in Hf, Hr.
  unfold isEmpty, dequeue. simpl.
  destruct (decide (key (item e) ∈ v)).
  { eapply IH; [done..|lia|lia]. }
  destruct (same_cell (item e) (end_ m)).
  - destruct Hturn as (p & Hp & Hlp & Hlen).
    rewrite (chain_reconstructPath _ _ _ p) by (done || lia). by eexists.
  - rewrite getNeighbors_coord by done. res_unfold.
    destruct Hturn as (g' & par' & pq' & -> & Hrx' & Hun' & Hm').
    rewrite measure_relax_cons in Hm'.
    eapply IH; [done..|lia|lia].
Qed.

Lemma relax_initial p0 :
  relaxed m (start m) 0 None (pq_items (enqueue new (start m) p0))
    {[key (start m) := JInt 0]} ∅ ∅ ∧
  unfinished_relax ∅.
Proof.
  split; [split|].
  - by rewrite lookup_singleton_eq.
  - done.
  - intros k x [<- <-]%lookup_singleton_Some. exists (start m), 0. repeat split; done.
  - intros k u. by rewrite lookup_empty.
  - intros k [x [<- _]%lookup_singleton_Some]. by left.
  - intros k ?%not_elem_of_empty. done.
  - intros c [x [Hk _]%lookup_singleton_Some] _. apply key_inj in Hk as <-. by left.
  - intros c Hc%list_elem_of_singleton. subst c. rewrite lookup_singleton_eq. by eexists.
  - intros c w ?%not_elem_of_empty. done.
  - intros c ?%not_elem_of_empty. done.
Qed.

Lemma measure_relax_initial p0 :
  (measure_relax m (pq_items (enqueue new (start m) p0)) ∅ + 2 ≤ enough m)%nat.
Proof.
  unfold measure_relax, enough.
  change (length (pq_items (enqueue new (start m) p0))) with 1%nat.
  assert (unvisited m ∅ ≤ length (cells m))%nat by apply length_filter. lia.
Qed.

End relaxing_loop.

(** The priority [astar] gives to a neighbour: its new score plus the
    heuristic value [h(neighbor, maze.end)]. *)
Definition astar_prio (h : coord → coord → jsnum) (goal : coord)
    (neighbor : coord) (score : jsnum) : jsnum :=
  JSNum.add score (h neighbor goal).

Section relaxing_instances.
Import PathfindingAlgorithms PriorityQueue.
Variable m : Maze.
Hypothesis Hwf : wf m.
Hypothesis Hstart : walkable m (start m) = true.

Lemma dijkstra_loop_generic rfuel fuel distances parent visited pq n :
  dijkstra_loop rfuel fuel m distances parent visited pq n =
  relax_loop m (λ _ score, score) None rfuel fuel distances parent visited pq n.
Proof.
  revert distances parent visited pq n.
  induction fuel as [|fuel IH]; intros distances parent visited pq n; simpl; [done|].
  destruct (isEmpty pq); [done|].
  destruct (dequeue pq) as [[cur|] pq']; [|done].
  case_decide; [apply IH|].
  destruct (same_cell cur (end_ m)); [done|].
  destruct (getNeighbors _ _ _); simpl; [|done..].
  change (foldl (relax_dijkstra cur) (distances, parent, pq') a)
    with (foldl (relax (λ _ score, score) cur) (distances, parent, pq') a).
  destruct (foldl _ _ _) as [[??]?]. apply IH.
Qed.

Lemma relax_astar_step h goal cur g f par pq nb :
  ∃ f', relax_astar h goal cur (g, f, par, pq) nb =
        (let '(g', par', pq') := relax (astar_prio h goal) cur (g, par, pq) nb in
         (g', f', par', pq')).
Proof.
  unfold relax_astar, relax. destruct (negb _ || _).
  - eexists. rewrite lookup_insert_eq. done.
  - by eexists.
Qed.

Lemma relax_astar_fold h goal cur ns g f par pq :
  ∃ f', foldl (relax_astar h goal cur) (g, f, par, pq) ns =
        (let '(g', par', pq') := foldl (relax (astar_prio h goal) cur) (g, par, pq) ns in
         (g', f', par', pq')).
Proof.
  revert g f par pq. induction ns as [|nb ns IH]; intros g f par pq; cbn [foldl].
  - by eexists.
  - destruct (relax_astar_step h goal cur g f par pq nb) as [f1 ->].
    destruct (relax (astar_prio h goal) cur (g, par, pq) nb) as [[g1 par1] pq1].
    apply IH.
Qed.

Lemma astar_loop_generic rfuel fuel hs gScore fScore parent visited pq n :
  astar_loop rfuel fuel m hs gScore fScore parent visited pq n =
  relax_loop m (astar_prio (heuristicFunc hs) (end_ m)) (Some hs)
    rfuel fuel gScore parent visited pq n.
Proof.
  revert gScore fScore parent visited pq n.
  induction fuel as [|fuel IH]; intros gScore fScore parent visited pq n; simpl; [done|].
  destruct (isEmpty pq); [done|].
  destruct (dequeue pq) as [[cur|] pq']; [|done].
  case_decide; [apply IH|].
  destruct (same_cell cur (end_ m)); [done|].
  destruct (getNeighbors _ _ _) as [ns| |]; simpl; [|done..].
  destruct (relax_astar_fold (heuristicFunc hs) (end_ m) cur ns gScore fScore parent pq')
    as [f' ->].
  destruct (foldl _ _ _) as [[??]?]. apply IH.
Qed.

Lemma dijkstra_sound fuel r m' : dijkstra fuel m = Ok (r, m') → sound_result m r.
Proof.
  unfold dijkstra. rewrite dijkstra_loop_generic.
  destruct (relax_initial m Hstart (JInt 0)) as [Hrx Hun].
  by apply (relax_loop_sound m Hwf Hstart _ _ fuel fuel 0).
Qed.

Lemma dijkstra_total fuel : (enough m ≤ fuel)%nat → ∃ r, dijkstra fuel m = Ok (r, m).
Proof.
  intros Hf. unfold dijkstra. rewrite dijkstra_loop_generic.
  destruct (relax_initial m Hstart (JInt 0)) as [Hrx Hun].
  pose proof (measure_relax_initial m (JInt 0)).
  apply (relax_loop_total m Hwf Hstart _ _ fuel fuel 0); (done || lia).
Qed.

Lemma astar_sound fuel hs r m' : astar fuel m hs = Ok (r, m') → sound_result m r.
Proof.
  unfold astar. rewrite astar_loop_generic.
  set (p0 := JSNum.of_lookup _).
  destruct (relax_initial m Hstart p0) as [Hrx Hun].
  by apply (relax_loop_sound m Hwf Hstart _ _ fuel fuel 0).
Qed.

Lemma astar_total fuel hs : (enough m ≤ fuel)%nat → ∃ r, astar fuel m hs = Ok (r, m).
Proof.
  intros Hf. unfold astar. rewrite astar_loop_generic.
  set (p0 := JSNum.of_lookup _).
  destruct (relax_initial m Hstart p0) as [Hrx Hun].
  pose proof (measure_relax_initial m p0).
  apply (relax_loop_total m Hwf Hstart _ _ fuel fuel 0); (done || lia).
Qed.

End relaxing_instances.

(** ** Breadth-first levels *)

(** What a breadth-first search from [s] knows about depths.  [δ c] is
    the depth at which [c] was discovered, [k] the depth of the cell
    expanded last and [q] the queue. *)
Record levels (m : Maze) (s : coord) (k : nat) (q : list coord)
    (v : gset string) (par : gmap string coord) (δ : coord → nat) : Prop := {
  lv_chain : ∀ c p, key c ∈ v → chain par s c p → length p = S (δ c);
  lv_queue : ∀ c, c ∈ q → (k ≤ δ c ≤ S k)%nat;
  lv_sorted : ∀ i j x y,
    (i ≤ j)%nat → q !! i = Some x → q !! j = Some y → (δ x ≤ δ y)%nat;
  lv_done : ∀ c, key c ∈ v → c ∉ q → (δ c ≤ k)%nat;
  lv_edge : ∀ c w,
    key c ∈ v → c ∉ q → w ∈ neighbours m c → key w ∈ v → (δ w ≤ S (δ c))%nat
}.

Section breadth_first_side.
Import PathfindingAlgorithms.
Variable m : Maze.
Variable s : coord.
Implicit Types (q : list coord) (v : gset string) (par : gmap string coord).
Implicit Types (δ : coord → nat) (c cur nb w : coord).

Lemma explored_pop d cur q1 v par :
  explored m s d None (cur :: q1) v par →
  explored m s (S d) (Some cur) q1 v par.
Proof.
  intros Hex. split; try apply Hex.
  - intros c Hc. eapply ex_frontier; [done|]. by right.
  - intros k Hk. destruct (ex_chain _ _ _ _ _ _ _ Hex _ Hk) as (c & p & ? & ? & ? & ? & ?).
    exists c, p. repeat split; auto; lia.
  - intros c w Hc Hfr Hne Hw. eapply ex_closed; [done..| |done|done].
    intros [->|?]%elem_of_cons; [by destruct Hne|done].
Qed.

Lemma explored_close d cur q v par :
  explored m s d (Some cur) q v par →
  (∀ w, w ∈ neighbours m cur → key w ∈ v) →
  explored m s d None q v par.
Proof.
  intros Hex Hnb. split; try apply Hex.
  intros c w Hc Hfr _ Hw. destruct (decide (c = cur)) as [->|Hne]; [by apply Hnb|].
  eapply ex_closed; [done..| |done]. congruence.
Qed.

Lemma levels_pop d k cur q1 v par δ :
  explored m s d None (cur :: q1) v par →
  levels m s k (cur :: q1) v par δ →
  levels m s (δ cur) q1 v par δ.
Proof.
  intros Hex Hlv.
  assert (k ≤ δ cur ≤ S k)%nat as Hcur by (eapply lv_queue; [done|by left]).
  split.
  - apply Hlv.
  - intros c Hc. split.
    + apply list_elem_of_lookup in Hc as [j Hj].
      eapply (lv_sorted _ _ _ _ _ _ _ Hlv 0 (S j)); [lia|done..].
    + assert (δ c ≤ S k)%nat; [|lia]. eapply lv_queue; [done|by right].
  - intros i j x y Hij Hx Hy.
    eapply (lv_sorted _ _ _ _ _ _ _ Hlv (S i) (S j)); [lia|done..].
  - intros c Hc Hq. destruct (decide (c = cur)) as [->|Hne]; [done|].
    assert (δ c ≤ k)%nat; [|lia]. eapply lv_done; [done..|].
    intros [->|?]%elem_of_cons; done.
  - intros c w Hc Hq Hw Hwv. destruct (decide (c = cur)) as [->|Hne].
    + destruct (decide (w ∈ cur :: q1)) as [Hin|Hnin].
      * assert (δ w ≤ S k)%nat; [|lia]. by eapply lv_queue.
      * assert (δ w ≤ k)%nat; [|lia]. by eapply lv_done.
    + eapply lv_edge; [done..| |done|done]. intros [->|?]%elem_of_cons; done.
Qed.

Lemma levels_discover d k cur q v par δ nb pc :
  explored m s d (Some cur) q v par → levels m s k q v par δ →
  δ cur = k → key cur ∈ v → chain par s cur pc →
  nb ∈ neighbours m cur →
  ∃ δ', levels m s k (discover array_push cur (q, v, par) nb).1.1
                     (discover array_push cur (q, v, par) nb).1.2
                     (discover array_push cur (q, v, par) nb).2 δ' ∧
        δ' cur = k ∧ (∀ c, key c ∈ v → δ' c = δ c).
Proof.
  intros Hex Hlv Hk Hcur Hpc Hnb. unfold discover.
  destruct (decide (key nb ∈ v)) as [Hin|Hnin]; simpl.
  { exists δ. done. }
  assert (par !! key nb = None) as Hnone.
  { apply eq_None_not_Some. intros ?%(ex_parent _ _ _ _ _ _ _ Hex). done. }
  assert (key nb ≠ key s) as Hns.
  { intros Heq. rewrite Heq in Hnin. by apply Hnin, (ex_source _ _ _ _ _ _ _ Hex). }
  assert (∀ c, key c ∈ v → c ≠ nb) as Hold by (intros c ? ->; done).
  set (δ' := λ c, if decide (c = nb) then S k else δ c).
  assert (∀ c, key c ∈ v → δ' c = δ c) as Hagree.
  { intros c Hc. unfold δ'. rewrite decide_False; [done|]. by apply Hold. }
  assert (δ' nb = S k) as Hδnb by (unfold δ'; by rewrite decide_True).
  exists δ'. split; [|split; [rewrite Hagree; done|done]].
  unfold array_push. split.
  - intros c p [Hc|Hc%elem_of_singleton]%elem_of_union Hp.
    + rewrite Hagree by done.
      destruct (ex_chain _ _ _ _ _ _ _ Hex _ Hc) as (c' & p0 & Hk' & _ & Hp0 & _).
      apply key_inj in Hk' as ->.
      rewrite (chain_functional _ _ _ _ _ Hp (chain_insert _ _ _ _ _ cur Hp0 Hnone)).
      by eapply lv_chain.
    + apply key_inj in Hc as ->. rewrite Hδnb.
      inversion Hp as [Heq|? u p0 Hne Hu Hp0]; subst.
      { by destruct Hns. }
      rewrite lookup_insert_eq in Hu. injection Hu as <-.
      rewrite (chain_functional _ _ _ _ _ Hp0 (chain_insert _ _ _ _ _ cur Hpc Hnone)).
      rewrite length_app. simpl.
      rewrite (lv_chain _ _ _ _ _ _ _ Hlv cur pc Hcur Hpc). lia.
  - intros c [Hc|Hc%list_elem_of_singleton]%elem_of_app.
    + rewrite Hagree by (by eapply ex_frontier). by eapply lv_queue.
    + subst c. rewrite Hδnb. lia.
  - intros i j x y Hij Hx Hy.
    assert (∀ z, z ∈ q → δ' z = δ z ∧ (δ z ≤ S k)%nat) as Hq.
    { intros z Hz. split; [apply Hagree; by eapply ex_frontier|].
      by eapply lv_queue. }
    apply lookup_app_Some in Hy as [Hy|[Hj Hy]].
    + rewrite lookup_app_l in Hx by (apply lookup_lt_Some in Hy; lia).
      destruct (Hq x) as [-> _]; [by eapply list_elem_of_lookup_2|].
      destruct (Hq y) as [-> _]; [by eapply list_elem_of_lookup_2|].
      by eapply lv_sorted.
    + apply list_lookup_singleton_Some in Hy as [_ <-]. rewrite Hδnb.
      apply lookup_app_Some in Hx as [Hx|[_ Hx]].
      * destruct (Hq x) as [-> ?]; [by eapply list_elem_of_lookup_2|done].
      * apply list_lookup_singleton_Some in Hx as [_ <-]. by rewrite Hδnb.
  - intros c [Hc|Hc%elem_of_singleton]%elem_of_union Hq.
    + rewrite Hagree by done. eapply lv_done; [done..|].
      intros ?. apply Hq, elem_of_app. by left.
    + apply key_inj in Hc as ->. destruct Hq. apply elem_of_app. right. by left.
  - intros c w Hc Hq Hw Hwv.
    assert (c ≠ nb) as Hcn.
    { intros ->. apply Hq, elem_of_app. right. by left. }
    assert (key c ∈ v) as Hcv.
    { apply elem_of_union in Hc as [?|Hc%elem_of_singleton]; [done|].
      by apply key_inj in Hc. }
    assert (c ∉ q) as Hcq by (intros ?; apply Hq, elem_of_app; by left).
    rewrite (Hagree c) by done.
    destruct (decide (w = nb)) as [->|Hwn].
    + rewrite Hδnb. destruct (decide (c = cur)) as [->|Hne]; [lia|].
      destruct Hnin. eapply ex_closed; [done..| |done]. congruence.
    + assert (key w ∈ v) as Hwv'.
      { apply elem_of_union in Hwv as [?|Hk'%elem_of_singleton]; [done|].
        by apply key_inj in Hk'. }
      rewrite (Hagree w) by done. by eapply lv_edge.
Qed.

Lemma levels_fold d k cur ns q v par δ pc :
  explored m s (S d) (Some cur) q v par → levels m s k q v par δ →
  δ cur = k → key cur ∈ v →
  chain par s cur pc → linked m pc → (length pc ≤ S d)%nat →
  (∀ nb, nb ∈ ns → nb ∈ neighbours m cur) →
  ∃ q' v' par' δ',
    foldl (discover array_push cur) (q, v, par) ns = (q', v', par') ∧
    levels m s k q' v' par' δ' ∧ δ' cur = k ∧ (∀ c, key c ∈ v → δ' c = δ c).
Proof.
  revert q v par δ. induction ns as [|nb ns IH];
    intros q v par δ Hex Hlv Hk Hcur Hpc Hlpc Hlen Hns.
  { exists q, v, par, δ. done. }
  destruct (discover_explored array_push id array_push_perm m s d cur q v par nb pc) as
    (q1 & v1 & par1 & Hd & Hex1 & Hpc1 & Hv1 & _); [done..|apply Hns; by left|].
  destruct (levels_discover (S d) k cur q v par δ nb pc) as (δ1 & Hlv1 & Hk1 & Hag1);
    [done..|apply Hns; by left|].
  rewrite Hd in Hlv1. simpl in Hlv1.
  destruct (IH q1 v1 par1 δ1) as (q2 & v2 & par2 & δ2 & Hd2 & Hlv2 & Hk2 & Hag2);
    [done|done|done|set_solver|done|done|done|intros; apply Hns; by right|].
  exists q2, v2, par2, δ2. split.
  { change (foldl (discover array_push cur) (discover array_push cur (q, v, par) nb) ns
            = (q2, v2, par2)). by rewrite Hd. }
  split; [done|]. split; [done|].
  intros c Hc. rewrite Hag2 by set_solver. by apply Hag1.
Qed.

(** One expansion of a breadth-first search: the head of the queue is
    taken off and its neighbours are discovered. *)
Lemma breadth_first_turn d k cur q1 v par δ :
  explored m s d None (cur :: q1) v par →
  levels m s k (cur :: q1) v par δ →
  ∃ q' v' par' δ',
    foldl (discover array_push cur) (q1, v, par) (neighbours m cur) = (q', v', par') ∧
    explored m s (S d) None q' v' par' ∧
    levels m s (δ cur) q' v' par' δ' ∧
    (∀ c, key c ∈ v → δ' c = δ c) ∧ v ⊆ v' ∧
    (∀ c, c ∈ q1 → c ∈ q') ∧
    (∀ c, key c ∈ v' → key c ∈ v ∨ (c ∈ neighbours m cur ∧ c ∈ q')) ∧
    (measure m q' v' < measure m (cur :: q1) v)%nat.
Proof.
  intros Hex Hlv.
  assert (key cur ∈ v) as Hcur by (eapply ex_frontier; [done|by left]).
  destruct (ex_chain _ _ _ _ _ _ _ Hex _ Hcur) as (c & pc & Hk & Hw & Hpc & Hlpc & Hlen).
  apply key_inj in Hk as ->.
  pose proof (explored_pop _ _ _ _ _ Hex) as Hex1.
  pose proof (levels_pop _ _ _ _ _ _ _ Hex Hlv) as Hlv1.
  destruct (discover_fold array_push id array_push_perm m s d cur
              (neighbours m cur) q1 v par pc) as
    (q' & v' & par' & Hfold & Hex' & Hpc' & Hv' & Hnb' & Hf' & Hn' & Hm'); [done..|].
  destruct (levels_fold d (δ cur) cur (neighbours m cur) q1 v par δ pc) as
    (q2 & v2 & par2 & δ' & Hfold2 & Hlv' & Hk' & Hag'); [done..|].
  rewrite Hfold in Hfold2. injection Hfold2 as <- <- <-.
  exists q', v', par', δ'. split; [done|]. split; [by apply (explored_close _ cur)|].
  split; [done|]. split; [done|]. split; [done|]. split; [done|]. split; [done|].
  unfold measure in *. simpl in *. lia.
Qed.

(** Walking along a route from a visited cell, one meets the queue
    before one meets a cell that has not been expanded, and not later
    than the depths allow. *)
Lemma frontier_cut d k q v par δ p x :
  explored m s d None q v par → levels m s k q v par δ →
  linked m p → head p = Some x → key x ∈ v →
  (∃ c, c ∈ p ∧ ¬ (key c ∈ v ∧ c ∉ q)) →
  ∃ p1 y p2, p = p1 ++ y :: p2 ∧ (∀ c, c ∈ p1 → key c ∈ v ∧ c ∉ q) ∧
             y ∈ q ∧ (δ y ≤ δ x + length p1)%nat.
Proof.
  intros Hex Hlv. revert x. induction p as [|a p IH]; intros x Hl Hh Hx Hc; [done|].
  injection Hh as ->.
  destruct (decide (x ∈ q)) as [Hq|Hq].
  { exists [], x, p. split; [done|]. split; [by intros ? ?%elem_of_nil|].
    split; [done|simpl; lia]. }
  destruct Hc as (c & Hc & Hnd).
  apply elem_of_cons in Hc as [->|Hc]; [by destruct Hnd|].
  destruct p as [|b p]; [by apply elem_of_nil in Hc|].
  destruct Hl as [Hxb Hl].
  assert (key b ∈ v) as Hb by (eapply ex_closed; [done..| |done]; done).
  destruct (IH b Hl eq_refl Hb) as (p1 & y & p2 & Hp & Hp1 & Hy & Hδ); [by eexists|].
  exists (x :: p1), y, p2. split; [by rewrite Hp|]. split; [|split; [done|]].
  - intros c' [->|?]%elem_of_cons; auto.
  - pose proof (lv_edge _ _ _ _ _ _ _ Hlv x b Hx Hq Hxb Hb). simpl. lia.
Qed.

End breadth_first_side.

(** The returned path is as short as any route. *)
Definition shortest_result (m : Maze) (r : Result) : Prop :=
  ∀ p p', path r = Some p → route m (start m) (end_ m) p' →
          (length p ≤ length p')%nat.

Section breadth_first_optimal.
Import PathfindingAlgorithms.
Variable m : Maze.
Hypothesis Hwf : wf m.
Hypothesis Hstart : walkable m (start m) = true.

Lemma levels_source s k q v par δ :
  explored m s 0 None q v par ∨ key s ∈ v → levels m s k q v par δ → δ s = 0%nat.
Proof.
  intros Hs Hlv.
  assert (key s ∈ v) as Hsv by (destruct Hs as [Hex|?]; [apply Hex|done]).
  pose proof (lv_chain _ _ _ _ _ _ _ Hlv s [s] Hsv (chain_start _ _)) as Hl.
  simpl in Hl. lia.
Qed.

Lemma levels_initial s : levels m s 0 [s] {[key s]} ∅ (λ _, 0%nat).
Proof.
  split.
  - intros c p Hc%elem_of_singleton%key_inj Hp. subst c.
    inversion Hp as [|? u p0 Hne Hu _]; [done|]. by rewrite lookup_empty in Hu.
  - intros c _. lia.
  - intros. lia.
  - intros. lia.
  - intros. lia.
Qed.

Lemma bfs_loop_optimal rfuel fuel d k q v par δ n r m' :
  explored m (start m) d None q v par → levels m (start m) k q v par δ →
  unfinished m q v →
  bfs_loop rfuel fuel m q v par n = Ok (r, m') → shortest_result m r.
Proof.
  revert d k q v par δ n.
  induction fuel as [|fuel IH]; intros d k q v par δ n Hex Hlv Hun; simpl; [done|].
  destruct q as [|cur q1]; simpl.
  { intros [= <- <-] p p' Hp. done. }
  assert (key cur ∈ v) as Hcur by (eapply ex_frontier; [done|by left]).
  destruct (same_cell cur (end_ m)) eqn:Hsame.
  - apply same_cell_true in Hsame as ->. res_unfold.
    destruct (reconstructPath _ _ _ _) as [p0| |] eqn:Hrec; [|done..].
    intros [= <- <-] p p' [= <-] (Hh & Hla & Hl).
    destruct (ex_chain _ _ _ _ _ _ _ Hex _ Hcur) as (c & pc & Hk & _ & Hpc & _).
    apply key_inj in Hk as ->.
    unfold reconstructPath in Hrec. apply (chain_reconstruct_inv _ _ _ pc) in Hrec; [|done].
    rewrite app_nil_r in Hrec. subst p0.
    rewrite (lv_chain _ _ _ _ _ _ _ Hlv _ _ Hcur Hpc).
    destruct (frontier_cut m (start m) d k (end_ m :: q1) v par δ p' (start m))
      as (p1 & y & p2 & -> & _ & Hy & Hδ); [done..|by eapply ex_source| |].
    { exists (end_ m). split; [by apply last_Some_elem_of|].
      intros [_ Hn]. apply Hn. by left. }
    rewrite (levels_source (start m) k _ v par δ) in Hδ by (done || (right; by eapply ex_source)).
    apply list_elem_of_lookup in Hy as [j Hj].
    pose proof (lv_sorted _ _ _ _ _ _ _ Hlv 0 j (end_ m) y (Nat.le_0_l j) eq_refl Hj).
    rewrite length_app. simpl. lia.
  - apply same_cell_false in Hsame.
    rewrite getNeighbors_coord by done. res_unfold.
    destruct (breadth_first_turn m (start m) d k cur q1 v par δ) as
      (q' & v' & par' & δ' & -> & Hex' & Hlv' & _ & _ & Hq' & Hn' & _); [done..|].
    eapply IH; [done..|].
    intros c Hc Hfr. destruct (decide (c = cur)) as [->|Hne]; [done|].
    destruct (Hn' c Hc) as [Hcv|[_ ?]]; [|done].
    apply Hun; [done|]. intros [->|?]%elem_of_cons; [done|]. apply Hfr. auto.
Qed.

Lemma bfs_optimal fuel r m' : bfs fuel m = Ok (r, m') → shortest_result m r.
Proof.
  unfold bfs.
  destruct (search_initial array_shift array_push id array_shift_nil array_shift_perm
              array_push_perm m Hwf Hstart [start m] eq_refl) as [Hex Hun].
  eapply bfs_loop_optimal; [done| |done]. apply levels_initial.
Qed.

End breadth_first_optimal.

(** ** Optimality of the relaxing searches *)

(** Priorities never decrease along the queue. *)
Fixpoint nondecreasing {A} (l : list (PriorityQueue.entry A)) : Prop :=
  match l with
  | [] => True
  | e :: l' =>
    (∀ e', e' ∈ l' → ¬ prec (PriorityQueue.priority e') (PriorityQueue.priority e)) ∧
    nondecreasing l'
  end.

(** What a relaxing search with the integer heuristic [hz] knows about
    scores and priorities.  [fl] separates the cells expanded so far from
    the entries still queued. *)
Record scored (m : Maze) (hz : coord → Z) (exempt : option coord) (fl : Z)
    (vals : list (PriorityQueue.entry coord)) (g : gmap string jsnum)
    (v : gset string) : Prop := {
  sc_lower : ∀ e, e ∈ vals →
    ∃ p z, PriorityQueue.priority e = JInt p ∧
           g !! key (PriorityQueue.item e) = Some (JInt z) ∧
           z + hz (PriorityQueue.item e) ≤ p;
  sc_exact : ∀ c z, g !! key c = Some (JInt z) → key c ∉ v →
    PriorityQueue.Entry c (JInt (z + hz c)) ∈ vals;
  sc_sorted : nondecreasing vals;
  sc_floor : ∀ u zu, key u ∈ v → g !! key u = Some (JInt zu) → zu + hz u ≤ fl;
  sc_ceil : ∀ e p, e ∈ vals → PriorityQueue.priority e = JInt p → fl ≤ p;
  sc_edge : ∀ u w zu,
    key u ∈ v → Some u ≠ exempt → g !! key u = Some (JInt zu) →
    w ∈ neighbours m u → ∃ zw, g !! key w = Some (JInt zw) ∧ zw ≤ zu + 1
}.

Section sorted_queue.
Import PriorityQueue.
Context {A : Type}.
Implicit Types (e : entry A) (l : list (entry A)).

Lemma sort_insert_nondecreasing e l :
  nondecreasing l → is_int (priority e) → (∀ e', e' ∈ l → is_int (priority e')) →
  nondecreasing (sort_insert compare e l).
Proof.
  intros Hnd [pe Hpe]. induction l as [|y l IH]; intros Hint; simpl.
  { split; [|done]. by intros ? ?%elem_of_nil. }
  destruct Hnd as [Hy Hnd]. destruct (Hint y) as [py Hpy]; [by left|].
  destruct (JSNum.lt (compare y e) (JInt 0)) eqn:Hlt.
  - split.
    + intros e'. rewrite sort_insert_perm. intros [->|He']%elem_of_cons; [|by apply Hy].
      unfold compare in Hlt. rewrite Hpe, Hpy in *. rewrite prec_int.
      simpl in Hlt. apply bool_decide_eq_true in Hlt. lia.
    + apply IH; [done|]. intros e' He'. apply Hint. by right.
  - split; [|by split].
    assert (¬ prec (priority y) (priority e)) as Hye.
    { unfold prec, compare in *. by rewrite Hlt. }
    intros e' [->|He']%elem_of_cons; [done|].
    destruct (Hint e') as [p' Hp']; [by right|].
    specialize (Hy e' He'). rewrite Hpe, Hpy, Hp', !prec_int in *. lia.
Qed.

Lemma array_sort_nondecreasing l :
  (∀ e', e' ∈ l → is_int (priority e')) → nondecreasing (array_sort compare l).
Proof.
  induction l as [|e l IH]; intros Hint; simpl; [done|].
  apply sort_insert_nondecreasing.
  - apply IH. intros e' He'. apply Hint. by right.
  - apply Hint. by left.
  - intros e'. fold (array_sort compare l). rewrite array_sort_perm.
    intros He'. apply Hint. by right.
Qed.

Lemma nondecreasing_head e l e' p p' :
  nondecreasing (e :: l) → e' ∈ e :: l →
  priority e = JInt p → priority e' = JInt p' → p ≤ p'.
Proof.
  intros [He _] [->|Hin]%elem_of_cons Hp Hp'.
  - rewrite Hp in Hp'. injection Hp' as ->. lia.
  - specialize (He e' Hin). rewrite Hp, Hp', prec_int in He. lia.
Qed.

End sorted_queue.

Section relaxing_optimal.
Import PathfindingAlgorithms PriorityQueue.
Variable m : Maze.
Hypothesis Hwf : wf m.
Hypothesis Hstart : walkable m (start m) = true.
Variable hz : coord → Z.
Variable prio : coord → jsnum → jsnum.
Variable lbl : option string.
Hypothesis prio_int : ∀ c z, prio c (JInt z) = JInt (z + hz c).
Hypothesis hz_goal : hz (end_ m) = 0.
Hypothesis hz_step : ∀ c w, w ∈ neighbours m c → hz c ≤ hz w + 1.
Implicit Types (g : gmap string jsnum) (v : gset string) (par : gmap string coord).
Implicit Types (pq : PriorityQueue.t coord) (c cur nb u w : coord).

(** The heuristic never exceeds the length of a route to the goal. *)
Lemma hz_admissible p x :
  linked m p → head p = Some x → list.last p = Some (end_ m) →
  hz x ≤ Z.of_nat (length p) - 1.
Proof.
  revert x. induction p as [|a p IH]; intros x Hl Hh Hla; [done|].
  injection Hh as ->. destruct p as [|b p].
  - injection Hla as ->. rewrite hz_goal. simpl. lia.
  - destruct Hl as [Hxb Hl]. specialize (IH b Hl eq_refl Hla).
    pose proof (hz_step x b Hxb). simpl length in *. lia.
Qed.

Lemma relax_scored d cur zc fl pq g v par nb :
  relaxed m (start m) (S d) (Some cur) (pq_items pq) g v par →
  scored m hz (Some cur) fl (values pq) g v →
  g !! key cur = Some (JInt zc) → key cur ∈ v → fl = zc + hz cur →
  nb ∈ neighbours m cur →
  scored m hz (Some cur) fl (values (relax prio cur (g, par, pq) nb).2)
                            (relax prio cur (g, par, pq) nb).1.1 v.
Proof.
  intros Hrx Hsc Hcur Hcv Hfl Hnb. unfold relax. rewrite Hcur.
  change (JSNum.add (JSNum.of_lookup (Some (JInt zc))) (JInt 1)) with (JInt (zc + 1)).
  pose proof (neighbours_ne _ _ _ Hnb) as Hne.
  set (cond := negb _ || _).
  assert (cond = true → ∀ zn, g !! key nb = Some (JInt zn) → zc + 1 < zn) as Hlt.
  { unfold cond. intros Hc zn Hzn. rewrite Hzn in Hc. simpl in Hc.
    by apply bool_decide_eq_true in Hc. }
  destruct cond; [|done]. specialize (Hlt eq_refl). simpl.
  rewrite prio_int.
  assert (key nb ∉ v) as Hnv.
  { intros Hv. destruct (rx_visited _ _ _ _ _ _ _ _ Hrx _ Hv) as [x Hx].
    destruct (rx_score _ _ _ _ _ _ _ _ Hrx _ _ Hx) as (c & zn & _ & -> & _).
    pose proof (sc_floor _ _ _ _ _ _ _ Hsc nb zn Hv Hx).
    pose proof (hz_step cur nb Hnb). specialize (Hlt _ Hx). lia. }
  assert (∀ e, e ∈ array_sort compare (array_push (values pq) (Entry nb (JInt (zc + 1 + hz nb))))
             ↔ e = Entry nb (JInt (zc + 1 + hz nb)) ∨ e ∈ values pq) as Hin.
  { intros e. rewrite array_sort_perm. unfold array_push.
    rewrite elem_of_app, list_elem_of_singleton. tauto. }
  split.
  - intros e [->|He]%Hin; simpl.
    + exists (zc + 1 + hz nb), (zc + 1). rewrite lookup_insert_eq. split; [done|]. split; [done|lia].
    + destruct (sc_lower _ _ _ _ _ _ _ Hsc e He) as (p & z & Hp & Hz & Hle).
      destruct (decide (key (item e) = key nb)) as [Hk|Hk].
      * exists p, (zc + 1). rewrite Hk, lookup_insert_eq. split; [done|]. split; [done|].
        rewrite Hk in Hz. specialize (Hlt _ Hz). lia.
      * exists p, z. rewrite lookup_insert_ne by done. done.
  - intros c z Hz Hc. apply Hin. destruct (decide (key c = key nb)) as [Hk|Hk].
    + rewrite Hk, lookup_insert_eq in Hz. injection Hz as <-.
      apply key_inj in Hk as ->. by left.
    + rewrite lookup_insert_ne in Hz by done. right. by eapply sc_exact.
  - apply array_sort_nondecreasing. intros e. unfold array_push.
    rewrite elem_of_app, list_elem_of_singleton. intros [He| ->]; [|by eexists].
    destruct (sc_lower _ _ _ _ _ _ _ Hsc e He) as (p & _ & Hp & _). by eexists.
  - intros u zu Hu Hzu. rewrite lookup_insert_ne in Hzu by (intros Hk; by rewrite <-Hk in Hu).
    by eapply sc_floor.
  - intros e p [->|He]%Hin Hp; simpl in *.
    + injection Hp as <-. pose proof (hz_step cur nb Hnb). lia.
    + by eapply sc_ceil.
  - intros u w zu Hu Hex Hzu Hw.
    rewrite lookup_insert_ne in Hzu by (intros Hk; by rewrite <-Hk in Hu).
    destruct (sc_edge _ _ _ _ _ _ _ Hsc u w zu Hu Hex Hzu Hw) as (zw & Hzw & Hle).
    destruct (decide (key w = key nb)) as [Hk|Hk].
    + exists (zc + 1). rewrite Hk, lookup_insert_eq. split; [done|].
      rewrite Hk in Hzw. specialize (Hlt _ Hzw). lia.
    + exists zw. rewrite lookup_insert_ne by done. done.
Qed.

Lemma relax_scored_fold d cur zc fl ns pq g v par :
  relaxed m (start m) (S d) (Some cur) (pq_items pq) g v par →
  scored m hz (Some cur) fl (values pq) g v →
  g !! key cur = Some (JInt zc) → zc ≤ Z.of_nat d → key cur ∈ v → fl = zc + hz cur →
  (∀ nb, nb ∈ ns → nb ∈ neighbours m cur) →
  scored m hz (Some cur) fl (values (foldl (relax prio cur) (g, par, pq) ns).2)
                            (foldl (relax prio cur) (g, par, pq) ns).1.1 v.
Proof.
  revert pq g par. induction ns as [|nb ns IH]; intros pq g par Hrx Hsc Hcur Hzc Hcv Hfl Hns.
  { done. }
  cbn [foldl].
  destruct (relax_relaxed m prio (start m) d cur zc pq g v par nb) as
    (g1 & par1 & pq1 & Hr1 & Hrx1 & Hcur1 & _); [done..|apply Hns; by left|].
  pose proof (relax_scored d cur zc fl pq g v par nb Hrx Hsc Hcur Hcv Hfl) as Hsc1.
  rewrite Hr1 in *. simpl in Hsc1.
  apply (IH pq1 g1 par1); [done|apply Hsc1; apply Hns; by left|done..|].
  intros; apply Hns; by right.
Qed.

Lemma scored_turn d fl pq g v par :
  relaxed m (start m) d None (pq_items pq) g v par →
  scored m hz None fl (values pq) g v → unfinished_relax m v →
  match values pq with
  | [] => True
  | e :: rest =>
    if decide (key (item e) ∈ v)
    then scored m hz None fl rest g v
    else if same_cell (item e) (end_ m) then
      ∀ p p', chain par (start m) (end_ m) p → route m (start m) (end_ m) p' →
              (length p ≤ length p')%nat
    else
      ∃ fl', scored m hz None fl'
        (values (foldl (relax prio (item e)) (g, par, Build rest) (neighbours m (item e))).2)
        (foldl (relax prio (item e)) (g, par, Build rest) (neighbours m (item e))).1.1
        (v ∪ {[key (item e)]})
  end.
Proof.
  intros Hrx Hsc Hun. destruct pq as [[|[cur pe] rest]]; simpl in *; [done|].
  destruct (sc_sorted _ _ _ _ _ _ _ Hsc) as [Hhead Hsorted].
  destruct (decide (key cur ∈ v)) as [Hv|Hv].
  { split.
    - intros e He. eapply sc_lower; [done|]. by right.
    - intros c z Hz Hc. pose proof (sc_exact _ _ _ _ _ _ _ Hsc c z Hz Hc) as Hin.
      apply elem_of_cons in Hin as [[= <- _]|?]; done.
    - done.
    - apply Hsc.
    - intros e p He. eapply sc_ceil; [done|]. by right.
    - apply Hsc. }
  assert (is_Some (g !! key cur)) as [x Hx].
  { eapply rx_items; [done|]. unfold pq_items. simpl. by left. }
  destruct (rx_score _ _ _ _ _ _ _ _ Hrx _ _ Hx) as (c0 & zc & Hk0 & -> & [Hz0 Hzd] & Hw0).
  apply key_inj in Hk0 as ->.
  destruct (sc_lower _ _ _ _ _ _ _ Hsc (Entry cur pe)) as (p0 & z & Hp0 & Hz & Hle); [by left|].
  simpl in *. subst pe. rewrite Hx in Hz. injection Hz as <-.
  pose proof (sc_exact _ _ _ _ _ _ _ Hsc cur zc Hx Hv) as Hex.
  assert (p0 = zc + hz cur) as ->.
  { pose proof (nondecreasing_head _ _ _ p0 (zc + hz cur)
                  (sc_sorted _ _ _ _ _ _ _ Hsc) Hex eq_refl eq_refl). lia. }
  clear Hle.
  assert (∀ e p, e ∈ Entry cur (JInt (zc + hz cur)) :: rest →
                 priority e = JInt p → zc + hz cur ≤ p) as Hmin.
  { intros e p He Hp.
    by eapply (nondecreasing_head _ _ e _ p (sc_sorted _ _ _ _ _ _ _ Hsc)). }
  destruct (same_cell cur (end_ m)) eqn:Hsame.
  { apply same_cell_true in Hsame as ->.
    intros p p' Hp (Hh & Hla & Hl).
    destruct (relaxed_chain m _ _ _ _ _ _ _ _ _ Hrx Hx) as (p1 & Hp1 & _ & Hlen).
    rewrite (chain_functional _ _ _ _ _ Hp Hp1).
    assert (∀ q y zy, linked m q → head q = Some y → list.last q = Some (end_ m) →
              g !! key y = Some (JInt zy) →
              zc + hz (end_ m) ≤ zy + (Z.of_nat (length q) - 1)) as Hbound.
    { clear p p' Hp Hh Hla Hl p1 Hp1 Hlen.
      intros q. induction q as [|a q IH]; intros y zy Hl Hh Hla Hzy; [done|].
      injection Hh as ->.
      destruct (decide (key y ∈ v)) as [Hyv|Hyv].
      - destruct q as [|b q].
        { injection Hla as ->. done. }
        destruct Hl as [Hyb Hl].
        destruct (sc_edge _ _ _ _ _ _ _ Hsc y b zy Hyv) as (zb & Hzb & Hle); [done..|].
        specialize (IH b zb Hl eq_refl Hla Hzb). simpl length in *. lia.
      - pose proof (sc_exact _ _ _ _ _ _ _ Hsc y zy Hzy Hyv) as Hin.
        pose proof (Hmin _ _ Hin eq_refl).
        pose proof (hz_admissible (y :: q) y Hl eq_refl Hla). lia. }
    specialize (Hbound p' (start m) 0 Hl Hh Hla (rx_source _ _ _ _ _ _ _ _ Hrx)).
    rewrite hz_goal in Hbound. lia. }
  apply same_cell_false in Hsame.
  exists (zc + hz cur).
  assert (relaxed m (start m) (S d) (Some cur) (pq_items (Build rest)) g (v ∪ {[key cur]}) par)
    as Hrx1.
  { unfold pq_items in *. simpl in *. split; try apply Hrx.
    - intros k y Hy. destruct (rx_score _ _ _ _ _ _ _ _ Hrx _ _ Hy) as (c & z & ? & ? & ? & ?).
      exists c, z. repeat split; auto; lia.
    - intros k [Hk|Hk%elem_of_singleton]%elem_of_union; [by eapply rx_visited|].
      subst k. by eexists.
    - intros c Hc Hcv.
      assert (key c ∉ v) as Hcv' by set_solver.
      pose proof (rx_pending _ _ _ _ _ _ _ _ Hrx c Hc Hcv') as Hin.
      apply elem_of_cons in Hin as [->|?]; [set_solver|done].
    - intros c Hc. eapply rx_items; [done|]. by right.
    - intros c w [Hc|Hc%elem_of_singleton]%elem_of_union Hne Hw.
      + eapply rx_closed; [done..| |done]; done.
      + apply key_inj in Hc as ->. by destruct Hne. }
  assert (scored m hz (Some cur) (zc + hz cur) rest g (v ∪ {[key cur]})) as Hsc1.
  { split.
    - intros e He. eapply sc_lower; [done|]. by right.
    - intros c z Hz Hc.
      assert (key c ∉ v) as Hcv' by set_solver.
      pose proof (sc_exact _ _ _ _ _ _ _ Hsc c z Hz Hcv') as Hin.
      apply elem_of_cons in Hin as [[= <- _]|?]; [set_solver|done].
    - done.
    - intros u zu [Hu|Hu%elem_of_singleton]%elem_of_union Hzu.
      + pose proof (sc_floor _ _ _ _ _ _ _ Hsc u zu Hu Hzu).
        pose proof (sc_ceil _ _ _ _ _ _ _ Hsc (Entry cur (JInt (zc + hz cur))) _
                      ltac:(by left) eq_refl). lia.
      + apply key_inj in Hu as ->. rewrite Hx in Hzu. injection Hzu as <-. lia.
    - intros e p He Hp. apply (Hmin e p); [by right|done].
    - intros u w zu [Hu|Hu%elem_of_singleton]%elem_of_union Hne Hzu Hw.
      + by eapply (sc_edge _ _ _ _ _ _ _ Hsc).
      + apply key_inj in Hu as ->. by destruct Hne. }
  pose proof (relax_scored_fold d cur zc (zc + hz cur) (neighbours m cur) (Build rest) g
                (v ∪ {[key cur]}) par Hrx1 Hsc1 Hx Hzd) as Hsc2.
  destruct (relax_fold m prio (start m) d cur zc (neighbours m cur) (Build rest) g
              (v ∪ {[key cur]}) par) as
    (g' & par' & pq' & Hfold & Hrx' & Hcur' & Hnb' & Hle' & Hlen'); [done..|].
  rewrite Hfold in *. simpl in Hsc2.
  assert (scored m hz (Some cur) (zc + hz cur) (values pq') g' (v ∪ {[key cur]})) as Hsc3.
  { apply Hsc2; [set_solver|done|done]. }
  simpl. split; try apply Hsc3.
  intros u w zu Hu _ Hzu Hw. destruct (decide (u = cur)) as [->|Hne].
  - rewrite Hcur' in Hzu. injection Hzu as <-. by apply Hnb'.
  - eapply (sc_edge _ _ _ _ _ _ _ Hsc3); [done| |done|done]. congruence.
Qed.

Lemma relax_loop_optimal rfuel fuel d fl pq g v par n r m' :
  relaxed m (start m) d None (pq_items pq) g v par →
  scored m hz None fl (values pq) g v → unfinished_relax m v →
  relax_loop m prio lbl rfuel fuel g par v pq n = Ok (r, m') → shortest_result m r.
Proof.
  revert d fl pq g v par n.
  induction fuel as [|fuel IH]; intros d fl pq g v par n Hrx Hsc Hun; simpl; [done|].
  pose proof (relax_turn m Hwf Hstart prio d pq g v par Hrx Hun) as Hturn.
  pose proof (scored_turn d fl pq g v par Hrx Hsc Hun) as Hopt.
  unfold isEmpty, dequeue. destruct (values pq) as [|e rest]; simpl.
  { by intros [= <- <-] p p' Hp. }
  destruct (decide (key (item e) ∈ v)); [by eapply IH|].
  destruct (same_cell (item e) (end_ m)).
  - destruct Hturn as (p0 & Hp0 & _). res_unfold.
    destruct (reconstructPath _ _ _ _) as [p1| |] eqn:Hrec; [|done..].
    intros [= <- <-] p p' [= <-] Hroute. unfold reconstructPath in Hrec.
    apply (chain_reconstruct_inv _ _ _ p0) in Hrec; [|done].
    rewrite app_nil_r in Hrec. subst p1. by apply Hopt.
  - rewrite getNeighbors_coord by done. res_unfold.
    destruct Hturn as (g' & par' & pq' & Hfold & Hrx' & Hun' & _).
    destruct Hopt as [fl' Hsc']. rewrite Hfold in *. simpl in Hsc'. by eapply IH.
Qed.

Lemma scored_initial :
  scored m hz None (hz (start m)) (values (enqueue new (start m) (JInt (hz (start m)))))
    {[key (start m) := JInt 0]} ∅.
Proof.
  split; simpl.
  - intros e ->%list_elem_of_singleton. simpl. exists (hz (start m)), 0.
    rewrite lookup_singleton_eq. split; [done|]. split; [done|lia].
  - intros c z [Hk [= <-]]%lookup_singleton_Some _. apply key_inj in Hk as <-.
    rewrite Z.add_0_l. by left.
  - split; [|done]. by intros ? ?%elem_of_nil.
  - by intros u zu ?%not_elem_of_empty.
  - intros e p ->%list_elem_of_singleton [= <-]. lia.
  - by intros u w zu ?%not_elem_of_empty.
Qed.

End relaxing_optimal.

(** The Manhattan heuristic as an integer. *)
Definition manhattan (goal c : coord) : Z :=
  Z.abs (row c - row goal) + Z.abs (col c - col goal).

Section relaxing_optimal_instances.
Import PathfindingAlgorithms PriorityQueue.
Variable m : Maze.
Hypothesis Hwf : wf m.
Hypothesis Hstart : walkable m (start m) = true.

Lemma manhattan_step c w : w ∈ neighbours m c → manhattan (end_ m) c ≤ manhattan (end_ m) w + 1.
Proof. intros Hw%neighbours_adjacent. unfold adjacent, manhattan in *. lia. Qed.

Lemma manhattan_goal : manhattan (end_ m) (end_ m) = 0.
Proof. unfold manhattan. lia. Qed.

Lemma dijkstra_optimal fuel r m' : dijkstra fuel m = Ok (r, m') → shortest_result m r.
Proof.
  unfold dijkstra. rewrite dijkstra_loop_generic.
  destruct (relax_initial m Hstart (JInt 0)) as [Hrx Hun].
  apply (relax_loop_optimal m Hwf Hstart (λ _, 0) (λ _ score, score) None)
    with (d := 0%nat) (fl := 0);
    first [done | by apply (scored_initial m (λ _, 0)) | intros c z; f_equal; lia].
Qed.

Lemma heuristicFunc_manhattan hs : hs ≠ "euclidean" → heuristicFunc hs = manhattanDistance.
Proof. intros Hne. unfold heuristicFunc. by rewrite decide_False. Qed.

Lemma astar_optimal fuel hs r m' :
  hs ≠ "euclidean" → astar fuel m hs = Ok (r, m') → shortest_result m r.
Proof.
  intros Hne. unfold astar. rewrite astar_loop_generic.
  rewrite lookup_singleton_eq, heuristicFunc_manhattan by done.
  destruct (relax_initial m Hstart (manhattanDistance (start m) (end_ m))) as [Hrx Hun].
  apply (relax_loop_optimal m Hwf Hstart (manhattan (end_ m))
           (astar_prio manhattanDistance (end_ m)) (Some hs))
    with (d := 0%nat) (fl := manhattan (end_ m) (start m));
    first [done | apply manhattan_goal | apply manhattan_step
          | by apply (scored_initial m (manhattan (end_ m)))].
Qed.

End relaxing_optimal_instances.

(** ** Bidirectional search *)

(** The path [reconstructBidirectionalPath] builds from the two chains
    that end in the meeting cell. *)
Definition joined (p1 p2 : list coord) : list coord := p1 ++ tail (reverse p2).

Section meeting.
Import PathfindingAlgorithms.
Variable m : Maze.
Implicit Types (q : list coord) (v : gset string) (par : gmap string coord).
Implicit Types (δ : coord → nat) (c s t : coord) (p : list coord).

Lemma reconstruct_end_loop_None fuel par k acc :
  reconstruct_end_loop fuel par k None acc = Ok acc.
Proof. by destruct fuel. Qed.

Lemma reconstruct_bidirectional_inv fuel ps pe s c t p1 p2 p :
  chain ps s c p1 → chain pe t c p2 → pe !! key t = None →
  reconstructBidirectionalPath fuel ps pe s c t = Ok p → p = joined p1 p2.
Proof.
  intros H1 H2 Hroot. unfold reconstructBidirectionalPath, joined. res_unfold.
  destruct (reconstruct_loop _ _ _ _ _) as [r1| |] eqn:Hr1; [|done..].
  apply (chain_reconstruct_inv _ _ _ p1) in Hr1; [|done]. rewrite app_nil_r in Hr1. subst r1.
  inversion H2 as [Heq|? u q Hne Hu Hq]; subst.
  - rewrite Hroot, reconstruct_end_loop_None. by intros [= <-].
  - rewrite Hu. destruct (reconstruct_end_loop _ _ _ _ _) as [r2| |] eqn:Hr2; [|done..].
    apply (chain_reconstruct_end_inv _ _ _ q) in Hr2; [|done].
    intros [= <-]. subst r2. by rewrite reverse_snoc.
Qed.

Lemma reconstruct_bidirectional_total fuel ps pe s c t p1 p2 :
  chain ps s c p1 → chain pe t c p2 → pe !! key t = None →
  (length p1 ≤ fuel)%nat → (length p2 ≤ fuel)%nat →
  reconstructBidirectionalPath fuel ps pe s c t = Ok (joined p1 p2).
Proof.
  intros H1 H2 Hroot Hl1 Hl2. unfold reconstructBidirectionalPath, joined. res_unfold.
  rewrite (chain_reconstruct _ _ _ p1) by done. rewrite app_nil_r.
  inversion H2 as [Heq|? u q Hne Hu Hq]; subst.
  - by rewrite Hroot, reconstruct_end_loop_None.
  - rewrite Hu. rewrite length_app in Hl2. simpl in Hl2.
    rewrite (chain_reconstruct_end _ _ _ q) by (done || lia).
    by rewrite reverse_snoc.
Qed.

Lemma joined_length ps pe s c t p1 p2 :
  chain ps s c p1 → chain pe t c p2 →
  S (length (joined p1 p2)) = (length p1 + length p2)%nat.
Proof.
  intros H1 H2. unfold joined. rewrite length_app.
  pose proof (chain_last _ _ _ _ H2) as Hl.
  apply last_Some in Hl as [q ->]. rewrite reverse_snoc. simpl.
  rewrite length_reverse, length_app. simpl. lia.
Qed.

Lemma joined_route ps pe s c t p1 p2 :
  walkable m s = true → walkable m t = true →
  chain ps s c p1 → linked m p1 → chain pe t c p2 → linked m p2 →
  route m s t (joined p1 p2) ∧ ∀ x, x ∈ joined p1 p2 → walkable m x = true.
Proof.
  intros Hs Ht H1 Hl1 H2 Hl2.
  pose proof (chain_head _ _ _ _ H1) as Hh1. pose proof (chain_last _ _ _ _ H1) as Hla1.
  pose proof (chain_head _ _ _ _ H2) as Hh2. pose proof (chain_last _ _ _ _ H2) as Hla2.
  pose proof (linked_reverse _ _ _ Hl2 Hh2 Ht) as Hrev.
  assert (route m s t (joined p1 p2)) as Hroute.
  { unfold joined. apply last_Some in Hla2 as [q ->].
    rewrite reverse_snoc in *. simpl.
    destruct (reverse q) as [|y r] eqn:Hq.
    - rewrite app_nil_r. split; [done|]. split; [|done].
      apply (f_equal reverse) in Hq. rewrite reverse_involutive in Hq. subst q.
      simpl in Hh2. injection Hh2 as ->. done.
    - destruct Hrev as [Hcy Hrev]. split; [|split].
      + destruct p1; simplify_eq/=; done.
      + rewrite last_app.
        assert (list.last (y :: r) = Some t) as ->; [|done].
        rewrite <-Hq, last_reverse. by destruct q.
      + by eapply linked_app. }
  split; [done|]. destruct Hroute as (Hh & _ & Hl).
  by eapply linked_walkable.
Qed.

(** Where two breadth-first searches meet, the depths add up to no more
    than the length of any route between their sources. *)
Lemma meeting_optimal dx dy kx ky qx qy vx vy px py δx δy sx sy c p1 p2 p :
  walkable m sx = true → walkable m sy = true →
  explored m sx dx None qx vx px → levels m sx kx qx vx px δx →
  explored m sy dy None qy vy py → levels m sy ky qy vy py δy →
  (∀ a, key a ∈ vx → a ∉ qx → key a ∉ vy) →
  (∀ a, key a ∈ vy → a ∉ qy → key a ∉ vx) →
  head qx = Some c → key c ∈ vy →
  chain px sx c p1 → linked m p1 → chain py sy c p2 → linked m p2 →
  route m sx sy p →
  (length (joined p1 p2) ≤ length p)%nat.
Proof.
  intros Hsx Hsy Hex Hlx Hey Hly Hfx Hfy Hhead Hcy H1 Hl1 H2 Hl2 (Hh & Hla & Hl).
  assert (c ∈ qx) as Hcqx by (destruct qx; simplify_eq/=; by left).
  assert (key c ∈ vx) as Hcx by by eapply ex_frontier.
  assert (key sx ∈ vx) as Hsxv by by eapply ex_source.
  assert (key sy ∈ vy) as Hsyv by by eapply ex_source.
  (* where the route leaves the cells expanded from [sx] *)
  destruct (frontier_cut m sx dx kx qx vx px δx p sx) as (a1 & y & a2 & Hp & Ha1 & Hy & Hδy);
    [done..| |].
  { exists sy. split; [by apply last_Some_elem_of|]. intros [H ?]. by eapply Hfx. }
  (* where the reversed route leaves the cells expanded from [sy] *)
  pose proof (linked_reverse _ _ _ Hl Hh Hsx) as Hlrev.
  destruct (frontier_cut m sy dy ky qy vy py δy (reverse p) sy) as
    (b1 & z & b2 & Hrp & Hb1 & Hz & Hδz); [done..| | | |].
  { rewrite head_reverse. done. }
  { done. }
  { exists sx. split; [apply elem_of_reverse; by apply head_Some_elem_of|].
    intros [H ?]. by eapply Hfy. }
  assert (δx sx = 0%nat) as Hδsx.
  { pose proof (lv_chain _ _ _ _ _ _ _ Hlx sx [sx] Hsxv (chain_start _ _)). simpl in *. lia. }
  assert (δy sy = 0%nat) as Hδsy.
  { pose proof (lv_chain _ _ _ _ _ _ _ Hly sy [sy] Hsyv (chain_start _ _)). simpl in *. lia. }
  (* depths of the meeting cell *)
  assert (δx c ≤ δx y)%nat as Hcy'.
  { apply list_elem_of_lookup in Hy as [j Hj].
    eapply (lv_sorted _ _ _ _ _ _ _ Hlx 0 j); [lia| |done].
    destruct qx; simplify_eq/=; done. }
  assert (c ∈ qy) as Hcqy.
  { destruct (decide (c ∈ qy)) as [|Hn]; [done|]. by destruct (Hfy c Hcy Hn). }
  assert (δy c ≤ S (δy z))%nat as Hcz.
  { pose proof (lv_queue _ _ _ _ _ _ _ Hly c Hcqy).
    pose proof (lv_queue _ _ _ _ _ _ _ Hly z Hz). lia. }
  (* the two cuts do not cross *)
  assert (p = reverse b2 ++ z :: reverse b1) as Hp'.
  { rewrite <-(reverse_involutive p), Hrp, reverse_app, reverse_cons, <-app_assoc. done. }
  assert (length a1 ≤ length b2)%nat as Hcross.
  { destruct (decide (length a1 ≤ length b2)%nat) as [|Hn]; [done|].
    assert (p !! length b2 = Some z) as Hzp.
    { rewrite Hp', lookup_app_r by (rewrite length_reverse; lia).
      rewrite length_reverse, Nat.sub_diag. done. }
    rewrite Hp, lookup_app_l in Hzp by lia.
    apply list_elem_of_lookup_2 in Hzp. destruct (Ha1 z Hzp) as [Hzx Hzq].
    destruct (Hfx z Hzx Hzq). by eapply ex_frontier. }
  assert (length p = length b1 + 1 + length b2)%nat as Hlen.
  { rewrite Hp', length_app. simpl. rewrite !length_reverse. lia. }
  (* lengths *)
  pose proof (joined_length _ _ _ _ _ _ _ H1 H2) as Hj.
  pose proof (lv_chain _ _ _ _ _ _ _ Hlx c p1 Hcx H1) as Hlp1.
  pose proof (lv_chain _ _ _ _ _ _ _ Hly c p2 Hcy H2) as Hlp2.
  (* parity *)
  destruct (joined_route _ _ _ _ _ _ _ Hsx Hsy H1 Hl1 H2 Hl2) as [(Hjh & Hjl & Hjlk) _].
  destruct (linked_parity m _ _ _ Hjlk Hjh Hjl) as [k1 Hk1].
  destruct (linked_parity m _ _ _ Hl Hh Hla) as [k2 Hk2].
  lia.
Qed.

End meeting.

(** What holds at the head of the [while] loop of [bidirectional]: two
    breadth-first searches, and no cell expanded by one of them has been
    seen by the other. *)
Record bidir_inv (m : Maze) (d kS kE : nat) (qS qE : list coord)
    (vS vE : gset string) (pS pE : gmap string coord) (δS δE : coord → nat) : Prop := {
  bi_fwd : explored m (start m) d None qS vS pS;
  bi_fwd_levels : levels m (start m) kS qS vS pS δS;
  bi_bwd : explored m (end_ m) d None qE vE pE;
  bi_bwd_levels : levels m (end_ m) kE qE vE pE δE;
  bi_fwd_free : ∀ a, key a ∈ vS → a ∉ qS → key a ∉ vE;
  bi_bwd_free : ∀ a, key a ∈ vE → a ∉ qE → key a ∉ vS
}.

Section bidirectional_search.
Import PathfindingAlgorithms.
Variable m : Maze.
Hypothesis Hwf : wf m.
Hypothesis Hstart : walkable m (start m) = true.
Hypothesis Hend : walkable m (end_ m) = true.
Implicit Types (q : list coord) (v : gset string) (par : gmap string coord).
Implicit Types (δ : coord → nat) (c a : coord) (p : list coord).

Lemma explored_weaken s d d' ex q v par :
  (d ≤ d')%nat → explored m s d ex q v par → explored m s d' ex q v par.
Proof.
  intros Hd Hex. split; try apply Hex.
  intros k Hk. destruct (ex_chain _ _ _ _ _ _ _ Hex _ Hk) as (c & p & ? & ? & ? & ? & ?).
  exists c, p. repeat split; auto; lia.
Qed.

(** One side expands the head [c] of its queue, which the other side has
    not seen. *)
Lemma side_turn sx sy d dy k c q1 vx px δx qy vy py :
  explored m sx d None (c :: q1) vx px → levels m sx k (c :: q1) vx px δx →
  explored m sy dy None qy vy py →
  (∀ a, key a ∈ vx → a ∉ c :: q1 → key a ∉ vy) →
  (∀ a, key a ∈ vy → a ∉ qy → key a ∉ vx) →
  key c ∉ vy →
  ∃ q' v' par' δ',
    foldl (discover array_push c) (q1, vx, px) (neighbours m c) = (q', v', par') ∧
    explored m sx (S d) None q' v' par' ∧ levels m sx (δx c) q' v' par' δ' ∧
    (∀ a, key a ∈ v' → a ∉ q' → key a ∉ vy) ∧
    (∀ a, key a ∈ vy → a ∉ qy → key a ∉ v') ∧
    (measure m q' v' < measure m (c :: q1) vx)%nat.
Proof.
  intros Hex Hlv Hey Hfx Hfy Hc.
  assert (key c ∈ vx) as Hcx by (eapply ex_frontier; [done|by left]).
  destruct (ex_chain _ _ _ _ _ _ _ Hex _ Hcx) as (c' & pc & Hk & Hwc & _).
  apply key_inj in Hk as ->.
  destruct (breadth_first_turn m sx d k c q1 vx px δx) as
    (q' & v' & par' & δ' & Hfold & Hex' & Hlv' & _ & Hsub & Hq' & Hn' & Hm'); [done..|].
  exists q', v', par', δ'. do 3 (split; [done|]). split; [|split; [|done]].
  - intros a Ha Hq. destruct (decide (a = c)) as [->|Hne]; [done|].
    destruct (Hn' a Ha) as [Hav|[_ ?]]; [|done].
    apply Hfx; [done|]. intros [->|?]%elem_of_cons; [done|]. apply Hq. auto.
  - intros a Ha Hq Hav. destruct (Hn' a Hav) as [?|[Hnb _]]; [by eapply Hfy|].
    apply Hc. eapply (ex_closed _ _ _ _ _ _ _ Hey a c); [done..| |]; [done|].
    by apply neighbours_sym.
Qed.

(** The result returned when the two searches meet in [c]. *)
Lemma meeting_sound d kS kE qS qE vS vE pS pE δS δE c :
  bidir_inv m d kS kE qS qE vS vE pS pE δS δE →
  key c ∈ vS → key c ∈ vE → head qS = Some c ∨ head qE = Some c →
  ∃ p1 p2,
    chain pS (start m) c p1 ∧ chain pE (end_ m) c p2 ∧
    (length p1 ≤ S d)%nat ∧ (length p2 ≤ S d)%nat ∧
    route m (start m) (end_ m) (joined p1 p2) ∧
    (∀ x, x ∈ joined p1 p2 → walkable m x = true) ∧
    (∀ p', route m (start m) (end_ m) p' → (length (joined p1 p2) ≤ length p')%nat).
Proof.
  intros Hinv HcS HcE Hhead.
  destruct (ex_chain _ _ _ _ _ _ _ (bi_fwd _ _ _ _ _ _ _ _ _ _ _ _ Hinv) _ HcS)
    as (c1 & p1 & Hk1 & _ & H1 & Hl1 & Hlen1).
  apply key_inj in Hk1 as ->.
  destruct (ex_chain _ _ _ _ _ _ _ (bi_bwd _ _ _ _ _ _ _ _ _ _ _ _ Hinv) _ HcE)
    as (c2 & p2 & Hk2 & _ & H2 & Hl2 & Hlen2).
  apply key_inj in Hk2 as ->.
  exists p1, p2. do 4 (split; [done|]).
  destruct (joined_route m _ _ _ _ _ _ _ Hstart Hend H1 Hl1 H2 Hl2) as [Hr Hw].
  do 2 (split; [done|]).
  destruct Hinv as [HS HLS HE HLE HfS HfE].
  intros p' Hp'. destruct Hhead as [Hh|Hh].
  - by eapply (meeting_optimal m d d kS kE qS qE vS vE pS pE δS δE (start m) (end_ m)).
  - assert (length (joined p1 p2) = length (joined p2 p1)) as ->.
    { pose proof (joined_length _ _ _ _ _ _ _ H1 H2).
      pose proof (joined_length _ _ _ _ _ _ _ H2 H1). lia. }
    rewrite <-(length_reverse p').
    eapply (meeting_optimal m d d kE kS qE qS vE vS pE pS δE δS (end_ m) (start m)); [done..|].
    destruct Hp' as (Hh' & Hla' & Hlk'). split; [|split].
    + by rewrite head_reverse.
    + by rewrite last_reverse.
    + by eapply linked_reverse.
Qed.

Lemma bidirectional_exit d kS kE qS qE vS vE pS pE δS δE :
  bidir_inv m d kS kE qS qE vS vE pS pE δS δE →
  qS = [] ∨ qE = [] → ¬ ∃ p, route m (start m) (end_ m) p.
Proof.
  intros Hinv Hq (p & Hh & Hla & Hl).
  pose proof (bi_fwd _ _ _ _ _ _ _ _ _ _ _ _ Hinv) as HS.
  pose proof (bi_bwd _ _ _ _ _ _ _ _ _ _ _ _ Hinv) as HE.
  destruct Hq as [-> | ->].
  - assert (key (end_ m) ∈ vS) as Ht.
    { apply (closed_route_gen m (λ c, key c ∈ vS) p (start m)); [|done..| |].
      - intros c w Hc Hw. eapply ex_closed; [done..| | |done]; [|done].
        by intros ?%elem_of_nil.
      - by eapply ex_source.
      - by apply last_Some_elem_of. }
    eapply (bi_fwd_free _ _ _ _ _ _ _ _ _ _ _ _ Hinv); [done| |by eapply ex_source].
    by intros ?%elem_of_nil.
  - assert (key (start m) ∈ vE) as Hs.
    { apply (closed_route_gen m (λ c, key c ∈ vE) (reverse p) (end_ m)).
      - intros c w Hc Hw. eapply ex_closed; [done..| | |done]; [|done].
        by intros ?%elem_of_nil.
      - by eapply linked_reverse.
      - by rewrite head_reverse.
      - by eapply ex_source.
      - apply elem_of_reverse. by apply head_Some_elem_of. }
    eapply (bi_bwd_free _ _ _ _ _ _ _ _ _ _ _ _ Hinv); [done| |by eapply ex_source].
    by intros ?%elem_of_nil.
Qed.

(** What one turn of the [while] loop does. *)
Inductive bidir_outcome (d : nat) (cS cE : coord) (qS1 qE1 : list coord)
    (vS vE : gset string) (pS pE : gmap string coord) : Prop :=
  | meet_forward :
      key cS ∈ vE → bidir_outcome d cS cE qS1 qE1 vS vE pS pE
  | meet_backward qS' vS' pS' kS' kE δS' δE :
      key cS ∉ vE →
      foldl (discover array_push cS) (qS1, vS, pS) (neighbours m cS) = (qS', vS', pS') →
      bidir_inv m (S d) kS' kE qS' (cE :: qE1) vS' vE pS' pE δS' δE →
      key cE ∈ vS' →
      bidir_outcome d cS cE qS1 qE1 vS vE pS pE
  | keep_going qS' vS' pS' qE' vE' pE' kS' kE' δS' δE' :
      key cS ∉ vE →
      foldl (discover array_push cS) (qS1, vS, pS) (neighbours m cS) = (qS', vS', pS') →
      key cE ∉ vS' →
      foldl (discover array_push cE) (qE1, vE, pE) (neighbours m cE) = (qE', vE', pE') →
      bidir_inv m (S d) kS' kE' qS' qE' vS' vE' pS' pE' δS' δE' →
      (measure m qS' vS' + measure m qE' vE'
       < measure m (cS :: qS1) vS + measure m (cE :: qE1) vE)%nat →
      bidir_outcome d cS cE qS1 qE1 vS vE pS pE.

Lemma bidirectional_turn d kS kE cS cE qS1 qE1 vS vE pS pE δS δE :
  bidir_inv m d kS kE (cS :: qS1) (cE :: qE1) vS vE pS pE δS δE →
  bidir_outcome d cS cE qS1 qE1 vS vE pS pE.
Proof.
  intros [HS HLS HE HLE HfS HfE].
  destruct (decide (key cS ∈ vE)) as [HcS|HcS]; [by apply meet_forward|].
  destruct (side_turn (start m) (end_ m) d d kS cS qS1 vS pS δS (cE :: qE1) vE pE) as
    (qS' & vS' & pS' & δS' & HfoldS & HS' & HLS' & HfS' & HfE' & HmS); [done..|].
  assert (bidir_inv m (S d) (δS cS) kE qS' (cE :: qE1) vS' vE pS' pE δS' δE) as Hmid.
  { split; try done. by eapply explored_weaken; [|done]; lia. }
  destruct (decide (key cE ∈ vS')) as [HcE|HcE]; [by eapply meet_backward|].
  destruct (side_turn (end_ m) (start m) d (S d) kE cE qE1 vE pE δE qS' vS' pS') as
    (qE' & vE' & pE' & δE' & HfoldE & HE' & HLE' & HfE'' & HfS'' & HmE); [done..|].
  eapply keep_going; [done..| |lia].
  split; done.
Qed.

Lemma bidirectional_loop_correct rfuel fuel d kS kE qS qE vS vE pS pE δS δE n r m' :
  bidir_inv m d kS kE qS qE vS vE pS pE δS δE →
  bidirectional_loop rfuel fuel m qS qE vS vE pS pE n = Ok (r, m') →
  sound_result m r ∧ shortest_result m r.
Proof.
  revert d kS kE qS qE vS vE pS pE δS δE n.
  induction fuel as [|fuel IH]; intros d kS kE qS qE vS vE pS pE δS δE n Hinv; simpl; [done|].
  destruct qS as [|cS qS1].
  { simpl. intros [= <- <-]. split; [|by intros ? ? ?].
    eapply bidirectional_exit; [done|by left]. }
  destruct qE as [|cE qE1].
  { simpl. intros [= <- <-]. split; [|by intros ? ? ?].
    eapply bidirectional_exit; [done|by right]. }
  simpl.
  assert (∀ c vS0 pS0 n0 d0 kS0 kE0 qS0 qE0 δS0 δE0,
    bidir_inv m d0 kS0 kE0 qS0 qE0 vS0 vE pS0 pE δS0 δE0 →
    key c ∈ vS0 → key c ∈ vE → head qS0 = Some c ∨ head qE0 = Some c →
    (path0 ← reconstructBidirectionalPath rfuel pS0 pE (start m) c (end_ m);
     Ok (mkResult (Some path0) n0 true None, m)) = Ok (r, m') →
    sound_result m r ∧ shortest_result m r) as Hmeet.
  { intros c vS0 pS0 n0 d0 kS0 kE0 qS0 qE0 δS0 δE0 Hinv0 H1 H2 Hh. res_unfold.
    destruct (reconstructBidirectionalPath _ _ _ _ _ _) as [p| |] eqn:Hrec; [|done..].
    intros [= <- <-].
    destruct (meeting_sound _ _ _ _ _ _ _ _ _ _ _ c Hinv0 H1 H2 Hh) as
      (p1 & p2 & Hc1 & Hc2 & _ & _ & Hroute & Hwalk & Hshort).
    apply (reconstruct_bidirectional_inv _ _ _ _ _ _ p1 p2) in Hrec;
      [|done..|by eapply ex_root, Hinv0]. subst p.
    split; [by split|]. intros p p' [= <-]. apply Hshort. }
  destruct (bidirectional_turn _ _ _ _ _ _ _ _ _ _ _ _ _ Hinv) as
    [HcS|qS' vS' pS' kS' kE' δS' δE' HcS HfoldS Hmid HcE
        |qS' vS' pS' qE' vE' pE' kS' kE' δS' δE' HcS HfoldS HcE HfoldE Hinv' _].
  - rewrite decide_True by done.
    apply (Hmeet cS vS pS _ d kS kE (cS :: qS1) (cE :: qE1) δS δE); [done| |done|by left].
    eapply ex_frontier; [apply Hinv|by left].
  - rewrite decide_False by done. rewrite !getNeighbors_coord by done. res_unfold.
    rewrite HfoldS. rewrite decide_True by done.
    apply (Hmeet cE vS' pS' _ (S d) kS' kE' qS' (cE :: qE1) δS' δE'); [done..| |by right].
    eapply ex_frontier; [apply Hmid|by left].
  - rewrite decide_False by done. rewrite !getNeighbors_coord by done. res_unfold.
    rewrite HfoldS. rewrite decide_False by done.
    rewrite HfoldE. by eapply IH.
Qed.

Lemma bidirectional_loop_total rfuel fuel d kS kE qS qE vS vE pS pE δS δE n :
  bidir_inv m d kS kE qS qE vS vE pS pE δS δE →
  (measure m qS vS + measure m qE vE < fuel)%nat →
  (S d + (measure m qS vS + measure m qE vE) ≤ rfuel)%nat →
  ∃ r, bidirectional_loop rfuel fuel m qS qE vS vE pS pE n = Ok (r, m).
Proof.
  revert d kS kE qS qE vS vE pS pE δS δE n.
  induction fuel as [|fuel IH]; intros d kS kE qS qE vS vE pS pE δS δE n Hinv Hf Hr;
    [lia|]. simpl.
  destruct qS as [|cS qS1]; [by eexists|].
  destruct qE as [|cE qE1]; [by eexists|].
  simpl.
  assert (∀ c vS0 pS0 n0 d0 kS0 kE0 qS0 qE0 δS0 δE0,
    bidir_inv m d0 kS0 kE0 qS0 qE0 vS0 vE pS0 pE δS0 δE0 → (S d0 ≤ rfuel)%nat →
    key c ∈ vS0 → key c ∈ vE → head qS0 = Some c ∨ head qE0 = Some c →
    ∃ r, (path0 ← reconstructBidirectionalPath rfuel pS0 pE (start m) c (end_ m);
          Ok (mkResult (Some path0) n0 true None, m)) = Ok (r, m)) as Hmeet.
  { intros c vS0 pS0 n0 d0 kS0 kE0 qS0 qE0 δS0 δE0 Hinv0 Hd0 H1 H2 Hh.
    destruct (meeting_sound _ _ _ _ _ _ _ _ _ _ _ c Hinv0 H1 H2 Hh) as
      (p1 & p2 & Hc1 & Hc2 & Hl1 & Hl2 & _).
    rewrite (reconstruct_bidirectional_total _ _ _ _ _ _ p1 p2);
      [by eexists|done|done|by eapply ex_root, Hinv0|lia|lia]. }
  destruct (bidirectional_turn _ _ _ _ _ _ _ _ _ _ _ _ _ Hinv) as
    [HcS|qS' vS' pS' kS' kE' δS' δE' HcS HfoldS Hmid HcE
        |qS' vS' pS' qE' vE' pE' kS' kE' δS' δE' HcS HfoldS HcE HfoldE Hinv' Hm].
  - rewrite decide_True by done.
    apply (Hmeet cS vS pS _ d kS kE (cS :: qS1) (cE :: qE1) δS δE); [done|lia| |done|by left].
    eapply ex_frontier; [apply Hinv|by left].
  - rewrite decide_False by done. rewrite !getNeighbors_coord by done. res_unfold.
    rewrite HfoldS. rewrite decide_True by done.
    apply (Hmeet cE vS' pS' _ (S d) kS' kE' qS' (cE :: qE1) δS' δE'); [done| |done| |by right].
    + unfold measure in Hr. simpl in Hr. lia.
    + eapply ex_frontier; [apply Hmid|by left].
  - rewrite decide_False by done. rewrite !getNeighbors_coord by done. res_unfold.
    rewrite HfoldS. rewrite decide_False by done.
    rewrite HfoldE.
    eapply IH; [done|lia|lia].
Qed.

Lemma bidir_initial :
  bidir_inv m 0 0 0 [start m] [end_ m] {[key (start m)]} {[key (end_ m)]} ∅ ∅
    (λ _, 0%nat) (λ _, 0%nat).
Proof.
  assert (∀ s, walkable m s = true → explored m s 0 None [s] {[key s]} ∅) as Hex.
  { intros s Hs. split.
    - set_solver.
    - done.
    - intros c ->%list_elem_of_singleton. set_solver.
    - intros k [? Hk]. by rewrite lookup_empty in Hk.
    - intros k ->%elem_of_singleton. exists s, [s]. repeat split; [done|constructor|done].
    - intros c w ->%elem_of_singleton%key_inj Hc. destruct Hc. by left. }
  split; auto using levels_initial.
  - intros a ->%elem_of_singleton%key_inj Ha. destruct Ha. by left.
  - intros a ->%elem_of_singleton%key_inj Ha. destruct Ha. by left.
Qed.

Lemma bidirectional_correct fuel r m' :
  bidirectional fuel m = Ok (r, m') → sound_result m r ∧ shortest_result m r.
Proof. unfold bidirectional. eapply bidirectional_loop_correct, bidir_initial. Qed.

Lemma bidirectional_total fuel :
  (enough m ≤ fuel)%nat → ∃ r, bidirectional fuel m = Ok (r, m).
Proof.
  intros Hf. unfold bidirectional.
  assert (∀ s, measure m [s] {[key s]} ≤ 1 + 2 * length (cells m))%nat as Hm.
  { intros s. unfold measure. simpl.
    assert (unvisited m {[key s]} ≤ length (cells m))%nat by apply length_filter. lia. }
  pose proof (Hm (start m)). pose proof (Hm (end_ m)). unfold enough in Hf.
  eapply bidirectional_loop_total; [apply bidir_initial|lia|lia].
Qed.

End bidirectional_search.

(** ** The seven entries of the algorithm table *)

(** A walkable route, said without reference to [getNeighbors]: a sequence
    of walkable cells from [s] to [t] whose consecutive cells are one unit
    apart along one axis. *)
Definition walkable_route (m : Maze) (s t : coord) (p : list coord) : Prop :=
  head p = Some s ∧ list.last p = Some t ∧
  (∀ c, c ∈ p → walkable m c = true) ∧
  (∀ (i : nat) x y, p !! i = Some x → p !! S i = Some y → adjacent x y).

(** The distance from start to goal under unit-cost moves in the four
    directions: the number of moves of a walkable route that no walkable
    route undercuts. *)
Definition shortest_distance (m : Maze) (d : nat) : Prop :=
  (∃ p, walkable_route m (start m) (end_ m) p ∧ length p = S d) ∧
  (∀ p, walkable_route m (start m) (end_ m) p → (S d ≤ length p)%nat).

(** The searches that return [optimal: true]; A* is covered for the
    selectors that resolve to the Manhattan distance. *)
Definition shortest_path_search (a : algorithm) : Prop :=
  match a with
  | BFS | Dijkstra | Bidirectional => True
  | AStar heuristic => heuristic ≠ "euclidean"
  | DFS | Greedy => False
  end.

(** The 5 x 5 maze [new Maze(5, 5)]: a border of walls around nine open
    cells, start (1,1), end (3,3). *)
Definition demo_maze : Maze :=
  match Maze_new 5 5 with
  | Ok m => m
  | _ => mkMaze 0 0 [] (Coord 0 0) (Coord 0 0)
  end.

(** [new Maze(3, 3)], whose start and end are both (1,1). *)
Definition single_cell_maze : Maze :=
  match Maze_new 3 3 with
  | Ok m => m
  | _ => mkMaze 0 0 [] (Coord 0 0) (Coord 0 0)
  end.

Section algorithm_table.
Variable m : Maze.
Hypothesis Hwf : wf m.
Hypothesis Hstart : walkable m (start m) = true.
Hypothesis Hend : walkable m (end_ m) = true.

Lemma walkable_route_linked s t p : walkable_route m s t p → route m s t p.
Proof.
  intros (Hh & Hl & Hw & Ha). do 2 (split; [done|]). clear Hh Hl.
  induction p as [|x p IH]; [done|]. destruct p as [|y p]; [done|]. split.
  - apply elem_of_neighbours. split.
    + apply Hw. right. by left.
    + apply around_adjacent. by apply (Ha 0%nat).
  - apply IH.
    + intros c Hc. apply Hw. by right.
    + intros i a b Hi HSi. by apply (Ha (S i)).
Qed.

Lemma route_walkable_route s t p :
  walkable m s = true → route m s t p → walkable_route m s t p.
Proof.
  intros Hs (Hh & Hl & Hlk). do 2 (split; [done|]). split.
  - by eapply linked_walkable.
  - intros i x y. by apply (linked_adjacent m).
Qed.

Lemma run_sound a fuel r m' : run a fuel m = Ok (r, m') → sound_result m r.
Proof.
  destruct a; unfold run.
  - by apply dfs_sound.
  - by apply bfs_sound.
  - by apply dijkstra_sound.
  - by apply astar_sound.
  - by apply greedy_sound.
  - intros H. by eapply bidirectional_correct.
Qed.

Lemma run_total a fuel : (enough m ≤ fuel)%nat → ∃ r, run a fuel m = Ok (r, m).
Proof.
  destruct a; unfold run.
  - by apply dfs_total.
  - by apply bfs_total.
  - by apply dijkstra_total.
  - by apply astar_total.
  - by apply greedy_total.
  - by apply bidirectional_total.
Qed.

Lemma run_shortest a fuel r m' :
  shortest_path_search a → run a fuel m = Ok (r, m') → shortest_result m r.
Proof.
  destruct a; unfold run, shortest_path_search; try done; intros Ha.
  - by apply bfs_optimal.
  - by apply dijkstra_optimal.
  - by apply astar_optimal.
  - intros H. by eapply bidirectional_correct.
Qed.

End algorithm_table.

(** C3: for a maze whose start and goal are walkable cells and for each of
    the algorithms, a path that is returned starts at the start, ends at
    the goal, moves by exactly one unit along exactly one axis between
    consecutive coordinates, and visits walkable cells only. *)
Theorem returned_path_is_valid (a : algorithm) (fuel : nat) (m m' : Maze)
    (r : Result) (p : list coord) :
  wf m → walkable m (start m) = true → walkable m (end_ m) = true →
  run a fuel m = Ok (r, m') → path r = Some p →
  head p = Some (start m) ∧ list.last p = Some (end_ m) ∧
  (∀ (i : nat) x y, p !! i = Some x → p !! S i = Some y → adjacent x y) ∧
  (∀ c, c ∈ p → walkable m c = true).
Proof.
  intros Hwf Hstart Hend Hrun Hp.
  pose proof (run_sound m Hwf Hstart Hend a fuel r m' Hrun) as Hs.
  unfold sound_result in Hs. rewrite Hp in Hs. destruct Hs as [Hr Hw].
  destruct (route_walkable_route m _ _ _ Hstart Hr) as (? & ? & ? & ?). done.
Qed.



(** ** The theorems at work on concrete mazes *)

(** The path [dfs] finds in [demo_maze]: along the top row, then down the
    right column. *)
Definition demo_path : list coord :=
  [Coord 1 1; Coord 1 2; Coord 1 3; Coord 2 3; Coord 3 3].

Lemma demo_route :
  ∃ p, walkable_route demo_maze (start demo_maze) (end_ demo_maze) p.
Proof.
  exists demo_path. apply route_walkable_route; [vm_compute; reflexivity|].
  split; [reflexivity|split; [reflexivity|]]. cbn [linked demo_path].
  repeat split; apply (bool_decide_unpack _); vm_compute; exact I.
Defined.



(** The path depth-first search returns on [demo_maze] is a valid one. *)
Lemma returned_path_is_valid_witness :
  head demo_path = Some (start demo_maze) ∧
  list.last demo_path = Some (end_ demo_maze) ∧
  (∀ (i : nat) x y, demo_path !! i = Some x → demo_path !! S i = Some y → adjacent x y) ∧
  (∀ c, c ∈ demo_path → walkable demo_maze c = true).
Proof.
  eapply (returned_path_is_valid DFS 133 demo_maze).
  - vm_compute; reflexivity.
  - vm_compute; reflexivity.
  - vm_compute; reflexivity.
  - vm_compute; reflexivity.
  - reflexivity.
Defined.

(** In [single_cell_maze] the start is the goal. *)
Lemma start_is_goal_witness :
  start single_cell_maze = end_ single_cell_maze ∧
  ∃ o h, run Bidirectional 1 single_cell_maze
         = Ok (mkResult (Some [start single_cell_maze]) 1 o h, single_cell_maze).
Proof.
  split; [reflexivity|].
  apply (start_is_goal Bidirectional 0 single_cell_maze). reflexivity.
Defined.

(** The centre of [demo_maze] has all four neighbours. *)
Lemma getNeighbors_spec_witness :
  wf demo_maze ∧
  getNeighbors demo_maze 2 2 = Ok [Coord 1 2; Coord 3 2; Coord 2 1; Coord 2 3].
Proof.
  split; [reflexivity|].
  exact (getNeighbors_spec demo_maze 2 2 eq_refl).
Defined.

(** The corner (1,1) of [demo_maze] keeps the two neighbours that are not
    walls, down before right. *)
Lemma getNeighbors_corner :
  getNeighbors demo_maze 1 1 = Ok [Coord 2 1; Coord 1 2].
Proof. reflexivity. Qed.

(** A* with the Euclidean heuristic on [demo_maze] hands the maze back as
    it was. *)
Lemma search_leaves_maze_unchanged_witness :
  ∃ r m', run (AStar "euclidean") 133 demo_maze = Ok (r, m') ∧
          m' = demo_maze ∧ grid m' = grid demo_maze ∧
          start m' = start demo_maze ∧ end_ m' = end_ demo_maze.
Proof.
  eexists _, _. split; [vm_compute; reflexivity|].
  eapply (search_leaves_maze_unchanged (AStar "euclidean") 133 demo_maze).
  vm_compute; reflexivity.
Defined.

(** * Beyond the specification: what the code itself guarantees *)

(** ** The cells of a grid *)

(** [grid[r][c]] read without throwing: [None] where the row or the cell
    does not exist. *)
Definition cell_at (g : list (gmap Z Z)) (r c : Z) : option Z :=
  Grid.row_at g r ≫= (λ rw, rw !! c).

Definition cell (m : Maze) (c : coord) : option Z := cell_at (grid m) (row c) (col c).

(** The value [initGrid] gives a cell inside the bounds. *)
Definition border_value (nrows ncols i j : Z) : Z :=
  if is_border nrows ncols i j then wall else empty.

Definition in_bounds (nrows ncols i j : Z) : bool :=
  bool_decide (0 ≤ i < nrows) && bool_decide (0 ≤ j < ncols).

Section grid_cells.

Lemma walkable_cell m c :
  walkable m c = isValid m (row c) (col c) && bool_decide (cell m c ≠ Some wall).
Proof. done. Qed.

Lemma cell_at_set_same g r c v g' :
  Grid.set g r c v = Ok g' → cell_at g' r c = Some v.
Proof. apply grid_set_same. Qed.

Lemma cell_at_set_other g r c v g' r' c' :
  Grid.set g r c v = Ok g' → r' ≠ r ∨ c' ≠ c → cell_at g' r' c' = cell_at g r' c'.
Proof. apply grid_set_other. Qed.

Lemma cell_at_set g r c v g' r' c' :
  Grid.set g r c v = Ok g' →
  cell_at g' r' c' = if decide (r' = r ∧ c' = c) then Some v else cell_at g r' c'.
Proof.
  intros H. case_decide as Hd.
  - destruct Hd as [-> ->]. by eapply cell_at_set_same.
  - eapply cell_at_set_other; [done|]. lia.
Qed.

Lemma grid_set_total g r c v :
  0 ≤ r → (Z.to_nat r < length g)%nat →
  ∃ g', Grid.set g r c v = Ok g' ∧ length g' = length g.
Proof. apply grid_set_Ok. Qed.

Lemma foldl_insert_lookup (f : Z → Z) (l : list Z) (acc : gmap Z Z) (j : Z) :
  foldl (λ rw j, <[j := f j]> rw) acc l !! j
  = if decide (j ∈ l) then Some (f j) else acc !! j.
Proof.
  revert acc. induction l as [|x l IH]; intros acc; cbn [foldl].
  { rewrite decide_False; [done|]. by intros ?%elem_of_nil. }
  rewrite IH. destruct (decide (j ∈ l)) as [Hl|Hl].
  - rewrite decide_True; [done|]. by right.
  - destruct (decide (j = x)) as [->|Hne].
    + rewrite lookup_insert_eq, decide_True; [done|]. by left.
    + rewrite lookup_insert_ne by done. rewrite decide_False; [done|].
      intros [?|?]%elem_of_cons; done.
Qed.

Lemma init_row_lookup nrows ncols i j :
  init_row nrows ncols i !! j
  = if bool_decide (0 ≤ j < ncols) then Some (border_value nrows ncols i j) else None.
Proof.
  unfold init_row.
  rewrite (foldl_insert_lookup (λ j, if is_border nrows ncols i j then wall else empty)).
  case_bool_decide as Hj.
  - rewrite decide_True; [done|]. apply elem_of_seqZ. lia.
  - rewrite decide_False; [done|]. rewrite elem_of_seqZ. lia.
Qed.

Lemma fresh_grid_cell nrows ncols i j :
  cell_at ((λ i, init_row nrows ncols i) <$> seqZ 0 nrows) i j
  = if in_bounds nrows ncols i j then Some (border_value nrows ncols i j) else None.
Proof.
  unfold cell_at, Grid.row_at, in_bounds.
  case_decide as Hi.
  - rewrite list_lookup_fmap.
    destruct (decide (i < nrows)) as [Hlt|Hge].
    + rewrite lookup_seqZ_lt by lia. simpl. rewrite init_row_lookup.
      rewrite Z2Nat.id, Z.add_0_l by lia.
      rewrite (bool_decide_eq_true_2 (0 ≤ i < nrows)) by lia. done.
    + rewrite lookup_seqZ_ge by lia. simpl.
      rewrite (bool_decide_eq_false_2 (0 ≤ i < nrows)) by lia. done.
  - rewrite (bool_decide_eq_false_2 (0 ≤ i < nrows)) by lia. done.
Qed.

(** The grid [initGrid] builds: the two endpoint cells are open, even
    where they lie on the border or beyond the last column; every other
    cell inside the bounds is a wall on the border and open inside; no
    other cell exists. *)
Lemma initGrid_cell m m' c :
  initGrid m = Ok m' →
  cell m' c = if decide (c = start m ∨ c = end_ m) then Some empty
              else if in_bounds (rows m) (cols m) (row c) (col c)
                   then Some (border_value (rows m) (cols m) (row c) (col c))
                   else None.
Proof.
  unfold initGrid. res_unfold.
  destruct (Grid.set _ _ _ _) as [g1| |] eqn:H1; [|done..].
  destruct (Grid.set g1 _ _ _) as [g2| |] eqn:H2; [|done..].
  intros [= <-]. unfold cell. cbn [with_grid grid].
  rewrite (cell_at_set _ _ _ _ _ _ _ H2), (cell_at_set _ _ _ _ _ _ _ H1).
  rewrite fresh_grid_cell.
  destruct c as [r k], (start m) as [sr sk], (end_ m) as [er ek]; simpl.
  repeat case_decide; try done; exfalso; naive_solver.
Qed.

Lemma initGrid_shape m m' :
  initGrid m = Ok m' →
  rows m' = rows m ∧ cols m' = cols m ∧ start m' = start m ∧ end_ m' = end_ m ∧ wf m'.
Proof.
  unfold initGrid. res_unfold.
  destruct (Grid.set _ _ _ _) as [g1| |] eqn:H1; [|done..].
  destruct (Grid.set g1 _ _ _) as [g2| |] eqn:H2; [|done..].
  intros [= <-]. do 4 (split; [done|]). unfold wf. cbn [with_grid grid rows].
  rewrite (grid_set_length _ _ _ _ _ H2), (grid_set_length _ _ _ _ _ H1).
  by rewrite length_fmap, length_seqZ.
Qed.

Lemma initGrid_throws m :
  throws (initGrid m)
  = negb (bool_decide (0 ≤ row (start m) < rows m) && bool_decide (0 ≤ row (end_ m) < rows m)).
Proof.
  unfold initGrid. res_unfold.
  set (g0 := (λ i, init_row (rows m) (cols m) i) <$> seqZ 0 (rows m)).
  assert (length g0 = Z.to_nat (rows m)) as Hl0.
  { unfold g0. by rewrite length_fmap, length_seqZ. }
  case_bool_decide as Hs.
  - destruct (grid_set_Ok g0 (row (start m)) (col (start m)) empty) as (g1 & -> & Hl1);
      [lia..|].
    case_bool_decide as He.
    + destruct (grid_set_Ok g1 (row (end_ m)) (col (end_ m)) empty) as (g2 & -> & Hl2);
        [lia..|]. done.
    + unfold Grid.set at 1. rewrite row_at_None; [done|]. lia.
  - unfold Grid.set at 1. rewrite row_at_None; [done|]. lia.
Qed.

End grid_cells.

(** X1: [new Maze(rows, cols)] with at least two rows returns a maze with
    [rows] rows, start (1,1) and end (rows-2, cols-2), in which the two
    endpoint cells are open and every other cell inside the bounds is a
    wall exactly when it lies on the border; there are no cells outside
    the bounds other than an endpoint. *)
Theorem constructor_builds_bordered_grid (nrows ncols : Z) :
  2 ≤ nrows →
  ∃ m, Maze_new nrows ncols = Ok m ∧
       rows m = nrows ∧ cols m = ncols ∧
       start m = Coord 1 1 ∧ end_ m = Coord (nrows - 2) (ncols - 2) ∧
       length (grid m) = Z.to_nat nrows ∧
       ∀ c, cell m c =
            if decide (c = Coord 1 1 ∨ c = Coord (nrows - 2) (ncols - 2)) then Some empty
            else if in_bounds nrows ncols (row c) (col c)
                 then Some (if is_border nrows ncols (row c) (col c) then wall else empty)
                 else None.
Proof.
  intros Hr. destruct (Maze_new_Ok nrows ncols Hr) as (m & Hm & Hwf & Hrows & Hcols & Hs & He).
  exists m. do 5 (split; [done|]). split; [by rewrite <-Hrows|].
  intros c. unfold Maze_new in Hm. by rewrite (initGrid_cell _ _ c Hm).
Qed.

Lemma constructor_builds_bordered_grid_witness :
  ∃ m, Maze_new 4 5 = Ok m ∧
       rows m = 4 ∧ cols m = 5 ∧
       start m = Coord 1 1 ∧ end_ m = Coord (4 - 2) (5 - 2) ∧
       length (grid m) = Z.to_nat 4 ∧
       ∀ c, cell m c =
            if decide (c = Coord 1 1 ∨ c = Coord (4 - 2) (5 - 2)) then Some empty
            else if in_bounds 4 5 (row c) (col c)
                 then Some (if is_border 4 5 (row c) (col c) then wall else empty)
                 else None.
Proof. apply (constructor_builds_bordered_grid 4 5). lia. Defined.

(** ** Random generation *)

Section grid_writes.
Variable skip : Z → Z → bool.
Variable val : Z → Z → Z.

(** A pass of assignments [grid[i][j] = val(i, j)] over a set of rows and
    columns, leaving out the cells that [skip] names: the shape of both
    loops of [generateRandom]. *)
Definition write_cell (acc : res (list (gmap Z Z))) (i j : Z) : res (list (gmap Z Z)) :=
  g ← acc; if skip i j then Ok g else Grid.set g i j (val i j).

Lemma write_row (js : list Z) (i : Z) (g0 : list (gmap Z Z)) :
  0 ≤ i → (Z.to_nat i < length g0)%nat →
  ∃ g', foldl (λ acc j, write_cell acc i j) (Ok g0) js = Ok g' ∧
        length g' = length g0 ∧
        ∀ r c, cell_at g' r c
               = if bool_decide (r = i ∧ c ∈ js) && negb (skip r c)
                 then Some (val r c) else cell_at g0 r c.
Proof.
  intros Hi. revert g0. induction js as [|j js IH]; intros g0 Hlen; cbn [foldl].
  { exists g0. do 2 (split; [done|]). intros r c.
    rewrite bool_decide_eq_false_2; [done|]. intros [_ ?%elem_of_nil]. done. }
  assert (∃ g1, write_cell (Ok g0) i j = Ok g1 ∧ length g1 = length g0 ∧
            ∀ r c, cell_at g1 r c
                   = if bool_decide (r = i ∧ c = j) && negb (skip r c)
                     then Some (val r c) else cell_at g0 r c) as (g1 & -> & Hl1 & Hc1).
  { unfold write_cell. res_unfold. destruct (skip i j) eqn:Hsk.
    - exists g0. do 2 (split; [done|]). intros r c.
      case_bool_decide as Hd; [|done]. destruct Hd as [-> ->]. by rewrite Hsk.
    - destruct (grid_set_Ok g0 i j (val i j)) as (g1 & Hset & Hl1); [done..|].
      exists g1. do 2 (split; [done|]). intros r c.
      rewrite (cell_at_set _ _ _ _ _ _ _ Hset).
      case_decide as Hd; case_bool_decide as Hd'; try (exfalso; naive_solver); [|done].
      destruct Hd as [-> ->]. by rewrite Hsk. }
  destruct (IH g1) as (g' & -> & Hl' & Hc'); [lia|].
  exists g'. split; [done|]. split; [lia|]. intros r c.
  rewrite Hc', Hc1.
  destruct (skip r c); rewrite ?andb_false_r; [done|]. rewrite !andb_true_r.
  repeat case_bool_decide; try done; exfalso;
    rewrite ?elem_of_cons in *; naive_solver.
Qed.

Lemma write_rows (rs js : list Z) (g0 : list (gmap Z Z)) :
  (∀ i, i ∈ rs → 0 ≤ i ∧ (Z.to_nat i < length g0)%nat) →
  ∃ g', foldl (λ acc i, foldl (λ acc j, write_cell acc i j) acc js) (Ok g0) rs = Ok g' ∧
        length g' = length g0 ∧
        ∀ r c, cell_at g' r c
               = if bool_decide (r ∈ rs ∧ c ∈ js) && negb (skip r c)
                 then Some (val r c) else cell_at g0 r c.
Proof.
  revert g0. induction rs as [|i rs IH]; intros g0 Hrs; cbn [foldl].
  { exists g0. do 2 (split; [done|]). intros r c.
    rewrite bool_decide_eq_false_2; [done|]. intros [?%elem_of_nil _]. done. }
  destruct (write_row js i g0) as (g1 & -> & Hl1 & Hc1); [apply Hrs; by left..|].
  destruct (IH g1) as (g' & -> & Hl' & Hc').
  { intros i' Hi'. rewrite Hl1. apply Hrs. by right. }
  exists g'. split; [done|]. split; [lia|]. intros r c.
  rewrite Hc', Hc1.
  destruct (skip r c); rewrite ?andb_false_r; [done|]. rewrite !andb_true_r.
  repeat case_bool_decide; try done; exfalso;
    rewrite ?elem_of_cons in *; naive_solver.
Qed.

End grid_writes.

(** The cell [generateRandom] leaves at [(i, j)] inside the bounds, other
    than an endpoint. *)
Definition random_value (coin : Z → Z → bool) (nrows ncols i j : Z) : Z :=
  if is_border nrows ncols i j then wall else if coin i j then wall else empty.

Lemma generateRandom_writes (coin : Z → Z → bool) (m : Maze) :
  generateRandom coin m
  = (m ← initGrid m;
     g ← foldl (λ acc i,
           foldl (λ acc j,
             write_cell
               (λ i j, (bool_decide (i = row (start m)) && bool_decide (j = col (start m))) ||
                       (bool_decide (i = row (end_ m)) && bool_decide (j = col (end_ m))))
               (λ i j, if coin i j then wall else empty) acc i j)
             acc (seqZ 1 (cols m - 2)))
         (Ok (grid m)) (seqZ 1 (rows m - 2));
     Ok (with_grid m g)).
Proof. done. Qed.

(** The grid [generateRandom] leaves, cell by cell. *)
Lemma generateRandom_cells (coin : Z → Z → bool) (m : Maze) :
  0 ≤ row (start m) < rows m → 0 ≤ row (end_ m) < rows m →
  ∃ m', generateRandom coin m = Ok m' ∧
        rows m' = rows m ∧ cols m' = cols m ∧
        start m' = start m ∧ end_ m' = end_ m ∧ wf m' ∧
        ∀ c, cell m' c =
             if decide (c = start m ∨ c = end_ m) then Some empty
             else if in_bounds (rows m) (cols m) (row c) (col c)
                  then Some (random_value coin (rows m) (cols m) (row c) (col c))
                  else None.
Proof.
  intros Hs He. rewrite generateRandom_writes.
  destruct (initGrid_Ok m Hs He) as (g0 & Hinit & Hl0). rewrite Hinit.
  pose proof (initGrid_shape _ _ Hinit) as (Hrows & Hcols & Hst & Hen & Hwf).
  pose proof (λ c, initGrid_cell _ _ c Hinit) as Hcell0.
  res_unfold. cbn [with_grid rows cols start end_ grid] in *.
  match goal with
  | |- context [foldl ?f (Ok g0) ?rs] =>
      destruct (write_rows
        (λ i j, (bool_decide (i = row (start m)) && bool_decide (j = col (start m))) ||
                (bool_decide (i = row (end_ m)) && bool_decide (j = col (end_ m))))
        (λ i j, if coin i j then wall else empty)
        (seqZ 1 (rows m - 2)) (seqZ 1 (cols m - 2)) g0) as (g' & Hfold & Hl' & Hc')
  end.
  { intros i Hi%elem_of_seqZ. lia. }
  rewrite Hfold. eexists. split; [done|]. do 4 (split; [done|]).
  split; [unfold wf; cbn [with_grid grid rows]; lia|].
  intros c. unfold cell in *. cbn [with_grid grid] in *. rewrite Hc', Hcell0.
  unfold random_value, border_value, in_bounds, is_border.
  set (skipped := _ || _).
  assert (skipped = bool_decide (c = start m ∨ c = end_ m)) as ->.
  { unfold skipped. destruct c as [r k], (start m) as [sr sk], (end_ m) as [er ek]; simpl.
    repeat case_bool_decide; simplify_eq/=; try done; exfalso; naive_solver. }
  destruct (decide (c = start m ∨ c = end_ m)) as [Hend|Hend].
  { rewrite (bool_decide_eq_true_2 _ Hend). by rewrite andb_false_r. }
  rewrite (bool_decide_eq_false_2 _ Hend), andb_true_r.
  case_bool_decide as Hin.
  - destruct Hin as [Hr%elem_of_seqZ Hk%elem_of_seqZ].
    rewrite !(bool_decide_eq_true_2 (0 ≤ _ < _)) by lia.
    rewrite !(bool_decide_eq_false_2 (_ = _)) by lia. done.
  - rewrite !elem_of_seqZ in Hin.
    do 2 (case_bool_decide; [|done]). cbn [andb].
    assert (row c = 0 ∨ row c = rows m - 1 ∨ col c = 0 ∨ col c = cols m - 1) as Hb by lia.
    destruct Hb as [Hb|[Hb|[Hb|Hb]]]; rewrite (bool_decide_eq_true_2 _ Hb);
      by rewrite ?orb_true_r.
Qed.

(** X2: [generateRandom] returns whenever the rows of both endpoints
    exist, keeps the dimensions and the endpoints, and leaves this grid:
    the endpoint cells open; every other cell inside the bounds a wall on
    the border and, inside, a wall exactly when its own draw said so. *)
Theorem generateRandom_grid (coin : Z → Z → bool) (m : Maze) :
  0 ≤ row (start m) < rows m → 0 ≤ row (end_ m) < rows m →
  ∃ m', generateRandom coin m = Ok m' ∧
        rows m' = rows m ∧ cols m' = cols m ∧
        start m' = start m ∧ end_ m' = end_ m ∧ wf m' ∧
        ∀ c, cell m' c =
             if decide (c = start m ∨ c = end_ m) then Some empty
             else if in_bounds (rows m) (cols m) (row c) (col c)
                  then Some (random_value coin (rows m) (cols m) (row c) (col c))
                  else None.
Proof. apply generateRandom_cells. Qed.

Lemma generateRandom_grid_witness :
  ∃ m', generateRandom (λ i j, bool_decide (i = j)) demo_maze = Ok m' ∧
        rows m' = rows demo_maze ∧ cols m' = cols demo_maze ∧
        start m' = start demo_maze ∧ end_ m' = end_ demo_maze ∧ wf m' ∧
        ∀ c, cell m' c =
             if decide (c = start demo_maze ∨ c = end_ demo_maze) then Some empty
             else if in_bounds (rows demo_maze) (cols demo_maze) (row c) (col c)
                  then Some (random_value (λ i j, bool_decide (i = j))
                               (rows demo_maze) (cols demo_maze) (row c) (col c))
                  else None.
Proof.
  apply (generateRandom_grid (λ i j, bool_decide (i = j)) demo_maze);
    vm_compute; (split; [intros [=]|reflexivity]).
Defined.

(** ** Editing single cells *)

Lemma setWall_missing_row (m : Maze) (r c : Z) (isWall : bool) :
  Coord r c ≠ start m → Coord r c ≠ end_ m →
  Grid.row_at (grid m) r = None → setWall m r c isWall = Throw.
Proof.
  intros Hs He Hrow. unfold setWall.
  destruct (start m) as [sr sk], (end_ m) as [er ek]; simpl.
  rewrite (proj2 (andb_false_iff (bool_decide (r = sr)) (bool_decide (c = sk)))).
  2:{ destruct (decide (r = sr)) as [->|?];
        [right|left]; apply bool_decide_eq_false_2; congruence. }
  rewrite (proj2 (andb_false_iff (bool_decide (r = er)) (bool_decide (c = ek)))).
  2:{ destruct (decide (r = er)) as [->|?];
        [right|left]; apply bool_decide_eq_false_2; congruence. }
  simpl. unfold Grid.set. by rewrite Hrow.
Qed.

(** X3: [setWall] on a cell that is neither endpoint, in a row that
    exists, returns and changes that one cell and nothing else: the
    dimensions, the endpoints and every other cell stay, and the cell is
    walkable afterwards exactly when it lies inside the bounds and was
    erased. *)
Theorem setWall_changes_one_cell (m : Maze) (r c : Z) (isWall : bool) :
  Coord r c ≠ start m → Coord r c ≠ end_ m →
  0 ≤ r → (Z.to_nat r < length (grid m))%nat →
  ∃ m', setWall m r c isWall = Ok m' ∧
        rows m' = rows m ∧ cols m' = cols m ∧
        start m' = start m ∧ end_ m' = end_ m ∧
        length (grid m') = length (grid m) ∧
        (∀ x, cell m' x = if decide (x = Coord r c)
                          then Some (if isWall then wall else empty) else cell m x) ∧
        (∀ x, walkable m' x = if decide (x = Coord r c)
                              then isValid m r c && negb isWall else walkable m x).
Proof.
  intros Hs He Hr Hlen. unfold setWall.
  destruct (bool_decide (r = row (start m)) && bool_decide (c = col (start m))) eqn:Hbs.
  { apply andb_true_iff in Hbs as [?%bool_decide_eq_true ?%bool_decide_eq_true].
    destruct Hs. destruct (start m); simpl in *; congruence. }
  destruct (bool_decide (r = row (end_ m)) && bool_decide (c = col (end_ m))) eqn:Hbe.
  { apply andb_true_iff in Hbe as [?%bool_decide_eq_true ?%bool_decide_eq_true].
    destruct He. destruct (end_ m); simpl in *; congruence. }
  cbn [orb].
  destruct (grid_set_Ok (grid m) r c (if isWall then wall else empty)) as (g' & Hset & Hl');
    [done..|].
  res_unfold. rewrite Hset. eexists. split; [done|]. do 5 (split; [done|]).
  assert (∀ x, cell (with_grid m g') x
               = if decide (x = Coord r c)
                 then Some (if isWall then wall else empty) else cell m x) as Hcell.
  { intros [xr xc]. unfold cell. cbn [with_grid grid row col].
    rewrite (cell_at_set _ _ _ _ _ _ _ Hset).
    repeat case_decide; try done; exfalso; naive_solver. }
  split; [done|]. intros x. rewrite !walkable_cell, Hcell.
  change (isValid (with_grid m g') (row x) (col x)) with (isValid m (row x) (col x)).
  destruct (decide (x = Coord r c)) as [->|Hx]; [|done]. cbn [row col]. f_equal.
  destruct isWall; by vm_compute.
Qed.

Lemma setWall_changes_one_cell_witness :
  ∃ m', setWall demo_maze 2 2 true = Ok m' ∧
        rows m' = rows demo_maze ∧ cols m' = cols demo_maze ∧
        start m' = start demo_maze ∧ end_ m' = end_ demo_maze ∧
        length (grid m') = length (grid demo_maze) ∧
        (∀ x, cell m' x = if decide (x = Coord 2 2)
                          then Some (if true then wall else empty) else cell demo_maze x) ∧
        (∀ x, walkable m' x = if decide (x = Coord 2 2)
                              then isValid demo_maze 2 2 && negb true
                              else walkable demo_maze x).
Proof.
  apply (setWall_changes_one_cell demo_maze 2 2 true).
  - vm_compute; intros [=].
  - vm_compute; intros [=].
  - lia.
  - vm_compute; lia.
Defined.

(** ** The perfect-maze generator *)

(** Strictly inside the border: the test of [getUnvisitedNeighbors]. *)
Definition interior (m : Maze) (c : coord) : bool :=
  bool_decide (0 < row c) && bool_decide (row c < rows m - 1) &&
  bool_decide (0 < col c) && bool_decide (col c < cols m - 1).

(** The four cells two steps away, in the order of [directions]. *)
Definition around2 (c : coord) : list coord :=
  [Coord (row c - 2) (col c); Coord (row c + 2) (col c);
   Coord (row c) (col c - 2); Coord (row c) (col c + 2)].

Definition unvisited2 (m : Maze) (c : coord) : list coord :=
  filter (λ x, interior m x && bool_decide (cell m x = Some wall)) (around2 c).

(** The cell between [current] and [next], as [generatePerfect] computes it. *)
Definition midpoint (current next : coord) : coord :=
  Coord (row current + (row next - row current) / 2)
        (col current + (col next - col current) / 2).

(** A room of the maze: a cell inside the border whose coordinates are
    both odd. *)
Definition room (m : Maze) (c : coord) : Prop :=
  interior m c = true ∧ Z.odd (row c) = true ∧ Z.odd (col c) = true.

(** How many cells inside the bounds are walls. *)
Definition walls (m : Maze) : nat :=
  length (filter (λ c, cell m c = Some wall) (cells m)).

(** The row [new Array(cols).fill(1)]. *)
Definition wall_row (ncols : Z) : gmap Z Z :=
  list_to_map ((λ j, (j, wall)) <$> seqZ 0 ncols).

(** What holds of the grid and the stack at the head of the carving
    loop. *)
Record carving (m : Maze) (stack : list coord) : Prop := {
  cv_wf : wf m;
  cv_root : cell m (Coord 1 1) = Some empty;
  cv_bits : ∀ c, isValid m (row c) (col c) = true →
                 cell m c = Some wall ∨ cell m c = Some empty;
  cv_shape : ∀ c, isValid m (row c) (col c) = true → cell m c = Some empty →
                  interior m c = true ∧
                  (Z.odd (row c) = true ∨ Z.odd (col c) = true) ∧
                  (Z.odd (row c) = false → row c + 1 < rows m - 1) ∧
                  (Z.odd (col c) = false → col c + 1 < cols m - 1);
  cv_stack : ∀ c, c ∈ stack → room m c ∧ cell m c = Some empty;
  cv_conn : ∀ c, isValid m (row c) (col c) = true → cell m c = Some empty →
                 ∃ p, route m (Coord 1 1) c p;
  cv_closed : ∀ c, room m c → cell m c = Some empty →
                   c ∈ stack ∨ unvisited2 m c = []
}.

Section perfect_maze.

Lemma interior_valid m c : interior m c = true → isValid m (row c) (col c) = true.
Proof.
  unfold interior, isValid. rewrite !andb_true_iff, !bool_decide_eq_true. lia.
Qed.

Lemma interior_spec m c :
  interior m c = true ↔ 0 < row c < rows m - 1 ∧ 0 < col c < cols m - 1.
Proof. unfold interior. rewrite !andb_true_iff, !bool_decide_eq_true. lia. Qed.

Lemma valid_row m c :
  wf m → isValid m (row c) (col c) = true →
  0 ≤ row c ∧ (Z.to_nat (row c) < length (grid m))%nat.
Proof.
  unfold wf, isValid. rewrite !andb_true_iff, !bool_decide_eq_true. lia.
Qed.

Lemma getUnvisitedNeighbors_fold m c (dirs : list (Z * Z)) (l : list coord) :
  wf m →
  foldl (λ (acc : res (list coord)) (dir : Z * Z),
      neighbors ← acc;
      let newRow := row c + dir.1 in
      let newCol := col c + dir.2 in
      if bool_decide (0 < newRow) && bool_decide (newRow < rows m - 1) &&
         bool_decide (0 < newCol) && bool_decide (newCol < cols m - 1)
      then
        v ← Grid.get (grid m) newRow newCol;
        if bool_decide (v = Some wall)
        then Ok (neighbors ++ [Coord newRow newCol])
        else Ok neighbors
      else Ok neighbors)
    (Ok l) dirs
  = Ok (l ++ filter (λ x, interior m x && bool_decide (cell m x = Some wall))
               ((λ dir : Z * Z, Coord (row c + dir.1) (col c + dir.2)) <$> dirs)).
Proof.
  intros Hwf. revert l. induction dirs as [|dir dirs IH]; intros l; cbn [foldl fmap list_fmap].
  - by rewrite filter_nil, app_nil_r.
  - rewrite filter_cons. res_unfold. cbv zeta.
    change (bool_decide (0 < row c + dir.1) && bool_decide (row c + dir.1 < rows m - 1) &&
            bool_decide (0 < col c + dir.2) && bool_decide (col c + dir.2 < cols m - 1))
      with (interior m (Coord (row c + dir.1) (col c + dir.2))).
    set (x := Coord (row c + dir.1) (col c + dir.2)).
    destruct (interior m x) eqn:Hint.
    + destruct (valid_row m x Hwf (interior_valid _ _ Hint)) as [H0 Hlt].
      destruct (row_at_lookup (grid m) (row x) H0 Hlt) as [rw Hrw].
      unfold Grid.get. change (row c + dir.1) with (row x). rewrite Hrw.
      assert (cell m x = rw !! col x) as Hcell.
      { unfold cell, cell_at. by rewrite Hrw. }
      change (col c + dir.2) with (col x). rewrite <-Hcell.
      destruct (bool_decide (cell m x = Some wall)) eqn:Hb; cbn [andb].
      * rewrite decide_True by done. rewrite IH, <-app_assoc. done.
      * rewrite decide_False by (intros []). by rewrite IH.
    + cbn [andb]. rewrite decide_False by (intros []). by rewrite IH.
Qed.

Lemma getUnvisitedNeighbors_wf m c :
  wf m → getUnvisitedNeighbors m c 2 = Ok (unvisited2 m c).
Proof.
  intros Hwf. unfold getUnvisitedNeighbors. rewrite getUnvisitedNeighbors_fold by done.
  unfold unvisited2, around2. cbn [fmap list_fmap fst snd app].
  replace (row c + - (2)) with (row c - 2) by lia.
  replace (col c + - (2)) with (col c - 2) by lia.
  by rewrite !Z.add_0_r.
Qed.

Lemma elem_of_unvisited2 m c x :
  x ∈ unvisited2 m c ↔ interior m x = true ∧ cell m x = Some wall ∧ x ∈ around2 c.
Proof.
  unfold unvisited2. rewrite list_elem_of_filter.
  rewrite andb_True, bool_decide_spec, Is_true_true. tauto.
Qed.

Lemma around2_cases c x :
  x ∈ around2 c ↔
  (row x = row c ∧ (col x = col c - 2 ∨ col x = col c + 2)) ∨
  (col x = col c ∧ (row x = row c - 2 ∨ row x = row c + 2)).
Proof.
  unfold around2. destruct c as [r k], x as [r' k'].
  rewrite !elem_of_cons, elem_of_nil. cbn [row col]. split.
  - intros [H|[H|[H|[H|[]]]]]; injection H as -> ->; lia.
  - intros [[-> [-> | ->]]|[-> [-> | ->]]]; auto 10.
Qed.

Lemma midpoint_between c x :
  x ∈ around2 c →
  2 * row (midpoint c x) = row c + row x ∧ 2 * col (midpoint c x) = col c + col x ∧
  adjacent c (midpoint c x) ∧ adjacent (midpoint c x) x.
Proof.
  intros Hx%around2_cases. unfold midpoint, adjacent. cbn [row col].
  destruct Hx as [[-> [-> | ->]]|[-> [-> | ->]]]; Z.div_mod_to_equations; lia.
Qed.

Lemma carve_step fuel choose k m stack cur rest :
  wf m → array_pop stack = Some (cur, rest) →
  carve (S fuel) choose k m stack =
    match unvisited2 m cur with
    | [] => carve fuel choose k m rest
    | ns =>
      match ns !! (choose k (length ns) `mod` length ns)%nat with
      | None => Throw
      | Some next =>
        g ← Grid.set (grid m) (row (midpoint cur next)) (col (midpoint cur next)) empty;
        g ← Grid.set g (row next) (col next) empty;
        carve fuel choose (S k) (with_grid m g) (array_push stack next)
      end
    end.
Proof.
  intros Hwf Hpop. cbn [carve]. rewrite Hpop.
  rewrite getUnvisitedNeighbors_wf by done. res_unfold.
  by destruct (unvisited2 m cur).
Qed.

Lemma linked_mono m m' p :
  (∀ w, walkable m w = true → walkable m' w = true) → linked m p → linked m' p.
Proof.
  intros Hmono. induction p as [|a [|b p] IH]; [done..|].
  intros [Hab Hl]. split; [|by apply IH].
  apply elem_of_neighbours in Hab as [Hw Hb]. apply elem_of_neighbours. auto.
Qed.

Lemma filter_length_le {A} (P Q : A → Prop) `{!∀ x, Decision (P x)} `{!∀ x, Decision (Q x)}
    (l : list A) :
  (∀ x, x ∈ l → Q x → P x) → (length (filter Q l) ≤ length (filter P l))%nat.
Proof.
  induction l as [|a l IH]; intros Hall; [done|].
  rewrite !filter_cons.
  assert (length (filter Q l) ≤ length (filter P l))%nat.
  { apply IH. intros x Hx. apply Hall. by right. }
  destruct (decide (Q a)) as [Hq|Hq].
  - rewrite decide_True by (apply Hall; [by left|done]). simpl. lia.
  - destruct (decide (P a)); simpl; lia.
Qed.

Lemma filter_length_lt {A} (P Q : A → Prop) `{!∀ x, Decision (P x)} `{!∀ x, Decision (Q x)}
    (l : list A) (a : A) :
  (∀ x, x ∈ l → Q x → P x) → a ∈ l → P a → ¬ Q a →
  (length (filter Q l) < length (filter P l))%nat.
Proof.
  induction l as [|b l IH]; intros Hall Ha HP HQ; [by apply elem_of_nil in Ha|].
  rewrite !filter_cons.
  assert (length (filter Q l) ≤ length (filter P l))%nat as Hle.
  { apply filter_length_le. intros x Hx. apply Hall. by right. }
  apply elem_of_cons in Ha as [<-|Ha].
  - destruct (decide (P a)); [|done]. destruct (decide (Q a)); [done|]. simpl. lia.
  - assert (length (filter Q l) < length (filter P l))%nat.
    { apply IH; [|done..]. intros x Hx. apply Hall. by right. }
    destruct (decide (Q b)) as [Hq|Hq].
    + rewrite decide_True by (apply Hall; [by left|done]). simpl. lia.
    + destruct (decide (P b)); simpl; lia.
Qed.

(** Carving from the top of the stack to an unvisited cell two steps
    away. *)
Lemma carve_opens m stack cur rest next :
  carving m stack → stack = rest ++ [cur] → next ∈ unvisited2 m cur →
  ∃ g1 g2,
    Grid.set (grid m) (row (midpoint cur next)) (col (midpoint cur next)) empty = Ok g1 ∧
    Grid.set g1 (row next) (col next) empty = Ok g2 ∧
    carving (with_grid m g2) (stack ++ [next]) ∧
    (walls (with_grid m g2) < walls m)%nat.
Proof.
  intros Hcv Hstack Hnext.
  apply elem_of_unvisited2 in Hnext as (Hint & Hwall & Har).
  destruct (midpoint_between _ _ Har) as (Hmr & Hmc & Hadj1 & Hadj2).
  set (mid := midpoint cur next) in *.
  destruct (cv_stack _ _ Hcv cur) as [(Hcint & Hcr & Hcc) Hcopen].
  { rewrite Hstack. apply elem_of_app. right. by left. }
  pose proof (proj1 (interior_spec _ _) Hint) as Hint'.
  pose proof (proj1 (interior_spec _ _) Hcint) as Hcint'.
  assert (interior m mid = true) as Hmint by (apply interior_spec; lia).
  pose proof (proj1 (around2_cases _ _) Har) as Hcases.
  pose proof (cv_wf _ _ Hcv) as Hwf.
  destruct (valid_row m mid Hwf (interior_valid _ _ Hmint)) as [Hm0 Hmlt].
  destruct (valid_row m next Hwf (interior_valid _ _ Hint)) as [Hn0 Hnlt].
  destruct (grid_set_Ok (grid m) (row mid) (col mid) empty) as (g1 & H1 & Hl1); [done..|].
  destruct (grid_set_Ok g1 (row next) (col next) empty) as (g2 & H2 & Hl2); [lia..|].
  exists g1, g2. do 2 (split; [done|]).
  set (m' := with_grid m g2).
  assert (∀ c, cell m' c = if decide (c = next ∨ c = mid) then Some empty else cell m c)
    as Hcell.
  { intros [r k]. unfold cell. cbn [with_grid grid row col m'].
    rewrite (cell_at_set _ _ _ _ _ _ _ H2), (cell_at_set _ _ _ _ _ _ _ H1).
    destruct next as [nr nk], mid as [mr mk]. cbn [row col].
    repeat case_decide; try done; exfalso; naive_solver. }
  assert (∀ c, cell m c = Some empty → cell m' c = Some empty) as Hkeep.
  { intros c Hc. rewrite Hcell. by case_decide. }
  assert (∀ c, cell m' c = Some wall → cell m c = Some wall) as Hback.
  { intros c. rewrite Hcell. by case_decide. }
  assert (∀ w, walkable m w = true → walkable m' w = true) as Hmono.
  { intros w. rewrite !walkable_cell.
    change (isValid m' (row w) (col w)) with (isValid m (row w) (col w)).
    rewrite !andb_true_iff, !bool_decide_eq_true. intros [? Hw]. split; [done|].
    rewrite Hcell. by case_decide. }
  assert (Z.odd (row next) = true ∧ Z.odd (col next) = true) as [Hnr Hnc].
  { destruct Hcases as [[-> [-> | ->]]|[-> [-> | ->]]];
      rewrite ?Z.odd_sub, ?Z.odd_add, ?Hcr, ?Hcc; done. }
  assert (walkable m' mid = true) as Hwmid.
  { rewrite walkable_cell. apply andb_true_iff. split; [by apply interior_valid|].
    apply bool_decide_eq_true. rewrite Hcell, decide_True by auto. done. }
  assert (walkable m' next = true) as Hwnext.
  { rewrite walkable_cell. apply andb_true_iff. split; [by apply interior_valid|].
    apply bool_decide_eq_true. rewrite Hcell, decide_True by auto. done. }
  assert (¬ room m mid) as Hmid_room.
  { intros (_ & Hr & Hc).
    destruct Hcases as [[Hrow Hcol]|[Hcol Hrow]].
    - assert (col mid = col cur - 1 ∨ col mid = col cur + 1) as [Hk|Hk] by lia;
        rewrite Hk, ?Z.odd_sub, ?Z.odd_add, Hcc in Hc; done.
    - assert (row mid = row cur - 1 ∨ row mid = row cur + 1) as [Hk|Hk] by lia;
        rewrite Hk, ?Z.odd_sub, ?Z.odd_add, Hcr in Hr; done. }
  split; [split|].
  - unfold wf. cbn [with_grid grid rows m']. unfold wf in Hwf. lia.
  - apply Hkeep, Hcv.
  - intros c Hv. rewrite Hcell. case_decide; [by right|]. by apply Hcv.
  - intros c Hv. rewrite Hcell.
    change (interior m' c) with (interior m c).
    change (rows m') with (rows m). change (cols m') with (cols m).
    case_decide as Hc; [|by apply Hcv]. intros _.
    destruct Hc as [-> | ->].
    + split; [done|]. split; [by left|]. split; intros Hodd; congruence.
    + split; [done|].
      destruct Hcases as [[Hrow Hcol]|[Hcol Hrow]].
      * assert (row mid = row cur) as Hr by lia.
        split; [left; by rewrite Hr|]. split; [rewrite Hr; congruence|]. intros _. lia.
      * assert (col mid = col cur) as Hc by lia.
        split; [right; by rewrite Hc|]. split; [intros _; lia|rewrite Hc; congruence].
  - intros c [Hc|Hc%list_elem_of_singleton]%elem_of_app.
    + destruct (cv_stack _ _ Hcv c Hc) as [Hroom Hopen]. split; [done|]. by apply Hkeep.
    + subst c. split; [by split|]. rewrite Hcell, decide_True by auto. done.
  - assert (∃ p, route m' (Coord 1 1) cur p) as (pc & Hh & Hl & Hlk).
    { destruct (cv_conn _ _ Hcv cur) as (p & Hh & Hl & Hlk);
        [by apply interior_valid|done|].
      exists p. split; [done|]. split; [done|]. by eapply linked_mono. }
    assert (mid ∈ neighbours m' cur) as Hn1.
    { apply elem_of_neighbours. split; [done|]. by apply around_adjacent. }
    assert (next ∈ neighbours m' mid) as Hn2.
    { apply elem_of_neighbours. split; [done|]. by apply around_adjacent. }
    assert (route m' (Coord 1 1) mid (pc ++ [mid])) as Hrmid.
    { split; [by destruct pc|]. split; [by rewrite last_snoc|]. by eapply linked_snoc. }
    intros c Hv. rewrite Hcell. case_decide as Hc.
    + intros _. destruct Hc as [-> | ->]; [|by eauto].
      exists ((pc ++ [mid]) ++ [next]). split; [by destruct pc|].
      split; [by rewrite last_snoc|].
      eapply linked_snoc; [apply Hrmid|by rewrite last_snoc|done].
    + intros Hopen. destruct (cv_conn _ _ Hcv c Hv Hopen) as (p & ? & ? & ?).
      exists p. split; [done|]. split; [done|]. by eapply linked_mono.
  - intros c Hroom. rewrite Hcell. case_decide as Hc.
    + intros _. destruct Hc as [-> | ->]; [|done].
      left. apply elem_of_app. right. by left.
    + intros Hopen. destruct (cv_closed _ _ Hcv c Hroom Hopen) as [Hin|Hnil].
      * left. apply elem_of_app. by left.
      * right. destruct (unvisited2 m' c) as [|x l] eqn:Hu; [done|]. exfalso.
        assert (x ∈ unvisited2 m c) as Hx.
        { assert (x ∈ unvisited2 m' c) as Hx' by (rewrite Hu; by left).
          apply elem_of_unvisited2 in Hx' as (? & ? & ?).
          apply elem_of_unvisited2. auto. }
        rewrite Hnil in Hx. by apply elem_of_nil in Hx.
  - unfold walls. change (cells m') with (cells m).
    apply (filter_length_lt _ _ _ next).
    + intros x _. apply Hback.
    + apply elem_of_cells. by apply interior_valid.
    + done.
    + rewrite Hcell, decide_True by auto. done.
Qed.

Lemma carve_backtracks m rest cur :
  carving m (rest ++ [cur]) → unvisited2 m cur = [] → carving m rest.
Proof.
  intros Hcv Hnil. split; try apply Hcv.
  - intros c Hc. apply (cv_stack _ _ Hcv). apply elem_of_app. by left.
  - intros c Hroom Hopen.
    destruct (cv_closed _ _ Hcv c Hroom Hopen)
      as [[?|Hc%list_elem_of_singleton]%elem_of_app|?]; subst; auto.
Qed.

(** The carving loop ends within a number of turns bounded by the
    walls left and the height of the stack. *)
Lemma carve_total choose fuel k m stack :
  carving m stack → (2 * walls m + length stack < fuel)%nat →
  ∃ m', carve fuel choose k m stack = Ok m' ∧ carving m' [] ∧
        rows m' = rows m ∧ cols m' = cols m ∧
        start m' = start m ∧ end_ m' = end_ m.
Proof.
  revert k m stack. induction fuel as [|fuel IH]; intros k m stack Hcv Hfuel; [lia|].
  destruct (array_pop stack) as [[cur rest]|] eqn:Hpop.
  - rewrite (carve_step _ _ _ _ _ _ _ (cv_wf _ _ Hcv) Hpop).
    apply array_pop_Some in Hpop. subst stack.
    rewrite length_app in Hfuel. cbn [length] in Hfuel.
    destruct (unvisited2 m cur) as [|x ns] eqn:Hns.
    + apply IH; [by eapply carve_backtracks|lia].
    + rewrite <-Hns.
      assert (choose k (length (unvisited2 m cur)) `mod` length (unvisited2 m cur)
              < length (unvisited2 m cur))%nat as Hlt.
      { apply Nat.mod_upper_bound. by rewrite Hns. }
      destruct (lookup_lt_is_Some_2 _ _ Hlt) as [next Hnext]. cbv zeta. rewrite Hnext.
      destruct (carve_opens m _ cur rest next Hcv eq_refl) as (g1 & g2 & H1 & H2 & Hcv' & Hw).
      { by eapply list_elem_of_lookup_2. }
      res_unfold. rewrite H1, H2.
      destruct (IH (S k) (with_grid m g2) (array_push (rest ++ [cur]) next)) as
        (m' & Hm' & ?); [done| |eauto].
      unfold array_push. rewrite !length_app. cbn [length]. lia.
  - apply array_pop_None in Hpop. subst stack. cbn [carve array_pop reverse].
    exists m. by rewrite (proj2 (array_pop_None [])).
Qed.

End perfect_maze.

Section perfect_maze_result.

Lemma wall_row_lookup ncols j :
  wall_row ncols !! j = if bool_decide (0 ≤ j < ncols) then Some wall else None.
Proof.
  assert (∀ l : list Z, ((λ j, (j, wall)) <$> l).*1 = l) as Hfst.
  { induction l as [|x l IH]; [done|]. cbn [fmap list_fmap] in *. cbn [fst]. by rewrite IH. }
  unfold wall_row. case_bool_decide as Hj.
  - apply elem_of_list_to_map_1.
    + rewrite Hfst. apply NoDup_seqZ.
    + apply list_elem_of_fmap. exists j. split; [done|]. apply elem_of_seqZ. lia.
  - apply not_elem_of_list_to_map_1. rewrite Hfst, elem_of_seqZ. lia.
Qed.

Lemma wall_grid_fold (ncols : Z) (l : list Z) (g : list (gmap Z Z)) :
  0 ≤ ncols →
  foldl (λ (acc : res (list (gmap Z Z))) (_ : Z),
      g ← acc;
      if decide (ncols < 0) then Throw
      else Ok (g ++ [list_to_map ((λ j, (j, wall)) <$> seqZ 0 ncols)]))
    (Ok g) l
  = Ok (g ++ replicate (length l) (wall_row ncols)).
Proof.
  intros Hc. revert g. induction l as [|x l IH]; intros g; cbn [foldl length replicate].
  - by rewrite app_nil_r.
  - res_unfold. rewrite decide_False by lia. rewrite IH, <-app_assoc. done.
Qed.

Lemma wall_grid_cell nrows ncols r c :
  cell_at (replicate (Z.to_nat nrows) (wall_row ncols)) r c
  = if in_bounds nrows ncols r c then Some wall else None.
Proof.
  unfold cell_at, Grid.row_at, in_bounds. case_decide as Hr.
  - destruct (decide (r < nrows)) as [Hlt|Hge].
    + rewrite lookup_replicate_2 by lia. simpl. rewrite wall_row_lookup.
      rewrite (bool_decide_eq_true_2 (0 ≤ r < nrows)) by lia. done.
    + rewrite (proj1 (lookup_replicate_None _ _ _)) by lia. simpl.
      rewrite (bool_decide_eq_false_2 (0 ≤ r < nrows)) by lia. done.
  - rewrite (bool_decide_eq_false_2 (0 ≤ r < nrows)) by lia. done.
Qed.

Lemma isValid_in_bounds m c :
  isValid m (row c) (col c) = in_bounds (rows m) (cols m) (row c) (col c).
Proof.
  unfold isValid, in_bounds.
  repeat case_bool_decide; simpl; try done; lia.
Qed.

(** The grid at the start of the carving loop: all walls but (1,1). *)
Lemma carving_initial m g :
  3 ≤ rows m → 3 ≤ cols m →
  Grid.set (replicate (Z.to_nat (rows m)) (wall_row (cols m))) 1 1 empty = Ok g →
  carving (with_grid m g) [Coord 1 1].
Proof.
  intros Hr Hc Hg. set (m0 := with_grid m g).
  assert (∀ c, cell m0 c = if decide (c = Coord 1 1) then Some empty
                           else if isValid m0 (row c) (col c) then Some wall else None)
    as Hcell.
  { intros [r k]. rewrite (isValid_in_bounds m0 (Coord r k)).
    unfold cell. cbn [with_grid grid row col rows cols m0].
    rewrite (cell_at_set _ _ _ _ _ _ _ Hg), wall_grid_cell.
    repeat case_decide; try done; exfalso; naive_solver. }
  assert (room m0 (Coord 1 1)) as Hroom.
  { split; [|done]. apply interior_spec. cbn [row col]. change (rows m0) with (rows m).
    change (cols m0) with (cols m). lia. }
  assert (∀ c, cell m0 c = Some empty → c = Coord 1 1) as Honly.
  { intros c. rewrite Hcell. case_decide; [done|]. by destruct (isValid m0 _ _). }
  split.
  - unfold wf. cbn [with_grid grid rows m0].
    rewrite (grid_set_length _ _ _ _ _ Hg). by rewrite length_replicate.
  - rewrite Hcell. by rewrite decide_True.
  - intros c Hv. rewrite Hcell, Hv. case_decide; auto.
  - intros c Hv Hopen. apply Honly in Hopen as ->. destruct Hroom as (? & ? & ?).
    split; [done|]. split; [by left|]. split; intros; done.
  - intros c Hc'%list_elem_of_singleton. subst c. split; [done|].
    rewrite Hcell. by rewrite decide_True.
  - intros c Hv Hopen. apply Honly in Hopen as ->. exists [Coord 1 1]. by split.
  - intros c _ Hopen. apply Honly in Hopen as ->. left. by left.
Qed.

Lemma generatePerfect_carve fuel choose m :
  3 ≤ rows m → 3 ≤ cols m → (2 * length (cells m) + 2 ≤ fuel)%nat →
  ∃ m1, generatePerfect fuel choose m
        = (g ← Grid.set (grid m1) (row (end_ m)) (col (end_ m)) empty;
           Ok (with_grid m1 g)) ∧
        carving m1 [] ∧ rows m1 = rows m ∧ cols m1 = cols m ∧
        start m1 = start m ∧ end_ m1 = end_ m.
Proof.
  intros Hr Hc Hfuel. unfold generatePerfect.
  rewrite (wall_grid_fold (cols m)) by lia. rewrite length_seqZ, app_nil_l.
  destruct (grid_set_Ok (replicate (Z.to_nat (rows m)) (wall_row (cols m))) 1 1 empty)
    as (g & Hg & Hl); [lia|rewrite length_replicate; lia|].
  res_unfold. rewrite Hg.
  pose proof (carving_initial m g Hr Hc Hg) as Hcv.
  destruct (carve_total choose fuel 0 (with_grid m g) [Coord 1 1] Hcv)
    as (m1 & -> & Hcv1 & Hrows & Hcols & Hst & Hen).
  { assert (walls (with_grid m g) ≤ length (cells m))%nat by apply length_filter.
    cbn [length]. lia. }
  exists m1. rewrite Hen. done.
Qed.

(** In a finished carving every room has been opened. *)
Lemma rooms_open m c : carving m [] → room m c → cell m c = Some empty.
Proof.
  intros Hcv.
  assert (∀ x y, cell m x = Some empty → room m x → y ∈ around2 x → interior m y = true →
                 cell m y = Some empty) as Hnext.
  { intros x y Hx Hroom Hy Hint.
    destruct (cv_closed _ _ Hcv x Hroom Hx) as [[]%elem_of_nil|Hnil].
    destruct (cv_bits _ _ Hcv y (interior_valid _ _ Hint)) as [Hw|]; [|done].
    assert (y ∈ unvisited2 m x) as Hin by (by apply elem_of_unvisited2).
    rewrite Hnil in Hin. by apply elem_of_nil in Hin. }
  assert (∀ a b : nat, interior m (Coord (1 + 2 * Z.of_nat a) (1 + 2 * Z.of_nat b)) = true →
                       cell m (Coord (1 + 2 * Z.of_nat a) (1 + 2 * Z.of_nat b)) = Some empty) as Hall.
  { assert (∀ a b : nat, Z.odd (1 + 2 * Z.of_nat a) = true ∧ Z.odd (1 + 2 * Z.of_nat b) = true) as Hodd.
    { intros a b. rewrite !Z.odd_add_mul_2. done. }
    induction a as [|a IHa].
    - induction b as [|b IHb]; intros Hint.
      + apply Hcv.
      + apply interior_spec in Hint. cbn [row col] in Hint.
        apply (Hnext (Coord (1 + 2 * Z.of_nat 0) (1 + 2 * Z.of_nat b))).
        * apply IHb. apply interior_spec. cbn [row col]. lia.
        * split; [apply interior_spec; cbn [row col]; lia|apply Hodd].
        * apply around2_cases. cbn [row col]. lia.
        * apply interior_spec. cbn [row col]. lia.
    - intros b Hint. apply interior_spec in Hint. cbn [row col] in Hint.
      apply (Hnext (Coord (1 + 2 * Z.of_nat a) (1 + 2 * Z.of_nat b))).
      + apply IHa. apply interior_spec. cbn [row col]. lia.
      + split; [apply interior_spec; cbn [row col]; lia|apply Hodd].
      + apply around2_cases. cbn [row col]. lia.
      + apply interior_spec. cbn [row col]. lia. }
  intros (Hint & Hr & Hk).
  apply Z.odd_spec in Hr as [a Ha]. apply Z.odd_spec in Hk as [b Hb].
  pose proof (proj1 (interior_spec _ _) Hint) as Hint'.
  specialize (Hall (Z.to_nat a) (Z.to_nat b)).
  replace (Coord (1 + 2 * Z.of_nat (Z.to_nat a)) (1 + 2 * Z.of_nat (Z.to_nat b))) with c in Hall.
  - by apply Hall.
  - destruct c as [r k]. cbn [row col] in *. f_equal; lia.
Qed.

Lemma linked_last_step m p s t :
  linked m p → head p = Some s → list.last p = Some t → s ≠ t →
  ∃ x, x ∈ p ∧ t ∈ neighbours m x.
Proof.
  revert s. induction p as [|a p IH]; intros s Hl Hh Hla Hne; [done|].
  injection Hh as ->. destruct p as [|b p]; [simpl in Hla; congruence|].
  destruct Hl as [Hab Hl].
  destruct (decide (b = t)) as [->|Hbt].
  - exists s. split; [by left|done].
  - destruct (IH b Hl eq_refl) as (x & Hx & Hn); [by rewrite last_cons_cons in Hla|done|].
    exists x. split; [by right|done].
Qed.

End perfect_maze_result.

Section perfect_maze_theorems.

(** What [generatePerfect] returns, in terms of the finished carving
    [m1] and the final write to the end cell. *)
Lemma generatePerfect_result fuel choose m :
  3 ≤ rows m → 3 ≤ cols m → 0 ≤ row (end_ m) < rows m →
  (2 * length (cells m) + 2 ≤ fuel)%nat →
  ∃ m1 m',
    generatePerfect fuel choose m = Ok m' ∧ carving m1 [] ∧
    rows m1 = rows m ∧ cols m1 = cols m ∧
    rows m' = rows m ∧ cols m' = cols m ∧ start m' = start m ∧ end_ m' = end_ m ∧
    wf m' ∧
    (∀ c, cell m' c = if decide (c = end_ m) then Some empty else cell m1 c) ∧
    (∀ w, walkable m1 w = true → walkable m' w = true).
Proof.
  intros Hr Hc He Hfuel.
  destruct (generatePerfect_carve fuel choose m Hr Hc Hfuel)
    as (m1 & -> & Hcv & Hrows & Hcols & Hst & Hen).
  pose proof (cv_wf _ _ Hcv) as Hwf.
  destruct (grid_set_Ok (grid m1) (row (end_ m)) (col (end_ m)) empty) as (g & Hg & Hl).
  { lia. }
  { unfold wf in Hwf. lia. }
  res_unfold. rewrite Hg. exists m1, (with_grid m1 g).
  split; [done|]. split; [done|]. do 6 (split; [done|]).
  assert (∀ c, cell (with_grid m1 g) c
               = if decide (c = end_ m) then Some empty else cell m1 c) as Hcell.
  { intros [r k]. unfold cell. cbn [with_grid grid row col].
    rewrite (cell_at_set _ _ _ _ _ _ _ Hg). destruct (end_ m) as [er ek]. cbn [row col].
    repeat case_decide; try done; exfalso; naive_solver. }
  split; [|split; [done|]].
  - unfold wf in *. cbn [with_grid grid rows]. lia.
  - intros w. rewrite !walkable_cell.
    change (isValid (with_grid m1 g) (row w) (col w)) with (isValid m1 (row w) (col w)).
    rewrite !andb_true_iff, !bool_decide_eq_true. intros [? Hw]. split; [done|].
    rewrite Hcell. by case_decide.
Qed.

Lemma isValid_dims m m' r c :
  rows m' = rows m → cols m' = cols m → isValid m' r c = isValid m r c.
Proof. unfold isValid. by intros -> ->. Qed.

Lemma interior_dims m m' c :
  rows m' = rows m → cols m' = cols m → interior m' c = interior m c.
Proof. unfold interior. by intros -> ->. Qed.

Lemma length_cells m :
  length (cells m) = (Z.to_nat (rows m) * Z.to_nat (cols m))%nat.
Proof.
  unfold cells. rewrite <-(length_seqZ 0 (rows m)).
  induction (seqZ 0 (rows m)) as [|r l IH]; [done|].
  rewrite bind_cons, length_app, IH, length_fmap, length_seqZ. cbn [length]. lia.
Qed.

End perfect_maze_theorems.

(** X4: on a grid of at least 3 x 3 whose end cell lies in an existing
    row, [generatePerfect] returns within [2 * rows * cols + 2] turns of
    its loop, whatever the random draws.  It keeps the dimensions and the
    endpoints; the cell (1,1) and the end cell are open; every cell
    inside the bounds holds 0 or 1; and the border stays walled, the end
    cell apart. *)
Theorem generatePerfect_grid (fuel : nat) (choose : nat → nat → nat) (m : Maze) :
  3 ≤ rows m → 3 ≤ cols m → 0 ≤ row (end_ m) < rows m →
  (2 * (Z.to_nat (rows m) * Z.to_nat (cols m)) + 2 ≤ fuel)%nat →
  ∃ m', generatePerfect fuel choose m = Ok m' ∧
        rows m' = rows m ∧ cols m' = cols m ∧
        start m' = start m ∧ end_ m' = end_ m ∧ wf m' ∧
        cell m' (Coord 1 1) = Some empty ∧ cell m' (end_ m) = Some empty ∧
        (∀ c, isValid m (row c) (col c) = true →
              cell m' c = Some wall ∨ cell m' c = Some empty) ∧
        (∀ c, isValid m (row c) (col c) = true → interior m c = false →
              c ≠ end_ m → cell m' c = Some wall).
Proof.
  intros Hr Hc He Hfuel. rewrite <-length_cells in Hfuel.
  destruct (generatePerfect_result fuel choose m Hr Hc He Hfuel)
    as (m1 & m' & Hgen & Hcv & Hr1 & Hc1 & Hrows & Hcols & Hst & Hen & Hwf & Hcell & _).
  exists m'. do 6 (split; [done|]).
  split; [|split; [|split]].
  - rewrite Hcell. case_decide; [done|]. apply Hcv.
  - rewrite Hcell. by rewrite decide_True.
  - intros c Hv. rewrite Hcell. case_decide; [by right|].
    apply Hcv. by rewrite (isValid_dims m m1).
  - intros c Hv Hint Hne. rewrite Hcell, decide_False by done.
    rewrite <-(isValid_dims m m1) in Hv by done.
    destruct (cv_bits _ _ Hcv c Hv) as [|Hopen]; [done|].
    destruct (cv_shape _ _ Hcv c Hv Hopen) as [Hi _].
    rewrite (interior_dims m m1) in Hi by done. congruence.
Qed.

Lemma generatePerfect_grid_witness :
  ∃ m', generatePerfect 52 (λ k n, k) demo_maze = Ok m' ∧
        rows m' = rows demo_maze ∧ cols m' = cols demo_maze ∧
        start m' = start demo_maze ∧ end_ m' = end_ demo_maze ∧ wf m' ∧
        cell m' (Coord 1 1) = Some empty ∧ cell m' (end_ demo_maze) = Some empty ∧
        (∀ c, isValid demo_maze (row c) (col c) = true →
              cell m' c = Some wall ∨ cell m' c = Some empty) ∧
        (∀ c, isValid demo_maze (row c) (col c) = true → interior demo_maze c = false →
              c ≠ end_ demo_maze → cell m' c = Some wall).
Proof.
  apply (generatePerfect_grid 52 (λ k n, k) demo_maze).
  - vm_compute; intros [=].
  - vm_compute; intros [=].
  - vm_compute; (split; [intros [=]|reflexivity]).
  - vm_compute; lia.
Defined.

(** X5: in the maze [generatePerfect] returns, every room (a cell inside
    the border with two odd coordinates) can be walked to from the cell
    (1,1). *)
Theorem generatePerfect_connects_rooms (fuel : nat) (choose : nat → nat → nat) (m : Maze) :
  3 ≤ rows m → 3 ≤ cols m → 0 ≤ row (end_ m) < rows m →
  (2 * (Z.to_nat (rows m) * Z.to_nat (cols m)) + 2 ≤ fuel)%nat →
  ∃ m', generatePerfect fuel choose m = Ok m' ∧
        ∀ c, room m c → ∃ p, walkable_route m' (Coord 1 1) c p.
Proof.
  intros Hr Hc He Hfuel. rewrite <-length_cells in Hfuel.
  destruct (generatePerfect_result fuel choose m Hr Hc He Hfuel)
    as (m1 & m' & Hgen & Hcv & Hr1 & Hc1 & Hrows & Hcols & Hst & Hen & Hwf & Hcell & Hmono).
  exists m'. split; [done|]. intros c (Hint & Hodd).
  rewrite <-(interior_dims m m1) in Hint by done.
  pose proof (rooms_open m1 c Hcv (conj Hint Hodd)) as Hopen.
  destruct (cv_conn _ _ Hcv c (interior_valid _ _ Hint) Hopen) as (p & Hh & Hl & Hlk).
  exists p. apply route_walkable_route.
  - apply Hmono. rewrite walkable_cell. apply andb_true_iff. split.
    + rewrite (isValid_dims m m1) by done. unfold isValid. cbn [row col].
      rewrite !bool_decide_eq_true_2 by lia. done.
    + apply bool_decide_eq_true. by rewrite (cv_root _ _ Hcv).
  - split; [done|]. split; [done|]. by eapply linked_mono.
Qed.

Lemma generatePerfect_connects_rooms_witness :
  ∃ m', generatePerfect 52 (λ k n, k) demo_maze = Ok m' ∧
        ∀ c, room demo_maze c → ∃ p, walkable_route m' (Coord 1 1) c p.
Proof.
  apply (generatePerfect_connects_rooms 52 (λ k n, k) demo_maze).
  - vm_compute; intros [=].
  - vm_compute; intros [=].
  - vm_compute; (split; [intros [=]|reflexivity]).
  - vm_compute; lia.
Defined.

(** X6: a maze built by [new Maze(rows, cols)] with both dimensions at
    least 3 and then regenerated by [generatePerfect] has a walkable
    route from its start to its end exactly when [rows] or [cols] is odd:
    with two even dimensions the end cell is walled in. *)
Theorem perfect_maze_solvable_iff_odd_dimension
    (fuel : nat) (choose : nat → nat → nat) (nrows ncols : Z) :
  3 ≤ nrows → 3 ≤ ncols →
  (2 * (Z.to_nat nrows * Z.to_nat ncols) + 2 ≤ fuel)%nat →
  ∃ m', (m ← Maze_new nrows ncols; generatePerfect fuel choose m) = Ok m' ∧
        ((∃ p, walkable_route m' (start m') (end_ m') p)
         ↔ Z.odd nrows = true ∨ Z.odd ncols = true).
Proof.
  intros Hr Hc Hfuel.
  destruct (Maze_new_Ok nrows ncols) as (m & Hm & _ & Hrows0 & Hcols0 & Hs0 & He0); [lia|].
  rewrite Hm. res_unfold.
  destruct (generatePerfect_result fuel choose m)
    as (m1 & m' & Hgen & Hcv & Hr1 & Hc1 & Hrows & Hcols & Hst & Hen & Hwf & Hcell & Hmono);
    [lia|lia|rewrite He0; cbn [row]; lia|rewrite length_cells, Hrows0, Hcols0; lia|].
  exists m'. split; [done|]. rewrite Hst, Hen, Hs0, He0.
  set (e := Coord (nrows - 2) (ncols - 2)).
  assert (walkable m' (Coord 1 1) = true) as Hw1.
  { apply Hmono. rewrite walkable_cell. apply andb_true_iff. split.
    - unfold isValid. cbn [row col]. rewrite !bool_decide_eq_true_2 by lia. done.
    - apply bool_decide_eq_true. by rewrite (cv_root _ _ Hcv). }
  assert (walkable m' e = true) as Hwe.
  { rewrite walkable_cell. apply andb_true_iff. split.
    - unfold isValid, e. cbn [row col]. rewrite !bool_decide_eq_true_2 by lia. done.
    - apply bool_decide_eq_true. rewrite Hcell, He0. by rewrite decide_True. }
  assert (∀ c, room m1 c → ∃ p, route m' (Coord 1 1) c p) as Hrooms.
  { intros c Hroom. pose proof (rooms_open m1 c Hcv Hroom) as Hopen.
    destruct Hroom as (Hint & _).
    destruct (cv_conn _ _ Hcv c (interior_valid _ _ Hint) Hopen) as (p & Hh & Hl & Hlk).
    exists p. split; [done|]. split; [done|]. by eapply linked_mono. }
  assert (∀ x, room m1 x → adjacent x e → ∃ p, walkable_route m' (Coord 1 1) e p) as Hvia.
  { intros x Hroom Hadj. destruct (Hrooms x Hroom) as (p & Hh & Hl & Hlk).
    exists (p ++ [e]). apply route_walkable_route; [done|].
    split; [by destruct p|]. split; [by rewrite last_snoc|].
    eapply linked_snoc; [done..|]. apply elem_of_neighbours. split; [done|].
    by apply around_adjacent. }
  split.
  - intros [p Hp]. apply walkable_route_linked in Hp as (Hh & Hl & Hlk).
    destruct (Z.odd nrows) eqn:Hor; [by left|]. destruct (Z.odd ncols) eqn:Hoc; [by right|].
    exfalso.
    destruct (linked_last_step m' p (Coord 1 1) e Hlk Hh Hl) as (x & Hx & Hn).
    { intros [= H1 H2]. replace nrows with 3 in Hor by lia. done. }
    pose proof (linked_walkable m' p _ Hlk Hh Hw1 x Hx) as Hwx.
    apply neighbours_adjacent in Hn.
    rewrite walkable_cell in Hwx. apply andb_true_iff in Hwx as [Hvx Hcx].
    apply bool_decide_eq_true in Hcx. rewrite Hcell, He0 in Hcx.
    assert (x ≠ e) as Hxe.
    { intros ->. unfold adjacent in Hn. lia. }
    rewrite decide_False in Hcx by done.
    rewrite (isValid_dims m1 m') in Hvx by congruence.
    destruct (cv_bits _ _ Hcv x Hvx) as [|Hopen]; [done|].
    destruct (cv_shape _ _ Hcv x Hvx Hopen) as (Hint & _ & Hre & Hce).
    apply interior_spec in Hint. rewrite Hr1, Hc1, Hrows0, Hcols0 in *.
    unfold adjacent in Hn. subst e. cbn [row col] in Hn.
    assert (Z.odd (nrows - 2) = false) as Hor' by (by rewrite Z.odd_sub, Hor).
    assert (Z.odd (ncols - 2) = false) as Hoc' by (by rewrite Z.odd_sub, Hoc).
    destruct (decide (row x = nrows - 2)) as [Hrx|Hrx].
    + rewrite <-Hrx in Hor'. specialize (Hre Hor'). lia.
    + assert (col x = ncols - 2) as Hcx' by lia.
      rewrite <-Hcx' in Hoc'. specialize (Hce Hoc'). lia.
  - intros Hodd. subst e.
    destruct (Z.odd nrows) eqn:Hor; destruct (Z.odd ncols) eqn:Hoc.
    + destruct (Hrooms (Coord (nrows - 2) (ncols - 2))) as (p & Hp).
      { split; [|split].
        - apply interior_spec. rewrite Hr1, Hc1, Hrows0, Hcols0. cbn [row col]. lia.
        - cbn [row]. by rewrite Z.odd_sub, Hor.
        - cbn [col]. by rewrite Z.odd_sub, Hoc. }
      exists p. by apply route_walkable_route.
    + apply (Hvia (Coord (nrows - 2) (ncols - 3))).
      * split; [|split].
        -- apply interior_spec. rewrite Hr1, Hc1, Hrows0, Hcols0. cbn [row col].
           assert (ncols ≠ 3) by (intros ->; done). lia.
        -- cbn [row]. by rewrite Z.odd_sub, Hor.
        -- cbn [col]. by rewrite Z.odd_sub, Hoc.
      * unfold adjacent. cbn [row col]. lia.
    + apply (Hvia (Coord (nrows - 3) (ncols - 2))).
      * split; [|split].
        -- apply interior_spec. rewrite Hr1, Hc1, Hrows0, Hcols0. cbn [row col].
           assert (nrows ≠ 3) by (intros ->; done). lia.
        -- cbn [row]. by rewrite Z.odd_sub, Hor.
        -- cbn [col]. by rewrite Z.odd_sub, Hoc.
      * unfold adjacent. cbn [row col]. lia.
    + by destruct Hodd.
Qed.

Lemma perfect_maze_solvable_iff_odd_dimension_witness :
  ∃ m', (m ← Maze_new 4 4; generatePerfect 34 (λ k n, k) m) = Ok m' ∧
        ((∃ p, walkable_route m' (start m') (end_ m') p)
         ↔ Z.odd 4 = true ∨ Z.odd 4 = true).
Proof.
  apply (perfect_maze_solvable_iff_odd_dimension 34 (λ k n, k) 4 4); lia.
Defined.

(** ** What a result reports *)

(** The [optimal] flag and the [heuristic] label each search writes into
    its result. *)
Definition reported (a : algorithm) : bool * option string :=
  match a with
  | DFS | Greedy => (false, None)
  | BFS | Dijkstra | Bidirectional => (true, None)
  | AStar heuristic => (true, Some heuristic)
  end.

(** The most nodes a search explores: every cell once, and once from
    each end for the bidirectional search. *)
Definition explored_bound (a : algorithm) (m : Maze) : Z :=
  match a with
  | Bidirectional => 2 * (rows m * cols m)
  | _ => rows m * cols m
  end.

Section chain_paths.

Lemma chain_prefix par s c p x :
  chain par s c p → x ∈ p → ∃ q, chain par s x q ∧ (length q ≤ length p)%nat.
Proof.
  induction 1 as [|c u p Hne Hpar Hp IH]; intros Hx.
  - apply list_elem_of_singleton in Hx as ->. exists [s]. split; [constructor|done].
  - apply elem_of_app in Hx as [Hx|Hx%list_elem_of_singleton].
    + destruct (IH Hx) as (q & Hq & Hlen). exists q. split; [done|].
      rewrite length_app. simpl. lia.
    + subst x. exists (p ++ [c]). split; [by econstructor|done].
Qed.

(** Following parent links never passes a cell twice. *)
Lemma chain_NoDup par s c p : chain par s c p → NoDup p.
Proof.
  induction 1 as [|c u p Hne Hpar Hp IH].
  - apply NoDup_singleton.
  - apply NoDup_app. split; [done|]. split; [|apply NoDup_singleton].
    intros x Hx Hxc%list_elem_of_singleton. subst x.
    destruct (chain_prefix _ _ _ _ _ Hp Hx) as (q & Hq & Hlen).
    assert (q = p ++ [c]) as -> by (eapply chain_functional; [done|by econstructor]).
    rewrite length_app in Hlen. simpl in Hlen. lia.
Qed.

Lemma linked_suffix m l q : linked m (l ++ q) → linked m q.
Proof.
  induction l as [|a l IH]; [done|]. intros H. apply IH. by eapply linked_cons_inv.
Qed.

(** A route that passes a cell twice can be cut short. *)
Lemma route_shortcut m p s t :
  linked m p → head p = Some s → list.last p = Some t → ¬ NoDup p →
  ∃ q, linked m q ∧ head q = Some s ∧ list.last q = Some t ∧ (length q < length p)%nat.
Proof.
  revert s. induction p as [|a p IH]; intros s Hl Hh Hla Hdup.
  { destruct Hdup. constructor. }
  injection Hh as ->.
  destruct (decide (s ∈ p)) as [Hin|Hnin].
  - apply list_elem_of_split in Hin as (l1 & l2 & ->).
    exists (s :: l2). split; [|split; [done|split]].
    + apply (linked_suffix m (s :: l1)). done.
    + rewrite <-Hla. change (s :: l1 ++ s :: l2) with ((s :: l1) ++ s :: l2).
      by rewrite last_app_cons.
    + simpl. rewrite length_app. simpl. lia.
  - assert (¬ NoDup p) as Hdup' by (intros ?; apply Hdup; by constructor).
    destruct p as [|b p]; [destruct Hdup'; constructor|].
    destruct Hl as [Hab Hl].
    destruct (IH b Hl eq_refl) as (q & Hq & Hhq & Hlq & Hlen);
      [by rewrite last_cons_cons in Hla|done|].
    exists (s :: q). split; [|split; [done|split]].
    + destruct q as [|b' q]; [done|]. injection Hhq as ->. by split.
    + destruct q as [|b' q]; [done|]. by rewrite last_cons_cons.
    + simpl in *. lia.
Qed.

End chain_paths.

Section frontier_reports.
Import PathfindingAlgorithms.
Context {F : Type}.
Variable pop : F → option (coord * F).
Variable push : F → coord → F.
Variable elems : F → list coord.
Hypothesis pop_None : ∀ f, pop f = None → elems f = [].
Hypothesis pop_Some : ∀ f c f', pop f = Some (c, f') → elems f ≡ₚ c :: elems f'.
Hypothesis push_elems : ∀ f c, elems (push f c) ≡ₚ c :: elems f.
Variable m : Maze.
Hypothesis Hwf : wf m.
Variable opt : bool.

(** Marking a neighbour takes it out of the unvisited cells as it joins
    the frontier. *)
Lemma discover_fold_count cur (ns : list coord) f v par f' v' par' :
  (∀ x, x ∈ ns → x ∈ cells m) →
  foldl (discover push cur) (f, v, par) ns = (f', v', par') →
  (length (elems f') + unvisited m v' ≤ length (elems f) + unvisited m v)%nat.
Proof.
  revert f v par. induction ns as [|x ns IH]; intros f v par Hns; cbn [foldl].
  { by intros [= <- <- <-]. }
  unfold discover at 2. case_decide as Hx.
  - apply IH. intros y Hy. apply Hns. by right.
  - intros Hfold. apply IH in Hfold; [|intros y Hy; apply Hns; by right].
    rewrite push_elems in Hfold. cbn [length] in Hfold.
    assert (unvisited m (v ∪ {[key x]}) < unvisited m v)%nat.
    { apply unvisited_insert; [|done]. apply Hns. by left. }
    lia.
Qed.

Lemma search_loop_report rfuel fuel d f v par n r m' :
  explored m (start m) d None (elems f) v par → unfinished m (elems f) v →
  search_loop pop push m opt rfuel fuel f v par n = Ok (r, m') →
  (∀ p, path r = Some p → ∃ par', chain par' (start m) (end_ m) p) ∧
  optimal r = opt ∧ heuristic r = None ∧
  n ≤ nodesExplored r ≤ n + Z.of_nat (length (elems f) + unvisited m v) ∧
  (elems f ≠ [] → n + 1 ≤ nodesExplored r).
Proof.
  revert d f v par n. induction fuel as [|fuel IH]; intros d f v par n Hex Hun; simpl; [done|].
  pose proof (search_turn pop push elems pop_None pop_Some push_elems m d f v par Hex Hun)
    as Hturn.
  destruct (pop f) as [[cur f1]|] eqn:Hpop.
  2:{ intros [= <- <-]. cbn [path optimal heuristic nodesExplored].
      split; [done|]. do 2 (split; [done|]). split; [lia|].
      intros Hne. by apply pop_None in Hpop. }
  pose proof (pop_Some _ _ _ Hpop) as Hperm.
  assert (length (elems f) = S (length (elems f1))) as Hlen by (by rewrite Hperm).
  destruct (same_cell cur (end_ m)).
  - destruct Hturn as (p & Hp & Hlp & _). res_unfold.
    destruct (reconstructPath _ _ _ _) as [p'| |] eqn:Hrec; [|done..].
    intros [= <- <-]. unfold reconstructPath in Hrec.
    apply (chain_reconstruct_inv _ _ _ p) in Hrec; [|done].
    rewrite app_nil_r in Hrec. subst p'. cbn [path optimal heuristic nodesExplored].
    split; [intros ? [= <-]; by eexists|]. do 2 (split; [done|]). lia.
  - rewrite getNeighbors_coord by done. res_unfold.
    destruct Hturn as (f' & v' & par' & Hfold & Hex' & Hun' & _). rewrite Hfold.
    intros Hrun. destruct (IH _ _ _ _ _ Hex' Hun' Hrun) as (Hchain & Ho & Hh & Hn & _).
    do 3 (split; [done|]).
    pose proof (discover_fold_count cur (neighbours m cur) f1 v par f' v' par'
                  (neighbours_cells m cur) Hfold).
    lia.
Qed.

End frontier_reports.

Section relaxing_reports.
Import PathfindingAlgorithms PriorityQueue.
Variable m : Maze.
Hypothesis Hwf : wf m.
Hypothesis Hstart : walkable m (start m) = true.
Variable prio : coord → jsnum → jsnum.
Variable lbl : option string.

Lemma relax_loop_report rfuel fuel d pq g v par n r m' :
  relaxed m (start m) d None (pq_items pq) g v par → unfinished_relax m v →
  relax_loop m prio lbl rfuel fuel g par v pq n = Ok (r, m') →
  (∀ p, path r = Some p → ∃ par', chain par' (start m) (end_ m) p) ∧
  optimal r = true ∧ heuristic r = lbl ∧
  n ≤ nodesExplored r ≤ n + Z.of_nat (unvisited m v) ∧
  (∀ e rest, values pq = e :: rest → key (item e) ∉ v → n + 1 ≤ nodesExplored r).
Proof.
  revert d pq g v par n. induction fuel as [|fuel IH]; intros d pq g v par n Hrx Hun;
    simpl; [done|].
  pose proof (relax_turn m Hwf Hstart prio d pq g v par Hrx Hun) as Hturn.
  unfold isEmpty, dequeue. destruct pq as [[|e rest]]; simpl in *.
  { intros [= <- <-]. cbn [path optimal heuristic nodesExplored].
    split; [done|]. do 2 (split; [done|]). split; [lia|]. by intros ? ? [=]. }
  destruct (decide (key (item e) ∈ v)) as [Hv|Hv].
  { intros Hrun. destruct (IH _ _ _ _ _ _ Hturn Hun Hrun) as (? & ? & ? & ? & _).
    do 4 (split; [done|]). by intros ? ? [= <- <-]. }
  assert (item e ∈ cells m) as Hcell.
  { destruct (rx_items _ _ _ _ _ _ _ _ Hrx (item e)) as [x Hx]; [by left|].
    destruct (rx_score _ _ _ _ _ _ _ _ Hrx _ _ Hx) as (c & z & Hk & _ & _ & Hw).
    apply key_inj in Hk as ->. by apply walkable_cells. }
  pose proof (unvisited_insert m v (item e) Hcell Hv) as Hdec.
  destruct (same_cell (item e) (end_ m)).
  - destruct Hturn as (p & Hp & Hlp & _). res_unfold.
    destruct (reconstructPath _ _ _ _) as [p'| |] eqn:Hrec; [|done..].
    intros [= <- <-]. unfold reconstructPath in Hrec.
    apply (chain_reconstruct_inv _ _ _ p) in Hrec; [|done].
    rewrite app_nil_r in Hrec. subst p'. cbn [path optimal heuristic nodesExplored].
    split; [intros ? [= <-]; by eexists|]. do 2 (split; [done|]). split; [lia|].
    intros; lia.
  - rewrite getNeighbors_coord by done. res_unfold.
    destruct Hturn as (g' & par' & pq' & -> & Hrx' & Hun' & _).
    intros Hrun. destruct (IH _ _ _ _ _ _ Hrx' Hun' Hrun) as (? & ? & ? & ? & _).
    do 3 (split; [done|]). split; [lia|]. intros; lia.
Qed.

End relaxing_reports.

Section bidirectional_reports.
Import PathfindingAlgorithms.
Variable m : Maze.
Hypothesis Hwf : wf m.
Hypothesis Hstart : walkable m (start m) = true.
Hypothesis Hend : walkable m (end_ m) = true.

Lemma bidirectional_loop_report rfuel fuel d kS kE qS qE vS vE pS pE δS δE n r m' :
  bidir_inv m d kS kE qS qE vS vE pS pE δS δE →
  bidirectional_loop rfuel fuel m qS qE vS vE pS pE n = Ok (r, m') →
  optimal r = true ∧ heuristic r = None ∧
  n ≤ nodesExplored r
    ≤ n + Z.of_nat ((length qS + unvisited m vS) + (length qE + unvisited m vE)) ∧
  (qS ≠ [] → qE ≠ [] → n + 1 ≤ nodesExplored r).
Proof.
  revert d kS kE qS qE vS vE pS pE δS δE n.
  induction fuel as [|fuel IH]; intros d kS kE qS qE vS vE pS pE δS δE n Hinv; simpl; [done|].
  destruct qS as [|cS qS1].
  { simpl. intros [= <- <-]. cbn [optimal heuristic nodesExplored].
    do 2 (split; [done|]). split; [lia|done]. }
  destruct qE as [|cE qE1].
  { simpl. intros [= <- <-]. cbn [optimal heuristic nodesExplored].
    do 2 (split; [done|]). split; [lia|done]. }
  simpl.
  assert (∀ c (pS0 : gmap string coord) n0 r0 m0,
    (path0 ← reconstructBidirectionalPath rfuel pS0 pE (start m) c (end_ m);
     Ok (mkResult (Some path0) n0 true None, m)) = Ok (r0, m0) →
    optimal r0 = true ∧ heuristic r0 = None ∧ nodesExplored r0 = n0) as Hmeet.
  { intros c pS0 n0 r0 m0. res_unfold.
    destruct (reconstructBidirectionalPath _ _ _ _ _ _); [|done..]. by intros [= <- <-]. }
  destruct (bidirectional_turn _ _ _ _ _ _ _ _ _ _ _ _ _ _ Hinv) as
    [HcS|qS' vS' pS' kS' kE' δS' δE' HcS HfoldS Hmid HcE
        |qS' vS' pS' qE' vE' pE' kS' kE' δS' δE' HcS HfoldS HcE HfoldE Hinv' _].
  - rewrite decide_True by done. intros (? & ? & ?)%Hmeet.
    do 2 (split; [done|]). lia.
  - rewrite decide_False by done. rewrite !getNeighbors_coord by done. res_unfold.
    rewrite HfoldS. rewrite decide_True by done. intros (? & ? & ?)%Hmeet.
    do 2 (split; [done|]).
    pose proof (discover_fold_count array_push id array_push_perm m cS
                  (neighbours m cS) qS1 vS pS qS' vS' pS' (neighbours_cells m cS) HfoldS).
    unfold id in *. cbn [length]. lia.
  - rewrite decide_False by done. rewrite !getNeighbors_coord by done. res_unfold.
    rewrite HfoldS. rewrite decide_False by done. rewrite HfoldE.
    intros Hrun. destruct (IH _ _ _ _ _ _ _ _ _ _ _ _ Hinv' Hrun) as (? & ? & ? & _).
    do 2 (split; [done|]).
    pose proof (discover_fold_count array_push id array_push_perm m cS
                  (neighbours m cS) qS1 vS pS qS' vS' pS' (neighbours_cells m cS) HfoldS).
    pose proof (discover_fold_count array_push id array_push_perm m cE
                  (neighbours m cE) qE1 vE pE qE' vE' pE' (neighbours_cells m cE) HfoldE).
    unfold id in *. cbn [length]. lia.
Qed.

End bidirectional_reports.

Section flags.
Import PathfindingAlgorithms PriorityQueue.

Ltac flag_step :=
  repeat match goal with
  | H : context [match ?x with _ => _ end] |- _ =>
      destruct x eqn:?; simplify_eq/=; try done
  end; eauto.

Lemma search_loop_flags {F} (pop : F → option (coord * F)) (push : F → coord → F)
    m opt rfuel fuel f v par n r m' :
  search_loop pop push m opt rfuel fuel f v par n = Ok (r, m') →
  optimal r = opt ∧ heuristic r = None.
Proof.
  revert f v par n. induction fuel as [|fuel IH]; intros f v par n; simpl; [done|].
  res_unfold. intros H. flag_step.
Qed.

Lemma relax_loop_flags m prio lbl rfuel fuel g par v pq n r m' :
  relax_loop m prio lbl rfuel fuel g par v pq n = Ok (r, m') →
  optimal r = true ∧ heuristic r = lbl.
Proof.
  revert g par v pq n. induction fuel as [|fuel IH]; intros g par v pq n; simpl; [done|].
  res_unfold. intros H. flag_step.
Qed.

Lemma bidirectional_loop_flags rfuel fuel m qs qe vs ve ps pe n r m' :
  bidirectional_loop rfuel fuel m qs qe vs ve ps pe n = Ok (r, m') →
  optimal r = true ∧ heuristic r = None.
Proof.
  revert qs qe vs ve ps pe n.
  induction fuel as [|fuel IH]; intros qs qe vs ve ps pe n; simpl; [done|].
  res_unfold. intros H. flag_step.
Qed.

Lemma run_flags a fuel m r m' :
  run a fuel m = Ok (r, m') → optimal r = (reported a).1 ∧ heuristic r = (reported a).2.
Proof.
  destruct a; unfold run, reported; cbn [fst snd].
  - unfold dfs. rewrite dfs_loop_generic. apply search_loop_flags.
  - unfold bfs. rewrite bfs_loop_generic. apply search_loop_flags.
  - unfold dijkstra. rewrite dijkstra_loop_generic. apply relax_loop_flags.
  - unfold astar. rewrite astar_loop_generic. apply relax_loop_flags.
  - unfold greedy. rewrite greedy_loop_generic. apply search_loop_flags.
  - unfold bidirectional. apply bidirectional_loop_flags.
Qed.

End flags.

(** X7: the [optimal] flag and the [heuristic] label of a result depend
    on the algorithm alone, not on the maze or on the path found: DFS and
    Greedy report [optimal: false], the other four [optimal: true]; A*
    reports the selector it was called with, whatever that string is, and
    no other search reports a heuristic. *)
Theorem result_flags_depend_on_algorithm_only
    (a : algorithm) (fuel : nat) (m m' : Maze) (r : Result) :
  run a fuel m = Ok (r, m') →
  optimal r = match a with DFS | Greedy => false | _ => true end ∧
  heuristic r = match a with AStar selector => Some selector | _ => None end.
Proof. intros H. destruct (run_flags a fuel m r m' H) as [-> ->]. by destruct a. Qed.

Lemma result_flags_depend_on_algorithm_only_witness :
  ∃ r m', run (AStar "chebyshev") 133 demo_maze = Ok (r, m') ∧
          optimal r = true ∧ heuristic r = Some "chebyshev".
Proof.
  eexists _, _. split; [vm_compute; reflexivity|].
  eapply (result_flags_depend_on_algorithm_only (AStar "chebyshev") 133 demo_maze).
  vm_compute; reflexivity.
Defined.

Section run_reports.
Import PathfindingAlgorithms PriorityQueue.
Variable m : Maze.
Hypothesis Hwf : wf m.
Hypothesis Hstart : walkable m (start m) = true.
Hypothesis Hend : walkable m (end_ m) = true.

Lemma unvisited_source c :
  walkable m c = true → (1 + unvisited m {[key c]} ≤ length (cells m))%nat.
Proof.
  intros Hc. pose proof (unvisited_insert m ∅ c (walkable_cells _ _ Hc)) as Hlt.
  rewrite (left_id_L ∅ (∪)) in Hlt.
  assert (unvisited m ∅ ≤ length (cells m))%nat by apply length_filter.
  specialize (Hlt (not_elem_of_empty _)). lia.
Qed.

Lemma cells_area : Z.of_nat (length (cells m)) = rows m * cols m.
Proof.
  rewrite length_cells. unfold walkable, isValid in Hstart.
  rewrite !andb_true_iff, !bool_decide_eq_true in Hstart. lia.
Qed.

Lemma run_chain a fuel r m' p :
  a ≠ Bidirectional → run a fuel m = Ok (r, m') → path r = Some p →
  ∃ par, chain par (start m) (end_ m) p.
Proof.
  intros Ha Hrun Hp. destruct a; unfold run in Hrun; [..|done].
  - unfold dfs in Hrun. rewrite dfs_loop_generic in Hrun.
    destruct (search_initial array_pop array_push id array_pop_nil array_pop_perm
                array_push_perm m Hwf Hstart [start m] eq_refl) as [Hex Hun].
    destruct (search_loop_report array_pop array_push id array_pop_nil array_pop_perm
                array_push_perm m Hwf false _ _ _ _ _ _ _ _ _ Hex Hun Hrun) as [Hc _]. eauto.
  - unfold bfs in Hrun. rewrite bfs_loop_generic in Hrun.
    destruct (search_initial array_shift array_push id array_shift_nil array_shift_perm
                array_push_perm m Hwf Hstart [start m] eq_refl) as [Hex Hun].
    destruct (search_loop_report array_shift array_push id array_shift_nil array_shift_perm
                array_push_perm m Hwf true _ _ _ _ _ _ _ _ _ Hex Hun Hrun) as [Hc _]. eauto.
  - unfold dijkstra in Hrun. rewrite dijkstra_loop_generic in Hrun.
    destruct (relax_initial m Hstart (JInt 0)) as [Hrx Hun].
    destruct (relax_loop_report m Hwf Hstart _ _ _ _ _ _ _ _ _ _ _ _ Hrx Hun Hrun) as [Hc _].
    eauto.
  - unfold astar in Hrun. rewrite astar_loop_generic in Hrun.
    set (p0 := JSNum.of_lookup _) in Hrun.
    destruct (relax_initial m Hstart p0) as [Hrx Hun].
    destruct (relax_loop_report m Hwf Hstart _ _ _ _ _ _ _ _ _ _ _ _ Hrx Hun Hrun) as [Hc _].
    eauto.
  - unfold greedy in Hrun. rewrite greedy_loop_generic in Hrun.
    destruct (search_initial pq_pop (greedy_push m) pq_items pq_pop_nil pq_pop_perm
                (greedy_push_perm m) m Hwf Hstart
                (enqueue new (start m) (manhattanDistance (start m) (end_ m))) eq_refl)
      as [Hex Hun].
    destruct (search_loop_report pq_pop (greedy_push m) pq_items pq_pop_nil pq_pop_perm
                (greedy_push_perm m) m Hwf false _ _ _ _ _ _ _ _ _ Hex Hun Hrun) as [Hc _].
    eauto.
Qed.

Lemma run_count a fuel r m' :
  run a fuel m = Ok (r, m') → 1 ≤ nodesExplored r ≤ explored_bound a m.
Proof.
  pose proof (unvisited_source _ Hstart) as HuS.
  pose proof (unvisited_source _ Hend) as HuE.
  pose proof cells_area as Harea.
  intros Hrun. destruct a; unfold run in Hrun; unfold explored_bound.
  - unfold dfs in Hrun. rewrite dfs_loop_generic in Hrun.
    destruct (search_initial array_pop array_push id array_pop_nil array_pop_perm
                array_push_perm m Hwf Hstart [start m] eq_refl) as [Hex Hun].
    destruct (search_loop_report array_pop array_push id array_pop_nil array_pop_perm
                array_push_perm m Hwf false _ _ _ _ _ _ _ _ _ Hex Hun Hrun)
      as (_ & _ & _ & Hn & Hlow).
    specialize (Hlow ltac:(done)). unfold id in Hn. cbn [length] in Hn. lia.
  - unfold bfs in Hrun. rewrite bfs_loop_generic in Hrun.
    destruct (search_initial array_shift array_push id array_shift_nil array_shift_perm
                array_push_perm m Hwf Hstart [start m] eq_refl) as [Hex Hun].
    destruct (search_loop_report array_shift array_push id array_shift_nil array_shift_perm
                array_push_perm m Hwf true _ _ _ _ _ _ _ _ _ Hex Hun Hrun)
      as (_ & _ & _ & Hn & Hlow).
    specialize (Hlow ltac:(done)). unfold id in Hn. cbn [length] in Hn. lia.
  - unfold dijkstra in Hrun. rewrite dijkstra_loop_generic in Hrun.
    destruct (relax_initial m Hstart (JInt 0)) as [Hrx Hun].
    destruct (relax_loop_report m Hwf Hstart _ _ _ _ _ _ _ _ _ _ _ _ Hrx Hun Hrun)
      as (_ & _ & _ & Hn & Hlow).
    specialize (Hlow _ _ eq_refl (not_elem_of_empty _)).
    assert (unvisited m ∅ ≤ length (cells m))%nat by apply length_filter. lia.
  - unfold astar in Hrun. rewrite astar_loop_generic in Hrun.
    set (p0 := JSNum.of_lookup _) in Hrun.
    destruct (relax_initial m Hstart p0) as [Hrx Hun].
    destruct (relax_loop_report m Hwf Hstart _ _ _ _ _ _ _ _ _ _ _ _ Hrx Hun Hrun)
      as (_ & _ & _ & Hn & Hlow).
    specialize (Hlow _ _ eq_refl (not_elem_of_empty _)).
    assert (unvisited m ∅ ≤ length (cells m))%nat by apply length_filter. lia.
  - unfold greedy in Hrun. rewrite greedy_loop_generic in Hrun.
    destruct (search_initial pq_pop (greedy_push m) pq_items pq_pop_nil pq_pop_perm
                (greedy_push_perm m) m Hwf Hstart
                (enqueue new (start m) (manhattanDistance (start m) (end_ m))) eq_refl)
      as [Hex Hun].
    destruct (search_loop_report pq_pop (greedy_push m) pq_items pq_pop_nil pq_pop_perm
                (greedy_push_perm m) m Hwf false _ _ _ _ _ _ _ _ _ Hex Hun Hrun)
      as (_ & _ & _ & Hn & Hlow).
    specialize (Hlow ltac:(done)). cbn [length pq_items] in Hn.
    change (length (pq_items _)) with 1%nat in Hn. lia.
  - unfold bidirectional in Hrun.
    destruct (bidirectional_loop_report m Hwf _ _ _ _ _ _ _ _ _ _ _ _ _ _ _ _
                (bidir_initial m Hwf Hstart Hend) Hrun) as (_ & _ & Hn & Hlow).
    specialize (Hlow ltac:(done) ltac:(done)). cbn [length] in Hn. lia.
Qed.

Lemma run_NoDup a fuel r m' p :
  run a fuel m = Ok (r, m') → path r = Some p → NoDup p.
Proof.
  intros Hrun Hp.
  assert (a = Bidirectional ∨ a ≠ Bidirectional) as [->|Ha]
    by (destruct a; auto; right; discriminate).
  - destruct (bidirectional_correct m Hwf Hstart Hend fuel r m' Hrun) as [Hs Hsh].
    unfold sound_result in Hs. rewrite Hp in Hs. destruct Hs as [(Hh & Hl & Hlk) _].
    destruct (decide (NoDup p)) as [|Hdup]; [done|]. exfalso.
    destruct (route_shortcut m p _ _ Hlk Hh Hl Hdup) as (q & Hq & Hhq & Hlq & Hlen).
    specialize (Hsh p q Hp (conj Hhq (conj Hlq Hq))). lia.
  - destruct (run_chain a fuel r m' p Ha Hrun Hp) as [par Hc]. by eapply chain_NoDup.
Qed.

End run_reports.

(** X8: on a maze whose start and goal are walkable, every search
    explores at least one node and never more than there are cells in the
    grid; the bidirectional search, which explores from both ends, never
    more than twice as many. *)
Theorem nodes_explored_bounded (a : algorithm) (fuel : nat) (m m' : Maze) (r : Result) :
  wf m → walkable m (start m) = true → walkable m (end_ m) = true →
  run a fuel m = Ok (r, m') →
  1 ≤ nodesExplored r ≤
    match a with Bidirectional => 2 * (rows m * cols m) | _ => rows m * cols m end.
Proof.
  intros Hwf Hs He Hrun. pose proof (run_count m Hwf Hs He a fuel r m' Hrun) as H.
  unfold explored_bound in H. by destruct a.
Qed.

Lemma nodes_explored_bounded_witness :
  ∃ r m', run Bidirectional 133 demo_maze = Ok (r, m') ∧
          1 ≤ nodesExplored r ≤ 2 * (rows demo_maze * cols demo_maze).
Proof.
  eexists _, _. split; [vm_compute; reflexivity|].
  eapply (nodes_explored_bounded Bidirectional 133 demo_maze).
  - vm_compute; reflexivity.
  - vm_compute; reflexivity.
  - vm_compute; reflexivity.
  - vm_compute; reflexivity.
Defined.

(** X9: on a maze whose start and goal are walkable, no search returns a
    path that passes through a cell twice. *)
Theorem returned_path_has_no_repeats
    (a : algorithm) (fuel : nat) (m m' : Maze) (r : Result) (p : list coord) :
  wf m → walkable m (start m) = true → walkable m (end_ m) = true →
  run a fuel m = Ok (r, m') → path r = Some p → NoDup p.
Proof. intros Hwf Hs He. by apply run_NoDup. Qed.

Lemma returned_path_has_no_repeats_witness : NoDup demo_path.
Proof.
  eapply (returned_path_has_no_repeats DFS 133 demo_maze).
  - vm_compute; reflexivity.
  - vm_compute; reflexivity.
  - vm_compute; reflexivity.
  - vm_compute; reflexivity.
  - reflexivity.
Defined.

(** ** The Manhattan distance *)

Section manhattan_distance.
Import PathfindingAlgorithms.

Lemma linked_manhattan m p a b :
  linked m p → head p = Some a → list.last p = Some b →
  manhattan b a ≤ Z.of_nat (length p) - 1.
Proof.
  revert a. induction p as [|x p IH]; intros a Hl Hh Hla; [done|].
  injection Hh as ->. destruct p as [|y p].
  { injection Hla as ->. unfold manhattan. simpl. lia. }
  destruct Hl as [Hxy Hl]. apply neighbours_adjacent in Hxy.
  specialize (IH y Hl eq_refl). rewrite last_cons_cons in Hla. specialize (IH Hla).
  unfold manhattan, adjacent in *. cbn [length] in *. lia.
Qed.

End manhattan_distance.


(** ** Neighbours *)

Section neighbour_lists.

Lemma neighbours_NoDup m c : NoDup (neighbours m c).
Proof.
  unfold neighbours. apply NoDup_filter.
  unfold up, down, left, right. destruct c as [r k]. cbn [row col].
  repeat (apply NoDup_cons; split;
    [rewrite ?elem_of_cons, elem_of_nil; intros H;
     repeat (destruct H as [H|H]; [injection H; lia|]); done|]).
  apply NoDup_nil_2.
Qed.

End neighbour_lists.

(** X11: on a maze whose grid has its rows, the list [getNeighbors]
    returns for a walkable cell has at most four entries, none of them
    twice and none the cell itself; each entry is a walkable cell one
    move away, and the cell is in turn among the neighbours of each of
    them: every move can be taken back. *)
Theorem getNeighbors_moves_are_reversible (m : Maze) (a : coord) :
  wf m → walkable m a = true →
  ∃ ns, getNeighbors m (row a) (col a) = Ok ns ∧
        (length ns ≤ 4)%nat ∧ NoDup ns ∧ (a ∉ ns) ∧
        ∀ b, b ∈ ns →
             walkable m b = true ∧ adjacent a b ∧
             ∃ ns', getNeighbors m (row b) (col b) = Ok ns' ∧ a ∈ ns'.
Proof.
  intros Hwf Ha. exists (neighbours m a).
  split; [by apply getNeighbors_coord|]. split; [apply neighbours_length|].
  split; [apply neighbours_NoDup|]. split.
  - intros Hin. by apply neighbours_ne in Hin.
  - intros b Hb. split; [by eapply neighbours_walkable|].
    split; [by eapply neighbours_adjacent|].
    exists (neighbours m b). split; [by apply getNeighbors_coord|].
    by apply neighbours_sym.
Qed.

Lemma getNeighbors_moves_are_reversible_witness :
  ∃ ns, getNeighbors demo_maze (row (Coord 2 2)) (col (Coord 2 2)) = Ok ns ∧
        (length ns ≤ 4)%nat ∧ NoDup ns ∧ (Coord 2 2 ∉ ns) ∧
        ∀ b, b ∈ ns →
             walkable demo_maze b = true ∧ adjacent (Coord 2 2) b ∧
             ∃ ns', getNeighbors demo_maze (row b) (col b) = Ok ns' ∧ Coord 2 2 ∈ ns'.
Proof.
  apply (getNeighbors_moves_are_reversible demo_maze (Coord 2 2)).
  - vm_compute; reflexivity.
  - vm_compute; reflexivity.
Defined.

(** ** Draining the priority queue *)

Section priority_queue_drain.
Import PriorityQueue.
Context {A : Type}.
Implicit Types (e : entry A) (l : list (entry A)) (q : t A).

(** [enqueue] called once for every pair of an item and an integer
    priority, in the order of the list. *)
Definition enqueue_all (xs : list (A * Z)) (q : t A) : t A :=
  foldl (λ q x, enqueue q x.1 (JInt x.2)) q xs.

(** [dequeue] called [n] times: what the calls returned, and the queue
    left. *)
Fixpoint dequeue_times (n : nat) (q : t A) : list (option A) * t A :=
  match n with
  | O => ([], q)
  | S n =>
    let '(x, q) := dequeue q in
    let '(xs, q) := dequeue_times n q in
    (x :: xs, q)
  end.

Definition as_entry (x : A * Z) : entry A := Entry x.1 (JInt x.2).

Definition has_priority (p : Z) (e : entry A) : bool :=
  match priority e with
  | JInt z => bool_decide (z = p)
  | JFlt _ => false
  end.

Lemma sort_insert_stable (P : entry A → Prop) `{!∀ e, Decision (P e)} e l :
  (∀ y, y ∈ l → JSNum.lt (compare y e) (JInt 0) = true → P y → ¬ P e) →
  filter P (sort_insert compare e l) = filter P (e :: l).
Proof.
  induction l as [|y l IH]; intros Hlt; cbn [sort_insert]; [done|].
  destruct (JSNum.lt (compare y e) (JInt 0)) eqn:Hye; [|done].
  rewrite filter_cons, IH by (intros y' Hy'; apply Hlt; by right).
  rewrite !filter_cons.
  destruct (decide (P y)) as [Hy|Hy]; [|done].
  destruct (decide (P e)) as [He|He]; [|done]. exfalso.
  by apply (Hlt y); [by left|..].
Qed.

Lemma array_sort_stable (p : Z) l :
  (∀ e, e ∈ l → is_int (priority e)) →
  filter (λ e, has_priority p e) (array_sort compare l)
  = filter (λ e, has_priority p e) l.
Proof.
  induction l as [|e l IH]; intros Hint; [done|].
  cbn [array_sort foldr]. fold (array_sort (@compare A) l).
  rewrite sort_insert_stable.
  - rewrite !(filter_cons _ e), IH; [done|]. intros e' He'. apply Hint. by right.
  - intros y Hy Hlt Hpy Hpe. rewrite array_sort_perm in Hy.
    destruct (Hint e) as [ze Hze]; [by left|].
    destruct (Hint y) as [zy Hzy]; [by right|].
    unfold compare in Hlt. unfold has_priority in Hpy, Hpe. rewrite Hze, Hzy in *.
    simpl in Hlt. apply bool_decide_eq_true in Hlt.
    apply bool_decide_unpack in Hpy, Hpe. lia.
Qed.

Lemma enqueue_all_values xs q :
  (∀ e, e ∈ values q → is_int (priority e)) →
  values (enqueue_all xs q) ≡ₚ values q ++ (as_entry <$> xs) ∧
  (∀ e, e ∈ values (enqueue_all xs q) → is_int (priority e)) ∧
  (xs ≠ [] → nondecreasing (values (enqueue_all xs q))) ∧
  ∀ p, filter (λ e, has_priority p e) (values (enqueue_all xs q))
       = filter (λ e, has_priority p e) (values q ++ (as_entry <$> xs)).
Proof.
  revert q. induction xs as [|x xs IH] using rev_ind; intros q Hint.
  { cbn [enqueue_all foldl fmap list_fmap]. rewrite app_nil_r. done. }
  unfold enqueue_all in *. rewrite foldl_app. cbn [foldl].
  destruct (IH q Hint) as (Hperm & Hint' & _ & Hst).
  set (q1 := foldl _ q xs) in *.
  unfold enqueue, array_push. cbn [values].
  assert (∀ e, e ∈ values q1 ++ [Entry x.1 (JInt x.2)] → is_int (priority e)) as Hint1.
  { intros e [He|He%list_elem_of_singleton]%elem_of_app; [by apply Hint'|].
    subst e. by eexists. }
  rewrite fmap_app. cbn [fmap list_fmap]. split; [|split; [|split]].
  - rewrite array_sort_perm, Hperm. by rewrite <-app_assoc.
  - intros e He. rewrite array_sort_perm in He. by apply Hint1.
  - intros _. by apply array_sort_nondecreasing.
  - intros p. rewrite array_sort_stable by done.
    rewrite !filter_app, Hst, !filter_app. by rewrite <-app_assoc.
Qed.

Lemma dequeue_times_all l :
  dequeue_times (length l) (Build l) = ((λ e, Some (item e)) <$> l, Build []).
Proof.
  induction l as [|e l IH]; [done|].
  cbn [length dequeue_times]. unfold dequeue. cbn [values array_shift].
  by rewrite IH.
Qed.

End priority_queue_drain.

(** X12: enqueueing any list of items with integer priorities into a new
    queue and then dequeueing as many times returns every item exactly
    once, sorted by priority, items of equal priority in the order they
    were enqueued; the queue is empty afterwards. *)
Theorem dequeue_all_is_a_stable_sort {A : Type} (xs : list (A * Z)) :
  ∃ sorted : list (A * Z),
    dequeue_times (length xs) (enqueue_all xs PriorityQueue.new)
      = ((λ x, Some x.1) <$> sorted, PriorityQueue.new) ∧
    sorted ≡ₚ xs ∧
    (∀ i j x y, (i < j)%nat → sorted !! i = Some x → sorted !! j = Some y → x.2 ≤ y.2) ∧
    (∀ p, filter (λ x, x.2 = p) sorted = filter (λ x, x.2 = p) xs).
Proof.
  destruct (enqueue_all_values xs PriorityQueue.new) as (Hperm & Hint & Hnd & Hst).
  { by intros e ?%elem_of_nil. }
  cbn [PriorityQueue.values PriorityQueue.new app] in *.
  set (q := enqueue_all xs PriorityQueue.new) in *.
  set (to_pair := λ e : PriorityQueue.entry A,
         (PriorityQueue.item e,
          match PriorityQueue.priority e with JInt z => z | JFlt _ => 0 end)).
  assert (∀ l : list (PriorityQueue.entry A),
            (∀ e, e ∈ l → is_int (PriorityQueue.priority e)) →
            as_entry <$> (to_pair <$> l) = l) as Hback.
  { induction l as [|e l IH]; intros Hl; [done|]. cbn [fmap list_fmap].
    f_equal; [|apply IH; intros e' He'; apply Hl; by right].
    destruct (Hl e) as [z Hz]; [by left|]. destruct e as [x pr]. simpl in *. by subst. }
  assert (∀ l : list (A * Z), to_pair <$> (as_entry <$> l) = l) as Hforth.
  { induction l as [|[x z] l IH]; [done|]. cbn [fmap list_fmap]. by rewrite IH. }
  exists (to_pair <$> PriorityQueue.values q).
  assert (length xs = length (PriorityQueue.values q)) as ->.
  { by rewrite Hperm, length_fmap. }
  destruct q as [l]. cbn [PriorityQueue.values] in *.
  split; [|split; [|split]].
  - rewrite dequeue_times_all. f_equal. rewrite <-list_fmap_compose. done.
  - rewrite Hperm. by rewrite Hforth.
  - destruct (decide (xs = [])) as [->|Hne].
    { apply Permutation_nil_r in Hperm. rewrite Hperm. intros i j x y _ Hx. done. }
    specialize (Hnd Hne). clear Hperm Hst Hback.
    induction l as [|e l IH]; intros i j x y Hij Hx Hy; [done|].
    destruct Hnd as [He Hnd]. destruct j as [|j]; [lia|].
    cbn [fmap list_fmap] in Hx, Hy. simpl in Hy.
    destruct i as [|i].
    + simpl in Hx. injection Hx as <-.
      apply list_lookup_fmap_Some in Hy as (e' & -> & He').
      assert (e' ∈ l) as Hin by (by eapply list_elem_of_lookup_2).
      specialize (He e' Hin).
      destruct (Hint e) as [z Hz]; [by left|].
      destruct (Hint e') as [z' Hz']; [by right|].
      unfold to_pair. cbn [snd]. rewrite Hz, Hz' in *. rewrite prec_int in He. lia.
    + simpl in Hx. eapply (IH (λ e0 He0, Hint e0 (list_elem_of_further _ _ _ He0)) Hnd i j);
        [lia|done..].
  - intros p. specialize (Hst p).
    assert (∀ l0 : list (PriorityQueue.entry A),
              (∀ e, e ∈ l0 → is_int (PriorityQueue.priority e)) →
              filter (λ x : A * Z, x.2 = p) (to_pair <$> l0)
              = to_pair <$> filter (λ e, has_priority p e) l0) as Hf.
    { induction l0 as [|e l0 IH]; intros Hl0; [done|].
      cbn [fmap list_fmap]. rewrite !filter_cons.
      rewrite IH by (intros e' He'; apply Hl0; by right).
      destruct (Hl0 e) as [z Hz]; [by left|].
      destruct e as [x pr]. simpl in Hz. subst pr.
      unfold to_pair at 1 3.
      cbn [snd PriorityQueue.priority PriorityQueue.item].
      destruct (decide (z = p)) as [->|Hzp].
      - rewrite decide_True; [done|].
        unfold has_priority. cbn [PriorityQueue.priority]. by apply bool_decide_pack.
      - rewrite decide_False; [done|].
        unfold has_priority. cbn [PriorityQueue.priority]. by intros ?%bool_decide_unpack. }
    rewrite Hf by done. rewrite Hst, <-Hf.
    + by rewrite Hforth.
    + intros e (x & -> & _)%list_elem_of_fmap. by eexists.
Qed.

(** ** The page script *)

(** The part of [web/app.js] that computes: the global variables it keeps
    and the handlers that change them.  Calls into the canvas and the
    document that only paint or write text are left out; [drawMaze] is
    kept for the one thing it can do to the control flow, which is to
    throw when it reads a row of the grid that does not exist. *)
Module App.

(** The global variables [maze], [cellSize], [editMode], [isDrawing],
    [allResults], and the size given to the canvas. *)
Record state : Type := State {
  maze : Maze;
  cellSize : Z;
  editMode : option string;
  isDrawing : bool;
  canvas_width : Z;
  canvas_height : Z;
  allResults : list (string * Result)
}.

Definition with_maze (s : state) (m : Maze) : state :=
  State m (cellSize s) (editMode s) (isDrawing s) (canvas_width s) (canvas_height s)
        (allResults s).

Definition with_editMode (s : state) (e : option string) : state :=
  State (maze s) (cellSize s) e (isDrawing s) (canvas_width s) (canvas_height s)
        (allResults s).

Definition with_isDrawing (s : state) (b : bool) : state :=
  State (maze s) (cellSize s) (editMode s) b (canvas_width s) (canvas_height s)
        (allResults s).

Definition with_allResults (s : state) (l : list (string * Result)) : state :=
  State (maze s) (cellSize s) (editMode s) (isDrawing s) (canvas_width s)
        (canvas_height s) l.

(** [resizeCanvas()].  [700 / 0] is [Infinity], of which 30 is the
    minimum; for any other divisor [Math.floor] of the quotient is the
    floor division of [Z]. *)
Definition resizeCanvas (s : state) : state :=
  let largest := Z.max (rows (maze s)) (cols (maze s)) in
  let size := if decide (largest = 0) then 30 else Z.min 30 (700 / largest) in
  State (maze s) size (editMode s) (isDrawing s)
        (cols (maze s) * size) (rows (maze s) * size) (allResults s).

(** The two nested loops of [drawMaze] read [maze.grid[i][j]] for every
    [i < rows] and [j < cols]. *)
Definition drawMaze (m : Maze) : res unit :=
  if bool_decide (cols m ≤ 0) ||
     forallb (λ i, bool_decide (is_Some (Grid.row_at (grid m) i))) (seqZ 0 (rows m))
  then Ok tt else Throw.

(** [generateMaze()]; the three numbers read from the form are its
    arguments, [coin] being the draws against [wallProb]. *)
Definition generateMaze (nrows ncols : Z) (coin : Z → Z → bool) (s : state) : res state :=
  m ← Maze_new nrows ncols;
  m ← generateRandom coin m;
  let s := resizeCanvas (with_maze s m) in
  _ ← drawMaze (maze s);
  Ok s.

(** [generatePerfectMaze()] *)
Definition generatePerfectMaze (fuel : nat) (nrows ncols : Z) (choose : nat → nat → nat)
    (s : state) : res state :=
  m ← Maze_new nrows ncols;
  m ← generatePerfect fuel choose m;
  let s := resizeCanvas (with_maze s m) in
  _ ← drawMaze (maze s);
  Ok s.

(** [clearMaze()] *)
Definition clearMaze (s : state) : res state :=
  m ← clear (maze s);
  _ ← drawMaze m;
  Ok (with_maze s m).

(** [setEditMode(mode)]; [button id] tells whether the document has an
    element of that id, on whose absence [classList] is read off [null]. *)
Definition setEditMode (button : string → bool) (mode : string) (s : state) : res state :=
  if decide (editMode s = Some mode) then Ok (with_editMode s None)
  else if button (mode +:+ "Btn") then Ok (with_editMode s (Some mode))
  else Throw.

(** The cell under the pointer, that is the values of the constants
    [col] and [row] of [handleEdit].  Both are [Math.floor] of an offset
    divided by the same [cellSize]: two integers when [cellSize] is not
    zero; otherwise two values out of [Infinity], [-Infinity] and [NaN],
    which are both [NaN] exactly when both offsets are zero. *)
Inductive pointer : Type :=
  | Cell (row col : Z)
  | Infinite
  | Indeterminate.

(** [handleEdit(e)] from the bounds check on.  An infinite coordinate
    fails the check; [NaN] passes every comparison of it, and then
    [this.grid[NaN]] is [undefined]. *)
Definition handleEdit (button : string → bool) (p : pointer) (s : state) : res state :=
  match editMode s with
  | None => Ok s
  | Some mode =>
    if decide (mode = "") then Ok s
    else
      match p with
      | Infinite => Ok s
      | Cell row col =>
        if bool_decide (row < 0) || bool_decide (rows (maze s) ≤ row) ||
           bool_decide (col < 0) || bool_decide (cols (maze s) ≤ col)
        then Ok s
        else
          s ← (if decide (mode = "wall") then
                 m ← setWall (maze s) row col true; Ok (with_maze s m)
               else if decide (mode = "erase") then
                 m ← setWall (maze s) row col false; Ok (with_maze s m)
               else if decide (mode = "start") then
                 m ← setStart (maze s) row col;
                 setEditMode button "start" (with_maze s m)
               else if decide (mode = "end") then
                 m ← setEnd (maze s) row col;
                 setEditMode button "end" (with_maze s m)
               else Ok s);
          _ ← drawMaze (maze s);
          Ok s
      | Indeterminate =>
        if decide (mode = "wall") then Throw
        else if decide (mode = "erase") then Throw
        else if decide (mode = "start") then Throw
        else if decide (mode = "end") then Throw
        else _ ← drawMaze (maze s); Ok s
      end
  end.

(** [handleMouseDown(e)], [handleMouseMove(e)], [handleMouseUp()] *)
Definition handleMouseDown (button : string → bool) (p : pointer) (s : state) : res state :=
  handleEdit button p (with_isDrawing s true).

Definition handleMouseMove (button : string → bool) (p : pointer) (s : state) : res state :=
  if isDrawing s then handleEdit button p s else Ok s.

Definition handleMouseUp (s : state) : state := with_isDrawing s false.

(** The table of [runAllAlgorithms]: the name each entry is run under and
    the label its result is stored with. *)
Definition algorithms : list (algorithm * string) :=
  [(DFS, "DFS"); (BFS, "BFS"); (Dijkstra, "Dijkstra");
   (AStar "manhattan", "A* (Manhattan)"); (AStar "euclidean", "A* (Euclidean)");
   (Greedy, "Greedy"); (Bidirectional, "Bidirectional")].

(** [runAllAlgorithms()] up to the call of [displayComparison]: the
    seven searches run one after the other on the maze, each on what the
    one before left of it. *)
Definition runAllAlgorithms (fuel : nat) (s : state) : res state :=
  '(m, results) ← foldl (λ (acc : res (Maze * list (string * Result)))
                           (algo : algorithm * string),
               '(m, allResults) ← acc;
               '(result, m) ← run algo.1 fuel m;
               Ok (m, allResults ++ [(algo.2, result)]))
             (Ok (maze s, [])) algorithms;
  Ok (with_allResults (with_maze s m) results).

(** [Math.min(...values)] over numbers that are integers: [Infinity] for
    no values at all. *)
Definition math_min (values : list Z) : option Z :=
  match values with
  | [] => None
  | v :: rest => Some (foldl Z.min v rest)
  end.

(** One line of the comparison table: what [displayComparison] computes
    for a result before it writes the line. *)
Record line : Type := Line {
  name : string;
  pathLength : option Z;
  isOptimalPath : bool;
  isBestNodes : bool
}.

Definition path_length (r : Result) : option Z :=
  (λ p : list coord, Z.of_nat (length p)) <$> path r.

(** The computing part of [displayComparison()]: the columns of the table
    that depend on the paths and the node counts.  The time column is
    left out, as the clock is. *)
Definition displayComparison (s : state) : list line :=
  let optimalPathLength :=
    math_min (omap (λ r : string * Result,
                      if optimal r.2 then path_length r.2 else None) (allResults s)) in
  let minNodes := math_min ((λ r : string * Result, nodesExplored r.2) <$> allResults s) in
  (λ r : string * Result,
     Line r.1 (path_length r.2)
          (optimal r.2 &&
           match path_length r.2 with
           | Some n => bool_decide (Some n = optimalPathLength)
           | None => false
           end)
          (bool_decide (Some (nodesExplored r.2) = minNodes))) <$> allResults s.

End App.

(** ** What the page keeps true of its maze *)

(** What the searches leave to their caller: every row below [rows]
    exists, and the start and the goal are walkable cells. *)
Definition contract (m : Maze) : Prop :=
  wf m ∧ walkable m (start m) = true ∧ walkable m (end_ m) = true.

Section page_script.
Implicit Types (m : Maze) (s : App.state).

Lemma drawMaze_wf m : wf m → App.drawMaze m = Ok tt.
Proof.
  intros Hwf. unfold App.drawMaze.
  destruct (bool_decide (cols m ≤ 0)); [done|]. cbn [orb].
  assert (forallb (λ i, bool_decide (is_Some (Grid.row_at (grid m) i))) (seqZ 0 (rows m))
          = true) as ->; [|done].
  apply forallb_forall. intros i Hi%list_elem_of_In%elem_of_seqZ.
  apply bool_decide_eq_true_2, row_at_lookup; [lia|]. unfold wf in Hwf. lia.
Qed.

Lemma walkable_in_bounds m c :
  walkable m c = true → 0 ≤ row c < rows m ∧ 0 ≤ col c < cols m.
Proof.
  unfold walkable, isValid. rewrite !andb_true_iff, !bool_decide_eq_true. lia.
Qed.

Lemma resizeCanvas_maze s : App.maze (App.resizeCanvas s) = App.maze s.
Proof. done. Qed.

Lemma setWall_cell m r c isWall m' x :
  setWall m r c isWall = Ok m' → x ≠ Coord r c → cell m' x = cell m x.
Proof.
  unfold setWall. destruct (_ || _); [by intros [= <-]|]. res_unfold.
  destruct (Grid.set _ _ _ _) as [g| |] eqn:Hg; [|done..].
  intros [= <-] Hx. unfold cell. cbn [with_grid grid].
  rewrite (cell_at_set _ _ _ _ _ _ _ Hg). rewrite decide_False; [done|].
  intros [??]. apply Hx. by destruct x; simplify_eq/=.
Qed.

Lemma setWall_contract m r c isWall :
  contract m → 0 ≤ r < rows m →
  ∃ m', setWall m r c isWall = Ok m' ∧ contract m' ∧
        rows m' = rows m ∧ cols m' = cols m.
Proof.
  intros (Hwf & Hs & He) Hr.
  assert (∃ m', setWall m r c isWall = Ok m' ∧ rows m' = rows m ∧ cols m' = cols m ∧
                wf m') as (m' & Hm' & ? & ? & ?).
  { unfold setWall. destruct (_ || _); [by exists m|].
    destruct (grid_set_Ok (grid m) r c (if isWall then wall else empty)) as (g & Hg & Hl);
      [lia|unfold wf in Hwf; lia|].
    res_unfold. rewrite Hg. eexists. split; [done|]. do 2 (split; [done|]).
    unfold wf. cbn [with_grid grid rows]. by rewrite Hl. }
  exists m'. split; [done|].
  destruct (setWall_walkable _ _ _ _ _ Hm' Hs He) as (_ & _ & ? & ?). done.
Qed.

Lemma setStart_contract m r c :
  contract m → isValid m r c = true →
  ∃ m', setStart m r c = Ok m' ∧ contract m' ∧
        rows m' = rows m ∧ cols m' = cols m ∧ grid m' = grid m.
Proof.
  intros (Hwf & Hs & He) Hv.
  destruct (row_at_valid m r c Hwf Hv) as [rw Hrw].
  assert (∃ m', setStart m r c = Ok m' ∧ rows m' = rows m ∧ cols m' = cols m ∧
                grid m' = grid m ∧ end_ m' = end_ m) as (m' & Hm' & Hr & Hc & Hg & Hen).
  { unfold setStart, Grid.get. res_unfold. rewrite Hrw.
    case_bool_decide; eexists; (split; [done|]); done. }
  exists m'. split; [done|]. split; [|done].
  split; [unfold wf; by rewrite Hg, Hr|]. split.
  - by eapply setStart_walkable.
  - rewrite Hen. unfold walkable, not_wall, isValid in *. by rewrite Hg, Hr, Hc.
Qed.

Lemma setEnd_contract m r c :
  contract m → isValid m r c = true →
  ∃ m', setEnd m r c = Ok m' ∧ contract m' ∧
        rows m' = rows m ∧ cols m' = cols m ∧ grid m' = grid m.
Proof.
  intros (Hwf & Hs & He) Hv.
  destruct (row_at_valid m r c Hwf Hv) as [rw Hrw].
  assert (∃ m', setEnd m r c = Ok m' ∧ rows m' = rows m ∧ cols m' = cols m ∧
                grid m' = grid m ∧ start m' = start m) as (m' & Hm' & Hr & Hc & Hg & Hst).
  { unfold setEnd, Grid.get. res_unfold. rewrite Hrw.
    case_bool_decide; eexists; (split; [done|]); done. }
  exists m'. split; [done|]. split; [|done].
  split; [unfold wf; by rewrite Hg, Hr|]. split.
  - rewrite Hst. unfold walkable, not_wall, isValid in *. by rewrite Hg, Hr, Hc.
  - by eapply setEnd_walkable.
Qed.

(** What an edit leaves: a maze that meets the contract, of the same
    size, that differs from the one before in the cell under the pointer
    at most. *)
Definition edited (p : App.pointer) (s s' : App.state) : Prop :=
  contract (App.maze s') ∧
  rows (App.maze s') = rows (App.maze s) ∧ cols (App.maze s') = cols (App.maze s) ∧
  (∀ x, p ≠ App.Cell (row x) (col x) → cell (App.maze s') x = cell (App.maze s) x) ∧
  (App.editMode s' = App.editMode s ∨ App.editMode s' = None).

Lemma edited_refl p s : contract (App.maze s) → edited p s s.
Proof. intros ?. unfold edited. by eauto 10. Qed.

Lemma handleEdit_contract button p s :
  contract (App.maze s) → p ≠ App.Indeterminate →
  ∃ s', App.handleEdit button p s = Ok s' ∧ edited p s s'.
Proof.
  intros Hc Hp. unfold App.handleEdit.
  destruct (App.editMode s) as [mode|] eqn:Hmode; [|exists s; eauto using edited_refl].
  case_decide; [exists s; eauto using edited_refl|].
  destruct p as [r c| |]; [|exists s; eauto using edited_refl|done].
  destruct (bool_decide (r < 0)) eqn:H1; [exists s; eauto using edited_refl|].
  destruct (bool_decide (rows (App.maze s) ≤ r)) eqn:H2; [exists s; eauto using edited_refl|].
  destruct (bool_decide (c < 0)) eqn:H3; [exists s; eauto using edited_refl|].
  destruct (bool_decide (cols (App.maze s) ≤ c)) eqn:H4; [exists s; eauto using edited_refl|].
  cbn [orb]. apply bool_decide_eq_false in H1, H2, H3, H4.
  assert (isValid (App.maze s) r c = true) as Hv.
  { unfold isValid. rewrite !bool_decide_eq_true_2 by lia. done. }
  repeat case_decide; subst; res_unfold.
  - destruct (setWall_contract (App.maze s) r c true Hc) as (m' & Hm' & Hc' & Hr & Hk); [lia|].
    rewrite Hm'. cbn [App.with_maze App.maze]. rewrite (drawMaze_wf m') by apply Hc'.
    eexists. split; [done|]. split; [done|]. do 2 (split; [done|]). split; [|by left].
    intros x Hx. eapply setWall_cell; [done|]. intros ->. by apply Hx.
  - destruct (setWall_contract (App.maze s) r c false Hc) as (m' & Hm' & Hc' & Hr & Hk); [lia|].
    rewrite Hm'. cbn [App.with_maze App.maze]. rewrite (drawMaze_wf m') by apply Hc'.
    eexists. split; [done|]. split; [done|]. do 2 (split; [done|]). split; [|by left].
    intros x Hx. eapply setWall_cell; [done|]. intros ->. by apply Hx.
  - destruct (setStart_contract (App.maze s) r c Hc Hv) as (m' & Hm' & Hc' & Hr & Hk & Hg).
    rewrite Hm'. unfold App.setEditMode. cbn [App.with_maze App.editMode].
    rewrite Hmode, decide_True by done. cbn [App.with_editMode App.with_maze App.maze].
    rewrite (drawMaze_wf m') by apply Hc'.
    eexists. split; [done|]. split; [done|]. do 2 (split; [done|]). split; [|by right].
    intros x _. unfold cell. cbn [App.maze App.with_editMode App.with_maze]. by rewrite Hg.
  - destruct (setEnd_contract (App.maze s) r c Hc Hv) as (m' & Hm' & Hc' & Hr & Hk & Hg).
    rewrite Hm'. unfold App.setEditMode. cbn [App.with_maze App.editMode].
    rewrite Hmode, decide_True by done. cbn [App.with_editMode App.with_maze App.maze].
    rewrite (drawMaze_wf m') by apply Hc'.
    eexists. split; [done|]. split; [done|]. do 2 (split; [done|]). split; [|by right].
    intros x _. unfold cell. cbn [App.maze App.with_editMode App.with_maze]. by rewrite Hg.
  - rewrite (drawMaze_wf (App.maze s)) by apply Hc. exists s. eauto using edited_refl.
Qed.

End page_script.

(** X13: [resizeCanvas] on a maze with at least one row and one column
    leaves the maze alone and picks a whole cell size between 0 and 30
    under which the canvas is at most 700 wide and 700 high.  The size is
    30 exactly for mazes of at most 23 cells on the longer side, is the
    largest that fits below that, and is 0 exactly when the longer side
    has more than 700 cells. *)
Theorem resizeCanvas_fits (s : App.state) :
  1 ≤ rows (App.maze s) → 1 ≤ cols (App.maze s) →
  App.maze (App.resizeCanvas s) = App.maze s ∧
  0 ≤ App.cellSize (App.resizeCanvas s) ≤ 30 ∧
  App.canvas_width (App.resizeCanvas s)
    = cols (App.maze s) * App.cellSize (App.resizeCanvas s) ∧
  App.canvas_height (App.resizeCanvas s)
    = rows (App.maze s) * App.cellSize (App.resizeCanvas s) ∧
  0 ≤ App.canvas_width (App.resizeCanvas s) ≤ 700 ∧
  0 ≤ App.canvas_height (App.resizeCanvas s) ≤ 700 ∧
  (App.cellSize (App.resizeCanvas s) = 30
     ↔ Z.max (rows (App.maze s)) (cols (App.maze s)) ≤ 23) ∧
  (App.cellSize (App.resizeCanvas s) < 30 →
     700 < Z.max (rows (App.maze s)) (cols (App.maze s))
           * (App.cellSize (App.resizeCanvas s) + 1)) ∧
  (App.cellSize (App.resizeCanvas s) = 0
     ↔ 700 < Z.max (rows (App.maze s)) (cols (App.maze s))).
Proof.
  intros Hr Hc. unfold App.resizeCanvas.
  cbn [App.maze App.cellSize App.canvas_width App.canvas_height].
  set (n := Z.max (rows (App.maze s)) (cols (App.maze s))).
  assert (1 ≤ n ∧ rows (App.maze s) ≤ n ∧ cols (App.maze s) ≤ n) as (Hn & Hrn & Hcn)
    by (unfold n; lia).
  rewrite decide_False by lia.
  set (q := 700 / n).
  assert (n * q ≤ 700 < n * (q + 1) ∧ 0 ≤ q) as (Hq & Hq0).
  { unfold q. split; [|by apply Z.div_pos; lia]. Z.div_mod_to_equations. nia. }
  repeat split; try (intros; nia).
Qed.

(** On the 5 x 5 maze the cells are 30 wide and the canvas is 150 x 150. *)
Lemma resizeCanvas_fits_witness :
  App.maze (App.resizeCanvas (App.State demo_maze 20 None false 0 0 [])) = demo_maze ∧
  App.cellSize (App.resizeCanvas (App.State demo_maze 20 None false 0 0 [])) = 30 ∧
  App.canvas_width (App.resizeCanvas (App.State demo_maze 20 None false 0 0 [])) = 150.
Proof.
  pose proof (resizeCanvas_fits (App.State demo_maze 20 None false 0 0 [])) as H.
  destruct H as (Hm & _ & Hw & _ & _ & _ & Hs & _).
  - vm_compute; intros [=].
  - vm_compute; intros [=].
  - split; [exact Hm|]. split; [|reflexivity]. apply Hs. vm_compute; intros [=].
Defined.

(** X14: on a maze that meets the contract, [handleEdit] and the mouse
    handlers that call it return unless the pointer is indeterminate (a
    click at offset 0,0 while the cell size is 0).  The maze they leave
    still meets the contract, has the same size, and differs from the one
    before in the cell under the pointer at most; the edit mode stays or
    is switched off. *)
Theorem edits_keep_contract (button : string → bool) (p : App.pointer) (s : App.state) :
  contract (App.maze s) → p ≠ App.Indeterminate →
  ∀ handler,
    handler ∈ [App.handleEdit button p; App.handleMouseDown button p;
               App.handleMouseMove button p] →
    ∃ s', handler s = Ok s' ∧
          contract (App.maze s') ∧
          rows (App.maze s') = rows (App.maze s) ∧
          cols (App.maze s') = cols (App.maze s) ∧
          (∀ x, p ≠ App.Cell (row x) (col x) →
                cell (App.maze s') x = cell (App.maze s) x) ∧
          (App.editMode s' = App.editMode s ∨ App.editMode s' = None).
Proof.
  intros Hc Hp handler Hh.
  apply elem_of_cons in Hh as [->|Hh]; [by apply handleEdit_contract|].
  apply elem_of_cons in Hh as [->|Hh].
  { unfold App.handleMouseDown.
    destruct (handleEdit_contract button p (App.with_isDrawing s true) Hc Hp)
      as (s' & Hs' & He).
    exists s'. split; [done|]. exact He. }
  apply list_elem_of_singleton in Hh as ->. unfold App.handleMouseMove.
  destruct (App.isDrawing s); [by apply handleEdit_contract|].
  exists s. split; [done|]. by apply edited_refl.
Qed.

(** Drawing a wall at (2,2) of the 5 x 5 maze, whose endpoints are
    (1,1) and (3,3). *)
Lemma edits_keep_contract_witness :
  ∃ s', App.handleMouseDown (λ _, true) (App.Cell 2 2)
          (App.State demo_maze 30 (Some "wall") false 150 150 []) = Ok s' ∧
        contract (App.maze s').
Proof.
  destruct (edits_keep_contract (λ _, true) (App.Cell 2 2)
              (App.State demo_maze 30 (Some "wall") false 150 150 []))
    with (handler := App.handleMouseDown (λ _, true) (App.Cell 2 2))
    as (s' & Hs' & Hc & _).
  - repeat split; reflexivity.
  - discriminate.
  - right. left.
  - exists s'. split; [exact Hs'|exact Hc].
Defined.

Section page_generators.
Implicit Types (m : Maze) (s : App.state).

Lemma isValid_iff m r c :
  isValid m r c = true ↔ 0 ≤ r < rows m ∧ 0 ≤ c < cols m.
Proof. unfold isValid. rewrite !andb_true_iff, !bool_decide_eq_true. lia. Qed.

Lemma generatePerfect_contract fuel choose m :
  3 ≤ rows m → 3 ≤ cols m → start m = Coord 1 1 →
  isValid m (row (end_ m)) (col (end_ m)) = true →
  (2 * length (cells m) + 2 ≤ fuel)%nat →
  ∃ m', generatePerfect fuel choose m = Ok m' ∧ contract m' ∧
        rows m' = rows m ∧ cols m' = cols m ∧ start m' = start m ∧ end_ m' = end_ m.
Proof.
  intros Hr Hc Hs He Hfuel. apply isValid_iff in He as He'.
  destruct (generatePerfect_result fuel choose m Hr Hc (proj1 He') Hfuel)
    as (m1 & m' & Hgen & Hcv & Hr1 & Hc1 & Hrows & Hcols & Hst & Hen & Hwf & Hcell & Hmono).
  exists m'. split; [done|]. split; [|done]. split; [done|].
  rewrite Hst, Hen, !walkable_cell, !Hcell, !(isValid_dims m m') by done.
  rewrite He, Hs. cbn [row col].
  rewrite (proj2 (isValid_iff m 1 1)) by lia. cbn [andb].
  split; apply bool_decide_eq_true_2.
  - case_decide; [done|]. by rewrite (cv_root _ _ Hcv).
  - by rewrite decide_True.
Qed.

End page_generators.

(** X15: [generateMaze] returns for every request of two rows or more,
    whatever the draws.  The maze has the size asked for, start (1,1)
    and end (rows-2, cols-2), and the canvas is resized for it; it meets
    the contract of the searches exactly when it has two columns or
    more. *)
Theorem generateMaze_meets_contract (nrows ncols : Z) (coin : Z → Z → bool)
    (s : App.state) :
  2 ≤ nrows →
  ∃ s', App.generateMaze nrows ncols coin s = Ok s' ∧
        rows (App.maze s') = nrows ∧ cols (App.maze s') = ncols ∧
        start (App.maze s') = Coord 1 1 ∧
        end_ (App.maze s') = Coord (nrows - 2) (ncols - 2) ∧
        s' = App.resizeCanvas (App.with_maze s (App.maze s')) ∧
        (contract (App.maze s') ↔ 2 ≤ ncols).
Proof.
  intros Hr. unfold App.generateMaze.
  destruct (Maze_new_Ok nrows ncols Hr) as (m0 & -> & Hwf0 & Hr0 & Hc0 & Hs0 & He0).
  destruct (generateRandom_cells coin m0) as (m1 & Hm1 & Hr1 & Hc1 & Hs1 & He1 & Hwf1 & _).
  { rewrite Hs0, Hr0. simpl. lia. }
  { rewrite He0, Hr0. simpl. lia. }
  res_unfold. rewrite Hm1. cbv zeta. rewrite resizeCanvas_maze. cbn [App.with_maze App.maze].
  rewrite (drawMaze_wf m1 Hwf1). eexists. split; [done|].
  rewrite resizeCanvas_maze. cbn [App.with_maze App.maze].
  rewrite Hr1, Hc1, Hs1, He1. do 5 (split; [done|]). split.
  - intros (_ & Hw & _). apply walkable_in_bounds in Hw.
    rewrite Hs1, Hs0, Hc1, Hc0 in Hw. simpl in Hw. lia.
  - intros Hc. split; [done|].
    destruct (generateRandom_walkable coin m0 m1 Hm1) as (_ & _ & ? & ?); [..|done];
      apply isValid_iff; rewrite ?Hs0, ?He0, Hr0, Hc0; simpl; lia.
Qed.

(** A 4 x 6 maze in which every draw makes a wall. *)
Lemma generateMaze_meets_contract_witness :
  ∃ s', App.generateMaze 4 6 (λ _ _, true) (App.State demo_maze 20 None false 0 0 [])
          = Ok s' ∧
        rows (App.maze s') = 4 ∧ cols (App.maze s') = 6 ∧ contract (App.maze s').
Proof.
  destruct (generateMaze_meets_contract 4 6 (λ _ _, true)
              (App.State demo_maze 20 None false 0 0 []))
    as (s' & Hs' & Hr & Hc & _ & _ & _ & Hk).
  - lia.
  - exists s'. split; [exact Hs'|]. split; [exact Hr|]. split; [exact Hc|].
    apply Hk. lia.
Defined.

(** X16: [generatePerfectMaze] returns for every request of at least
    3 x 3, within [2 * rows * cols + 2] turns of the carving loop and
    whatever the draws.  The maze has the size asked for, start (1,1) and
    end (rows-2, cols-2), meets the contract of the searches, and the
    canvas is resized for it. *)
Theorem generatePerfectMaze_meets_contract (fuel : nat) (nrows ncols : Z)
    (choose : nat → nat → nat) (s : App.state) :
  3 ≤ nrows → 3 ≤ ncols →
  (2 * (Z.to_nat nrows * Z.to_nat ncols) + 2 ≤ fuel)%nat →
  ∃ s', App.generatePerfectMaze fuel nrows ncols choose s = Ok s' ∧
        rows (App.maze s') = nrows ∧ cols (App.maze s') = ncols ∧
        start (App.maze s') = Coord 1 1 ∧
        end_ (App.maze s') = Coord (nrows - 2) (ncols - 2) ∧
        s' = App.resizeCanvas (App.with_maze s (App.maze s')) ∧
        contract (App.maze s').
Proof.
  intros Hr Hc Hfuel. unfold App.generatePerfectMaze.
  destruct (Maze_new_Ok nrows ncols) as (m0 & -> & Hwf0 & Hr0 & Hc0 & Hs0 & He0); [lia|].
  destruct (generatePerfect_contract fuel choose m0)
    as (m1 & Hm1 & Hk & Hr1 & Hc1 & Hs1 & He1).
  { lia. }
  { lia. }
  { done. }
  { apply isValid_iff. rewrite He0, Hr0, Hc0. simpl. lia. }
  { rewrite length_cells, Hr0, Hc0. done. }
  res_unfold. rewrite Hm1. cbv zeta. rewrite resizeCanvas_maze. cbn [App.with_maze App.maze].
  rewrite (drawMaze_wf m1) by apply Hk. eexists. split; [done|].
  rewrite resizeCanvas_maze. cbn [App.with_maze App.maze].
  rewrite Hr1, Hc1, Hs1, He1. done.
Qed.

(** A 4 x 4 perfect maze: it meets the contract although no path joins
    its endpoints. *)
Lemma generatePerfectMaze_meets_contract_witness :
  ∃ s', App.generatePerfectMaze 34 4 4 (λ k n, k)
          (App.State demo_maze 20 None false 0 0 []) = Ok s' ∧
        contract (App.maze s').
Proof.
  destruct (generatePerfectMaze_meets_contract 34 4 4 (λ k n, k)
              (App.State demo_maze 20 None false 0 0 []))
    as (s' & Hs' & _ & _ & _ & _ & _ & Hk).
  - lia.
  - lia.
  - vm_compute; lia.
  - exists s'. split; [exact Hs'|exact Hk].
Defined.

(** X17: [clearMaze] on a maze that meets the contract returns and keeps
    the contract, the size and both endpoints where edits have put them;
    the grid is the bordered one again: the endpoint cells open, every
    other cell inside the bounds a wall exactly on the border. *)
Theorem clearMaze_restores_border (s : App.state) :
  contract (App.maze s) →
  ∃ s', App.clearMaze s = Ok s' ∧ contract (App.maze s') ∧
        rows (App.maze s') = rows (App.maze s) ∧
        cols (App.maze s') = cols (App.maze s) ∧
        start (App.maze s') = start (App.maze s) ∧
        end_ (App.maze s') = end_ (App.maze s) ∧
        ∀ c, cell (App.maze s') c =
             if decide (c = start (App.maze s) ∨ c = end_ (App.maze s)) then Some empty
             else if in_bounds (rows (App.maze s)) (cols (App.maze s)) (row c) (col c)
                  then Some (if is_border (rows (App.maze s)) (cols (App.maze s))
                                          (row c) (col c)
                             then wall else empty)
                  else None.
Proof.
  intros (Hwf & Hs & He). unfold App.clearMaze, clear.
  pose proof (walkable_in_bounds _ _ Hs) as Hbs.
  pose proof (walkable_in_bounds _ _ He) as Hbe.
  destruct (initGrid_Ok (App.maze s)) as (g & Hinit & Hl); [lia..|].
  pose proof (initGrid_shape _ _ Hinit) as (Hrows & Hcols & Hst & Hen & Hwf').
  destruct (initGrid_walkable _ _ Hinit) as (_ & _ & Hs' & He');
    [by apply isValid_iff..|].
  res_unfold. rewrite Hinit, (drawMaze_wf _ Hwf'). eexists. split; [done|].
  cbn [App.with_maze App.maze]. do 5 (split; [done|]).
  intros c. by rewrite (initGrid_cell _ _ c Hinit).
Qed.

(** Clearing the 5 x 5 maze. *)
Lemma clearMaze_restores_border_witness :
  ∃ s', App.clearMaze (App.State demo_maze 30 (Some "wall") false 150 150 []) = Ok s' ∧
        contract (App.maze s').
Proof.
  destruct (clearMaze_restores_border
              (App.State demo_maze 30 (Some "wall") false 150 150 []))
    as (s' & Hs' & Hk & _).
  - repeat split; reflexivity.
  - exists s'. split; [exact Hs'|exact Hk].
Defined.

(** ** The comparison table *)

Section comparison.
Variable m : Maze.
Hypothesis Hwf : wf m.
Hypothesis Hstart : walkable m (start m) = true.
Hypothesis Hend : walkable m (end_ m) = true.

(** The least number of cells of a walkable route from start to end is
    [n], if there is a route at all. *)
Definition least_cells (n : nat) : Prop :=
  (∃ p, walkable_route m (start m) (end_ m) p ∧ length p = n) ∧
  (∀ p, walkable_route m (start m) (end_ m) p → (n ≤ length p)%nat).

(** What one search of the table reports, given fuel for it: the flag of
    its kind and, if there is a route, a path that is one, of the least
    number of cells for the searches known to be shortest. *)
Definition report (a : algorithm) (r : Result) : Prop :=
  optimal r = (reported a).1 ∧
  match path r with
  | Some p =>
      walkable_route m (start m) (end_ m) p ∧
      (shortest_path_search a → least_cells (length p))
  | None => ¬ ∃ p, walkable_route m (start m) (end_ m) p
  end.

Lemma run_report a fuel :
  (enough m ≤ fuel)%nat → ∃ r, run a fuel m = Ok (r, m) ∧ report a r.
Proof.
  intros Hfuel. destruct (run_total m Hwf Hstart Hend a fuel Hfuel) as [r Hr].
  exists r. split; [done|]. split; [by destruct (run_flags _ _ _ _ _ Hr)|].
  pose proof (run_sound m Hwf Hstart Hend a fuel r m Hr) as Hs.
  unfold sound_result in Hs. destruct (path r) as [p|] eqn:Hp.
  - destruct Hs as [Hroute _].
    assert (walkable_route m (start m) (end_ m) p) as Hw
      by by apply route_walkable_route.
    split; [done|]. intros Ha. split; [by exists p|].
    intros p' Hp'. eapply (run_shortest m Hwf Hstart Hend a fuel r m Ha Hr); [done|].
    by apply walkable_route_linked.
  - intros [p Hp']. apply Hs. exists p. by apply walkable_route_linked.
Qed.

Lemma least_cells_unique n n' : least_cells n → least_cells n' → n = n'.
Proof.
  intros [(p & Hp & <-) Hn] [(p' & Hp' & <-) Hn'].
  apply Hn in Hp' as ?. apply Hn' in Hp as ?. lia.
Qed.

End comparison.

Ltac not_listed :=
  rewrite ?not_elem_of_cons; repeat split; try discriminate; apply not_elem_of_nil.

Ltac unlisted H :=
  exfalso; repeat (apply elem_of_cons in H as [H|H]; [discriminate|]);
  by apply elem_of_nil in H.

(** X18: on a maze that meets the contract and with fuel for each search,
    [runAllAlgorithms] returns, leaves the maze as it was and stores seven
    results, for which [displayComparison] writes seven lines in the order
    of the table.  Every line shows a path length exactly when the maze has
    a route from start to end.  A path length is highlighted exactly when
    the line is not that of DFS or Greedy and its length is the least
    number of cells of any route; the lines of BFS, Dijkstra, A* (Manhattan)
    and Bidirectional are highlighted whenever they show a length. *)
Theorem comparison_highlights_shortest_paths (fuel : nat) (s : App.state) :
  contract (App.maze s) → (enough (App.maze s) ≤ fuel)%nat →
  ∃ s', App.runAllAlgorithms fuel s = Ok s' ∧
        App.maze s' = App.maze s ∧
        App.name <$> App.displayComparison s'
          = ["DFS"; "BFS"; "Dijkstra"; "A* (Manhattan)"; "A* (Euclidean)"; "Greedy";
             "Bidirectional"] ∧
        ∀ l, l ∈ App.displayComparison s' →
          (is_Some (App.pathLength l)
             ↔ ∃ p, walkable_route (App.maze s) (start (App.maze s))
                                   (end_ (App.maze s)) p) ∧
          (App.isOptimalPath l = true
             ↔ (App.name l ∉ ["DFS"; "Greedy"]) ∧
               ∃ n, least_cells (App.maze s) n ∧ App.pathLength l = Some (Z.of_nat n)) ∧
          (App.name l ∈ ["BFS"; "Dijkstra"; "A* (Manhattan)"; "Bidirectional"] →
           is_Some (App.pathLength l) → App.isOptimalPath l = true).
Proof.
  intros (Hwf & Hs & He) Hfuel. set (m := App.maze s) in *.
  destruct (run_report m Hwf Hs He DFS fuel Hfuel) as (r1 & Hr1 & Ho1 & Hp1).
  destruct (run_report m Hwf Hs He BFS fuel Hfuel) as (r2 & Hr2 & Ho2 & Hp2).
  destruct (run_report m Hwf Hs He Dijkstra fuel Hfuel) as (r3 & Hr3 & Ho3 & Hp3).
  destruct (run_report m Hwf Hs He (AStar "manhattan") fuel Hfuel)
    as (r4 & Hr4 & Ho4 & Hp4).
  destruct (run_report m Hwf Hs He (AStar "euclidean") fuel Hfuel)
    as (r5 & Hr5 & Ho5 & Hp5).
  destruct (run_report m Hwf Hs He Greedy fuel Hfuel) as (r6 & Hr6 & Ho6 & Hp6).
  destruct (run_report m Hwf Hs He Bidirectional fuel Hfuel) as (r7 & Hr7 & Ho7 & Hp7).
  cbn [reported fst] in *.
  exists (App.with_allResults (App.with_maze s m)
            [("DFS", r1); ("BFS", r2); ("Dijkstra", r3); ("A* (Manhattan)", r4);
             ("A* (Euclidean)", r5); ("Greedy", r6); ("Bidirectional", r7)]).
  split.
  { unfold App.runAllAlgorithms, App.algorithms. cbn [foldl fst snd]. res_unfold.
    fold m. by rewrite Hr1, Hr2, Hr3, Hr4, Hr5, Hr6, Hr7. }
  split; [done|]. split; [done|].
  unfold App.displayComparison, App.path_length.
  cbn [App.with_allResults App.with_maze App.allResults fmap list_fmap omap list_omap
       fst snd].
  rewrite Ho1, Ho2, Ho3, Ho4, Ho5, Ho6, Ho7.
  assert (∀ p, walkable_route m (start m) (end_ m) p → (1 ≤ length p)%nat) as Hpos.
  { intros [|??] (Hh & _); [done|simpl; lia]. }
  destruct (path r2) as [p2|] eqn:Hq2.
  - (* there is a route *)
    destruct Hp2 as [Hw2 Hl2]. specialize (Hl2 I).
    assert (∃ p, walkable_route m (start m) (end_ m) p) as Hex by by exists p2.
    destruct (path r1) as [p1|]; [|done]. destruct (path r3) as [p3|]; [|done].
    destruct (path r4) as [p4|]; [|done]. destruct (path r5) as [p5|]; [|done].
    destruct (path r6) as [p6|]; [|done]. destruct (path r7) as [p7|]; [|done].
    destruct Hp1 as [Hw1 _], Hp3 as [Hw3 Hl3], Hp4 as [Hw4 Hl4], Hp5 as [Hw5 _],
      Hp6 as [Hw6 _], Hp7 as [Hw7 Hl7].
    specialize (Hl3 I). specialize (Hl7 I).
    assert (least_cells m (length p4)) as Hl4' by by apply Hl4.
    pose proof (least_cells_unique m _ _ Hl2 Hl3) as E3.
    pose proof (least_cells_unique m _ _ Hl2 Hl4') as E4.
    pose proof (least_cells_unique m _ _ Hl2 Hl7) as E7.
    pose proof (proj2 Hl2 _ Hw1) as G1. pose proof (proj2 Hl2 _ Hw5) as G5.
    pose proof (proj2 Hl2 _ Hw6) as G6.
    cbn [fmap option_fmap option_map App.math_min foldl andb].
    rewrite <-E3, <-E4, <-E7.
    replace (Z.min (Z.min (Z.min (Z.min (Z.of_nat (length p2)) (Z.of_nat (length p2)))
                                 (Z.of_nat (length p2))) (Z.of_nat (length p5)))
                   (Z.of_nat (length p2)))
      with (Z.of_nat (length p2)) by lia.
    rewrite (bool_decide_eq_true_2 (Some (Z.of_nat (length p2)) = _)) by done.
    assert (∀ p : list coord, least_cells m (length p) ↔ length p = length p2) as Hleast.
    { intros p. split; [intros H; by apply (least_cells_unique m _ _ H Hl2)|].
      by intros ->. }
    intros l Hl. repeat (apply elem_of_cons in Hl as [->|Hl]);
      [..|by apply elem_of_nil in Hl];
      cbn [App.name App.pathLength App.isOptimalPath];
      (split; [by split; eauto|]);
      (split; [|first [done | intros Hin _; unlisted Hin]]).
    + split; [done|]. intros [Hn _]. exfalso. apply Hn. by left.
    + split; [intros _|done]. split; [not_listed|]. by exists (length p2).
    + split; [intros _|done]. split; [not_listed|]. by exists (length p2).
    + split; [intros _|done]. split; [not_listed|]. by exists (length p2).
    + rewrite bool_decide_eq_true. split.
      * intros [= E]. split; [not_listed|]. exists (length p5).
        split; [|done]. apply Hleast. lia.
      * intros (_ & n & Hn & [= E]). f_equal.
        pose proof (least_cells_unique m _ _ Hn Hl2). lia.
    + split; [done|]. intros [Hn _]. exfalso. apply Hn. right. by left.
    + split; [intros _|done]. split; [not_listed|]. by exists (length p2).
  - (* there is no route *)
    destruct (path r1) as [p1|]; [exfalso; apply Hp2; exists p1; apply Hp1|].
    destruct (path r3) as [p3|]; [exfalso; apply Hp2; exists p3; apply Hp3|].
    destruct (path r4) as [p4|]; [exfalso; apply Hp2; exists p4; apply Hp4|].
    destruct (path r5) as [p5|]; [exfalso; apply Hp2; exists p5; apply Hp5|].
    destruct (path r6) as [p6|]; [exfalso; apply Hp2; exists p6; apply Hp6|].
    destruct (path r7) as [p7|]; [exfalso; apply Hp2; exists p7; apply Hp7|].
    cbn [fmap option_fmap option_map App.math_min andb].
    intros l Hl. repeat (apply elem_of_cons in Hl as [->|Hl]);
      [..|by apply elem_of_nil in Hl];
      cbn [App.name App.pathLength App.isOptimalPath];
      (split; [split; [by intros [??]|done]|]);
      (split; [|by intros _ [??]]);
      (split; [done|]); by intros (_ & n & _ & ?).
Qed.

(** The table for the 5 x 5 maze: every line shows a length, BFS is
    highlighted. *)
Lemma comparison_highlights_shortest_paths_witness :
  ∃ s', App.runAllAlgorithms 133 (App.State demo_maze 30 None false 150 150 []) = Ok s' ∧
        App.maze s' = demo_maze ∧
        App.name <$> App.displayComparison s'
          = ["DFS"; "BFS"; "Dijkstra"; "A* (Manhattan)"; "A* (Euclidean)"; "Greedy";
             "Bidirectional"].
Proof.
  destruct (comparison_highlights_shortest_paths 133
              (App.State demo_maze 30 None false 150 150 []))
    as (s' & Hs' & Hm & Hn & _).
  - repeat split; reflexivity.
  - vm_compute; lia.
  - exists s'. split; [exact Hs'|]. split; [exact Hm|exact Hn].
Defined.

(** ** Moving the endpoints *)

Section moving_endpoints.
Implicit Types (m : Maze).

Lemma row_at_in_range m r :
  wf m → Grid.row_at (grid m) r = None ↔ ¬ 0 ≤ r < rows m.
Proof.
  unfold wf, Grid.row_at. intros Hwf. case_decide as Hr.
  - rewrite lookup_ge_None. lia.
  - split; [lia|done].
Qed.

Lemma setStart_cases m r c :
  wf m →
  setStart m r c
  = if decide (0 ≤ r < rows m)
    then Ok (if decide (cell m (Coord r c) = Some wall) then m
             else with_start m (Coord r c))
    else Throw.
Proof.
  intros Hwf. unfold setStart, Grid.get, cell, cell_at. cbn [row col]. res_unfold.
  pose proof (row_at_in_range m r Hwf) as Hrow.
  destruct (Grid.row_at (grid m) r) as [rw|] eqn:Hrw.
  - rewrite decide_True by (destruct (decide (0 ≤ r < rows m)) as [|Hn]; [done|];
                             by apply Hrow in Hn).
    cbn [mbind option_bind]. case_bool_decide; case_decide; done.
  - rewrite decide_False; [done|]. by apply Hrow.
Qed.

Lemma setEnd_cases m r c :
  wf m →
  setEnd m r c
  = if decide (0 ≤ r < rows m)
    then Ok (if decide (cell m (Coord r c) = Some wall) then m
             else with_end m (Coord r c))
    else Throw.
Proof.
  intros Hwf. unfold setEnd, Grid.get, cell, cell_at. cbn [row col]. res_unfold.
  pose proof (row_at_in_range m r Hwf) as Hrow.
  destruct (Grid.row_at (grid m) r) as [rw|] eqn:Hrw.
  - rewrite decide_True by (destruct (decide (0 ≤ r < rows m)) as [|Hn]; [done|];
                             by apply Hrow in Hn).
    cbn [mbind option_bind]. case_bool_decide; case_decide; done.
  - rewrite decide_False; [done|]. by apply Hrow.
Qed.

Lemma walkable_moved m r c :
  0 ≤ r < rows m → cell m (Coord r c) ≠ Some wall →
  walkable m (Coord r c) = true ↔ 0 ≤ c < cols m.
Proof.
  intros Hr Hc. rewrite walkable_cell, andb_true_iff, bool_decide_eq_true.
  cbn [row col]. unfold isValid. rewrite !andb_true_iff, !bool_decide_eq_true. tauto.
Qed.

End moving_endpoints.

(** X19: on a maze that meets the contract, [setStart] and [setEnd] throw
    exactly when the row is outside the grid; otherwise they leave the
    maze as it is when the cell holds a wall and move the endpoint there
    when it does not.  A column outside the grid is not refused: the
    maze returned meets the contract exactly when the cell holds a wall
    or the column lies within the bounds. *)
Theorem endpoints_move_unless_wall (m : Maze) (r c : Z) :
  contract m →
  setStart m r c
    = (if decide (0 ≤ r < rows m)
       then Ok (if decide (cell m (Coord r c) = Some wall) then m
                else with_start m (Coord r c))
       else Throw) ∧
  setEnd m r c
    = (if decide (0 ≤ r < rows m)
       then Ok (if decide (cell m (Coord r c) = Some wall) then m
                else with_end m (Coord r c))
       else Throw) ∧
  ∀ m', setStart m r c = Ok m' ∨ setEnd m r c = Ok m' →
        (contract m' ↔ cell m (Coord r c) = Some wall ∨ 0 ≤ c < cols m).
Proof.
  intros (Hwf & Hs & He).
  split; [by apply setStart_cases|]. split; [by apply setEnd_cases|].
  intros m'. rewrite setStart_cases, setEnd_cases by done.
  case_decide as Hr; [|by intros [|]].
  case_decide as Hc.
  { intros [[= <-]|[= <-]]; (split; [by left|done]). }
  pose proof (walkable_moved m r c Hr Hc) as Hw.
  assert (∀ x, walkable (with_start m (Coord r c)) x = walkable m x) as Hws by done.
  assert (∀ x, walkable (with_end m (Coord r c)) x = walkable m x) as Hwe by done.
  intros [[= <-]|[= <-]]; unfold contract; rewrite ?Hws, ?Hwe;
    cbn [with_start with_end start end_]; split.
  - intros (_ & Hw' & _). right. by apply Hw.
  - intros [?|Hcol]; [done|]. split; [done|]. split; [by apply Hw|done].
  - intros (_ & _ & Hw'). right. by apply Hw.
  - intros [?|Hcol]; [done|]. split; [done|]. split; [done|by apply Hw].
Qed.

(** In the 5 x 5 maze [setStart(2, 7)] moves the start out of the grid. *)
Lemma endpoints_move_unless_wall_witness :
  setStart demo_maze 2 7 = Ok (with_start demo_maze (Coord 2 7)) ∧
  ¬ contract (with_start demo_maze (Coord 2 7)).
Proof.
  destruct (endpoints_move_unless_wall demo_maze 2 7) as (Hs & _ & Hk).
  - repeat split; reflexivity.
  - split; [exact Hs|]. intros Hc.
    apply (Hk (with_start demo_maze (Coord 2 7))) in Hc.
    + destruct Hc as [Hc|Hc]; [discriminate Hc|]. vm_compute in Hc. destruct Hc as [_ Hc].
      discriminate Hc.
    + left. exact Hs.
Defined.

(** ** A perfect maze has no loops *)

(** Between two cells there is at most one route that passes no cell
    twice. *)
Definition loop_free (m : Maze) : Prop :=
  ∀ s t p p', walkable m s = true →
    route m s t p → NoDup p → route m s t p' → NoDup p' → p = p'.

(** What the carving loop keeps besides [carving]: no loops, and no
    open cell next to a room that is still walled. *)
Record perfect (m : Maze) : Prop := {
  pf_loop_free : loop_free m;
  pf_walled : ∀ c, room m c → cell m c = Some wall → neighbours m c = []
}.

Section paths.

Lemma NoDup_ends {A} (p : list A) (a : A) :
  NoDup p → head p = Some a → list.last p = Some a → p = [a].
Proof.
  destruct p as [|b q]; [done|]. intros Hnd [= ->] Hl.
  destruct q as [|c q]; [done|]. exfalso.
  rewrite last_cons_cons in Hl. apply NoDup_cons in Hnd as [Hn _].
  apply Hn. by apply last_Some_elem_of.
Qed.

Lemma linked_ext m m' p :
  (∀ c, walkable m' c = walkable m c) → linked m p → linked m' p.
Proof. intros H. apply linked_mono. intros w. by rewrite H. Qed.

Lemma loop_free_ext m m' :
  (∀ c, walkable m' c = walkable m c) → loop_free m → loop_free m'.
Proof.
  intros H Hm s t p p' Hs (Hh & Hl & Hlk) Hnd (Hh' & Hl' & Hlk') Hnd'.
  apply (Hm s t); [by rewrite <-H|..|done| |done];
    (split; [done|]; split; [done|]); eapply linked_ext; [|done| |done];
    intros c; by rewrite H.
Qed.

End paths.

(** Opening a cell that has at most one open cell next to it makes no
    loop. *)
Section leaves.
Variables m m' : Maze.
Variable x : coord.
Hypothesis Hother : ∀ c, c ≠ x → walkable m' c = walkable m c.
Hypothesis Hleaf : ∀ a b, a ∈ neighbours m' x → b ∈ neighbours m' x → a = b.

Lemma linked_avoid p : linked m' p → x ∉ p → linked m p.
Proof.
  induction p as [|a [|b p] IH]; [done..|]. intros [Hab Hl] Hx.
  apply not_elem_of_cons in Hx as [Hxa Hx]. split; [|by apply IH].
  apply elem_of_neighbours in Hab as [Hw Hb]. apply elem_of_neighbours.
  split; [|done]. rewrite <-Hother; [done|].
  intros ->. apply Hx. by left.
Qed.

Lemma leaf_at_an_end s p :
  walkable m' s = true → linked m' p → head p = Some s → NoDup p → x ∈ p →
  head p = Some x ∨ list.last p = Some x.
Proof.
  intros Hs Hlk Hh Hnd Hx.
  apply list_elem_of_split in Hx as (l1 & l2 & ->).
  destruct l1 as [|a0 l0] using rev_ind; [by left|clear IHl0].
  destruct l2 as [|b l2]; [right; by rewrite last_snoc|].
  exfalso. rewrite <-app_assoc in Hlk, Hnd, Hh. cbn [app] in Hlk, Hnd, Hh.
  pose proof (linked_walkable m' _ s Hlk Hh Hs a0) as Hwa.
  apply linked_suffix in Hlk as [Hax [Hxb _]].
  assert (a0 = b) as ->.
  { apply Hleaf; [|done]. apply neighbours_sym; [|done].
    apply Hwa. apply elem_of_app. right. by left. }
  apply NoDup_app in Hnd as (_ & _ & Hnd). apply NoDup_cons in Hnd as [Hn _].
  apply Hn. right. by left.
Qed.

Lemma routes_from_leaf t p p' :
  loop_free m → t ≠ x →
  route m' x t p → NoDup p → route m' x t p' → NoDup p' → p = p'.
Proof.
  intros Hm Ht (Hh & Hl & Hlk) Hnd (Hh' & Hl' & Hlk') Hnd'.
  destruct p as [|? q]; [done|]. injection Hh as ->.
  destruct p' as [|? q']; [done|]. injection Hh' as ->.
  destruct q as [|a q]; [simpl in Hl; congruence|].
  destruct q' as [|a' q']; [simpl in Hl'; congruence|].
  destruct Hlk as [Ha Hlk], Hlk' as [Ha' Hlk'].
  assert (a' = a) as -> by by apply Hleaf.
  apply NoDup_cons in Hnd as [Hx Hnd]. apply NoDup_cons in Hnd' as [Hx' Hnd'].
  rewrite last_cons_cons in Hl, Hl'. f_equal.
  apply (Hm a t).
  - rewrite <-Hother; [by eapply neighbours_walkable|]. intros ->. apply Hx. by left.
  - split; [done|]. split; [done|]. by apply linked_avoid.
  - done.
  - split; [done|]. split; [done|]. by apply linked_avoid.
  - done.
Qed.

Lemma loop_free_leaf : loop_free m → loop_free m'.
Proof.
  intros Hm s t p p' Hs Hp Hnd Hp' Hnd'.
  destruct (decide (s = x)) as [->|Hsx].
  { destruct (decide (t = x)) as [->|Htx]; [|by eapply routes_from_leaf].
    destruct Hp as (Hh & Hl & _), Hp' as (Hh' & Hl' & _).
    by rewrite (NoDup_ends p x), (NoDup_ends p' x). }
  destruct (decide (t = x)) as [->|Htx].
  { destruct Hp as (Hh & Hl & Hlk), Hp' as (Hh' & Hl' & Hlk').
    apply (inj reverse). apply (routes_from_leaf s); [done|done|..].
    - split; [by rewrite head_reverse|]. split; [by rewrite last_reverse|].
      by eapply linked_reverse.
    - by rewrite reverse_Permutation.
    - split; [by rewrite head_reverse|]. split; [by rewrite last_reverse|].
      by eapply linked_reverse.
    - by rewrite reverse_Permutation. }
  destruct Hp as (Hh & Hl & Hlk), Hp' as (Hh' & Hl' & Hlk').
  assert (∀ q, linked m' q → head q = Some s → list.last q = Some t → NoDup q → x ∉ q)
    as Havoid.
  { intros q Hq Hhq Hlq Hndq Hx.
    destruct (leaf_at_an_end s q Hs Hq Hhq Hndq Hx); congruence. }
  apply (Hm s t).
  - by rewrite <-Hother.
  - split; [done|]. split; [done|]. apply linked_avoid; [done|]. by apply Havoid.
  - done.
  - split; [done|]. split; [done|]. apply linked_avoid; [done|]. by apply Havoid.
  - done.
Qed.

End leaves.

Section carving_without_loops.
Implicit Types (m : Maze) (c : coord).

Lemma walkable_set m g r k g' c :
  Grid.set g r k empty = Ok g' → c ≠ Coord r k →
  walkable (with_grid m g') c = walkable (with_grid m g) c.
Proof.
  intros Hg Hc. rewrite !walkable_cell. f_equal. unfold cell. cbn [with_grid grid].
  rewrite (cell_at_set _ _ _ _ _ _ _ Hg), decide_False; [done|].
  intros [??]. apply Hc. by destruct c; simplify_eq/=.
Qed.

(** An open cell of a carving: open, inside the border, and not at two
    even coordinates. *)
Lemma carving_walkable m stack c :
  carving m stack → walkable m c = true →
  cell m c = Some empty ∧ interior m c = true ∧
  (Z.odd (row c) = true ∨ Z.odd (col c) = true).
Proof.
  intros Hcv. rewrite walkable_cell, andb_true_iff, bool_decide_eq_true. intros [Hv Hc].
  destruct (cv_bits _ _ Hcv c Hv) as [|Hopen]; [done|].
  destruct (cv_shape _ _ Hcv c Hv Hopen) as (? & ? & _). done.
Qed.

Lemma odd_step z : Z.odd (z + 1) = negb (Z.odd z) ∧ Z.odd (z - 1) = negb (Z.odd z).
Proof. rewrite Z.odd_add, Z.odd_sub. by destruct (Z.odd z). Qed.

(** Two cells that are one step apart differ in the parity of exactly one
    coordinate. *)
Lemma adjacent_parity a b :
  adjacent a b →
  (row b = row a ∧ Z.odd (col b) = negb (Z.odd (col a))) ∨
  (col b = col a ∧ Z.odd (row b) = negb (Z.odd (row a))).
Proof.
  unfold adjacent. intros H.
  assert ((row b = row a ∧ (col b = col a + 1 ∨ col b = col a - 1)) ∨
          (col b = col a ∧ (row b = row a + 1 ∨ row b = row a - 1))) as Hc by lia.
  destruct Hc as [[-> [-> | ->]]|[-> [-> | ->]]];
    [left|left|right|right]; (split; [done|]); apply odd_step.
Qed.

Lemma rooms_not_adjacent m a b : room m a → room m b → ¬ adjacent a b.
Proof.
  intros (_ & Hra & Hca) (_ & Hrb & Hcb) [[_ H]|[_ H]]%adjacent_parity;
    rewrite ?Hra, ?Hca, ?Hrb, ?Hcb in H; done.
Qed.

(** The cells next to the cell between [cur] and [next] that can be open
    are these two. *)
Lemma beside_midpoint m cur next y :
  room m cur → next ∈ around2 cur → adjacent (midpoint cur next) y →
  Z.odd (row y) = true ∨ Z.odd (col y) = true →
  y = cur ∨ y = next.
Proof.
  intros (_ & Hr & Hc) Har Hadj Hodd.
  destruct (midpoint_between _ _ Har) as (Hmr & Hmc & _ & _).
  apply around2_cases in Har.
  apply adjacent_parity in Hadj as Hpar. unfold adjacent in Hadj.
  destruct cur as [r k], next as [r' k'], y as [ry ky]. cbn [row col] in *.
  set (mr := row (midpoint (Coord r k) (Coord r' k'))) in *.
  set (mk := col (midpoint (Coord r k) (Coord r' k'))) in *.
  destruct Har as [[-> Hk]|[-> Hr']].
  - assert (mr = r) as Emr by lia.
    assert (mk = k + 1 ∨ mk = k - 1) as Emk by lia.
    assert (Z.odd mk = false) as Hmk.
    { destruct Emk as [-> | ->]; rewrite (proj1 (odd_step k)) || rewrite (proj2 (odd_step k));
        by rewrite Hc. }
    destruct Hpar as [[Hry Hky]|[Hky Hry]].
    + assert (ky = k ∨ ky = k') as [-> | ->] by lia; [left|right]; f_equal; lia.
    + exfalso. rewrite Emr, Hr in Hry. rewrite Hky, Hmk in Hodd. rewrite Hry in Hodd.
      by destruct Hodd.
  - assert (mk = k) as Emk by lia.
    assert (mr = r + 1 ∨ mr = r - 1) as Emr by lia.
    assert (Z.odd mr = false) as Hmr'.
    { destruct Emr as [-> | ->]; rewrite (proj1 (odd_step r)) || rewrite (proj2 (odd_step r));
        by rewrite Hr. }
    destruct Hpar as [[Hry Hky]|[Hky Hry]].
    + exfalso. rewrite Emk, Hc in Hky. rewrite Hry, Hmr' in Hodd. rewrite Hky in Hodd.
      by destruct Hodd.
    + assert (ry = r ∨ ry = r') as [-> | ->] by lia; [left|right]; f_equal; lia.
Qed.

(** Carving to an unvisited room keeps the maze free of loops. *)
Lemma carve_opens_perfect m stack cur rest next g1 g2 :
  carving m stack → perfect m → stack = rest ++ [cur] → next ∈ unvisited2 m cur →
  Grid.set (grid m) (row (midpoint cur next)) (col (midpoint cur next)) empty = Ok g1 →
  Grid.set g1 (row next) (col next) empty = Ok g2 →
  perfect (with_grid m g2).
Proof.
  intros Hcv [Hfree Hwalled] Hstack Hnext H1 H2.
  apply elem_of_unvisited2 in Hnext as (Hint & Hwall & Har).
  destruct (midpoint_between _ _ Har) as (Hmr & Hmc & Hadj1 & Hadj2).
  set (mid := midpoint cur next) in *.
  destruct (cv_stack _ _ Hcv cur) as [Hcroom Hcopen].
  { rewrite Hstack. apply elem_of_app. right. by left. }
  assert (room m next) as Hnroom.
  { split; [done|]. destruct Hcroom as (_ & Hcr & Hcc).
    apply around2_cases in Har.
    destruct Har as [[-> [-> | ->]]|[-> [-> | ->]]];
      rewrite ?Z.odd_sub, ?Z.odd_add, ?Hcr, ?Hcc; done. }
  assert (mid = Coord (row mid) (col mid)) as Emid by by destruct mid.
  assert (next = Coord (row next) (col next)) as Enext by by destruct next.
  set (m1 := with_grid m g1). set (m2 := with_grid m g2).
  assert (∀ c, c ≠ mid → walkable m1 c = walkable m c) as Hw1.
  { intros c Hc. apply (walkable_set m (grid m) _ _ g1 c H1). by rewrite <-Emid. }
  assert (∀ c, c ≠ next → walkable m2 c = walkable m1 c) as Hw2.
  { intros c Hc. apply (walkable_set m g1 _ _ g2 c H2). by rewrite <-Enext. }
  assert (walkable m next = false) as Hnw.
  { rewrite walkable_cell, Hwall. rewrite bool_decide_eq_false_2 by (by intros []).
    apply andb_false_r. }
  assert (mid ≠ next) as Hmn.
  { intros E. rewrite E in Hadj2. unfold adjacent in Hadj2. lia. }
  (* the cell between has the current room beside it and nothing else *)
  assert (∀ y, y ∈ neighbours m1 mid → y = cur) as Hleaf1.
  { intros y Hy. apply neighbours_adjacent in Hy as Hadj.
    apply neighbours_walkable in Hy as Hwy.
    assert (y ≠ mid) as Hym by (intros ->; unfold adjacent in Hadj; lia).
    rewrite Hw1 in Hwy by done.
    destruct (carving_walkable m stack y Hcv Hwy) as (_ & _ & Hodd).
    destruct (beside_midpoint m cur next y Hcroom Har Hadj Hodd) as [->| ->]; [done|].
    congruence. }
  assert (loop_free m1) as Hfree1.
  { apply (loop_free_leaf m m1 mid Hw1); [|done].
    intros a b Ha Hb. by rewrite (Hleaf1 a), (Hleaf1 b). }
  (* the new room has the cell between beside it and nothing else *)
  assert (∀ y, y ∈ neighbours m2 next → y = mid) as Hleaf2.
  { intros y Hy. apply neighbours_adjacent in Hy as Hadj.
    apply neighbours_walkable in Hy as Hwy.
    assert (y ≠ next) as Hyn by (intros ->; unfold adjacent in Hadj; lia).
    destruct (decide (y = mid)) as [|Hym]; [done|]. exfalso.
    rewrite Hw2, Hw1 in Hwy by done.
    assert (y ∈ neighbours m next) as Hin.
    { apply elem_of_neighbours. split; [done|]. by apply around_adjacent. }
    rewrite (Hwalled next Hnroom Hwall) in Hin. by apply elem_of_nil in Hin. }
  split.
  - apply (loop_free_leaf m1 m2 next Hw2); [|done].
    intros a b Ha Hb. by rewrite (Hleaf2 a), (Hleaf2 b).
  - intros c Hroom Hc.
    assert (room m c) as Hroom' by done.
    assert (cell m2 c = if decide (c = next ∨ c = mid) then Some empty else cell m c)
      as Hcell.
    { unfold cell. cbn [with_grid grid m2].
      rewrite (cell_at_set _ _ _ _ _ _ _ H2), (cell_at_set _ _ _ _ _ _ _ H1).
      clear Emid Enext. destruct c as [r k]. cbn [row col].
      assert (∀ y : coord, Coord r k = y ↔ r = row y ∧ k = col y) as Heq.
      { intros [a b]. cbn [row col]. split; [by intros [= -> ->]|by intros [-> ->]]. }
      repeat case_decide; try done; exfalso; rewrite ?Heq in *; naive_solver. }
    rewrite Hcell in Hc. case_decide as Hd; [done|].
    destruct (neighbours m2 c) as [|y l] eqn:E; [done|]. exfalso.
    assert (y ∈ neighbours m2 c) as Hy by (rewrite E; by left).
    apply neighbours_adjacent in Hy as Hadj. apply neighbours_walkable in Hy as Hwy.
    destruct (decide (y = next)) as [->|Hyn].
    { by apply (rooms_not_adjacent m c next). }
    destruct (decide (y = mid)) as [->|Hym].
    { destruct Hroom' as (_ & Hr & _).
      destruct (beside_midpoint m cur next c Hcroom Har) as [->| ->].
      - by apply adjacent_sym.
      - by left.
      - by rewrite Hcopen in Hc.
      - apply Hd. by left. }
    rewrite Hw2, Hw1 in Hwy by done.
    assert (y ∈ neighbours m c) as Hin.
    { apply elem_of_neighbours. split; [done|]. by apply around_adjacent. }
    rewrite (Hwalled c Hroom' Hc) in Hin. by apply elem_of_nil in Hin.
Qed.

Lemma carve_perfect choose fuel k m stack m' :
  carving m stack → perfect m → carve fuel choose k m stack = Ok m' → perfect m'.
Proof.
  revert k m stack. induction fuel as [|fuel IH]; intros k m stack Hcv Hpf; [done|].
  destruct (array_pop stack) as [[cur rest]|] eqn:Hpop.
  - rewrite (carve_step _ _ _ _ _ _ _ (cv_wf _ _ Hcv) Hpop).
    apply array_pop_Some in Hpop. subst stack.
    destruct (unvisited2 m cur) as [|x ns] eqn:Hns.
    + apply IH; [by eapply carve_backtracks|done].
    + rewrite <-Hns. cbv zeta.
      destruct (unvisited2 m cur !! (choose k (length (unvisited2 m cur))
                                       `mod` length (unvisited2 m cur))%nat)
        as [next|] eqn:Hnext; [|done].
      apply list_elem_of_lookup_2 in Hnext.
      destruct (carve_opens m _ cur rest next Hcv eq_refl Hnext)
        as (g1 & g2 & H1 & H2 & Hcv' & _).
      res_unfold. rewrite H1, H2. apply IH; [done|].
      by eapply carve_opens_perfect.
  - cbn [carve]. rewrite Hpop. by intros [= <-].
Qed.

(** The grid at the start of the carving loop has one open cell. *)
Lemma perfect_initial m g :
  3 ≤ rows m → 3 ≤ cols m →
  Grid.set (replicate (Z.to_nat (rows m)) (wall_row (cols m))) 1 1 empty = Ok g →
  perfect (with_grid m g).
Proof.
  intros Hr Hc Hg. set (m0 := with_grid m g).
  assert (∀ c, walkable m0 c = true → c = Coord 1 1) as Honly.
  { intros [r k]. rewrite walkable_cell, andb_true_iff, bool_decide_eq_true.
    rewrite (isValid_in_bounds m0 (Coord r k)).
    unfold cell. cbn [with_grid grid row col rows cols m0].
    rewrite (cell_at_set _ _ _ _ _ _ _ Hg), wall_grid_cell.
    intros [Hv Hcell]. rewrite Hv in Hcell. case_decide as Hd; [|done].
    by destruct Hd as [-> ->]. }
  assert (∀ c, neighbours m0 (Coord 1 1) = [] ∧ (room m0 c → neighbours m0 c = [])) as Hnone.
  { intros c. split.
    - destruct (neighbours m0 (Coord 1 1)) as [|y l] eqn:E; [done|]. exfalso.
      assert (y ∈ neighbours m0 (Coord 1 1)) as Hy by (rewrite E; by left).
      apply neighbours_adjacent in Hy as Hadj. apply neighbours_walkable in Hy as Hwy.
      apply Honly in Hwy as ->. unfold adjacent in Hadj. simpl in Hadj. lia.
    - intros Hroom. destruct (neighbours m0 c) as [|y l] eqn:E; [done|]. exfalso.
      assert (y ∈ neighbours m0 c) as Hy by (rewrite E; by left).
      apply neighbours_adjacent in Hy as Hadj. apply neighbours_walkable in Hy as Hwy.
      apply Honly in Hwy as ->. apply (rooms_not_adjacent m0 c (Coord 1 1)); [done| |done].
      split; [|done]. apply interior_spec. cbn [row col rows cols m0 with_grid]. lia. }
  split.
  - assert (∀ s t p, walkable m0 s = true → route m0 s t p → p = [Coord 1 1]) as Hone.
    { intros s t p Hs (Hh & _ & Hlk). apply Honly in Hs as ->.
      destruct p as [|a [|b p]]; simplify_eq/=; [done|]. exfalso.
      destruct Hlk as [Hb _]. rewrite (proj1 (Hnone (Coord 1 1))) in Hb.
      by apply elem_of_nil in Hb. }
    intros s t p p' Hs Hp _ Hp' _. by rewrite (Hone s t p), (Hone s t p').
  - intros c Hroom _. by apply Hnone.
Qed.

(** [generatePerfect] up to its last write, with what the carving loop
    has kept. *)
Lemma generatePerfect_carve_perfect fuel choose m :
  3 ≤ rows m → 3 ≤ cols m → (2 * length (cells m) + 2 ≤ fuel)%nat →
  ∃ m1, generatePerfect fuel choose m
        = (g ← Grid.set (grid m1) (row (end_ m)) (col (end_ m)) empty;
           Ok (with_grid m1 g)) ∧
        carving m1 [] ∧ perfect m1 ∧ rows m1 = rows m ∧ cols m1 = cols m ∧
        start m1 = start m ∧ end_ m1 = end_ m.
Proof.
  intros Hr Hc Hfuel. unfold generatePerfect.
  rewrite (wall_grid_fold (cols m)) by lia. rewrite length_seqZ, app_nil_l.
  destruct (grid_set_Ok (replicate (Z.to_nat (rows m)) (wall_row (cols m))) 1 1 empty)
    as (g & Hg & Hl); [lia|rewrite length_replicate; lia|].
  res_unfold. rewrite Hg.
  pose proof (carving_initial m g Hr Hc Hg) as Hcv.
  pose proof (perfect_initial m g Hr Hc Hg) as Hpf.
  destruct (carve_total choose fuel 0 (with_grid m g) [Coord 1 1] Hcv)
    as (m1 & Hcarve & Hcv1 & Hrows & Hcols & Hst & Hen).
  { assert (walls (with_grid m g) ≤ length (cells m))%nat by apply length_filter.
    cbn [length]. lia. }
  pose proof (carve_perfect _ _ _ _ _ _ Hcv Hpf Hcarve) as Hpf1.
  rewrite Hcarve. exists m1. rewrite Hen. done.
Qed.

(** The maze of [new Maze(rows, cols)] followed by [generatePerfect]
    meets the contract of the searches and has no loops. *)
Lemma generated_perfect_maze fuel choose nrows ncols :
  3 ≤ nrows → 3 ≤ ncols →
  (2 * (Z.to_nat nrows * Z.to_nat ncols) + 2 ≤ fuel)%nat →
  ∃ m', (m ← Maze_new nrows ncols; generatePerfect fuel choose m) = Ok m' ∧
        contract m' ∧ loop_free m'.
Proof.
  intros Hr Hc Hfuel.
  destruct (Maze_new_Ok nrows ncols) as (m & Hm & _ & Hrows0 & Hcols0 & Hs0 & He0); [lia|].
  rewrite Hm. res_unfold.
  destruct (generatePerfect_carve_perfect fuel choose m)
    as (m1 & -> & Hcv & [Hfree _] & Hr1 & Hc1 & Hst & Hen);
    [lia|lia|rewrite length_cells, Hrows0, Hcols0; lia|].
  rewrite He0. cbn [row col]. set (e := Coord (nrows - 2) (ncols - 2)).
  pose proof (cv_wf _ _ Hcv) as Hwf.
  destruct (grid_set_Ok (grid m1) (nrows - 2) (ncols - 2) empty) as (g & Hg & Hlen);
    [lia|unfold wf in Hwf; lia|].
  rewrite Hg. exists (with_grid m1 g). split; [done|].
  set (m' := with_grid m1 g).
  assert (∀ c, c ≠ e → walkable m' c = walkable m1 c) as Hother.
  { intros c Hc'. by apply (walkable_set m1 (grid m1) _ _ g c Hg). }
  assert (walkable m' e = true) as Hwe'.
  { rewrite walkable_cell. apply andb_true_iff. split.
    - apply isValid_iff. cbn [rows cols with_grid m'].
      rewrite Hr1, Hc1, Hrows0, Hcols0. cbn [row col e]. lia.
    - apply bool_decide_eq_true. unfold cell. cbn [with_grid grid m' e row col].
      by rewrite (cell_at_set_same _ _ _ _ _ Hg). }
  assert (walkable m1 (Coord 1 1) = true) as Hw1.
  { rewrite walkable_cell. apply andb_true_iff. split.
    - apply isValid_iff. rewrite Hr1, Hc1, Hrows0, Hcols0. cbn [row col]. lia.
    - apply bool_decide_eq_true. by rewrite (cv_root _ _ Hcv). }
  split.
  { split; [|split].
    - unfold wf. cbn [with_grid grid rows m']. by rewrite Hlen.
    - cbn [start with_grid m']. rewrite Hst, Hs0.
      destruct (decide (Coord 1 1 = e)) as [->|Hne]; [done|]. by rewrite Hother.
    - cbn [end_ with_grid m']. by rewrite Hen, He0. }
  destruct (decide (walkable m1 e = true)) as [Hwe|Hwe].
  { apply (loop_free_ext m1); [|done]. intros c.
    destruct (decide (c = e)) as [->|Hce]; [|by apply Hother]. by rewrite Hwe. }
  apply (loop_free_leaf m1 m' e Hother); [|done].
  assert (∀ y, y ∈ neighbours m' e →
            (y = Coord (nrows - 3) (ncols - 2) ∧ Z.odd ncols = true) ∨
            (y = Coord (nrows - 2) (ncols - 3) ∧ Z.odd nrows = true)) as Hbeside.
  { intros y Hy. apply neighbours_adjacent in Hy as Hadj.
    apply neighbours_walkable in Hy as Hwy.
    assert (y ≠ e) as Hye by (intros ->; unfold adjacent in Hadj; lia).
    rewrite Hother in Hwy by done.
    rewrite walkable_cell, andb_true_iff, bool_decide_eq_true in Hwy.
    destruct Hwy as [Hv Hcell].
    destruct (cv_bits _ _ Hcv y Hv) as [|Hopen]; [done|].
    destruct (cv_shape _ _ Hcv y Hv Hopen) as (Hint & Hodd & Hre & Hce).
    apply interior_spec in Hint. rewrite Hr1, Hc1, Hrows0, Hcols0 in *.
    unfold adjacent, e in Hadj. cbn [row col] in Hadj.
    destruct y as [ry ky]. cbn [row col] in *.
    assert ((ry = nrows - 3 ∧ ky = ncols - 2) ∨ (ry = nrows - 2 ∧ ky = ncols - 3))
      as [[-> ->]|[-> ->]] by lia; [left|right]; (split; [done|]).
    - destruct (Z.odd ncols) eqn:Ho; [done|]. exfalso.
      assert (Z.odd (ncols - 2) = false) as Ho' by (by rewrite Z.odd_sub, Ho).
      specialize (Hce Ho'). lia.
    - destruct (Z.odd nrows) eqn:Ho; [done|]. exfalso.
      assert (Z.odd (nrows - 2) = false) as Ho' by (by rewrite Z.odd_sub, Ho).
      specialize (Hre Ho'). lia. }
  assert (¬ (Z.odd nrows = true ∧ Z.odd ncols = true)) as Hnot.
  { intros [Hor Hoc]. apply Hwe. rewrite walkable_cell. apply andb_true_iff. split.
    - apply isValid_iff. rewrite Hr1, Hc1, Hrows0, Hcols0. cbn [row col e]. lia.
    - apply bool_decide_eq_true. rewrite (rooms_open m1 e Hcv); [done|].
      split; [|split].
      + apply interior_spec. rewrite Hr1, Hc1, Hrows0, Hcols0. cbn [row col e]. lia.
      + cbn [row e]. by rewrite Z.odd_sub, Hor.
      + cbn [col e]. by rewrite Z.odd_sub, Hoc. }
  intros a b Ha Hb.
  destruct (Hbeside a Ha) as [[-> ?]|[-> ?]], (Hbeside b Hb) as [[-> ?]|[-> ?]];
    try done; exfalso; by apply Hnot.
Qed.

End carving_without_loops.

(** X20: a maze built by [new Maze(rows, cols)] with both dimensions at
    least 3 and then regenerated by [generatePerfect] has no loops,
    whatever the random draws: between any two of its cells there is at
    most one walkable route that passes no cell twice. *)
Theorem perfect_maze_has_no_loops
    (fuel : nat) (choose : nat → nat → nat) (nrows ncols : Z) :
  3 ≤ nrows → 3 ≤ ncols →
  (2 * (Z.to_nat nrows * Z.to_nat ncols) + 2 ≤ fuel)%nat →
  ∃ m', (m ← Maze_new nrows ncols; generatePerfect fuel choose m) = Ok m' ∧
        ∀ s t p p',
          walkable_route m' s t p → NoDup p →
          walkable_route m' s t p' → NoDup p' → p = p'.
Proof.
  intros Hr Hc Hfuel.
  destruct (generated_perfect_maze fuel choose nrows ncols Hr Hc Hfuel)
    as (m' & Hm' & _ & Hfree).
  exists m'. split; [done|].
  intros s t p p' Hp Hnd Hp' Hnd'.
  assert (walkable m' s = true) as Hs.
  { destruct Hp as (Hh & _ & Hw & _). apply Hw. by apply head_Some_elem_of. }
  apply (Hfree s t); [done| |done| |done]; by apply walkable_route_linked.
Qed.

(** The 5 x 5 maze carved with every draw taking the first choice. *)
Lemma perfect_maze_has_no_loops_witness :
  ∃ m', (m ← Maze_new 5 5; generatePerfect 52 (λ k n, k) m) = Ok m' ∧
        ∀ s t p p',
          walkable_route m' s t p → NoDup p →
          walkable_route m' s t p' → NoDup p' → p = p'.
Proof.
  apply (perfect_maze_has_no_loops 52 (λ k n, k) 5 5).
  - lia.
  - lia.
  - vm_compute; lia.
Defined.

(** X21: on a maze built by [new Maze(rows, cols)] and regenerated by
    [generatePerfect], all searches return the same path: whichever two
    of them are run, with whatever fuel, the paths they return are equal
    cell by cell. *)
Theorem searches_agree_on_perfect_maze
    (fuel : nat) (choose : nat → nat → nat) (nrows ncols : Z) :
  3 ≤ nrows → 3 ≤ ncols →
  (2 * (Z.to_nat nrows * Z.to_nat ncols) + 2 ≤ fuel)%nat →
  ∃ m', (m ← Maze_new nrows ncols; generatePerfect fuel choose m) = Ok m' ∧
        ∀ a a' n n' r r' m1 m2 p p',
          run a n m' = Ok (r, m1) → run a' n' m' = Ok (r', m2) →
          path r = Some p → path r' = Some p' → p = p'.
Proof.
  intros Hr Hc Hfuel.
  destruct (generated_perfect_maze fuel choose nrows ncols Hr Hc Hfuel)
    as (m' & Hm' & (Hwf & Hs & He) & Hfree).
  exists m'. split; [done|].
  intros a a' n n' r r' m1 m2 p p' Hrun Hrun' Hp Hp'.
  pose proof (run_sound m' Hwf Hs He a n r m1 Hrun) as Hsound.
  pose proof (run_sound m' Hwf Hs He a' n' r' m2 Hrun') as Hsound'.
  unfold sound_result in Hsound, Hsound'. rewrite Hp in Hsound. rewrite Hp' in Hsound'.
  apply (Hfree (start m') (end_ m')); [done|apply Hsound| |apply Hsound'|].
  - by apply (run_NoDup m' Hwf Hs He a n r m1 p).
  - by apply (run_NoDup m' Hwf Hs He a' n' r' m2 p').
Qed.

(** DFS and BFS on the 5 x 7 maze carved with every draw taking the
    first choice. *)
Lemma searches_agree_on_perfect_maze_witness :
  ∃ m', (m ← Maze_new 5 7; generatePerfect 72 (λ k n, k) m) = Ok m' ∧
        ∀ r r' m1 m2 p p',
          run DFS 200 m' = Ok (r, m1) → run BFS 200 m' = Ok (r', m2) →
          path r = Some p → path r' = Some p' → p = p'.
Proof.
  destruct (searches_agree_on_perfect_maze 72 (λ k n, k) 5 7) as (m' & Hm' & H).
  - lia.
  - lia.
  - vm_compute; lia.
  - exists m'. split; [exact Hm'|]. intros r r' m1 m2 p p'. apply H.
Defined.

(** ** Small and malformed sizes *)

Section small_sizes.
Implicit Types (m : Maze).

(** With two rows, or with fewer than three columns, no cell two steps
    from (1,1) lies inside the border. *)
Lemma unvisited2_small m :
  rows m ≤ 2 ∨ cols m ≤ 2 → unvisited2 m (Coord 1 1) = [].
Proof.
  intros Hsmall. destruct (unvisited2 m (Coord 1 1)) as [|x l] eqn:E; [done|]. exfalso.
  assert (x ∈ unvisited2 m (Coord 1 1)) as Hx by (rewrite E; by left).
  apply elem_of_unvisited2 in Hx as (Hint & _ & Har).
  apply around2_cases in Har. apply interior_spec in Hint. cbn [row col] in Har. lia.
Qed.

Lemma generatePerfect_small fuel choose m :
  2 ≤ rows m → 0 ≤ cols m → rows m ≤ 2 ∨ cols m ≤ 2 →
  0 ≤ row (end_ m) < rows m → (2 ≤ fuel)%nat →
  ∃ m', generatePerfect fuel choose m = Ok m' ∧ rows m' = rows m ∧ cols m' = cols m.
Proof.
  intros Hr Hc Hsmall He Hfuel. unfold generatePerfect.
  rewrite (wall_grid_fold (cols m)) by lia. rewrite length_seqZ, app_nil_l.
  destruct (grid_set_Ok (replicate (Z.to_nat (rows m)) (wall_row (cols m))) 1 1 empty)
    as (g & Hg & Hl); [lia|rewrite length_replicate; lia|].
  res_unfold. rewrite Hg. rewrite length_replicate in Hl.
  destruct fuel as [|[|fuel]]; [lia..|].
  rewrite (carve_step _ _ _ _ _ (Coord 1 1) []); [|done|done].
  rewrite (unvisited2_small (with_grid m g)) by done.
  cbn [carve array_pop reverse]. rewrite (proj2 (array_pop_None [])) by done.
  destruct (grid_set_Ok g (row (end_ m)) (col (end_ m)) empty) as (g' & Hg' & _); [lia..|].
  cbn [with_grid grid end_]. rewrite Hg'. by eexists.
Qed.

End small_sizes.



(** ** Dijkstra with unit costs is breadth-first search *)

(** What relates the queue, the visited set of [bfs] to the priority
    queue, the distances and the visited set of [dijkstra] while the
    cells at distance [D] are expanded: the same cells wait in the same
    order, a cell has a distance exactly when [bfs] has marked it, the
    waiting cells are at distance [D] or [D + 1], no distance is larger,
    and no waiting cell has been expanded. *)
Record in_step (D : Z) (queue : list coord) (visited expanded : gset string)
    (distances : gmap string jsnum)
    (es : list (PriorityQueue.entry coord)) : Prop := {
  st_items : PriorityQueue.item <$> es = queue;
  st_dom : ∀ k, is_Some (distances !! k) ↔ k ∈ visited;
  st_bound : ∀ k z, distances !! k = Some z → ∃ d, z = JInt d ∧ d ≤ D + 1;
  st_entries : ∀ e, e ∈ es →
    ∃ d, PriorityQueue.priority e = JInt d ∧ D ≤ d ∧
         distances !! key (PriorityQueue.item e) = Some (JInt d);
  st_sorted : nondecreasing es;
  st_keys : NoDup (key <$> queue);
  st_closed : expanded ⊆ visited;
  st_open : ∀ c, c ∈ queue → key c ∉ expanded
}.

Section dijkstra_is_bfs.
Import PathfindingAlgorithms PriorityQueue.
Implicit Types (es : list (entry coord)) (e : entry coord).

(** Sorting changes nothing in an array that is in order. *)
Lemma array_sort_sorted es : nondecreasing es → array_sort compare es = es.
Proof.
  induction es as [|e es IH]; [done|]. intros [He Hnd].
  cbn [array_sort foldr]. fold (array_sort (@compare coord) es). rewrite IH by done.
  destruct es as [|y es]; [done|]. cbn [sort_insert].
  destruct (JSNum.lt (compare y e) (JInt 0)) eqn:Hlt; [|done].
  exfalso. apply (He y); [by left|done].
Qed.

Lemma nondecreasing_snoc es e :
  nondecreasing es → (∀ e', e' ∈ es → ¬ prec (priority e) (priority e')) →
  nondecreasing (es ++ [e]).
Proof.
  induction es as [|y es IH]; intros Hnd Hle.
  - split; [|done]. by intros ? ?%elem_of_nil.
  - destruct Hnd as [Hy Hnd]. split.
    + intros e' [He'|He']%elem_of_app; [by apply Hy|].
      apply list_elem_of_singleton in He' as ->. apply Hle. by left.
    + apply IH; [done|]. intros e' He'. apply Hle. by right.
Qed.

(** One neighbour: [dijkstra] enqueues it, at the end of its queue,
    exactly when [bfs] does. *)
Lemma relax_is_discover D current queue visited expanded distances parent es nb :
  in_step D queue visited expanded distances es →
  distances !! key current = Some (JInt D) →
  ∃ queue' visited' distances' parent' es',
    discover array_push current (queue, visited, parent) nb = (queue', visited', parent') ∧
    relax_dijkstra current (distances, parent, Build es) nb
      = (distances', parent', Build es') ∧
    in_step D queue' visited' expanded distances' es' ∧
    distances' !! key current = Some (JInt D).
Proof.
  intros Hst Hcur. unfold discover, relax_dijkstra. rewrite Hcur.
  cbn [JSNum.of_lookup default from_option id JSNum.add].
  destruct (decide (key nb ∈ visited)) as [Hin|Hnin].
  - apply (st_dom _ _ _ _ _ _ Hst) in Hin as Hsome. destruct Hsome as [z Hz].
    destruct (st_bound _ _ _ _ _ _ Hst _ _ Hz) as (d & -> & Hd).
    rewrite Hz. rewrite (bool_decide_eq_true_2 (is_Some (Some (JInt d)))) by eauto.
    cbn [negb orb JSNum.of_lookup default from_option id JSNum.add JSNum.lt].
    rewrite bool_decide_eq_false_2 by lia.
    by exists queue, visited, distances, parent, es.
  - assert (distances !! key nb = None) as Hnone.
    { apply eq_None_not_Some. by rewrite (st_dom _ _ _ _ _ _ Hst). }
    rewrite Hnone. rewrite (bool_decide_eq_false_2 (is_Some None)) by (by intros [??]).
    cbn [negb orb JSNum.of_lookup default from_option id JSNum.add].
    unfold enqueue, array_push. cbn [values].
    set (e := Entry nb (JInt (D + 1))).
    assert (nondecreasing (es ++ [e])) as Hnd.
    { apply nondecreasing_snoc; [apply Hst|]. intros e' He'.
      destruct (st_entries _ _ _ _ _ _ Hst e' He') as (d & Hp & _ & Hd).
      destruct (st_bound _ _ _ _ _ _ Hst _ _ Hd) as (d' & [= <-] & Hle).
      rewrite Hp. cbn [priority e]. rewrite prec_int. lia. }
    rewrite (array_sort_sorted _ Hnd).
    eexists _, _, _, _, _. split; [done|]. split; [done|]. split.
    + split.
      * rewrite fmap_app. by rewrite (st_items _ _ _ _ _ _ Hst).
      * intros k. rewrite lookup_insert_is_Some, elem_of_union, elem_of_singleton.
        rewrite <-(st_dom _ _ _ _ _ _ Hst).
        destruct (decide (key nb = k)) as [->|]; naive_solver.
      * intros k z. destruct (decide (k = key nb)) as [->|Hk].
        -- rewrite lookup_insert_eq. intros [= <-]. exists (D + 1). split; [done|lia].
        -- rewrite lookup_insert_ne by done. apply Hst.
      * intros e' [He'|He']%elem_of_app; [|apply list_elem_of_singleton in He' as ->].
        -- destruct (st_entries _ _ _ _ _ _ Hst e' He') as (d & Hp & HD & Hd).
           exists d. split; [done|]. split; [done|].
           rewrite lookup_insert_ne; [done|]. intros E. rewrite <-E, Hnone in Hd. done.
        -- exists (D + 1). split; [done|]. split; [lia|]. cbn [item e].
           by rewrite lookup_insert_eq.
      * done.
      * rewrite fmap_app. apply NoDup_app. split; [apply Hst|]. split.
        -- intros k Hk Hk'. apply list_elem_of_singleton in Hk' as ->. apply Hnin.
           apply list_elem_of_fmap in Hk as (c & Hkc & Hc).
           rewrite <-(st_items _ _ _ _ _ _ Hst) in Hc.
           apply list_elem_of_fmap in Hc as (e' & -> & He').
           destruct (st_entries _ _ _ _ _ _ Hst e' He') as (d & _ & _ & Hd).
           apply (st_dom _ _ _ _ _ _ Hst). rewrite Hkc. eauto.
        -- apply NoDup_singleton.
      * pose proof (st_closed _ _ _ _ _ _ Hst). set_solver.
      * intros c [Hc|Hc]%elem_of_app; [by apply Hst|].
        apply list_elem_of_singleton in Hc as ->. intros Hexp. apply Hnin. by apply (st_closed _ _ _ _ _ _ Hst).
    + rewrite lookup_insert_ne; [done|]. intros E. rewrite <-E, Hnone in Hcur. done.
Qed.

Lemma relax_all_is_discover_all D current nbs :
  ∀ queue visited expanded distances parent es,
  in_step D queue visited expanded distances es →
  distances !! key current = Some (JInt D) →
  ∃ queue' visited' distances' parent' es',
    foldl (discover array_push current) (queue, visited, parent) nbs
      = (queue', visited', parent') ∧
    foldl (relax_dijkstra current) (distances, parent, Build es) nbs
      = (distances', parent', Build es') ∧
    in_step D queue' visited' expanded distances' es'.
Proof.
  induction nbs as [|nb nbs IH]; intros queue visited expanded distances parent es Hst Hcur.
  - by exists queue, visited, distances, parent, es.
  - destruct (relax_is_discover D current queue visited expanded distances parent es nb
                Hst Hcur) as (q1 & v1 & d1 & p1 & es1 & Hd & Hr & Hst1 & Hcur1).
    cbn [foldl]. rewrite Hd, Hr. by apply IH.
Qed.

Lemma dijkstra_loop_is_bfs_loop rfuel fuel m :
  ∀ D queue visited expanded distances parent es n,
  in_step D queue visited expanded distances es →
  dijkstra_loop rfuel fuel m distances parent expanded (Build es) n
  = bfs_loop rfuel fuel m queue visited parent n.
Proof.
  induction fuel as [|fuel IH];
    intros D queue visited expanded distances parent es n Hst; [done|].
  cbn [dijkstra_loop bfs_loop]. unfold isEmpty, dequeue. cbn [values].
  pose proof (st_items _ _ _ _ _ _ Hst) as Hitems.
  destruct es as [|e es]; cbn [fmap list_fmap] in Hitems; subst queue; [done|].
  cbn [length array_shift]. rewrite bool_decide_eq_false_2 by done.
  set (current := item e).
  destruct (st_entries _ _ _ _ _ _ Hst e) as (dc & Hpc & HD & Hdc); [by left|].
  rewrite decide_False by (apply (st_open _ _ _ _ _ _ Hst); by left).
  destruct (same_cell current (end_ m)); [done|].
  destruct (getNeighbors m (row current) (col current)) as [nbs| |]; [|done..].
  unfold mbind, res_mbind, res_bind.
  assert (in_step dc (item <$> es) visited (expanded ∪ {[key current]}) distances es) as Hst'.
  { pose proof (st_sorted _ _ _ _ _ _ Hst) as [Hhead Hnd].
    pose proof (st_keys _ _ _ _ _ _ Hst) as Hkeys. cbn [fmap list_fmap] in Hkeys.
    apply NoDup_cons in Hkeys as [Hfresh Hkeys]. split.
    - done.
    - apply Hst.
    - intros k z Hz. destruct (st_bound _ _ _ _ _ _ Hst _ _ Hz) as (d & -> & Hd).
      exists d. split; [done|lia].
    - intros e' He'.
      destruct (st_entries _ _ _ _ _ _ Hst e') as (d & Hp & _ & Hd); [by right|].
      exists d. split; [done|]. split; [|done].
      specialize (Hhead e' He'). rewrite Hp, Hpc, prec_int in Hhead. lia.
    - done.
    - done.
    - pose proof (st_closed _ _ _ _ _ _ Hst).
      assert (key current ∈ visited) by (apply (st_dom _ _ _ _ _ _ Hst); eauto).
      set_solver.
    - intros c Hc. rewrite elem_of_union, elem_of_singleton. intros [Hexp|Hk].
      + apply (st_open _ _ _ _ _ _ Hst c); [by right|done].
      + apply Hfresh. unfold current in Hk. rewrite <-Hk. by apply list_elem_of_fmap_2. }
  destruct (relax_all_is_discover_all dc current nbs _ _ _ _ parent _ Hst' Hdc)
    as (q1 & v1 & d1 & p1 & es1 & -> & -> & Hst1).
  by apply (IH dc).
Qed.

End dijkstra_is_bfs.

(** X23: with every move costing 1, [dijkstra] is [bfs]: on every maze,
    well-formed or not, and stopped after any number of turns, the two
    calls end the same way and return the same result, the same path and
    the same count of explored nodes included. *)
Theorem dijkstra_is_bfs (fuel : nat) (m : Maze) :
  PathfindingAlgorithms.dijkstra fuel m = PathfindingAlgorithms.bfs fuel m.
Proof.
  unfold PathfindingAlgorithms.dijkstra, PathfindingAlgorithms.bfs.
  rewrite enqueue_new. apply (dijkstra_loop_is_bfs_loop fuel fuel m 0). split.
  - done.
  - intros k. rewrite lookup_singleton_is_Some, elem_of_singleton. naive_solver.
  - intros k z [<- <-]%lookup_singleton_Some. exists 0. split; [done|lia].
  - intros e He. apply list_elem_of_singleton in He as ->. exists 0. split; [done|]. split; [lia|].
    cbn [PriorityQueue.item]. by rewrite lookup_singleton_eq.
  - split; [|done]. by intros ? ?%elem_of_nil.
  - cbn [fmap list_fmap]. apply NoDup_singleton.
  - set_solver.
  - intros c _. set_solver.
Qed.

(** ** The path and the count of explored nodes *)

Section frontier_lengths.
Import PathfindingAlgorithms.
Context {F : Type}.
Variable pop : F → option (coord * F).
Variable push : F → coord → F.
Variable elems : F → list coord.
Hypothesis pop_None : ∀ f, pop f = None → elems f = [].
Hypothesis pop_Some : ∀ f c f', pop f = Some (c, f') → elems f ≡ₚ c :: elems f'.
Hypothesis push_elems : ∀ f c, elems (push f c) ≡ₚ c :: elems f.
Variable m : Maze.
Hypothesis Hwf : wf m.
Variable opt : bool.

Lemma search_loop_length rfuel fuel d f v par n r m' p :
  explored m (start m) d None (elems f) v par → unfinished m (elems f) v →
  Z.of_nat d ≤ n →
  search_loop pop push m opt rfuel fuel f v par n = Ok (r, m') →
  path r = Some p → Z.of_nat (length p) ≤ nodesExplored r.
Proof.
  revert d f v par n. induction fuel as [|fuel IH]; intros d f v par n Hex Hun Hd; simpl;
    [done|].
  pose proof (search_turn pop push elems pop_None pop_Some push_elems m d f v par Hex Hun)
    as Hturn.
  destruct (pop f) as [[cur f1]|] eqn:Hpop; [|by intros [= <- <-]].
  destruct (same_cell cur (end_ m)).
  - destruct Hturn as (p0 & Hp & Hlp & Hlen). res_unfold.
    destruct (reconstructPath _ _ _ _) as [p'| |] eqn:Hrec; [|done..].
    intros [= <- <-]. unfold reconstructPath in Hrec.
    apply (chain_reconstruct_inv _ _ _ p0) in Hrec; [|done].
    rewrite app_nil_r in Hrec. subst p'. cbn [path nodesExplored]. intros [= <-]. lia.
  - rewrite getNeighbors_coord by done. res_unfold.
    destruct Hturn as (f' & v' & par' & Hfold & Hex' & Hun' & _). rewrite Hfold.
    apply (IH (S d)); [done|done|lia].
Qed.

End frontier_lengths.

Section relaxing_lengths.
Import PathfindingAlgorithms PriorityQueue.
Variable m : Maze.
Hypothesis Hwf : wf m.
Hypothesis Hstart : walkable m (start m) = true.
Variable prio : coord → jsnum → jsnum.
Variable lbl : option string.

Lemma relax_loop_length rfuel fuel d pq g v par n r m' p :
  relaxed m (start m) d None (pq_items pq) g v par → unfinished_relax m v →
  Z.of_nat d ≤ n →
  relax_loop m prio lbl rfuel fuel g par v pq n = Ok (r, m') →
  path r = Some p → Z.of_nat (length p) ≤ nodesExplored r.
Proof.
  revert d pq g v par n. induction fuel as [|fuel IH]; intros d pq g v par n Hrx Hun Hd;
    simpl; [done|].
  pose proof (relax_turn m Hwf Hstart prio d pq g v par Hrx Hun) as Hturn.
  unfold isEmpty, dequeue. destruct pq as [[|e rest]]; simpl in *.
  { by intros [= <- <-]. }
  destruct (decide (key (item e) ∈ v)) as [Hv|Hv]; [by apply (IH d)|].
  destruct (same_cell (item e) (end_ m)).
  - destruct Hturn as (p0 & Hp & Hlp & Hlen). res_unfold.
    destruct (reconstructPath _ _ _ _) as [p'| |] eqn:Hrec; [|done..].
    intros [= <- <-]. unfold reconstructPath in Hrec.
    apply (chain_reconstruct_inv _ _ _ p0) in Hrec; [|done].
    rewrite app_nil_r in Hrec. subst p'. cbn [path nodesExplored]. intros [= <-]. lia.
  - rewrite getNeighbors_coord by done. res_unfold.
    destruct Hturn as (g' & par' & pq' & -> & Hrx' & Hun' & _).
    apply (IH (S d)); [done|done|lia].
Qed.

End relaxing_lengths.

Section bidirectional_lengths.
Import PathfindingAlgorithms.
Variable m : Maze.
Hypothesis Hwf : wf m.
Hypothesis Hstart : walkable m (start m) = true.
Hypothesis Hend : walkable m (end_ m) = true.

(** The chains of the two sides that end in a cell both have marked. *)
Lemma meeting_chains dS dE qS qE vS vE pS pE c rfuel p :
  explored m (start m) dS None qS vS pS → explored m (end_ m) dE None qE vE pE →
  key c ∈ vS → key c ∈ vE →
  reconstructBidirectionalPath rfuel pS pE (start m) c (end_ m) = Ok p →
  (S (length p) ≤ S dS + S dE)%nat.
Proof.
  intros HS HE HcS HcE Hrec.
  destruct (ex_chain _ _ _ _ _ _ _ HS _ HcS) as (c1 & p1 & Hk1 & _ & H1 & _ & Hlen1).
  apply key_inj in Hk1 as ->.
  destruct (ex_chain _ _ _ _ _ _ _ HE _ HcE) as (c2 & p2 & Hk2 & _ & H2 & _ & Hlen2).
  apply key_inj in Hk2 as ->.
  apply (reconstruct_bidirectional_inv _ _ _ _ _ _ p1 p2) in Hrec;
    [|done|done|by eapply ex_root].
  subst p. rewrite (joined_length _ _ _ _ _ _ _ H1 H2). lia.
Qed.

Lemma bidirectional_loop_length rfuel fuel d kS kE qS qE vS vE pS pE δS δE n r m' p :
  bidir_inv m d kS kE qS qE vS vE pS pE δS δE →
  2 * Z.of_nat d ≤ n →
  bidirectional_loop rfuel fuel m qS qE vS vE pS pE n = Ok (r, m') →
  path r = Some p → Z.of_nat (length p) ≤ nodesExplored r.
Proof.
  revert d kS kE qS qE vS vE pS pE δS δE n.
  induction fuel as [|fuel IH]; intros d kS kE qS qE vS vE pS pE δS δE n Hinv Hd; simpl;
    [done|].
  destruct qS as [|cS qS1]; [by intros [= <- <-]|].
  destruct qE as [|cE qE1]; [by intros [= <- <-]|].
  simpl.
  pose proof (bi_fwd _ _ _ _ _ _ _ _ _ _ _ _ Hinv) as HS.
  pose proof (bi_bwd _ _ _ _ _ _ _ _ _ _ _ _ Hinv) as HE.
  destruct (bidirectional_turn _ _ _ _ _ _ _ _ _ _ _ _ _ _ Hinv) as
    [HcS|qS' vS' pS' kS' kE' δS' δE' HcS HfoldS Hmid HcE
        |qS' vS' pS' qE' vE' pE' kS' kE' δS' δE' HcS HfoldS HcE HfoldE Hinv' _].
  - rewrite decide_True by done. res_unfold.
    destruct (reconstructBidirectionalPath _ _ _ _ _ _) as [p0| |] eqn:Hrec; [|done..].
    intros [= <- <-]. cbn [path nodesExplored]. intros [= <-].
    pose proof (meeting_chains d d _ _ _ _ _ _ cS rfuel p0 HS HE) as Hlen.
    assert (key cS ∈ vS) as Hin by (eapply ex_frontier; [done|by left]).
    specialize (Hlen Hin HcS Hrec). lia.
  - rewrite decide_False by done. rewrite !getNeighbors_coord by done. res_unfold.
    rewrite HfoldS. rewrite decide_True by done.
    destruct (reconstructBidirectionalPath _ _ _ _ _ _) as [p0| |] eqn:Hrec; [|done..].
    intros [= <- <-]. cbn [path nodesExplored]. intros [= <-].
    pose proof (bi_fwd _ _ _ _ _ _ _ _ _ _ _ _ Hmid) as HS'.
    pose proof (meeting_chains (S d) d _ _ _ _ _ _ cE rfuel p0 HS' HE) as Hlen.
    assert (key cE ∈ vE) as Hin by (eapply ex_frontier; [done|by left]).
    specialize (Hlen HcE Hin Hrec). lia.
  - rewrite decide_False by done. rewrite !getNeighbors_coord by done. res_unfold.
    rewrite HfoldS. rewrite decide_False by done. rewrite HfoldE.
    apply (IH (S d) _ _ _ _ _ _ _ _ _ _ _ Hinv'). lia.
Qed.

End bidirectional_lengths.

Section run_lengths.
Import PathfindingAlgorithms PriorityQueue.
Variable m : Maze.
Hypothesis Hwf : wf m.
Hypothesis Hstart : walkable m (start m) = true.
Hypothesis Hend : walkable m (end_ m) = true.

Lemma run_length a fuel r m' p :
  run a fuel m = Ok (r, m') → path r = Some p →
  Z.of_nat (length p) ≤ nodesExplored r.
Proof.
  intros Hrun. destruct a; unfold run in Hrun.
  - unfold dfs in Hrun. rewrite dfs_loop_generic in Hrun.
    destruct (search_initial array_pop array_push id array_pop_nil array_pop_perm
                array_push_perm m Hwf Hstart [start m] eq_refl) as [Hex Hun].
    by apply (search_loop_length array_pop array_push id array_pop_nil array_pop_perm
                array_push_perm m Hwf false _ _ _ _ _ _ _ _ _ _ Hex Hun (Z.le_refl 0) Hrun).
  - unfold bfs in Hrun. rewrite bfs_loop_generic in Hrun.
    destruct (search_initial array_shift array_push id array_shift_nil array_shift_perm
                array_push_perm m Hwf Hstart [start m] eq_refl) as [Hex Hun].
    by apply (search_loop_length array_shift array_push id array_shift_nil array_shift_perm
                array_push_perm m Hwf true _ _ _ _ _ _ _ _ _ _ Hex Hun (Z.le_refl 0) Hrun).
  - unfold dijkstra in Hrun. rewrite dijkstra_loop_generic in Hrun.
    destruct (relax_initial m Hstart (JInt 0)) as [Hrx Hun].
    by apply (relax_loop_length m Hwf Hstart _ _ _ _ _ _ _ _ _ _ _ _ _ Hrx Hun
                (Z.le_refl 0) Hrun).
  - unfold astar in Hrun. rewrite astar_loop_generic in Hrun.
    set (p0 := JSNum.of_lookup _) in Hrun.
    destruct (relax_initial m Hstart p0) as [Hrx Hun].
    by apply (relax_loop_length m Hwf Hstart _ _ _ _ _ _ _ _ _ _ _ _ _ Hrx Hun
                (Z.le_refl 0) Hrun).
  - unfold greedy in Hrun. rewrite greedy_loop_generic in Hrun.
    destruct (search_initial pq_pop (greedy_push m) pq_items pq_pop_nil pq_pop_perm
                (greedy_push_perm m) m Hwf Hstart
                (enqueue new (start m) (manhattanDistance (start m) (end_ m))) eq_refl)
      as [Hex Hun].
    by apply (search_loop_length pq_pop (greedy_push m) pq_items pq_pop_nil pq_pop_perm
                (greedy_push_perm m) m Hwf false _ _ _ _ _ _ _ _ _ _ Hex Hun
                (Z.le_refl 0) Hrun).
  - unfold bidirectional in Hrun. intros Hp.
    eapply (bidirectional_loop_length m Hwf);
      [apply (bidir_initial m Hwf Hstart Hend)| |exact Hrun|exact Hp].
    simpl. lia.
Qed.

End run_lengths.

(** X24: on a maze whose start and goal are walkable, the path a search
    returns has at least one cell and no more cells than the search
    reports as explored. *)
Theorem path_no_longer_than_nodes_explored
    (a : algorithm) (fuel : nat) (m m' : Maze) (r : Result) (p : list coord) :
  wf m → walkable m (start m) = true → walkable m (end_ m) = true →
  run a fuel m = Ok (r, m') → path r = Some p →
  1 ≤ Z.of_nat (length p) ≤ nodesExplored r.
Proof.
  intros Hwf Hs He Hrun Hp. split; [|by eapply run_length].
  pose proof (run_sound m Hwf Hs He a fuel r m' Hrun) as Hsound.
  unfold sound_result in Hsound. rewrite Hp in Hsound.
  destruct Hsound as [(Hh & _) _]. destruct p; [done|]. cbn [length]. lia.
Qed.

Lemma path_no_longer_than_nodes_explored_witness :
  ∃ r m' p, run Bidirectional 133 demo_maze = Ok (r, m') ∧ path r = Some p ∧
            1 ≤ Z.of_nat (length p) ≤ nodesExplored r.
Proof.
  eexists _, _, _. split; [vm_compute; reflexivity|]. split; [reflexivity|].
  eapply (path_no_longer_than_nodes_explored Bidirectional 133 demo_maze).
  - vm_compute; reflexivity.
  - vm_compute; reflexivity.
  - vm_compute; reflexivity.
  - vm_compute; reflexivity.
  - reflexivity.
Defined.

(** ** The start cell is never read *)

(** What a call hands back, without the maze. *)
Definition outcome (x : res (Result * Maze)) : res Result :=
  '(r, _) ← x; Ok r.

(** What the relaxing searches keep true of the scores: the start has
    score 0, every score is a natural number, and every queued cell has
    one. *)
Definition scores_ok (s : coord) (g : gmap string jsnum)
    (pq : PriorityQueue.t coord) : Prop :=
  g !! key s = Some (JInt 0) ∧
  (∀ k x, g !! k = Some x → ∃ z, x = JInt z ∧ 0 ≤ z) ∧
  (∀ e, e ∈ PriorityQueue.values pq → is_Some (g !! key (PriorityQueue.item e))).

Section skipping.
Import PathfindingAlgorithms PriorityQueue.
Variable s : coord.

Lemma filter_agree {A} (P : A → Prop) `{!∀ x, Decision (P x)} (f g : A → bool) (l : list A) :
  (∀ x, P x → f x = g x) →
  filter P (filter (λ x, f x) l) = filter P (filter (λ x, g x) l).
Proof.
  intros Hfg. induction l as [|a l IH]; [done|].
  rewrite (filter_cons (λ x, f x)), (filter_cons (λ x, g x)).
  destruct (decide (P a)) as [Ha|Ha].
  - rewrite <-(Hfg a Ha). destruct (decide (f a)); [|done].
    by rewrite !(filter_cons P a), IH.
  - destruct (decide (f a)), (decide (g a));
      rewrite ?(filter_cons P a), ?decide_False by done; done.
Qed.

(** A marked neighbour changes nothing. *)
Lemma discover_fold_skip {F} (push : F → coord → F) cur (l : list coord) :
  ∀ f v par, key s ∈ v →
  foldl (discover push cur) (f, v, par) l
  = foldl (discover push cur) (f, v, par) (filter (λ x, x ≠ s) l).
Proof.
  induction l as [|x l IH]; intros f v par Hs; [done|].
  rewrite filter_cons. destruct (decide (x ≠ s)) as [Hx|Hx].
  - cbn [foldl]. unfold discover at 2 4. case_decide; [by apply IH|].
    apply IH. set_solver.
  - apply dec_stable in Hx as ->. cbn [foldl]. unfold discover at 2.
    rewrite decide_True by done. by apply IH.
Qed.

Lemma discover_fold_keeps {F} (push : F → coord → F) cur (l : list coord) :
  ∀ f v par f' v' par', key s ∈ v →
  foldl (discover push cur) (f, v, par) l = (f', v', par') → key s ∈ v'.
Proof.
  induction l as [|x l IH]; intros f v par f' v' par' Hs; cbn [foldl].
  - by intros [= _ <- _].
  - unfold discover at 2. case_decide; [by apply IH|]. apply IH. set_solver.
Qed.

(** The start as a neighbour: its score is not improved on. *)
Lemma relax_start prio cur g par pq :
  scores_ok s g pq → is_Some (g !! key cur) →
  relax prio cur (g, par, pq) s = (g, par, pq).
Proof.
  intros (Hs & Hint & _) [x Hx]. destruct (Hint _ _ Hx) as (z & -> & Hz).
  unfold relax. rewrite Hx, Hs.
  rewrite (bool_decide_eq_true_2 (is_Some (Some (JInt 0)))) by eauto.
  cbn [negb orb JSNum.of_lookup default from_option id JSNum.add JSNum.lt].
  by rewrite bool_decide_eq_false_2 by lia.
Qed.

Lemma relax_other prio cur g par pq nb g' par' pq' :
  scores_ok s g pq → is_Some (g !! key cur) → nb ≠ s →
  relax prio cur (g, par, pq) nb = (g', par', pq') →
  scores_ok s g' pq' ∧ is_Some (g' !! key cur).
Proof.
  intros (Hs & Hint & Hpq) [x Hx] Hnb. destruct (Hint _ _ Hx) as (z & -> & Hz).
  unfold relax. rewrite Hx.
  cbn [JSNum.of_lookup default from_option id JSNum.add].
  destruct (negb _ || _); intros [= <- <- <-]; [|by eauto].
  assert (key nb ≠ key s) as Hk by (intros ?%key_inj; done).
  split; [split; [|split]|].
  - by rewrite lookup_insert_ne.
  - intros k y. destruct (decide (k = key nb)) as [->|Hne].
    + rewrite lookup_insert_eq. intros [= <-]. exists (z + 1). split; [done|lia].
    + rewrite lookup_insert_ne by done. apply Hint.
  - intros e. unfold enqueue, array_push. cbn [values]. rewrite array_sort_perm.
    intros [He|He]%elem_of_app.
    + rewrite lookup_insert_is_Some. destruct (decide (key nb = key (item e))); auto.
    + apply list_elem_of_singleton in He as ->. cbn [item]. rewrite lookup_insert_eq. eauto.
  - rewrite lookup_insert_is_Some. destruct (decide (key nb = key cur)); eauto.
Qed.

Lemma relax_fold_skip prio cur (l : list coord) :
  ∀ g par pq g' par' pq', scores_ok s g pq → is_Some (g !! key cur) →
  foldl (relax prio cur) (g, par, pq) (filter (λ x, x ≠ s) l) = (g', par', pq') →
  foldl (relax prio cur) (g, par, pq) l = (g', par', pq') ∧ scores_ok s g' pq'.
Proof.
  induction l as [|x l IH]; intros g par pq g' par' pq' Hok Hcur.
  - by intros [= <- <- <-].
  - rewrite filter_cons. destruct (decide (x ≠ s)) as [Hx|Hx].
    + cbn [foldl].
      destruct (relax prio cur (g, par, pq) x) as [[g1 par1] pq1] eqn:Hstep.
      destruct (relax_other prio cur g par pq x g1 par1 pq1 Hok Hcur Hx Hstep) as [Hok1 Hcur1].
      by apply IH.
    + apply dec_stable in Hx as ->. cbn [foldl]. rewrite relax_start by done. by apply IH.
Qed.

End skipping.

Section start_cell.
Import PathfindingAlgorithms PriorityQueue.
Variables m1 m2 : Maze.
Hypothesis Hwf1 : wf m1.
Hypothesis Hwf2 : wf m2.
Hypothesis Hstart : start m2 = start m1.
Hypothesis Hend : end_ m2 = end_ m1.
Hypothesis Hwalk : ∀ c, c ≠ start m1 → walkable m2 c = walkable m1 c.

Lemma neighbours_but_start c :
  filter (λ x, x ≠ start m1) (neighbours m2 c)
  = filter (λ x, x ≠ start m1) (neighbours m1 c).
Proof. unfold neighbours. by apply filter_agree. Qed.

Section frontier.
Context {F : Type}.
Variable pop : F → option (coord * F).
Variable push : F → coord → F.
Variable opt : bool.

Lemma search_loop_start rfuel fuel f v par n :
  key (start m1) ∈ v →
  outcome (search_loop pop push m2 opt rfuel fuel f v par n)
  = outcome (search_loop pop push m1 opt rfuel fuel f v par n).
Proof.
  revert f v par n. induction fuel as [|fuel IH]; intros f v par n Hs; [done|].
  cbn [search_loop]. destruct (pop f) as [[cur f1]|]; [|done].
  rewrite Hend, Hstart. destruct (same_cell cur (end_ m1)).
  { unfold mbind, res_mbind, res_bind. by destruct (reconstructPath _ _ _ _). }
  rewrite (getNeighbors_coord m1 Hwf1), (getNeighbors_coord m2 Hwf2).
  unfold mbind, res_mbind, res_bind.
  rewrite (discover_fold_skip (start m1) push cur (neighbours m2 cur)) by done.
  rewrite (discover_fold_skip (start m1) push cur (neighbours m1 cur)) by done.
  rewrite neighbours_but_start.
  destruct (foldl _ _ _) as [[f' v'] par'] eqn:Hfold. apply IH.
  by eapply discover_fold_keeps.
Qed.

End frontier.

Lemma relax_loop_start prio lbl rfuel fuel g par v pq n :
  scores_ok (start m1) g pq →
  outcome (relax_loop m2 prio lbl rfuel fuel g par v pq n)
  = outcome (relax_loop m1 prio lbl rfuel fuel g par v pq n).
Proof.
  revert g par v pq n. induction fuel as [|fuel IH]; intros g par v pq n Hok; [done|].
  cbn [relax_loop]. destruct (isEmpty pq); [done|].
  unfold dequeue. destruct pq as [[|e rest]]; cbn [values array_shift]; [done|].
  assert (scores_ok (start m1) g (Build rest) ∧ is_Some (g !! key (item e))) as [Hok' Hcur].
  { destruct Hok as (Hs & Hint & Hpq). split; [|apply Hpq; by left].
    split; [done|]. split; [done|]. intros e' He'. apply Hpq. by right. }
  case_decide; [by apply IH|].
  rewrite Hend, Hstart. destruct (same_cell (item e) (end_ m1)).
  { unfold mbind, res_mbind, res_bind. by destruct (reconstructPath _ _ _ _). }
  rewrite (getNeighbors_coord m1 Hwf1), (getNeighbors_coord m2 Hwf2).
  unfold mbind, res_mbind, res_bind.
  destruct (foldl (relax prio (item e)) (g, par, Build rest)
              (filter (λ x, x ≠ start m1) (neighbours m1 (item e))))
    as [[g' par'] pq'] eqn:Hfold.
  destruct (relax_fold_skip (start m1) prio (item e) (neighbours m1 (item e))
              _ _ _ _ _ _ Hok' Hcur Hfold) as [-> Hok1].
  rewrite <-neighbours_but_start in Hfold.
  destruct (relax_fold_skip (start m1) prio (item e) (neighbours m2 (item e))
              _ _ _ _ _ _ Hok' Hcur Hfold) as [-> _].
  by apply IH.
Qed.

Lemma run_start a fuel :
  a ≠ Bidirectional → outcome (run a fuel m2) = outcome (run a fuel m1).
Proof.
  intros Ha. destruct a; unfold run; [..|done].
  - unfold dfs. rewrite !dfs_loop_generic, Hstart.
    apply search_loop_start. set_solver.
  - unfold bfs. rewrite !bfs_loop_generic, Hstart.
    apply search_loop_start. set_solver.
  - unfold dijkstra. rewrite !dijkstra_loop_generic, Hstart.
    apply relax_loop_start. rewrite enqueue_new. split; [|split].
    + by rewrite lookup_singleton_eq.
    + intros k x [_ <-]%lookup_singleton_Some. exists 0. split; [done|lia].
    + intros e He. apply list_elem_of_singleton in He as ->. cbn [item].
      rewrite lookup_singleton_eq. eauto.
  - unfold astar. rewrite !astar_loop_generic, Hstart, Hend.
    apply relax_loop_start. rewrite enqueue_new. split; [|split].
    + by rewrite lookup_singleton_eq.
    + intros k x [_ <-]%lookup_singleton_Some. exists 0. split; [done|lia].
    + intros e He. apply list_elem_of_singleton in He as ->. cbn [item].
      rewrite lookup_singleton_eq. eauto.
  - unfold greedy. rewrite !greedy_loop_generic, Hstart. unfold greedy_push.
    rewrite Hend. apply search_loop_start. set_solver.
Qed.

End start_cell.

(** X25: the searches with one frontier never read the cell the start is
    on: in a maze whose rows exist, writing any value to the start cell,
    that of a wall included, changes nothing in the result that dfs, bfs,
    dijkstra, astar or greedy return, whatever the maze and however many
    turns their loops are allowed. *)
Theorem start_cell_is_never_read
    (a : algorithm) (fuel : nat) (m : Maze) (v : Z) (g : list (gmap Z Z)) :
  a ≠ Bidirectional → wf m →
  Grid.set (grid m) (row (start m)) (col (start m)) v = Ok g →
  outcome (run a fuel (with_grid m g)) = outcome (run a fuel m).
Proof.
  intros Ha Hwf Hg. apply (run_start m (with_grid m g) Hwf); [|done|done| |done].
  - unfold wf. cbn [with_grid grid rows]. by rewrite (grid_set_length _ _ _ _ _ Hg).
  - intros c Hc. rewrite !walkable_cell. f_equal. unfold cell. cbn [with_grid grid].
    rewrite (cell_at_set _ _ _ _ _ _ _ Hg), decide_False; [done|].
    intros [??]. apply Hc. destruct c, (start m). simpl in *. by subst.
Qed.

(** A* on the 5 x 5 maze, with a wall written on its start (1,1). *)
Lemma start_cell_is_never_read_witness :
  ∃ g, Grid.set (grid demo_maze) 1 1 wall = Ok g ∧
       outcome (run (AStar "manhattan") 133 (with_grid demo_maze g))
       = outcome (run (AStar "manhattan") 133 demo_maze).
Proof.
  eexists. split; [reflexivity|].
  apply (start_cell_is_never_read (AStar "manhattan") 133 demo_maze wall).
  - discriminate.
  - reflexivity.
  - reflexivity.
Defined.

(** ** A goal that cannot be entered *)

(** The 5 x 5 maze with a wall written on its end (3,3). *)
Definition blocked_goal_maze : Maze :=
  match Grid.set (grid demo_maze) 3 3 wall with
  | Ok g => with_grid demo_maze g
  | _ => demo_maze
  end.

Lemma sound_result_blocked m r :
  walkable m (end_ m) = false → sound_result m r → path r = None.
Proof.
  unfold sound_result. destruct (path r) as [p|]; [|done].
  intros Hend [(_ & Hl & _) Hw]. apply last_Some_elem_of, Hw in Hl. congruence.
Qed.

(** X26: when the goal cannot be entered, because it is a wall or lies
    outside the grid, while the start can, the searches with one frontier
    report that there is no path: with fuel for the whole maze dfs, bfs,
    dijkstra, astar and greedy all return, leave the maze as it was and
    give [path: null]. *)
Theorem blocked_goal_gives_no_path (a : algorithm) (fuel : nat) (m : Maze) :
  a ≠ Bidirectional → wf m →
  walkable m (start m) = true → walkable m (end_ m) = false →
  (enough m ≤ fuel)%nat →
  ∃ r, run a fuel m = Ok (r, m) ∧ path r = None.
Proof.
  intros Ha Hwf Hstart Hend Hfuel. destruct a as [| | |hs| |]; [..|done]; unfold run.
  - destruct (dfs_total m Hwf Hstart fuel Hfuel) as [r Hr]. exists r. split; [done|].
    eapply sound_result_blocked; [done|]. by eapply dfs_sound.
  - destruct (bfs_total m Hwf Hstart fuel Hfuel) as [r Hr]. exists r. split; [done|].
    eapply sound_result_blocked; [done|]. by eapply bfs_sound.
  - destruct (dijkstra_total m Hwf Hstart fuel Hfuel) as [r Hr]. exists r. split; [done|].
    eapply sound_result_blocked; [done|]. by eapply dijkstra_sound.
  - destruct (astar_total m Hwf Hstart fuel hs Hfuel) as [r Hr]. exists r.
    split; [done|]. eapply sound_result_blocked; [done|]. by eapply astar_sound.
  - destruct (greedy_total m Hwf Hstart fuel Hfuel) as [r Hr]. exists r. split; [done|].
    eapply sound_result_blocked; [done|]. by eapply greedy_sound.
Qed.

(** Greedy on the 5 x 5 maze with a wall on its end. *)
Lemma blocked_goal_gives_no_path_witness :
  ∃ r, run Greedy 133 blocked_goal_maze = Ok (r, blocked_goal_maze) ∧ path r = None.
Proof.
  apply (blocked_goal_gives_no_path Greedy 133 blocked_goal_maze).
  - discriminate.
  - reflexivity.
  - reflexivity.
  - reflexivity.
  - vm_compute; lia.
Defined.

(** The search from both ends is left out for a reason: on the same maze
    it returns a path, whose last cell is the wall the end is on. *)
Remark bidirectional_enters_blocked_goal :
  walkable blocked_goal_maze (end_ blocked_goal_maze) = false ∧
  ∃ r p, run Bidirectional 133 blocked_goal_maze = Ok (r, blocked_goal_maze) ∧
         path r = Some p ∧ list.last p = Some (end_ blocked_goal_maze).
Proof. split; [reflexivity|]. eexists _, _. repeat split; reflexivity. Qed.
